(** * Verification of the VMC core (mishmash/vmc)

    A shallow embedding of the parts of the variational Monte Carlo engine
    that its specification makes claims about:

    - [Binned]    : [BinnedEstimate::add_value] (vmc-core/BinnedEstimate.hpp)
    - [Driver]    : the JSON validators of main.cpp and [BoundaryCondition]
    - [Lattice]   : [NDLattice] (NDLattice.hpp)
    - [Density]   : [DensityDensityMeasurement]
    - [Ceperley]  : the determinant engine [CeperleyMatrix]
    - [Swapped]   : [SwappedSystem] (vmc-core/SwappedSystem.cpp)
    - [Combination] : [random_combination] (vmc-core/random-combination.cpp)
    - [Metropolis]  : [MetropolisSimulation] (vmc-core/MetropolisSimulation.cpp)

    C++ [unsigned int] is a [Z] reduced modulo [2^32]; [int] is a [Z] whose
    range is stated where it matters; [std::vector] and Eigen arrays are
    lists indexed with stdpp's lookup and insert. *)

From Stdlib Require Import ZArith QArith Qabs Qcanon Field Lia Bool String.
From stdpp Require Import base list strings.
From Equations Require Import Equations.

Local Open Scope Z_scope.

Set Warnings "-register-all".

(** ** Machine integers *)

Definition uint_wrap (x : Z) : Z := x mod 2 ^ 32.

Definition int_min : Z := - 2 ^ 31.
Definition int_max : Z := 2 ^ 31 - 1.
Definition in_int (x : Z) : Prop := int_min <= x <= int_max.

Lemma uint_wrap_small x : 0 <= x < 2 ^ 32 -> uint_wrap x = x.
Proof. intros H. unfold uint_wrap. apply Z.mod_small. exact H. Qed.

Lemma uint_wrap_range x : 0 <= uint_wrap x < 2 ^ 32.
Proof. unfold uint_wrap. apply Z.mod_pos_bound. reflexivity. Qed.

(** A positive integer is a power of two when it is [2^m] for some [m >= 0]. *)
Definition is_power_of_two (n : Z) : Prop := exists m : Z, 0 <= m /\ n = 2 ^ m.

Lemma land_succ_zero_pow2 x :
  0 <= x -> Z.land x (x + 1) = 0 -> is_power_of_two (x + 1).
Proof.
  intros Hx Hl.
  set (m := Z.log2 (x + 1)).
  assert (Hm : 0 <= m) by apply Z.log2_nonneg.
  destruct (Z.log2_spec (x + 1)) as [Hlo Hhi]; [lia|]. fold m in Hlo, Hhi.
  exists m. split; [exact Hm|].
  destruct (Z.eq_dec (x + 1) (2 ^ m)) as [->|Hne]; [reflexivity|exfalso].
  assert (Hxm : Z.log2 x = m).
  { apply Z.log2_unique; [exact Hm|]. rewrite Z.pow_succ_r in * by exact Hm. lia. }
  assert (Hb1 : Z.testbit x m = true).
  { rewrite <- Hxm. apply Z.bit_log2.
    assert (0 < 2 ^ m) by (apply Z.pow_pos_nonneg; lia). lia. }
  assert (Hb2 : Z.testbit (x + 1) m = true).
  { unfold m. apply Z.bit_log2. lia. }
  assert (Hb : Z.testbit (Z.land x (x + 1)) m = true).
  { rewrite Z.land_spec, Hb1, Hb2. reflexivity. }
  rewrite Hl, Z.bits_0 in Hb. discriminate.
Qed.

Lemma land_pred_pow2 m : 0 <= m -> Z.land (2 ^ m - 1) (2 ^ m) = 0.
Proof.
  intros Hm. apply Z.bits_inj'. intros n Hn.
  rewrite Z.land_spec, Z.bits_0.
  replace (2 ^ m - 1) with (Z.ones m) by (rewrite Z.ones_equiv; lia).
  destruct (Z.eq_dec n m) as [->|Hne].
  - rewrite Z.ones_spec_high by lia. reflexivity.
  - rewrite Z.pow2_bits_false by lia. apply andb_false_r.
Qed.

(** ** vmc-core/RunningEstimate.hpp and vmc-core/BinnedEstimate.hpp *)

Module Binned.
Section Estimate.

(** The sample type [T] of the templates, with the operations used. *)
Variable T : Type.
Variable tzero : T.
Variables tadd tmul : T -> T -> T.

(** A boost accumulator set with the [sum] and [count] statistics
    ([mean] is derived from them). [count] is a [std::size_t]. *)
Record accumulator_t := { acc_count : Z; acc_sum : T }.

Definition acc_empty : accumulator_t := {| acc_count := 0; acc_sum := tzero |}.

Definition acc_push (a : accumulator_t) (v : T) : accumulator_t :=
  {| acc_count := acc_count a + 1; acc_sum := tadd (acc_sum a) v |}.

Record BinnedSum :=
  { current_sum : T; cumulative_sum : T; cumulative_sum_squared : T }.

(** [BinnedSum::BinnedSum (T current_sum_)] *)
Definition mkBinnedSum (c : T) : BinnedSum :=
  {| current_sum := c; cumulative_sum := tzero; cumulative_sum_squared := tzero |}.

Record BinnedEstimate :=
  { m_recent_acc : accumulator_t;
    m_cumulative_acc : accumulator_t;
    binlevel_data : list BinnedSum }.

Definition empty_estimate : BinnedEstimate :=
  {| m_recent_acc := acc_empty; m_cumulative_acc := acc_empty; binlevel_data := [] |}.

(** [RunningEstimate::get_num_cumulative_values], an [unsigned int];
    [BinnedEstimate] reads it under the name [get_num_values]. *)
Definition get_num_values (e : BinnedEstimate) : Z :=
  uint_wrap (acc_count (m_cumulative_acc e)).

(** [RunningEstimate::get_cumulative_total_value], read by
    [BinnedEstimate] under the name [get_total_value]. *)
Definition get_total_value (e : BinnedEstimate) : T :=
  acc_sum (m_cumulative_acc e).

(** [return !(x & (x + 1));] on [unsigned int]. *)
Definition is_just_below_a_power_of_two (x : Z) : bool :=
  Z.land x (uint_wrap (x + 1)) =? 0.

(** [RunningEstimate<T>::add_value] *)
Definition running_add_value (e : BinnedEstimate) (v : T) : BinnedEstimate :=
  {| m_recent_acc := acc_push (m_recent_acc e) v;
     m_cumulative_acc := acc_push (m_cumulative_acc e) v;
     binlevel_data := binlevel_data e |}.

Definition bin_accumulate (v : T) (b : BinnedSum) : BinnedSum :=
  {| current_sum := tadd (current_sum b) v;
     cumulative_sum := cumulative_sum b;
     cumulative_sum_squared := cumulative_sum_squared b |}.

Definition bin_fold (b : BinnedSum) : BinnedSum :=
  {| current_sum := tzero;
     cumulative_sum := tadd (cumulative_sum b) (current_sum b);
     cumulative_sum_squared :=
       tadd (cumulative_sum_squared b) (tmul (current_sum b) (current_sum b)) |}.

(** The last loop of [add_value]: bin [i] is folded, and the loop breaks
    when [num_values & (1 << i)].  It has no other exit: past the last
    bin-level the source asserts [i < binlevel_data.size()], and built
    without assertions it indexes outside the vector; [None] is that end. *)
Fixpoint fold_bins (n : Z) (i : Z) (bins : list BinnedSum) : option (list BinnedSum) :=
  match bins with
  | [] => None
  | b :: rest =>
      if negb (Z.land n (Z.shiftl 1 i) =? 0) then Some (bin_fold b :: rest)
      else cons (bin_fold b) <$> fold_bins n (i + 1) rest
  end.

(** [BinnedEstimate<T>::add_value] as it runs with its two assertions on
    the number of bin-levels compiled out; [None] when the binning loop
    runs off the bin-levels. *)
Definition add_value (e : BinnedEstimate) (value : T) : option BinnedEstimate :=
  let bins0 :=
    if is_just_below_a_power_of_two (get_num_values e)
    then binlevel_data e ++ [mkBinnedSum (get_total_value e)]
    else binlevel_data e in
  let e1 := running_add_value e value in
  let bins1 := map (bin_accumulate value) bins0 in
  bins2 ← fold_bins (get_num_values e1) 0 bins1;
  Some {| m_recent_acc := m_recent_acc e1;
          m_cumulative_acc := m_cumulative_acc e1;
          binlevel_data := bins2 |}.

(** The [int] [1 << n], converted to [unsigned int] where it is compared
    with one. *)
Definition shift_one (n : Z) : Z := uint_wrap (Z.shiftl 1 n).

(** [BinnedEstimate<T>::add_value] with its three assertions; [None] is a
    failed assertion. *)
Definition add_value_asserting (e : BinnedEstimate) (value : T) : option BinnedEstimate :=
  let bins0 :=
    if is_just_below_a_power_of_two (get_num_values e)
    then binlevel_data e ++ [mkBinnedSum (get_total_value e)]
    else binlevel_data e in
  let e1 := running_add_value e value in
  let size := Z.of_nat (length bins0) in
  if negb (get_num_values e1 <? shift_one size) then None
  else if (size =? 0) || negb (shift_one (size - 1) <=? get_num_values e1) then None
  else
    let bins1 := map (bin_accumulate value) bins0 in
    bins2 ← fold_bins (get_num_values e1) 0 bins1;
    Some {| m_recent_acc := m_recent_acc e1;
            m_cumulative_acc := m_cumulative_acc e1;
            binlevel_data := bins2 |}.

(** The estimate after the values of [l] were added, in order; [None] when
    one of the calls did not return. *)
Definition add_values (l : list T) : option BinnedEstimate :=
  fold_left (fun state value => e ← state; add_value e value) l (Some empty_estimate).

(** Adding [value] to [e] leaves [e'], with one more bin-level. *)
Definition appends_level (e e' : BinnedEstimate) : Prop :=
  length (binlevel_data e') = S (length (binlevel_data e)).

(** *** What the bins hold *)

(** The sum of a list as the accumulators build it, the sum of block [j]
    of [p] values, and the sums over the first [q] blocks of the block sums
    and of their squares. *)
Definition tsum (l : list T) : T := fold_left tadd l tzero.

Definition block (p j : nat) (l : list T) : T := tsum (take p (drop (j * p) l)).

Definition blocks_sum (p q : nat) (l : list T) : T :=
  fold_left (fun a j => tadd a (block p j l)) (seq 0 q) tzero.

Definition blocks_sum_squared (p q : nat) (l : list T) : T :=
  fold_left (fun a j => tadd a (tmul (block p j l) (block p j l))) (seq 0 q) tzero.

(** Bin-level [i] after the values of [l]: the bins have [2^i] values; the
    current sum is over the values after the last full bin, the cumulative
    sums are over the full bins. *)
Definition bin_holds (i : nat) (l : list T) (b : BinnedSum) : Prop :=
  let p := (2 ^ i)%nat in
  let k := length l in
  current_sum b = tsum (drop (k - k mod p) l) /\
  cumulative_sum b = blocks_sum p (k / p) l /\
  cumulative_sum_squared b = blocks_sum_squared p (k / p) l.

(** The bits [i0 .. i0 + i - 1] of [n] are clear, by the test of the loop. *)
Fixpoint bits_clear (n i0 : Z) (i : nat) : bool :=
  match i with
  | O => true
  | S i' => (Z.land n (Z.shiftl 1 i0) =? 0) && bits_clear n (i0 + 1) i'
  end.

(** [n] bin-levels for [k] values: [n] is the number of binary digits of
    [k]. *)
Definition levels_ok (k n : Z) : Prop := k < 2 ^ n <= 2 * k + 1.

(** What holds of the estimate after the values of [l]. *)
Definition binned_inv (l : list T) (e : BinnedEstimate) : Prop :=
  acc_count (m_cumulative_acc e) = Z.of_nat (length l) /\
  acc_sum (m_cumulative_acc e) = tsum l /\
  levels_ok (Z.of_nat (length l)) (Z.of_nat (length (binlevel_data e))) /\
  forall i b, binlevel_data e !! i = Some b -> bin_holds i l b.

Lemma is_just_below_iff x :
  0 <= x < 2 ^ 32 ->
  is_just_below_a_power_of_two x = true <-> is_power_of_two (x + 1).
Proof.
  intros Hx. unfold is_just_below_a_power_of_two. rewrite Z.eqb_eq.
  destruct (Z.eq_dec x (2 ^ 32 - 1)) as [->|Hne].
  - split; intros _; [exists 32; split; [lia|reflexivity]|reflexivity].
  - rewrite uint_wrap_small by lia. split.
    + apply land_succ_zero_pow2. lia.
    + intros (m & Hm & Heq). rewrite Heq.
      replace x with (2 ^ m - 1) by lia. apply land_pred_pow2. exact Hm.
Qed.

Lemma add_values_snoc l v :
  add_values (l ++ [v]) = add_values l ≫= fun e => add_value e v.
Proof. unfold add_values. rewrite fold_left_app. reflexivity. Qed.

Lemma land_shift_one n i :
  0 <= i -> Z.land n (Z.shiftl 1 i) = 0 <-> Z.testbit n i = false.
Proof.
  intros Hi. rewrite Z.shiftl_1_l. split.
  - intros H. assert (Hb : Z.testbit (Z.land n (2 ^ i)) i = false)
      by (rewrite H; apply Z.bits_0).
    rewrite Z.land_spec, Z.pow2_bits_true in Hb by exact Hi.
    now rewrite andb_true_r in Hb.
  - intros H. apply Z.bits_inj'. intros j Hj. rewrite Z.land_spec, Z.bits_0.
    destruct (Z.eq_dec j i) as [->|Hne].
    + rewrite H. reflexivity.
    + rewrite Z.pow2_bits_false by lia. apply andb_false_r.
Qed.

Lemma bits_clear_spec n i : forall i0, 0 <= i0 ->
  bits_clear n i0 i = true <->
  forall j, i0 <= j < i0 + Z.of_nat i -> Z.testbit n j = false.
Proof.
  induction i as [|i IH]; intros i0 Hi0; cbn [bits_clear].
  - split; [intros _ j Hj; lia|reflexivity].
  - rewrite andb_true_iff, Z.eqb_eq, land_shift_one, IH by lia. split.
    + intros [H0 H] j Hj. destruct (Z.eq_dec j i0) as [->|Hne]; [exact H0|].
      apply H. lia.
    + intros H. split; [apply H; lia|]. intros j Hj. apply H. lia.
Qed.

Lemma bits_clear_mod n i :
  0 <= n -> bits_clear n 0 i = true <-> n mod 2 ^ Z.of_nat i = 0.
Proof.
  intros Hn. rewrite bits_clear_spec by lia. split.
  - intros H. apply Z.bits_inj'. intros j Hj. rewrite Z.bits_0.
    destruct (Z_lt_dec j (Z.of_nat i)) as [Hlt|Hge].
    + rewrite Z.mod_pow2_bits_low by lia. apply H. lia.
    + apply Z.mod_pow2_bits_high. lia.
  - intros H j Hj. rewrite <- (Z.mod_pow2_bits_low n (Z.of_nat i) j) by lia.
    rewrite H. apply Z.bits_0.
Qed.

(** The loop breaks inside the bin-levels when one of the bits of [n] that
    it tests is set; it has then folded bin [i] exactly when the bits below
    [i] are clear. *)
Lemma fold_bins_Some n bins : forall i0, 0 <= i0 ->
  (exists j, i0 <= j < i0 + Z.of_nat (length bins) /\ Z.testbit n j = true) ->
  exists bins', fold_bins n i0 bins = Some bins' /\
    length bins' = length bins /\
    forall i, bins' !! i = (if bits_clear n i0 i then bin_fold else id) <$> (bins !! i).
Proof.
  induction bins as [|b rest IH]; intros i0 Hi0 (j & Hj & Hbit).
  - simpl in Hj. lia.
  - cbn [fold_bins].
    destruct (Z.eqb_spec (Z.land n (Z.shiftl 1 i0)) 0) as [Hz|Hnz]; cbn [negb].
    + pose proof (proj1 (land_shift_one n i0 Hi0) Hz) as Hclear.
      destruct (IH (i0 + 1)) as (bins' & Hfold & Hlen & Hlook); [lia| |].
      { exists j. split; [|exact Hbit].
        destruct (Z.eq_dec j i0) as [->|Hne]; [congruence|].
        cbn [length] in Hj. lia. }
      rewrite Hfold. exists (bin_fold b :: bins').
      split; [reflexivity|]. split; [cbn [length]; now rewrite Hlen|].
      intros [|i]; [reflexivity|].
      cbn [bits_clear lookup list_lookup]. rewrite (proj2 (Z.eqb_eq _ _) Hz).
      cbn [andb]. apply Hlook.
    + exists (bin_fold b :: rest). split; [reflexivity|]. split; [reflexivity|].
      intros [|i]; [reflexivity|].
      cbn [bits_clear lookup list_lookup]. rewrite (proj2 (Z.eqb_neq _ _) Hnz).
      cbn [andb]. now destruct (rest !! i).
Qed.

Lemma tsum_snoc l v : tsum (l ++ [v]) = tadd (tsum l) v.
Proof. unfold tsum. now rewrite fold_left_app. Qed.

Lemma block_snoc p j l v :
  (j * p + p <= length l)%nat -> block p j (l ++ [v]) = block p j l.
Proof.
  intros H. unfold block. rewrite drop_app_le by lia.
  rewrite take_app_le by (rewrite length_drop; lia). reflexivity.
Qed.

Lemma fold_left_ext_seq {A} (f g : A -> nat -> A) q : forall a,
  (forall a j, (j < q)%nat -> f a j = g a j) ->
  fold_left f (seq 0 q) a = fold_left g (seq 0 q) a.
Proof.
  induction q as [|q IH]; intros a Hfg; [reflexivity|].
  rewrite seq_S, !fold_left_app. simpl. rewrite IH by (intros; apply Hfg; lia).
  apply Hfg. lia.
Qed.

Lemma blocks_snoc p q l v :
  (q * p <= length l)%nat ->
  blocks_sum p q (l ++ [v]) = blocks_sum p q l /\
  blocks_sum_squared p q (l ++ [v]) = blocks_sum_squared p q l.
Proof.
  intros H. unfold blocks_sum, blocks_sum_squared.
  split; apply fold_left_ext_seq; intros a j Hj; rewrite block_snoc; try reflexivity; nia.
Qed.

Lemma blocks_succ p q l :
  blocks_sum p (S q) l = tadd (blocks_sum p q l) (block p q l) /\
  blocks_sum_squared p (S q) l =
    tadd (blocks_sum_squared p q l) (tmul (block p q l) (block p q l)).
Proof.
  unfold blocks_sum, blocks_sum_squared. rewrite seq_S, !fold_left_app. now split.
Qed.

Lemma succ_divmod k p :
  p <> 0%nat ->
  (S k mod p = 0 /\ k mod p = p - 1 /\ S k / p = S (k / p))%nat \/
  (S k mod p = S (k mod p) /\ S k / p = k / p)%nat.
Proof.
  intros Hp. pose proof (Nat.div_mod_eq k p) as Hk.
  pose proof (Nat.mod_upper_bound k p Hp) as Hr.
  destruct (decide (k mod p = p - 1)%nat) as [Hlast|Hmid].
  - left. split; [|split; [exact Hlast|]].
    + symmetry. apply (Nat.mod_unique (S k) p (S (k / p))); lia.
    + symmetry. apply (Nat.div_unique (S k) p (S (k / p)) 0); lia.
  - right. split.
    + symmetry. apply (Nat.mod_unique (S k) p (k / p)); lia.
    + symmetry. apply (Nat.div_unique (S k) p (k / p) (S (k mod p))); lia.
Qed.

(** A bin-level that starts from the total of fewer than [2^i] values holds
    them as its current bin. *)
Lemma bin_holds_new i l :
  (length l < 2 ^ i)%nat -> bin_holds i l (mkBinnedSum (tsum l)).
Proof.
  intros H. unfold bin_holds. cbn [mkBinnedSum current_sum cumulative_sum
    cumulative_sum_squared].
  rewrite Nat.mod_small, Nat.div_small, Nat.sub_diag by exact H. now split.
Qed.

(** One more value on bin-level [i]: accumulated, and folded when the new
    number of values is a multiple of [2^i]. *)
Lemma bin_holds_step i l v b :
  bin_holds i l b ->
  bin_holds i (l ++ [v])
    ((if decide (S (length l) mod 2 ^ i = 0)%nat then bin_fold else id)
       (bin_accumulate v b)).
Proof.
  unfold bin_holds. rewrite length_app, Nat.add_1_r.
  set (p := (2 ^ i)%nat). set (k := length l). intros (Hcur & Hcum & Hsq).
  assert (Hp : p <> 0%nat) by (apply Nat.pow_nonzero; lia).
  pose proof (Nat.div_mod_eq k p) as Hk.
  pose proof (Nat.mod_upper_bound k p Hp) as Hr.
  assert (Hs : (k / p * p = k - k mod p)%nat) by lia.
  destruct (blocks_snoc p (k / p) l v) as [Hb1 Hb2]; [fold k; lia|].
  assert (Hc1 : tadd (current_sum b) v = tsum (drop (k - k mod p) (l ++ [v]))).
  { rewrite drop_app_le by (fold k; lia). rewrite tsum_snoc. now rewrite Hcur. }
  destruct (succ_divmod k p Hp) as [(Hm & Hlast & Hd)|(Hm & Hd)]; rewrite Hm, Hd.
  - rewrite decide_True by reflexivity.
    cbn [bin_fold bin_accumulate current_sum cumulative_sum cumulative_sum_squared].
    destruct (blocks_succ p (k / p) (l ++ [v])) as [-> ->].
    rewrite Hb1, Hb2, Hcum, Hsq, Hc1.
    assert (Hblock : block p (k / p) (l ++ [v]) = tsum (drop (k - k mod p) (l ++ [v]))).
    { unfold block. rewrite Hs. rewrite take_ge; [reflexivity|].
      rewrite length_drop, length_app. fold k. simpl. lia. }
    rewrite Hblock. split; [|now split].
    rewrite drop_ge by (rewrite length_app; fold k; simpl; lia). reflexivity.
  - rewrite decide_False by lia.
    cbn [id bin_accumulate current_sum cumulative_sum cumulative_sum_squared].
    rewrite Hb1, Hb2, Hcum, Hsq, Hc1. split; [|now split].
    reflexivity.
Qed.

Lemma just_below_levels k n :
  0 <= k < 2 ^ 32 -> 0 <= n -> levels_ok k n ->
  is_just_below_a_power_of_two k = true <-> k + 1 = 2 ^ n.
Proof.
  intros Hk Hn [Hlt Hle]. rewrite is_just_below_iff by exact Hk. split.
  - intros (m & Hm & Heq). rewrite Heq. f_equal.
    assert (m <= n) by (apply (Z.pow_le_mono_r_iff 2); lia).
    assert (n < m + 1).
    { apply (Z.pow_lt_mono_r_iff 2); [lia|lia|].
      replace (m + 1) with (Z.succ m) by lia. rewrite Z.pow_succ_r by exact Hm. lia. }
    lia.
  - intros Heq. exists n. split; assumption.
Qed.

Lemma levels_ok_log2 k n :
  1 <= k -> 0 <= n -> levels_ok k n -> 1 <= n /\ 2 ^ (n - 1) <= k /\ n = Z.log2 k + 1.
Proof.
  intros Hk Hn [Hlt Hle].
  assert (H1 : 1 <= n).
  { destruct (Z.eq_dec n 0) as [->|]; [simpl in Hlt|]; lia. }
  assert (Hp : 2 ^ n = 2 * 2 ^ (n - 1)).
  { replace n with (Z.succ (n - 1)) at 1 by lia. apply Z.pow_succ_r. lia. }
  split; [exact H1|]. split; [lia|].
  assert (Z.log2 k = n - 1); [|lia].
  apply Z.log2_unique; [lia|]. rewrite Z.pow_succ_r by lia. lia.
Qed.

Lemma binned_inv_empty : binned_inv [] empty_estimate.
Proof.
  split; [reflexivity|]. split; [reflexivity|]. split; [split; simpl; lia|].
  intros i b. simpl. discriminate.
Qed.

(** One call of [add_value] on an estimate that holds fewer than
    [2^32 - 1] values: it returns, a bin-level was appended exactly when
    the test on the number of values before the call succeeded, and the
    bins hold the values with the new one. *)
Lemma binned_inv_step l e v :
  Z.of_nat (length l) + 1 < 2 ^ 32 ->
  binned_inv l e ->
  exists e', add_value e v = Some e' /\ binned_inv (l ++ [v]) e' /\
    get_num_values (running_add_value e v) = Z.of_nat (length l) + 1 /\
    length (binlevel_data e') =
      (if is_just_below_a_power_of_two (get_num_values e)
       then S (length (binlevel_data e)) else length (binlevel_data e)) /\
    (is_just_below_a_power_of_two (get_num_values e) = true <->
     is_power_of_two (Z.of_nat (length l) + 1)).
Proof.
  intros Hk (Hcount & Hsum & Hlev & Hbins).
  set (k := length l) in *. set (n := length (binlevel_data e)) in *.
  assert (Hnum : get_num_values e = Z.of_nat k).
  { unfold get_num_values. rewrite Hcount. apply uint_wrap_small. lia. }
  assert (Hnum' : get_num_values (running_add_value e v) = Z.of_nat (S k)).
  { unfold get_num_values. cbn [running_add_value m_cumulative_acc acc_push acc_count].
    rewrite Hcount. rewrite uint_wrap_small by lia. lia. }
  pose proof (just_below_levels (Z.of_nat k) (Z.of_nat n) ltac:(lia) ltac:(lia) Hlev)
    as Hjust.
  rewrite <- Hnum in Hjust at 1.
  set (bins0 := if is_just_below_a_power_of_two (get_num_values e)
                then binlevel_data e ++ [mkBinnedSum (get_total_value e)]
                else binlevel_data e).
  assert (Hsize : length bins0 =
                  if is_just_below_a_power_of_two (get_num_values e) then S n else n).
  { unfold bins0. destruct (is_just_below_a_power_of_two (get_num_values e));
      [|reflexivity]. rewrite length_app. cbn [length]. fold n. lia. }
  assert (Hlev' : levels_ok (Z.of_nat (S k)) (Z.of_nat (length bins0))).
  { rewrite Hsize. destruct Hlev as [Hlt Hle].
    destruct (is_just_below_a_power_of_two (get_num_values e)).
    - pose proof (proj1 Hjust eq_refl) as Heq.
      unfold levels_ok. rewrite (Nat2Z.inj_succ n), Z.pow_succ_r by lia. lia.
    - assert (Z.of_nat k + 1 <> 2 ^ Z.of_nat n).
      { intros Heq. apply Hjust in Heq. discriminate. }
      unfold levels_ok. lia. }
  destruct (levels_ok_log2 (Z.of_nat (S k)) (Z.of_nat (length bins0))
              ltac:(lia) ltac:(lia) Hlev') as (_ & _ & Hlog).
  destruct (fold_bins_Some (Z.of_nat (S k)) (map (bin_accumulate v) bins0) 0 ltac:(lia))
    as (bins2 & Hfold & Hlen2 & Hlook).
  { exists (Z.log2 (Z.of_nat (S k))). rewrite length_map. split.
    - split; [apply Z.log2_nonneg|lia].
    - apply Z.bit_log2. lia. }
  rewrite length_map in Hlen2.
  exists {| m_recent_acc := m_recent_acc (running_add_value e v);
            m_cumulative_acc := m_cumulative_acc (running_add_value e v);
            binlevel_data := bins2 |}.
  split; [|split; [|split; [|split]]].
  - unfold add_value. fold bins0. rewrite Hnum', Hfold. reflexivity.
  - unfold binned_inv. rewrite length_app, Nat.add_1_r. fold k.
    cbn [binlevel_data m_cumulative_acc running_add_value acc_push acc_count acc_sum].
    split; [lia|]. split; [now rewrite tsum_snoc, Hsum|].
    split; [now rewrite Hlen2|].
    intros i b'. rewrite Hlook.
    change (map (bin_accumulate v) bins0) with (bin_accumulate v <$> bins0).
    rewrite list_lookup_fmap.
    destruct (bins0 !! i) as [b0|] eqn:E0; [|discriminate].
    cbn [fmap option_fmap option_map]. intros [= <-].
    assert (H0 : bin_holds i l b0).
    { unfold bins0 in E0. destruct (is_just_below_a_power_of_two (get_num_values e)).
      - apply lookup_app_Some in E0. destruct E0 as [E0|[Hge E0]]; [now apply Hbins|].
        fold n in Hge, E0. apply list_lookup_singleton_Some in E0. destruct E0 as [Hi <-].
        unfold get_total_value. rewrite Hsum. apply bin_holds_new.
        assert (i = n) as -> by lia. fold k.
        apply Nat2Z.inj_lt. rewrite Nat2Z.inj_pow. apply Hlev.
      - now apply Hbins. }
    pose proof (bin_holds_step i l v b0 H0) as Hstep. fold k in Hstep.
    assert (Hsame : bits_clear (Z.of_nat (S k)) 0 i = true <-> (S k mod 2 ^ i = 0)%nat).
    { rewrite bits_clear_mod by lia.
      replace (2 ^ Z.of_nat i) with (Z.of_nat (2 ^ i))
        by (rewrite Nat2Z.inj_pow; reflexivity).
      rewrite <- Nat2Z.inj_mod. lia. }
    destruct (bits_clear (Z.of_nat (S k)) 0 i);
      destruct (decide (S k mod 2 ^ i = 0)%nat) as [Hd|Hd]; try exact Hstep.
    + exfalso. apply Hd. now apply Hsame.
    + apply Hsame in Hd. discriminate.
  - rewrite Hnum'. lia.
  - cbn [binlevel_data]. rewrite Hlen2. exact Hsize.
  - rewrite Hnum. apply is_just_below_iff. lia.
Qed.

Lemma binned_inv_add_values l :
  Z.of_nat (length l) < 2 ^ 32 ->
  exists e, add_values l = Some e /\ binned_inv l e.
Proof.
  induction l as [|v l IH] using rev_ind; intros Hk.
  - exists empty_estimate. split; [reflexivity|exact binned_inv_empty].
  - rewrite length_app in Hk. cbn [length] in Hk.
    destruct IH as (e & He & Hinv); [lia|].
    destruct (binned_inv_step l e v ltac:(lia) Hinv) as (e' & He' & Hinv' & _).
    exists e'. split; [|exact Hinv'].
    rewrite add_values_snoc, He. exact He'.
Qed.

(** With fewer than [2^30] values the two assertions on the number of
    bin-levels hold, and the rest of [add_value] is the same code. *)
Lemma add_value_asserting_step l e v :
  Z.of_nat (length l) + 1 < 2 ^ 30 ->
  binned_inv l e ->
  add_value_asserting e v = add_value e v.
Proof.
  intros Hk Hinv.
  destruct (binned_inv_step l e v ltac:(lia) Hinv)
    as (e' & He' & (_ & _ & Hlev' & _) & Hnum' & Hsize & _).
  rewrite length_app in Hlev'. cbn [length] in Hlev'.
  replace (Z.of_nat (length l + 1)) with (Z.of_nat (length l) + 1) in Hlev' by lia.
  unfold add_value_asserting.
  set (bins0 := if is_just_below_a_power_of_two (get_num_values e)
                then binlevel_data e ++ [mkBinnedSum (get_total_value e)]
                else binlevel_data e).
  assert (Hbins0 : length (binlevel_data e') = length bins0).
  { rewrite Hsize. unfold bins0.
    destruct (is_just_below_a_power_of_two (get_num_values e)); [|reflexivity].
    rewrite length_app. cbn [length]. lia. }
  rewrite Hbins0 in Hlev'. set (size := Z.of_nat (length bins0)) in *.
  rewrite Hnum'.
  destruct (levels_ok_log2 (Z.of_nat (length l) + 1) size ltac:(lia) ltac:(lia) Hlev')
    as (H1 & Hlow & Hlog).
  destruct Hlev' as [Hlt Hle].
  assert (Hsmall : size < 31).
  { apply (Z.pow_lt_mono_r_iff 2); lia. }
  assert (Hs1 : shift_one size = 2 ^ size).
  { unfold shift_one. rewrite Z.shiftl_1_l. apply uint_wrap_small.
    split; [lia|]. apply Z.pow_lt_mono_r; lia. }
  assert (Hs2 : shift_one (size - 1) = 2 ^ (size - 1)).
  { unfold shift_one. rewrite Z.shiftl_1_l. apply uint_wrap_small.
    split; [apply Z.pow_nonneg; lia|]. apply Z.pow_lt_mono_r; lia. }
  rewrite Hs1, Hs2.
  rewrite (proj2 (Z.ltb_lt _ _) Hlt), (proj2 (Z.leb_le _ _) Hlow).
  destruct (Z.eqb_spec size 0) as [H0|_]; [lia|]. cbn [negb orb].
  unfold add_value. fold bins0. rewrite Hnum'. reflexivity.
Qed.

(** C6, as amended: when the [k]-th value (1-indexed, [k < 2^30]) is
    added, [add_value] returns, built with its assertions or without, and
    a new bin-level is appended exactly when [k] itself is a power of two:
    the test is made on the number [k - 1] of values added before. *)
Theorem add_value_new_level_iff (l : list T) (v : T) :
  Z.of_nat (length l) + 1 < 2 ^ 30 ->
  exists e e',
    add_values l = Some e /\
    add_value_asserting e v = Some e' /\ add_value e v = Some e' /\
    (appends_level e e' <-> is_power_of_two (Z.of_nat (length l) + 1)).
Proof.
  intros Hk.
  destruct (binned_inv_add_values l ltac:(lia)) as (e & He & Hinv).
  destruct (binned_inv_step l e v ltac:(lia) Hinv) as (e' & He' & _ & _ & Hsize & Hjust).
  exists e, e'. split; [exact He|].
  split; [rewrite (add_value_asserting_step l e v Hk Hinv); exact He'|].
  split; [exact He'|].
  unfold appends_level. rewrite Hsize, <- Hjust.
  destruct (is_just_below_a_power_of_two (get_num_values e)); split; intros H;
    try reflexivity; try discriminate.
  lia.
Qed.

(** X10: after [k >= 1] values (fewer than [2^32]) the binning loop of
    every call has ended inside the bin-levels, and the estimate has as
    many bin-levels as [k] has binary digits, [log2 k + 1]. *)
Theorem bin_levels_count (l : list T) :
  l <> [] -> Z.of_nat (length l) < 2 ^ 32 ->
  exists e, add_values l = Some e /\
    Z.of_nat (length (binlevel_data e)) = Z.log2 (Z.of_nat (length l)) + 1.
Proof.
  intros Hne Hk. destruct (binned_inv_add_values l Hk) as (e & He & _ & _ & Hlev & _).
  exists e. split; [exact He|].
  apply levels_ok_log2; [|lia|exact Hlev].
  destruct l; [congruence|]. cbn [length]. lia.
Qed.

(** X11: bin-level [i] bins the values by [2^i].  After the values of [l]
    (fewer than [2^32], every call having returned),
    its [current_sum] is the sum of the values after the last full bin,
    its [cumulative_sum] is the sum of the sums of the full bins, and its
    [cumulative_sum_squared] is the sum of their squares. *)
Theorem bins_hold_blocks (l : list T) :
  Z.of_nat (length l) < 2 ^ 32 ->
  exists e, add_values l = Some e /\
    forall (i : nat) (b : BinnedSum),
      binlevel_data e !! i = Some b ->
      let p := (2 ^ i)%nat in
      let k := length l in
      current_sum b = tsum (drop (k - k mod p) l) /\
      cumulative_sum b = blocks_sum p (k / p) l /\
      cumulative_sum_squared b = blocks_sum_squared p (k / p) l.
Proof.
  intros Hk. destruct (binned_inv_add_values l Hk) as (e & He & _ & _ & _ & Hbins).
  exists e. split; [exact He|]. exact Hbins.
Qed.

(** X12: none of the three assertions of [add_value] fails while fewer than
    [2^30] values are added: the two on the number of bin-levels hold, and
    the binning loop breaks before it runs off the bin-levels. *)
Theorem add_value_assertions_hold (l : list T) (v : T) :
  Z.of_nat (length l) + 1 < 2 ^ 30 ->
  exists e e',
    add_values l = Some e /\
    add_value_asserting e v = Some e' /\ add_value e v = Some e'.
Proof.
  intros Hk.
  destruct (binned_inv_add_values l ltac:(lia)) as (e & He & Hinv).
  destruct (binned_inv_step l e v ltac:(lia) Hinv) as (e' & He' & _).
  exists e, e'. split; [exact He|]. split; [|exact He'].
  rewrite (add_value_asserting_step l e v Hk Hinv). exact He'.
Qed.

End Estimate.

Lemma three_not_power_of_two : ~ is_power_of_two 3.
Proof.
  intros (m & Hm & H).
  destruct (Z.eq_dec m 0) as [->|H0]; [discriminate|].
  destruct (Z.eq_dec m 1) as [->|H1]; [discriminate|].
  assert (2 ^ 2 <= 2 ^ m) by (apply Z.pow_le_mono_r; lia).
  change (2 ^ 2) with 4 in *. lia.
Qed.

Lemma add_value_new_level_iff_witness :
  Z.of_nat (length [10; 20; 30]) + 1 < 2 ^ 30 /\
  exists e e',
    add_values Z 0 Z.add Z.mul [10; 20; 30] = Some e /\
    add_value_asserting Z 0 Z.add Z.mul e 40 = Some e' /\
    add_value Z 0 Z.add Z.mul e 40 = Some e' /\
    (appends_level Z e e' <-> is_power_of_two (Z.of_nat (length [10; 20; 30]) + 1)).
Proof.
  split; [simpl; lia|].
  apply (add_value_new_level_iff Z 0 Z.add Z.mul [10; 20; 30] 40). simpl. lia.
Defined.

(** C6 as stated fails on the second value: a bin-level is appended although
    [2 + 1] is not a power of two. *)
Lemma add_value_second_value_counterexample :
  exists e e',
    add_values Z 0 Z.add Z.mul [10] = Some e /\
    add_value_asserting Z 0 Z.add Z.mul e 20 = Some e' /\
    add_value Z 0 Z.add Z.mul e 20 = Some e' /\
    ~ (appends_level Z e e' <-> is_power_of_two (2 + 1)).
Proof.
  eexists. eexists. split; [reflexivity|]. split; [reflexivity|]. split; [reflexivity|].
  intros [H _]. apply three_not_power_of_two. apply H. reflexivity.
Qed.

Lemma bin_levels_count_witness :
  [10; 20; 30; 40; 50] <> [] /\
  exists e, add_values Z 0 Z.add Z.mul [10; 20; 30; 40; 50] = Some e /\
    Z.of_nat (length (binlevel_data Z e)) = Z.log2 5 + 1.
Proof.
  split; [discriminate|].
  apply (bin_levels_count Z 0 Z.add Z.mul [10; 20; 30; 40; 50]); [discriminate|].
  simpl. lia.
Defined.

Lemma bins_hold_blocks_witness :
  let l := [1; 2; 3; 4; 5] in
  let b := {| current_sum := 5; cumulative_sum := 10; cumulative_sum_squared := 58 |} in
  Z.of_nat (length l) < 2 ^ 32 /\
  exists e, add_values Z 0 Z.add Z.mul l = Some e /\
    binlevel_data Z e !! 1%nat = Some b /\
    forall (i : nat) (b : BinnedSum Z),
      binlevel_data Z e !! i = Some b ->
      current_sum Z b = tsum Z 0 Z.add (drop (5 - 5 mod 2 ^ i) l) /\
      cumulative_sum Z b = blocks_sum Z 0 Z.add (2 ^ i) (5 / 2 ^ i) l /\
      cumulative_sum_squared Z b = blocks_sum_squared Z 0 Z.add Z.mul (2 ^ i) (5 / 2 ^ i) l.
Proof.
  intros l b. split; [simpl; lia|].
  destruct (bins_hold_blocks Z 0 Z.add Z.mul l ltac:(simpl; lia)) as (e & He & Hbins).
  exists e. split; [exact He|]. split; [|exact Hbins].
  vm_compute in He. injection He as <-. reflexivity.
Defined.

Lemma add_value_assertions_hold_witness :
  Z.of_nat (length [10; 20; 30]) + 1 < 2 ^ 30 /\
  exists e e',
    add_values Z 0 Z.add Z.mul [10; 20; 30] = Some e /\
    add_value_asserting Z 0 Z.add Z.mul e 40 = Some e' /\
    add_value Z 0 Z.add Z.mul e 40 = Some e'.
Proof.
  split; [simpl; lia|].
  apply (add_value_assertions_hold Z 0 Z.add Z.mul [10; 20; 30] 40). simpl. lia.
Defined.

End Binned.

(** ** vmc-core/BoundaryCondition.hpp and NDLattice.hpp *)

(** [int] arithmetic: the result is reduced to the 32-bit two's complement
    range (what the usual targets do where the language leaves signed
    overflow undefined). *)
Definition int_wrap (x : Z) : Z := (x + 2 ^ 31) mod 2 ^ 32 - 2 ^ 31.
Definition int_add (x y : Z) : Z := int_wrap (x + y).
Definition int_sub (x y : Z) : Z := int_wrap (x - y).
Definition int_mul (x y : Z) : Z := int_wrap (x * y).

Lemma int_wrap_small x : in_int x -> int_wrap x = x.
Proof.
  unfold in_int, int_min, int_max, int_wrap. intros H.
  rewrite Z.mod_small; lia.
Qed.

(** The arithmetic of [phase_t] (a [std::complex] of floating-point reals in
    the source), kept abstract: a carrier with the operations the lattice
    code uses, the imaginary unit, and the fallback [exp (2 pi i p)] of
    [BoundaryCondition::calculate_phase]. *)
Record phase_ops := {
  phase_t :> Type;
  ph_zero : phase_t;
  ph_one : phase_t;
  ph_add : phase_t -> phase_t -> phase_t;
  ph_mul : phase_t -> phase_t -> phase_t;
  ph_sub : phase_t -> phase_t -> phase_t;
  ph_opp : phase_t -> phase_t;
  ph_div : phase_t -> phase_t -> phase_t;
  ph_inv : phase_t -> phase_t;
  ph_i : phase_t;
  ph_exp2pi : Q -> phase_t
}.

(** The rationals as an instance (real phases only). *)
Definition Qc_phase : phase_ops := {|
  phase_t := Qc;
  ph_zero := 0%Qc; ph_one := 1%Qc;
  ph_add := Qcplus; ph_mul := Qcmult; ph_sub := Qcminus; ph_opp := Qcopp;
  ph_div := Qcdiv; ph_inv := Qcinv;
  ph_i := 0%Qc;
  ph_exp2pi := fun _ => 1%Qc
|}.

(** Complex numbers with integer parts, every quotient rounded towards
    zero, as an instance: an arithmetic that rounds, and is exact on 1, -1,
    i and -i (the fallback of [calculate_phase] is not used for them). *)
Definition gauss_mul (a b : Z * Z) : Z * Z :=
  (a.1 * b.1 - a.2 * b.2, a.1 * b.2 + a.2 * b.1).

Definition gauss_div (a b : Z * Z) : Z * Z :=
  let n := b.1 * b.1 + b.2 * b.2 in
  (Z.quot (a.1 * b.1 + a.2 * b.2) n, Z.quot (a.2 * b.1 - a.1 * b.2) n).

Definition truncating_phase : phase_ops := {|
  phase_t := Z * Z;
  ph_zero := (0, 0); ph_one := (1, 0);
  ph_add := fun a b => (a.1 + b.1, a.2 + b.2);
  ph_mul := gauss_mul;
  ph_sub := fun a b => (a.1 - b.1, a.2 - b.2);
  ph_opp := fun a => (- a.1, - a.2);
  ph_div := gauss_div;
  ph_inv := gauss_div (1, 0);
  ph_i := (0, 1);
  ph_exp2pi := fun _ => (1, 0)
|}.

Definition unit_phase (z : Z * Z) : Prop :=
  z = (1, 0) \/ z = (-1, 0) \/ z = (0, 1) \/ z = (0, -1).

Module Lattice.
Section NDLattice.

Variable P : phase_ops.

(** *** BoundaryCondition *)

Record BoundaryCondition := { m_p : Q; m_phase : P }.

(** [BoundaryCondition::calculate_phase] *)
Definition calculate_phase (p : Q) : P :=
  if Qeq_bool p 0 then ph_zero P
  else if Qeq_bool p 1 then ph_one P
  else if Qeq_bool p (1 # 2) then ph_opp P (ph_one P)
  else if Qeq_bool p (1 # 4) then ph_i P
  else if Qeq_bool p (3 # 4) then ph_opp P (ph_i P)
  else ph_exp2pi P p.

(** The assertion of the constructor: [p_ >= 0 && p_ <= 1]. *)
Definition constructor_assertion (p : Q) : bool := Qle_bool 0 p && Qle_bool p 1.

(** [explicit BoundaryCondition (const boost::rational<int> &p_)] *)
Definition mkBoundaryCondition (p : Q) : BoundaryCondition :=
  {| m_p := p; m_phase := calculate_phase p |}.

(** [BoundaryCondition (void)], the uninitialized default. *)
Definition default_bc : BoundaryCondition :=
  {| m_p := (-1) # 1; m_phase := ph_zero P |}.

Definition is_initialized (bc : BoundaryCondition) : bool :=
  negb (Qeq_bool (m_p bc) ((-1) # 1)).

(** [phase()] and [p()]; both assert [is_initialized]. *)
Definition phase (bc : BoundaryCondition) : P := m_phase bc.
Definition p (bc : BoundaryCondition) : Q := m_p bc.

Definition open_bc : BoundaryCondition := mkBoundaryCondition 0.
Definition antiperiodic_bc : BoundaryCondition := mkBoundaryCondition (1 # 2).

(** *** NDLattice<DIM> *)

(** [Site]: the Bravais coordinates [bs] (a [boost::array<int, DIM>]) and
    the basis index. *)
Record Site := { bs : list Z; basis_index : Z }.

(** [struct Move]: a step along a move axis. *)
Record Move := { bravais_site : list Z; move_basis_index : Z }.

Record NDLattice := {
  length_ : list Z;
  basis_indices : Z;
  offset : list Z;
  basis_offset : Z;
  move_axes : list Move;
  m_total_sites : Z
}.

Definition DIM (lat : NDLattice) : nat := length (length_ lat).

(** [count_total_sites], in [unsigned int]. *)
Definition count_total_sites (len : list Z) (basis_indices_ : Z) : Z :=
  uint_wrap (fold_left (fun rv L => uint_wrap (rv * L)) len 1 * basis_indices_).

(** The loop of the constructor that sets [offset] from the running
    [unsigned int c]; returns the offsets and the final [c]. *)
Fixpoint set_up_offsets (c : Z) (len : list Z) : list Z * Z :=
  match len with
  | [] => ([], c)
  | L :: rest =>
      let '(os, c') := set_up_offsets (uint_wrap (c * L)) rest in
      (int_wrap c :: os, c')
  end.

(** The unit step along Bravais axis [i]. *)
Definition unit_move (dim i : nat) : Move :=
  {| bravais_site := <[i := 1]> (replicate dim 0); move_basis_index := 0 |}.

Definition basis_move (dim : nat) : Move :=
  {| bravais_site := replicate dim 0; move_basis_index := 1 |}.

(** [NDLattice (const boost::array<int, DIM> &length_, int basis_indices_)] *)
Definition mkNDLattice (len : list Z) (basis_indices_ : Z) : NDLattice :=
  let '(os, c) := set_up_offsets 1 len in
  {| length_ := len;
     basis_indices := basis_indices_;
     offset := os;
     basis_offset := int_wrap c;
     move_axes :=
       map (unit_move (length len)) (seq 0 (length len)) ++
       (if 1 <? basis_indices_ then [basis_move (length len)] else []);
     m_total_sites := count_total_sites len basis_indices_ |}.

Definition total_sites (lat : NDLattice) : Z := m_total_sites lat.

(** The loop of [site_from_index] on the [unsigned int n]. *)
Fixpoint site_from_index_loop (len : list Z) (n : Z) : list Z * Z :=
  match len with
  | [] => ([], n)
  | L :: rest =>
      let '(coords, n') := site_from_index_loop rest (n / uint_wrap L) in
      (int_wrap (n mod uint_wrap L) :: coords, n')
  end.

Definition site_from_index (lat : NDLattice) (n : Z) : Site :=
  let '(coords, n') := site_from_index_loop (length_ lat) n in
  {| bs := coords; basis_index := int_wrap n' |}.

(** The loop of [site_to_index]: [n += site[i] * offset[i]]. *)
Fixpoint site_to_index_loop (coords offs : list Z) (n : Z) : Z :=
  match coords, offs with
  | x :: coords', o :: offs' => site_to_index_loop coords' offs' (uint_wrap (n + int_mul x o))
  | _, _ => n
  end.

Definition site_to_index (lat : NDLattice) (site : Site) : Z :=
  let n := site_to_index_loop (bs site) (offset lat) 0 in
  uint_wrap (n + int_mul (basis_index site) (basis_offset lat)).

Fixpoint coords_valid (coords len : list Z) : bool :=
  match coords, len with
  | x :: coords', L :: len' => negb ((L <=? x) || (x <? 0)) && coords_valid coords' len'
  | [], [] => true
  | _, _ => false
  end.

Definition site_is_valid (lat : NDLattice) (site : Site) : bool :=
  coords_valid (bs site) (length_ lat) &&
  negb ((basis_indices lat <=? basis_index site) || (basis_index site <? 0)).

(** [bcs[dim].phase()] when [bcs] is not the null pointer. *)
Definition bc_phase_at (bcs : option (list BoundaryCondition)) (dim : nat) : option P :=
  match bcs with
  | None => None
  | Some l => phase <$> (l !! dim)
  end.

Definition times_phase (ph : P) (q : option P) : P :=
  match q with Some p0 => ph_mul P ph p0 | None => ph end.

Definition over_phase (ph : P) (q : option P) : P :=
  match q with Some p0 => ph_div P ph p0 | None => ph end.

(** [while (site[dim] >= length[dim]) { site[dim] -= length[dim];
    if (bcs) phase_change *= bcs[dim].phase(); }].
    A length is a positive [int] (the constructor asserts it); the model
    leaves the loop at once where it is not. *)
Equations? wrap_high (L : Z) (q : option P) (x : Z) (ph : P) : Z * P
  by wf (Z.to_nat x) lt :=
  wrap_high L q x ph with decide (0 < L <= int_max /\ L <= x) := {
    | left _ => wrap_high L q (int_sub x L) (times_phase ph q);
    | right _ => (x, ph) }.
Proof.
  assert (int_sub x L <= x - L); [|lia].
  unfold int_sub, int_wrap.
  pose proof (Z.mod_le (x - L + 2 ^ 31) (2 ^ 32)). lia.
Qed.

(** [while (site[dim] < 0) { site[dim] += length[dim];
    if (bcs) phase_change /= bcs[dim].phase(); }] *)
Equations? wrap_low (L : Z) (q : option P) (x : Z) (ph : P) : Z * P
  by wf (Z.to_nat (- x)) lt :=
  wrap_low L q x ph with decide (0 < L <= int_max /\ x < 0) := {
    | left _ => wrap_low L q (int_add x L) (over_phase ph q);
    | right _ => (x, ph) }.
Proof.
  assert (x < int_add x L); [|lia].
  unfold int_add, int_wrap, int_max in *.
  pose proof (Z.mod_pos_bound (x + L + 2 ^ 31) (2 ^ 32)).
  destruct (Z_lt_dec x (- 2 ^ 31)); [lia|].
  rewrite Z.mod_small; lia.
Qed.

(** The loop of [enforce_boundary] over the dimensions. *)
Fixpoint enforce_dims (len : list Z) (bcs : option (list BoundaryCondition))
    (dim : nat) (coords : list Z) (ph : P) : list Z * P :=
  match len, coords with
  | L :: len', x :: coords' =>
      let q := bc_phase_at bcs dim in
      let '(x1, ph1) := wrap_high L q x ph in
      let '(x2, ph2) := wrap_low L q x1 ph1 in
      let '(rest, ph3) := enforce_dims len' bcs (S dim) coords' ph2 in
      (x2 :: rest, ph3)
  | _, _ => (coords, ph)
  end.

(** [while (site.basis_index < 0) site.basis_index += basis_indices;] *)
Equations? wrap_basis (B : Z) (b : Z) : Z by wf (Z.to_nat (- b)) lt :=
  wrap_basis B b with decide (0 < B <= int_max /\ b < 0) := {
    | left _ => wrap_basis B (int_add b B);
    | right _ => b }.
Proof.
  assert (b < int_add b B); [|lia].
  unfold int_add, int_wrap, int_max in *.
  pose proof (Z.mod_pos_bound (b + B + 2 ^ 31) (2 ^ 32)).
  destruct (Z_lt_dec b (- 2 ^ 31)); [lia|].
  rewrite Z.mod_small; lia.
Qed.

(** [enforce_boundary]: the wrapped site and the accumulated phase change.
    [%] on [int] is [Z.rem]. *)
Definition enforce_boundary (lat : NDLattice) (site : Site)
    (bcs : option (list BoundaryCondition)) : Site * P :=
  let '(coords, phase_change) := enforce_dims (length_ lat) bcs 0 (bs site) (ph_one P) in
  let b := wrap_basis (basis_indices lat) (basis_index site) in
  ({| bs := coords; basis_index := Z.rem b (basis_indices lat) |}, phase_change).

Definition asm_add_site_vector (lat : NDLattice) (site : Site) (other : list Z)
    (bcs : option (list BoundaryCondition)) : Site * P :=
  enforce_boundary lat
    {| bs := zip_with int_add (bs site) other; basis_index := basis_index site |} bcs.

Definition asm_subtract_site_vector (lat : NDLattice) (site : Site) (other : list Z)
    (bcs : option (list BoundaryCondition)) : Site * P :=
  enforce_boundary lat
    {| bs := zip_with int_sub (bs site) other; basis_index := basis_index site |} bcs.

Definition move_axes_count (lat : NDLattice) : nat := length (move_axes lat).

(** [move_site]; the source asserts [move_axis < move_axes.size()]. *)
Definition move_site (lat : NDLattice) (site : Site) (move_axis : nat)
    (step_direction : Z) : Site :=
  match move_axes lat !! move_axis with
  | Some m =>
      fst (enforce_boundary lat
             {| bs := zip_with (fun x mi => int_add x (int_mul step_direction mi))
                               (bs site) (bravais_site m);
                basis_index :=
                  int_add (basis_index site) (int_mul step_direction (move_basis_index m)) |}
             None)
  | None => site
  end.

(** Modelled from the spec: PositionArguments.hpp is not among the sources.
    With one species it is the ordered list of the particles' site indices;
    [r[particle]] is a lookup and [is_occupied] tells whether some particle
    sits on the site. *)
Definition PositionArguments : Type := list Z.

Definition is_occupied (r : PositionArguments) (site_index : Z) : bool :=
  bool_decide (site_index ∈ r).

(** The [do ... while] loop of
    [plan_particle_move_to_nearby_empty_site_virtual]; [fuel] bounds the
    number of iterations. *)
Fixpoint plan_loop (fuel : nat) (lat : NDLattice) (r : PositionArguments) (origin : Z)
    (move_axis : nat) (step_direction : Z) (site : Site) : option Z :=
  match fuel with
  | O => None
  | S fuel' =>
      let site' := move_site lat site move_axis step_direction in
      let site_index := site_to_index lat site' in
      if is_occupied r site_index && negb (site_index =? origin)
      then plan_loop fuel' lat r origin move_axis step_direction site'
      else Some site_index
  end.

(** [plan_particle_move_to_nearby_empty_site_virtual]; the two draws from
    the random number generator are arguments ([axis_draw] in
    [0, move_axes_count - 1], [direction_draw] in [0, 1]). *)
Definition plan_particle_move_to_nearby_empty_site_virtual (fuel : nat)
    (lat : NDLattice) (particle : nat) (r : PositionArguments)
    (axis_draw : nat) (direction_draw : Z) : option Z :=
  let move_axis := if decide (move_axes_count lat = 1%nat) then 0%nat else axis_draw in
  let step_direction := int_sub (int_mul direction_draw 2) 1 in
  match r !! particle with
  | Some origin =>
      plan_loop fuel lat r origin move_axis step_direction (site_from_index lat origin)
  | None => None
  end.

(** *** The wrap loops in closed form *)

(** [n] wraps upwards multiply the phase [n] times, [n] wraps downwards
    divide it [n] times. *)
Definition mul_times (q : option P) (n : nat) (ph : P) : P :=
  Nat.iter n (fun a => times_phase a q) ph.

Definition div_times (q : option P) (n : nat) (ph : P) : P :=
  Nat.iter n (fun a => over_phase a q) ph.

(** The phase after the wraps of a coordinate that started [e] lengths away
    from the cell ([e = x / L], negative below the cell). *)
Definition dim_phase (q : option P) (e : Z) (ph : P) : P :=
  if 0 <=? e then mul_times q (Z.to_nat e) ph else div_times q (Z.to_nat (- e)) ph.

Definition len_ok (L : Z) : Prop := 0 < L <= int_max.

Lemma iter_shift {A} (f : A -> A) n a : Nat.iter n f (f a) = f (Nat.iter n f a).
Proof. induction n as [|n IH]; simpl; [reflexivity|]. now rewrite IH. Qed.

Lemma mul_times_S q n ph : mul_times q (S n) ph = mul_times q n (times_phase ph q).
Proof. symmetry. exact (iter_shift (fun a => times_phase a q) n ph). Qed.

Lemma div_times_S q n ph : div_times q (S n) ph = div_times q n (over_phase ph q).
Proof. symmetry. exact (iter_shift (fun a => over_phase a q) n ph). Qed.

Lemma wrap_high_below L q x ph : x < L -> wrap_high L q x ph = (x, ph).
Proof.
  intros H. rewrite wrap_high_equation_1.
  destruct (decide _) as [Hd|Hd]; simpl; [lia|reflexivity].
Qed.

Lemma wrap_high_spec L q x ph :
  len_ok L -> 0 <= x <= int_max ->
  wrap_high L q x ph = (x mod L, mul_times q (Z.to_nat (x / L)) ph).
Proof.
  intros HL. funelim (wrap_high L q x ph); intros Hx.
  - assert (Hs : int_sub x L = x - L).
    { apply int_wrap_small. unfold len_ok, in_int, int_min, int_max in *. lia. }
    rewrite Hs in *. rewrite H by (unfold len_ok in *; lia).
    replace x with ((x - L) + 1 * L) at 3 4 by lia.
    rewrite Z.mod_add, Z.div_add by (unfold len_ok in *; lia).
    f_equal. replace (Z.to_nat ((x - L) / L + 1)) with (S (Z.to_nat ((x - L) / L))).
    + now rewrite mul_times_S.
    + assert (0 <= (x - L) / L) by (apply Z.div_pos; unfold len_ok in *; lia). lia.
  - assert (Hlt : x < L) by (unfold len_ok in *; lia).
    rewrite Z.mod_small, Z.div_small by lia. reflexivity.
Qed.

Lemma wrap_low_nonneg L q x ph : 0 <= x -> wrap_low L q x ph = (x, ph).
Proof.
  intros H. rewrite wrap_low_equation_1.
  destruct (decide _) as [Hd|Hd]; simpl; [lia|reflexivity].
Qed.

Lemma wrap_low_spec L q x ph :
  len_ok L -> int_min <= x < 0 ->
  wrap_low L q x ph = (x mod L, div_times q (Z.to_nat (- (x / L))) ph).
Proof.
  intros HL. funelim (wrap_low L q x ph); intros Hx.
  - assert (Hs : int_add x L = x + L).
    { apply int_wrap_small. unfold len_ok, in_int, int_min, int_max in *. lia. }
    rewrite Hs in *.
    assert (HL0 : 0 < L) by (unfold len_ok in *; lia).
    replace (x mod L) with ((x + L) mod L)
      by (replace (x + L) with (x + 1 * L) by lia; apply Z.mod_add; lia).
    assert (Hd : x / L = (x + L) / L - 1).
    { replace (x + L) with (x + 1 * L) by lia. rewrite Z.div_add by lia. lia. }
    rewrite Hd.
    destruct (Z_lt_dec (x + L) 0) as [Hneg|Hpos].
    + rewrite H by (unfold len_ok, int_min in *; lia).
      f_equal.
      assert ((x + L) / L < 0) by (apply Z.div_lt_upper_bound; lia).
      replace (Z.to_nat (- ((x + L) / L - 1))) with (S (Z.to_nat (- ((x + L) / L)))) by lia.
      now rewrite div_times_S.
    + rewrite wrap_low_nonneg by lia.
      rewrite Z.mod_small, Z.div_small by lia. reflexivity.
  - unfold len_ok in *. lia.
Qed.

(** Both loops on one coordinate. *)
Lemma wrap_dim_spec L q x ph :
  len_ok L -> in_int x ->
  (let '(x1, ph1) := wrap_high L q x ph in wrap_low L q x1 ph1) =
  (x mod L, dim_phase q (x / L) ph).
Proof.
  intros HL Hx. assert (HL0 : 0 < L) by (unfold len_ok in *; lia).
  unfold dim_phase. destruct (Z_lt_dec x 0) as [Hneg|Hpos].
  - rewrite wrap_high_below by lia.
    rewrite wrap_low_spec by (try assumption; unfold in_int in *; lia).
    assert (x / L < 0) by (apply Z.div_lt_upper_bound; lia).
    destruct (0 <=? x / L) eqn:E; [lia|reflexivity].
  - rewrite wrap_high_spec by (try assumption; unfold in_int in *; lia).
    pose proof (Z.mod_pos_bound x L HL0).
    rewrite wrap_low_nonneg by lia.
    assert (0 <= x / L) by (apply Z.div_pos; lia).
    destruct (0 <=? x / L) eqn:E; [reflexivity|lia].
Qed.

(** The phase accumulated over all dimensions. *)
Fixpoint dims_phase (len : list Z) (bcs : option (list BoundaryCondition))
    (dim : nat) (coords : list Z) (ph : P) : P :=
  match len, coords with
  | L :: len', x :: coords' =>
      dims_phase len' bcs (S dim) coords' (dim_phase (bc_phase_at bcs dim) (x / L) ph)
  | _, _ => ph
  end.

Lemma enforce_dims_spec len bcs : forall dim coords ph,
  Forall len_ok len -> Forall in_int coords -> length coords = length len ->
  enforce_dims len bcs dim coords ph =
  (zip_with Z.modulo coords len, dims_phase len bcs dim coords ph).
Proof.
  induction len as [|L len IH]; intros dim [|x coords] ph Hlen Hc Hl; try discriminate.
  - reflexivity.
  - inversion Hlen; subst. inversion Hc; subst. simpl in Hl.
    cbn [enforce_dims dims_phase zip_with].
    pose proof (wrap_dim_spec L (bc_phase_at bcs dim) x ph
                  ltac:(assumption) ltac:(assumption)) as Hw.
    destruct (wrap_high L (bc_phase_at bcs dim) x ph) as [x1 ph1].
    rewrite Hw. rewrite IH by (auto; lia). reflexivity.
Qed.

Lemma wrap_basis_nonneg B b : 0 <= b -> wrap_basis B b = b.
Proof.
  intros H. rewrite wrap_basis_equation_1.
  destruct (decide _) as [Hd|Hd]; simpl; [lia|reflexivity].
Qed.

Lemma wrap_basis_spec B b :
  len_ok B -> int_min <= b -> Z.rem (wrap_basis B b) B = b mod B.
Proof.
  intros HB. assert (HB0 : 0 < B) by (unfold len_ok in *; lia).
  funelim (wrap_basis B b); intros Hb.
  - assert (Hs : int_add b B = b + B).
    { apply int_wrap_small. unfold len_ok, in_int, int_min, int_max in *. lia. }
    rewrite Hs in *. rewrite H by (unfold len_ok, int_min in *; lia).
    replace (b + B) with (b + 1 * B) by lia. apply Z.mod_add. lia.
  - assert (0 <= b) by (unfold len_ok in *; lia).
    rewrite Z.rem_mod_nonneg by lia. reflexivity.
Qed.

(** *** Well-formed lattices and the site/index round trip *)

Definition list_prod (len : list Z) : Z := fold_right Z.mul 1 len.

(** What the constructor asserts ([length[i] > 0], [basis_indices > 0]),
    and that the number of sites fits an [int]. *)
Definition dims_ok (len : list Z) (B : Z) : Prop :=
  Forall (fun L => 0 < L) len /\ 0 < B /\ list_prod len * B <= int_max.

Lemma list_prod_cons L len : list_prod (L :: len) = L * list_prod len.
Proof. reflexivity. Qed.

Lemma list_prod_pos len : Forall (fun L => 0 < L) len -> 0 < list_prod len.
Proof. induction 1; [reflexivity|]. rewrite list_prod_cons. nia. Qed.

Lemma list_prod_divide len L : L ∈ len -> (L | list_prod len).
Proof.
  induction 1 as [L len|L L' len _ IH]; rewrite list_prod_cons.
  - apply Z.divide_factor_l.
  - now apply Z.divide_mul_r.
Qed.

Lemma len_ok_of_prod len c :
  Forall (fun L => 0 < L) len -> 0 < c -> c * list_prod len <= int_max ->
  Forall len_ok len.
Proof.
  intros Hpos Hc. induction Hpos as [|L len HL Hpos IH]; intros Hb; constructor.
  - rewrite list_prod_cons in Hb. pose proof (list_prod_pos len Hpos). unfold len_ok.
    assert (1 <= c * list_prod len) by nia.
    assert (L * 1 <= L * (c * list_prod len)) by (apply Z.mul_le_mono_nonneg_l; lia).
    split; [assumption|].
    replace (c * (L * list_prod len)) with (L * (c * list_prod len)) in Hb by ring. lia.
  - apply IH. rewrite list_prod_cons in Hb. pose proof (list_prod_pos len Hpos).
    assert (c * list_prod len * 1 <= c * list_prod len * L)
      by (apply Z.mul_le_mono_nonneg_l; nia).
    replace (c * (L * list_prod len)) with (c * list_prod len * L) in Hb by ring. lia.
Qed.

Lemma dims_ok_len_ok len B : dims_ok len B -> Forall len_ok len /\ len_ok B.
Proof.
  intros (Hpos & HB & Hb). pose proof (list_prod_pos len Hpos). split.
  - apply (len_ok_of_prod len 1); [assumption|lia|nia].
  - unfold len_ok. nia.
Qed.

Lemma count_total_sites_ok len B :
  dims_ok len B -> count_total_sites len B = list_prod len * B.
Proof.
  intros (Hpos & HB & Hb). unfold count_total_sites.
  assert (H : forall c, 0 < c -> c * list_prod len <= int_max ->
            fold_left (fun rv L => uint_wrap (rv * L)) len c = c * list_prod len).
  { clear Hb. induction Hpos as [|L len HL Hpos IH]; intros c Hc Hb; simpl.
    - lia.
    - rewrite list_prod_cons in *. pose proof (list_prod_pos len Hpos).
      rewrite uint_wrap_small by (unfold int_max in *; nia).
      rewrite IH by nia. lia. }
  pose proof (list_prod_pos len Hpos).
  rewrite H by nia. rewrite uint_wrap_small by (unfold int_max in *; nia). lia.
Qed.

Definition coords_in (coords len : list Z) : Prop :=
  Forall2 (fun x L => 0 <= x < L) coords len.

Lemma coords_valid_iff coords len : coords_valid coords len = true <-> coords_in coords len.
Proof.
  revert len. induction coords as [|x coords IH]; intros [|L len]; simpl.
  - split; [constructor|reflexivity].
  - split; [discriminate|inversion 1].
  - split; [discriminate|inversion 1].
  - rewrite andb_true_iff, IH, negb_true_iff, orb_false_iff, Z.leb_gt, Z.ltb_ge.
    split.
    + intros [[? ?] ?]. constructor; [lia|assumption].
    + inversion 1; subst. split; [lia|assumption].
Qed.

(** The three loops over the dimensions (offsets, digits, index) together. *)
Lemma index_loops_roundtrip len : forall c n acc,
  Forall (fun L => 0 < L) len -> 0 < c -> c * list_prod len <= int_max ->
  0 <= n -> 0 <= acc -> acc + c * n <= int_max ->
  site_to_index_loop (site_from_index_loop len n).1 (set_up_offsets c len).1 acc
    + (set_up_offsets c len).2 * (site_from_index_loop len n).2 = acc + c * n /\
  (set_up_offsets c len).2 = c * list_prod len /\
  (site_from_index_loop len n).2 = n / list_prod len /\
  coords_in (site_from_index_loop len n).1 len /\
  0 <= site_to_index_loop (site_from_index_loop len n).1 (set_up_offsets c len).1 acc.
Proof.
  induction len as [|L len IH]; intros c n acc Hpos Hc Hb Hn Hacc Hsum.
  - simpl. rewrite Z.div_1_r. repeat split; try lia. constructor.
  - inversion Hpos as [|? ? HL Hpos']; subst. rewrite list_prod_cons in *.
    pose proof (list_prod_pos len Hpos') as Hp.
    assert (HcL : c * L <= int_max).
    { assert (c * L * 1 <= c * L * list_prod len) by (apply Z.mul_le_mono_nonneg_l; nia).
      replace (c * (L * list_prod len)) with (c * L * list_prod len) in Hb by ring. lia. }
    assert (HLr : L <= int_max).
    { assert (1 * L <= c * L) by (apply Z.mul_le_mono_nonneg_r; lia). lia. }
    cbn [site_from_index_loop set_up_offsets].
    rewrite (uint_wrap_small L) by (unfold int_max in *; lia).
    rewrite (uint_wrap_small (c * L)) by (unfold int_max in *; nia).
    pose proof (Z.mod_pos_bound n L HL) as Hm.
    pose proof (Z.div_pos n L Hn HL) as Hd.
    pose proof (Z_div_mod_eq_full n L) as Hdm.
    specialize (IH (c * L) (n / L) (acc + (n mod L) * c)).
    destruct (site_from_index_loop len (n / L)) as [coords n'] eqn:E1.
    destruct (set_up_offsets (c * L) len) as [os c'] eqn:E2.
    cbn [fst snd site_to_index_loop] in *.
    rewrite (int_wrap_small (n mod L)) by (unfold in_int, int_min, int_max in *; lia).
    rewrite (int_wrap_small c) by (unfold in_int, int_min, int_max in *; lia).
    assert (Hxc : 0 <= n mod L * c <= c * n) by nia.
    unfold int_mul. rewrite int_wrap_small by (unfold in_int, int_min, int_max in *; lia).
    rewrite uint_wrap_small by (unfold int_max in *; lia).
    destruct IH as (H1 & H2 & H3 & H4 & H5); try nia; try assumption.
    repeat split.
    + rewrite H1. nia.
    + rewrite H2. lia.
    + rewrite H3. rewrite Z.div_div by lia. reflexivity.
    + constructor; [lia|assumption].
    + assumption.
Qed.

Lemma offset_mkNDLattice len B : offset (mkNDLattice len B) = (set_up_offsets 1 len).1.
Proof. unfold mkNDLattice. now destruct (set_up_offsets 1 len). Qed.

Lemma basis_offset_mkNDLattice len B :
  basis_offset (mkNDLattice len B) = int_wrap (set_up_offsets 1 len).2.
Proof. unfold mkNDLattice. now destruct (set_up_offsets 1 len). Qed.

Lemma length_mkNDLattice len B : length_ (mkNDLattice len B) = len.
Proof. unfold mkNDLattice. now destruct (set_up_offsets 1 len). Qed.

Lemma basis_indices_mkNDLattice len B : basis_indices (mkNDLattice len B) = B.
Proof. unfold mkNDLattice. now destruct (set_up_offsets 1 len). Qed.

Lemma total_sites_mkNDLattice len B :
  total_sites (mkNDLattice len B) = count_total_sites len B.
Proof. unfold total_sites, mkNDLattice. now destruct (set_up_offsets 1 len). Qed.

Lemma move_axes_mkNDLattice len B :
  move_axes (mkNDLattice len B) =
  map (unit_move (length len)) (seq 0 (length len)) ++
  (if 1 <? B then [basis_move (length len)] else []).
Proof. unfold mkNDLattice. now destruct (set_up_offsets 1 len). Qed.

(** A site inside the lattice, as [site_is_valid] tests it. *)
Definition site_in (len : list Z) (B : Z) (site : Site) : Prop :=
  coords_in (bs site) len /\ 0 <= basis_index site < B.

Lemma site_is_valid_iff len B site :
  site_is_valid (mkNDLattice len B) site = true <-> site_in len B site.
Proof.
  unfold site_is_valid, site_in.
  rewrite length_mkNDLattice, basis_indices_mkNDLattice.
  rewrite andb_true_iff, coords_valid_iff, negb_true_iff, orb_false_iff, Z.leb_gt, Z.ltb_ge.
  intuition lia.
Qed.

Lemma site_from_index_in len B n :
  dims_ok len B -> 0 <= n < total_sites (mkNDLattice len B) ->
  site_in len B (site_from_index (mkNDLattice len B) n).
Proof.
  intros Hok Hn. rewrite total_sites_mkNDLattice, count_total_sites_ok in Hn by assumption.
  destruct Hok as (Hpos & HB & Hb). pose proof (list_prod_pos len Hpos) as Hp.
  destruct (index_loops_roundtrip len 1 n 0) as (_ & _ & H3 & H4 & _);
    try lia; try assumption; try nia.
  unfold site_from_index, site_in. rewrite length_mkNDLattice.
  destruct (site_from_index_loop len n) as [coords n']. cbn [fst snd bs basis_index] in *.
  split; [assumption|]. subst n'.
  assert (0 <= n / list_prod len < B).
  { split; [apply Z.div_pos; lia|apply Z.div_lt_upper_bound; lia]. }
  rewrite int_wrap_small by (unfold in_int, int_min, int_max in *; nia). assumption.
Qed.

Lemma site_to_from_index len B n :
  dims_ok len B -> 0 <= n < total_sites (mkNDLattice len B) ->
  site_to_index (mkNDLattice len B) (site_from_index (mkNDLattice len B) n) = n.
Proof.
  intros Hok Hn. rewrite total_sites_mkNDLattice, count_total_sites_ok in Hn by assumption.
  destruct Hok as (Hpos & HB & Hb). pose proof (list_prod_pos len Hpos) as Hp.
  destruct (index_loops_roundtrip len 1 n 0) as (H1 & H2 & H3 & H4 & H5);
    try lia; try assumption; try nia.
  unfold site_to_index, site_from_index.
  rewrite offset_mkNDLattice, basis_offset_mkNDLattice, length_mkNDLattice.
  destruct (site_from_index_loop len n) as [coords n'].
  destruct (set_up_offsets 1 len) as [os c']. cbn [fst snd bs basis_index] in *.
  subst n' c'.
  assert (Hq : 0 <= n / list_prod len < B).
  { split; [apply Z.div_pos; lia|apply Z.div_lt_upper_bound; lia]. }
  assert (Hqn : 0 <= list_prod len * (n / list_prod len) <= n).
  { split; [nia|apply Z.mul_div_le; lia]. }
  rewrite (int_wrap_small (n / list_prod len)) by (unfold in_int, int_min, int_max in *; nia).
  rewrite (int_wrap_small (1 * list_prod len)) by (unfold in_int, int_min, int_max in *; nia).
  unfold int_mul. rewrite int_wrap_small by (unfold in_int, int_min, int_max in *; nia).
  rewrite uint_wrap_small by (unfold int_max in *; nia). nia.
Qed.

(** *** Stepping a site along a move axis *)

Lemma zip_with_ext_Forall {A B C} (f g : A -> B -> C) (PA : A -> Prop) (PB : B -> Prop) l1 :
  forall l2, Forall PA l1 -> Forall PB l2 ->
  (forall a b, PA a -> PB b -> f a b = g a b) ->
  zip_with f l1 l2 = zip_with g l1 l2.
Proof.
  induction l1 as [|a l1 IH]; intros [|b l2] H1 H2 Hfg; simpl; try reflexivity.
  inversion H1; inversion H2; subst. f_equal; auto.
Qed.

Lemma Forall_zip_with_2 {A B C} (f : A -> B -> C) (PA : A -> Prop) (PB : B -> Prop)
    (Q : C -> Prop) l1 :
  forall l2, Forall PA l1 -> Forall PB l2 ->
  (forall a b, PA a -> PB b -> Q (f a b)) ->
  Forall Q (zip_with f l1 l2).
Proof.
  induction l1 as [|a l1 IH]; intros [|b l2] H1 H2 Hf; simpl; try constructor.
  - inversion H1; inversion H2; subst. auto.
  - inversion H1; inversion H2; subst. auto.
Qed.

Lemma coords_in_bounds coords len :
  coords_in coords len -> Forall len_ok len ->
  Forall (fun x => 0 <= x < int_max) coords /\ length coords = length len.
Proof.
  induction 1 as [|x L coords len Hx _ IH]; intros Hl; [split; [constructor|reflexivity]|].
  inversion Hl; subst. destruct IH as [IH1 IH2]; [assumption|].
  split; [constructor; [unfold len_ok in *; lia|assumption]|simpl; lia].
Qed.

Lemma coords_in_mod ys len :
  Forall (fun L => 0 < L) len -> length ys = length len ->
  coords_in (zip_with Z.modulo ys len) len.
Proof.
  intros Hpos. revert ys. induction Hpos as [|L len HL _ IH]; intros [|y ys] Hlen;
    try discriminate; simpl; constructor.
  - apply Z.mod_pos_bound. exact HL.
  - apply IH. simpl in Hlen. lia.
Qed.

(** The coordinates after [k] steps of direction [d] along the move [mv]. *)
Definition shift_coords (k d : Z) (coords mv len : list Z) : list Z :=
  zip_with Z.modulo (zip_with (fun x mi => x + k * d * mi) coords mv) len.

Definition shift_site (len : list Z) (B : Z) (m : Move) (d k : Z) (site : Site) : Site :=
  {| bs := shift_coords k d (bs site) (bravais_site m) len;
     basis_index := (basis_index site + k * d * move_basis_index m) mod B |}.

Definition move_ok (len : list Z) (m : Move) : Prop :=
  Forall (fun mi => 0 <= mi <= 1) (bravais_site m) /\
  length (bravais_site m) = length len /\
  0 <= move_basis_index m <= 1.

Lemma move_axes_ok len B a m :
  move_axes (mkNDLattice len B) !! a = Some m -> move_ok len m.
Proof.
  rewrite move_axes_mkNDLattice. intros H.
  apply list_elem_of_lookup_2 in H. apply elem_of_app in H. destruct H as [H|H].
  - apply list_elem_of_fmap in H. destruct H as (i & -> & _).
    unfold move_ok, unit_move; simpl. rewrite length_insert, length_replicate.
    repeat split; try lia.
    apply Forall_forall. intros x Hx. apply list_elem_of_lookup in Hx.
    destruct Hx as [j Hj].
    destruct (decide (i = j)) as [->|Hne].
    + apply lookup_lt_Some in Hj as Hlt. rewrite length_insert in Hlt.
      rewrite list_lookup_insert_eq in Hj by exact Hlt. injection Hj as <-. lia.
    + rewrite list_lookup_insert_ne in Hj by exact Hne.
      apply lookup_replicate in Hj as [-> _]. lia.
  - destruct (1 <? B); [|inversion H].
    apply list_elem_of_singleton in H. subst m.
    unfold move_ok, basis_move; simpl. rewrite length_replicate.
    repeat split; try lia. apply Forall_forall. intros x Hx.
    apply elem_of_replicate in Hx as [-> _]. lia.
Qed.

Lemma shift_coords_step len : forall coords mv k d,
  Forall (fun L => 0 < L) len ->
  zip_with Z.modulo
    (zip_with (fun x mi => x + d * mi) (shift_coords k d coords mv len) mv) len =
  shift_coords (k + 1) d coords mv len.
Proof.
  unfold shift_coords.
  induction len as [|L len IH]; intros [|x coords] [|mi mv] k d Hpos; simpl; try reflexivity.
  inversion Hpos; subst. f_equal.
  - rewrite Zplus_mod_idemp_l. f_equal. ring.
  - apply IH. assumption.
Qed.

Lemma shift_coords_period len : forall coords mv K d,
  coords_in coords len -> length mv = length len ->
  Forall (fun L => (L | K)) len ->
  shift_coords K d coords mv len = coords.
Proof.
  unfold shift_coords. intros coords mv K d Hin. revert mv.
  induction Hin as [|x L coords len Hx _ IH]; intros [|mi mv] Hlen Hdiv;
    try discriminate; simpl; [reflexivity|].
  inversion Hdiv as [|? ? [t Ht] Hdiv']; subst. f_equal.
  - replace (x + t * L * d * mi) with (x + (t * d * mi) * L) by ring.
    rewrite Z.mod_add by lia. apply Z.mod_small. exact Hx.
  - apply IH; [simpl in Hlen; lia|assumption].
Qed.

Lemma shift_site_in len B m d k site :
  dims_ok len B -> move_ok len m -> length (bs site) = length len ->
  site_in len B (shift_site len B m d k site).
Proof.
  intros (Hpos & HB & _) (_ & Hml & _) Hl. unfold shift_site, site_in; simpl. split.
  - apply coords_in_mod; [assumption|].
    unfold shift_coords. rewrite length_zip_with. lia.
  - apply Z.mod_pos_bound. exact HB.
Qed.

(** One [move_site] on a site inside the lattice, in closed form. *)
Lemma move_site_in len B site a m d :
  dims_ok len B -> site_in len B site ->
  move_axes (mkNDLattice len B) !! a = Some m -> (d = -1 \/ d = 1) ->
  move_site (mkNDLattice len B) site a d =
  {| bs := zip_with Z.modulo (zip_with (fun x mi => x + d * mi) (bs site) (bravais_site m)) len;
     basis_index := (basis_index site + d * move_basis_index m) mod B |}.
Proof.
  intros Hok [Hc Hb] Hm Hd.
  destruct (dims_ok_len_ok len B Hok) as [Hlen HB].
  destruct (coords_in_bounds _ _ Hc Hlen) as [Hcb Hcl].
  destruct (move_axes_ok len B a m Hm) as (Hmv & Hml & Hmb).
  unfold move_site. rewrite Hm. unfold enforce_boundary.
  rewrite length_mkNDLattice, basis_indices_mkNDLattice. cbn [bs basis_index].
  assert (Hz : zip_with (fun x mi => int_add x (int_mul d mi)) (bs site) (bravais_site m) =
               zip_with (fun x mi => x + d * mi) (bs site) (bravais_site m)).
  { eapply zip_with_ext_Forall; [exact Hcb|exact Hmv|].
    intros x mi Hx Hmi. cbv beta in *. unfold int_add, int_mul.
    rewrite (int_wrap_small (d * mi)) by (unfold in_int, int_min, int_max in *; nia).
    apply int_wrap_small. unfold in_int, int_min, int_max in *. nia. }
  rewrite Hz. rewrite enforce_dims_spec.
  - cbn [fst]. f_equal.
    assert (Hbi : int_add (basis_index site) (int_mul d (move_basis_index m)) =
                  basis_index site + d * move_basis_index m).
    { unfold int_add, int_mul.
      rewrite (int_wrap_small (d * _)) by (unfold in_int, int_min, int_max in *; nia).
      apply int_wrap_small. unfold len_ok, in_int, int_min, int_max in *. nia. }
    rewrite Hbi. apply wrap_basis_spec; [assumption|].
    unfold len_ok, int_min, int_max in *. nia.
  - assumption.
  - eapply Forall_zip_with_2; [exact Hcb|exact Hmv|].
    intros x mi Hx Hmi. cbv beta in *. unfold in_int, int_min, int_max in *. nia.
  - rewrite length_zip_with. lia.
Qed.

Lemma shift_site_0 len B m d site :
  dims_ok len B -> move_ok len m -> site_in len B site ->
  shift_site len B m d 0 site = site.
Proof.
  intros (Hpos & HB & _) (_ & Hml & _) [Hc Hb]. destruct site as [coords b].
  unfold shift_site; cbn [bs basis_index] in *. f_equal.
  - apply shift_coords_period; [assumption|assumption|].
    apply Forall_forall. intros L _. apply Z.divide_0_r.
  - replace (b + 0 * d * move_basis_index m) with b by ring. apply Z.mod_small. exact Hb.
Qed.

Lemma shift_site_period len B m d site :
  dims_ok len B -> move_ok len m -> site_in len B site ->
  shift_site len B m d (list_prod len * B) site = site.
Proof.
  intros (Hpos & HB & _) (_ & Hml & _) [Hc Hb]. destruct site as [coords b].
  unfold shift_site; cbn [bs basis_index] in *. f_equal.
  - apply shift_coords_period; [assumption|assumption|].
    apply Forall_forall. intros L HL. apply Z.divide_mul_l. now apply list_prod_divide.
  - replace (b + list_prod len * B * d * move_basis_index m)
      with (b + (list_prod len * d * move_basis_index m) * B) by ring.
    rewrite Z.mod_add by lia. apply Z.mod_small. exact Hb.
Qed.

Lemma move_shift_site len B a m d k site :
  dims_ok len B -> length (bs site) = length len ->
  move_axes (mkNDLattice len B) !! a = Some m -> (d = -1 \/ d = 1) ->
  move_site (mkNDLattice len B) (shift_site len B m d k site) a d =
  shift_site len B m d (k + 1) site.
Proof.
  intros Hok Hl Hm Hd.
  pose proof (move_axes_ok len B a m Hm) as Hmo.
  rewrite (move_site_in len B _ a m d Hok (shift_site_in len B m d k site Hok Hmo Hl) Hm Hd).
  unfold shift_site; cbn [bs basis_index]. f_equal.
  - apply shift_coords_step. apply Hok.
  - rewrite Zplus_mod_idemp_l. f_equal. ring.
Qed.

(** *** The nearby-empty-site proposer *)

(** What the loop may return: an unoccupied site, or the origin. *)
Definition plan_result_ok (r : PositionArguments) (origin site_index : Z) : Prop :=
  is_occupied r site_index = false \/ site_index = origin.

Lemma step_direction_cases direction_draw :
  direction_draw = 0 \/ direction_draw = 1 ->
  int_sub (int_mul direction_draw 2) 1 = -1 \/ int_sub (int_mul direction_draw 2) 1 = 1.
Proof. intros [-> | ->]; [left|right]; reflexivity. Qed.

Lemma iter_move_site len B a m d site n :
  dims_ok len B -> site_in len B site ->
  move_axes (mkNDLattice len B) !! a = Some m -> (d = -1 \/ d = 1) ->
  Nat.iter n (fun s => move_site (mkNDLattice len B) s a d) site =
  shift_site len B m d (Z.of_nat n) site.
Proof.
  intros Hok Hin Hm Hd.
  pose proof (move_axes_ok len B a m Hm) as Hmo.
  destruct (dims_ok_len_ok len B Hok) as [Hlen _].
  destruct (coords_in_bounds _ _ (proj1 Hin) Hlen) as [_ Hl].
  induction n as [|n IH].
  - simpl. symmetry. now apply shift_site_0.
  - rewrite Nat.iter_succ, IH. rewrite (move_shift_site len B a m d) by assumption.
    f_equal. lia.
Qed.

Lemma plan_loop_from_shift len B r origin a m d :
  dims_ok len B -> 0 <= origin < total_sites (mkNDLattice len B) ->
  move_axes (mkNDLattice len B) !! a = Some m -> (d = -1 \/ d = 1) ->
  forall j fuel, (j < fuel)%nat -> Z.of_nat j < list_prod len * B ->
  exists site_index,
    plan_loop fuel (mkNDLattice len B) r origin a d
      (shift_site len B m d (list_prod len * B - 1 - Z.of_nat j)
         (site_from_index (mkNDLattice len B) origin)) = Some site_index /\
    plan_result_ok r origin site_index.
Proof.
  intros Hok Ho Hm Hd.
  pose proof (move_axes_ok len B a m Hm) as Hmo.
  pose proof (site_from_index_in len B origin Hok Ho) as Hin.
  destruct (dims_ok_len_ok len B Hok) as [Hlen _].
  destruct (coords_in_bounds _ _ (proj1 Hin) Hlen) as [_ Hl].
  induction j as [|j IH]; intros [|fuel] Hf Hj; try lia; cbn [plan_loop].
  - rewrite (move_shift_site len B a m d) by assumption.
    replace (list_prod len * B - 1 - Z.of_nat 0 + 1) with (list_prod len * B) by lia.
    rewrite shift_site_period by assumption.
    rewrite site_to_from_index by assumption.
    rewrite Z.eqb_refl, andb_false_r. exists origin. split; [reflexivity|now right].
  - rewrite (move_shift_site len B a m d) by assumption.
    replace (list_prod len * B - 1 - Z.of_nat (S j) + 1)
      with (list_prod len * B - 1 - Z.of_nat j) by lia.
    set (site' := shift_site len B m d (list_prod len * B - 1 - Z.of_nat j) _).
    destruct (is_occupied r (site_to_index (mkNDLattice len B) site')) eqn:Hocc;
      [destruct (Z.eqb_spec (site_to_index (mkNDLattice len B) site') origin) as [Heq|Hne]|];
      cbn [andb negb].
    + eexists. split; [reflexivity|right; exact Heq].
    + apply IH; lia.
    + eexists. split; [reflexivity|left; exact Hocc].
Qed.

(** C10: the proposer terminates.  On a well-formed lattice, stepping the
    particle's site along the chosen axis and direction comes back to that
    site after finitely many steps, so the loop exits (every amount of fuel
    from some bound on gives a result), and the site index returned is an
    unoccupied site or the particle's own site. *)
Theorem plan_particle_move_terminates (len : list Z) (B : Z) (particle : nat)
    (r : PositionArguments) (origin : Z) (axis_draw : nat) (direction_draw : Z) :
  dims_ok len B ->
  r !! particle = Some origin ->
  0 <= origin < total_sites (mkNDLattice len B) ->
  direction_draw = 0 \/ direction_draw = 1 ->
  let lat := mkNDLattice len B in
  let move_axis := if decide (move_axes_count lat = 1%nat) then 0%nat else axis_draw in
  let step_direction := int_sub (int_mul direction_draw 2) 1 in
  (exists n, (1 <= n)%nat /\
     Nat.iter n (fun s => move_site lat s move_axis step_direction)
       (site_from_index lat origin) = site_from_index lat origin) /\
  (exists bound, forall fuel, (bound <= fuel)%nat ->
     exists site_index,
       plan_particle_move_to_nearby_empty_site_virtual fuel lat particle r
         axis_draw direction_draw = Some site_index /\
       plan_result_ok r origin site_index).
Proof.
  intros Hok Hr Ho Hdraw lat move_axis step_direction.
  pose proof (step_direction_cases direction_draw Hdraw) as Hd.
  pose proof (site_from_index_in len B origin Hok Ho) as Hin.
  assert (HK : 1 <= list_prod len * B).
  { destruct Hok as (Hpos & HB & _). pose proof (list_prod_pos len Hpos). nia. }
  unfold plan_particle_move_to_nearby_empty_site_virtual. rewrite Hr.
  fold lat move_axis step_direction.
  destruct (move_axes lat !! move_axis) as [m|] eqn:Hm.
  - pose proof (move_axes_ok len B move_axis m Hm) as Hmo. split.
    + exists (Z.to_nat (list_prod len * B)). split; [lia|].
      unfold lat. rewrite (iter_move_site len B move_axis m) by assumption.
      rewrite Z2Nat.id by lia. now apply shift_site_period.
    + exists (Z.to_nat (list_prod len * B)). intros fuel Hfuel.
      destruct (plan_loop_from_shift len B r origin move_axis m step_direction Hok Ho Hm Hd
                  (Z.to_nat (list_prod len * B - 1)) fuel) as (idx & Hidx & Hgood); try lia.
      exists idx. split; [|exact Hgood].
      rewrite <- Hidx. f_equal.
      replace (list_prod len * B - 1 - Z.of_nat (Z.to_nat (list_prod len * B - 1))) with 0 by lia.
      symmetry. now apply shift_site_0.
  - assert (Hid : forall s, move_site lat s move_axis step_direction = s).
    { intros s0. unfold move_site. now rewrite Hm. }
    split.
    + exists 1%nat. split; [lia|]. simpl. apply Hid.
    + exists 1%nat. intros [|fuel] Hfuel; [lia|]. cbn [plan_loop].
      rewrite Hid. unfold lat. rewrite site_to_from_index by assumption.
      rewrite Z.eqb_refl, andb_false_r. exists origin. split; [reflexivity|now right].
Qed.

(** *** Boundary closure *)

(** [p] to the power [n], as the product [1 * p * ... * p] of [n] factors
    taken from the left, the order in which [phase_change *= p] builds
    it. *)
Fixpoint ph_pow (p0 : P) (n : nat) : P :=
  match n with
  | O => ph_one P
  | S n' => ph_mul P (ph_pow p0 n') p0
  end.

(** The phase arithmetic is exact on the phases [G]: they hold 1 and the
    products and quotients of their members, the product is associative
    and commutative on them with unit 1, and a quotient by [b] times [b]
    is the dividend again.  (Floating-point complex numbers meet this on
    1, -1, i and -i, the values that [calculate_phase] returns exactly;
    the phase 0 of an open boundary condition is in no such set, as a
    product with it is 0.) *)
Record exact_on (G : P -> Prop) : Prop := {
  exact_one : G (ph_one P);
  exact_mul : forall a b, G a -> G b -> G (ph_mul P a b);
  exact_div : forall a b, G a -> G b -> G (ph_div P a b);
  exact_mul_1_l : forall a, G a -> ph_mul P (ph_one P) a = a;
  exact_mul_comm : forall a b, G a -> G b -> ph_mul P a b = ph_mul P b a;
  exact_mul_assoc : forall a b c, G a -> G b -> G c ->
    ph_mul P (ph_mul P a b) c = ph_mul P a (ph_mul P b c);
  exact_div_mul : forall a b, G a -> G b -> ph_mul P (ph_div P a b) b = a
}.

Lemma zip_with_ext_Forall2 {A B C} (f g : A -> B -> C) (R : A -> B -> Prop) l1 l2 :
  Forall2 R l1 l2 -> (forall a b, R a b -> f a b = g a b) ->
  zip_with f l1 l2 = zip_with g l1 l2.
Proof. induction 1; intros Hfg; simpl; [reflexivity|]. f_equal; auto. Qed.

Lemma Forall_zip_with_Forall2 {A B C} (f : A -> B -> C) (R : A -> B -> Prop)
    (Q : C -> Prop) l1 l2 :
  Forall2 R l1 l2 -> (forall a b, R a b -> Q (f a b)) -> Forall Q (zip_with f l1 l2).
Proof. induction 1; intros Hf; simpl; constructor; auto. Qed.

Lemma dim_phase_0 q ph : dim_phase q 0 ph = ph.
Proof. reflexivity. Qed.

Lemma dims_phase_in len bcs : forall dim coords ph,
  coords_in coords len -> dims_phase len bcs dim coords ph = ph.
Proof.
  induction len as [|L len IH]; intros dim coords ph Hin; inversion Hin; subst; simpl.
  - reflexivity.
  - rewrite Z.div_small by assumption. rewrite dim_phase_0. now apply IH.
Qed.

Lemma zip_mod_in coords len : coords_in coords len -> zip_with Z.modulo coords len = coords.
Proof.
  induction 1 as [|x L coords len Hx _ IH]; simpl; [reflexivity|].
  rewrite IH, Z.mod_small by assumption. reflexivity.
Qed.

(** [w] whole lengths added to coordinate [d] of a site inside the lattice. *)
Lemma dims_phase_insert bcs : forall d len coords dim ph x L w,
  coords_in coords len -> coords !! d = Some x -> len !! d = Some L -> 0 <= w ->
  dims_phase len bcs dim (<[d := x + w * L]> coords) ph =
    mul_times (bc_phase_at bcs (dim + d)) (Z.to_nat w) ph /\
  zip_with Z.modulo (<[d := x + w * L]> coords) len = coords.
Proof.
  induction d as [|d IH]; intros len coords dim ph x L w Hin Hx HL Hw;
    inversion Hin as [|x0 L0 coords' len' Hx0 Hin']; subst; try discriminate;
    simpl in Hx, HL.
  - injection Hx as ->. injection HL as ->.
    change (<[0%nat := x + w * L]> (x :: coords')) with ((x + w * L) :: coords').
    cbn [dims_phase zip_with].
    assert (Hq : (x + w * L) / L = w).
    { rewrite Z.div_add by lia. rewrite Z.div_small by assumption. lia. }
    rewrite Hq, Nat.add_0_r. split.
    + rewrite dims_phase_in by assumption. unfold dim_phase.
      destruct (0 <=? w) eqn:E; [reflexivity|lia].
    + rewrite Z.mod_add by lia. rewrite Z.mod_small by assumption.
      now rewrite zip_mod_in.
  - change (<[S d := x + w * L]> (x0 :: coords')) with (x0 :: <[d := x + w * L]> coords').
    cbn [dims_phase zip_with].
    rewrite (Z.div_small x0) by assumption. rewrite dim_phase_0.
    destruct (IH len' coords' (S dim) ph x L w Hin' Hx HL Hw) as [H1 H2].
    rewrite H1, H2. rewrite Z.mod_small by assumption.
    replace (S dim + d)%nat with (dim + S d)%nat by lia. split; reflexivity.
Qed.

(** [w] wraps upwards from phase 1 multiply [w] times. *)
Lemma mul_times_pow p0 n : mul_times (Some p0) n (ph_one P) = ph_pow p0 n.
Proof.
  induction n as [|n IH]; [reflexivity|].
  cbn [ph_pow]. rewrite <- IH. reflexivity.
Qed.

(** Adding [v] and wrapping, then subtracting [v] and wrapping, over all
    dimensions: the coordinates come back. *)
Lemma add_sub_coords len coords :
  coords_in coords len -> forall v,
  length v = length len ->
  zip_with Z.modulo
    (zip_with Z.sub (zip_with Z.modulo (zip_with Z.add coords v) len) v) len = coords.
Proof.
  induction 1 as [|x L coords len Hx Hin IH]; intros [|vi v] Hlen;
    try discriminate; cbn [zip_with].
  - reflexivity.
  - assert (HL : 0 < L) by lia.
    assert (Hy : (x + vi) mod L - vi = x + (- ((x + vi) / L)) * L).
    { pose proof (Z_div_mod_eq_full (x + vi) L). lia. }
    rewrite Hy. rewrite Z.mod_add by lia. rewrite (Z.mod_small x) by assumption.
    rewrite IH by (simpl in Hlen; lia). reflexivity.
Qed.

Section Exact.

(** A set of phases on which the arithmetic is exact. *)
Variable G : P -> Prop.
Hypothesis HG : exact_on G.

Definition phase_in (q : option P) : Prop := forall p0, q = Some p0 -> G p0.

(** The phase 0 of an open boundary condition is not among such phases,
    where a product with 0 is 0 and 0 is not 1. *)
Lemma exact_on_excludes_zero :
  (forall a, ph_mul P a (ph_zero P) = ph_zero P) -> ph_zero P <> ph_one P ->
  ~ G (ph_zero P).
Proof.
  intros Hzero Hne H0. apply Hne.
  rewrite <- (exact_div_mul G HG (ph_one P) (ph_zero P) (exact_one G HG) H0).
  symmetry. apply Hzero.
Qed.

Lemma times_phase_in q a : phase_in q -> G a -> G (times_phase a q).
Proof.
  intros Hq Ha. destruct q as [p0|]; [|exact Ha].
  apply (exact_mul G HG); [exact Ha|]. now apply Hq.
Qed.

Lemma over_phase_in q a : phase_in q -> G a -> G (over_phase a q).
Proof.
  intros Hq Ha. destruct q as [p0|]; [|exact Ha].
  apply (exact_div G HG); [exact Ha|]. now apply Hq.
Qed.

Lemma mul_times_in q n : forall a, phase_in q -> G a -> G (mul_times q n a).
Proof.
  induction n as [|n IH]; intros a Hq Ha; [exact Ha|].
  rewrite mul_times_S. apply IH; [exact Hq|]. now apply times_phase_in.
Qed.

Lemma div_times_in q n : forall a, phase_in q -> G a -> G (div_times q n a).
Proof.
  induction n as [|n IH]; intros a Hq Ha; [exact Ha|].
  rewrite div_times_S. apply IH; [exact Hq|]. now apply over_phase_in.
Qed.

Lemma dim_phase_in q e a : phase_in q -> G a -> G (dim_phase q e a).
Proof.
  intros Hq Ha. unfold dim_phase.
  destruct (0 <=? e); [now apply mul_times_in|now apply div_times_in].
Qed.

(** One wrap upwards and one wrap downwards cancel. *)
Lemma times_over_cancel q a b :
  phase_in q -> G a -> G b ->
  ph_mul P (times_phase a q) (over_phase b q) = ph_mul P a b.
Proof.
  intros Hq Ha Hb. destruct q as [p0|]; [|reflexivity].
  assert (Hp : G p0) by now apply Hq.
  cbn [times_phase over_phase].
  assert (Hd : G (ph_div P b p0)) by now apply (exact_div G HG).
  rewrite (exact_mul_assoc G HG a p0 (ph_div P b p0) Ha Hp Hd).
  rewrite (exact_mul_comm G HG p0 (ph_div P b p0) Hp Hd).
  rewrite (exact_div_mul G HG b p0 Hb Hp). reflexivity.
Qed.

Lemma mul_div_times_cancel q n : forall a b,
  phase_in q -> G a -> G b ->
  ph_mul P (mul_times q n a) (div_times q n b) = ph_mul P a b.
Proof.
  induction n as [|n IH]; intros a b Hq Ha Hb; [reflexivity|].
  rewrite mul_times_S, div_times_S.
  rewrite IH; [|exact Hq|now apply times_phase_in|now apply over_phase_in].
  now apply times_over_cancel.
Qed.

Lemma dim_phase_cancel q e a b :
  phase_in q -> G a -> G b ->
  ph_mul P (dim_phase q e a) (dim_phase q (- e) b) = ph_mul P a b.
Proof.
  intros Hq Ha Hb. unfold dim_phase.
  destruct (0 <=? e) eqn:E1; destruct (0 <=? - e) eqn:E2.
  - assert (e = 0) as -> by lia. reflexivity.
  - replace (- - e) with e by lia. now apply mul_div_times_cancel.
  - rewrite (exact_mul_comm G HG _ _
               (div_times_in q (Z.to_nat (- e)) a Hq Ha)
               (mul_times_in q (Z.to_nat (- e)) b Hq Hb)).
    rewrite mul_div_times_cancel by assumption.
    now apply (exact_mul_comm G HG).
  - lia.
Qed.

Lemma bc_phase_at_in (bcs : list BoundaryCondition) dim :
  Forall (fun bc => G (phase bc)) bcs -> phase_in (bc_phase_at (Some bcs) dim).
Proof.
  intros Hall p0. unfold bc_phase_at.
  destruct (bcs !! dim) as [bc|] eqn:E; simpl; [|discriminate].
  intros [= <-]. rewrite Forall_forall in Hall. apply Hall.
  eapply list_elem_of_lookup_2. exact E.
Qed.

(** Adding [v] and wrapping, then subtracting [v] and wrapping, over all
    dimensions: the two phases cancel. *)
Lemma add_sub_dims (bcs : list BoundaryCondition) len coords :
  coords_in coords len -> forall v dim pa pb,
  length v = length len ->
  Forall (fun bc => G (phase bc)) bcs ->
  G pa -> G pb ->
  ph_mul P
    (dims_phase len (Some bcs) dim (zip_with Z.add coords v) pa)
    (dims_phase len (Some bcs) dim
       (zip_with Z.sub (zip_with Z.modulo (zip_with Z.add coords v) len) v) pb)
  = ph_mul P pa pb.
Proof.
  induction 1 as [|x L coords len Hx Hin IH]; intros [|vi v] dim pa pb Hlen Hbcs Hpa Hpb;
    try discriminate; cbn [zip_with dims_phase].
  - reflexivity.
  - assert (HL : 0 < L) by lia.
    assert (Hy : (x + vi) mod L - vi = x + (- ((x + vi) / L)) * L).
    { pose proof (Z_div_mod_eq_full (x + vi) L). lia. }
    pose proof (bc_phase_at_in bcs dim Hbcs) as Hq.
    rewrite Hy. rewrite Z.div_add by lia. rewrite (Z.div_small x) by assumption.
    rewrite Z.add_0_l.
    rewrite IH; [|simpl in Hlen; lia|exact Hbcs
                 |now apply dim_phase_in|now apply dim_phase_in].
    now apply dim_phase_cancel.
Qed.

End Exact.

(** C9, as amended.  For every array of initialized boundary conditions,
    adding a Bravais vector [v] to a valid site [s] and subtracting it
    again, wrapping each time, gives [s] back (the sums being
    representable [int]s), and [w] whole lengths added to coordinate [d]
    of a valid site are wrapped away with phase [bcs[d].phase()] to the
    power [w].  The two phases of the way there and back multiply to 1
    when the phases of the boundary conditions belong to a set of phases
    on which the arithmetic is exact, which leaves out the phase 0 of an
    open boundary condition. *)
Theorem enforce_boundary_closure (len : list Z) (B : Z) (bcs : list BoundaryCondition)
    (s : Site) (v : list Z) :
  dims_ok len B ->
  site_in len B s ->
  length v = length len ->
  length bcs = length len ->
  Forall (fun bc => is_initialized bc = true) bcs ->
  let lat := mkNDLattice len B in
  let added := asm_add_site_vector lat s v (Some bcs) in
  let back := asm_subtract_site_vector lat added.1 v (Some bcs) in
  (Forall2 (fun x vi => in_int (x + vi)) (bs s) v ->
   Forall2 (fun y vi => in_int (y - vi)) (bs added.1) v ->
   back.1 = s /\
   forall G : P -> Prop, exact_on G -> Forall (fun bc => G (phase bc)) bcs ->
     ph_mul P added.2 back.2 = ph_one P) /\
  (forall d x L bc w,
     bs s !! d = Some x -> len !! d = Some L -> bcs !! d = Some bc ->
     0 <= w -> in_int (x + w * L) ->
     enforce_boundary lat
       {| bs := <[d := x + w * L]> (bs s); basis_index := basis_index s |} (Some bcs) =
     (s, ph_pow (phase bc) (Z.to_nat w))).
Proof.
  intros Hok [Hc Hb] Hv Hbl Hbcs lat added back.
  destruct (dims_ok_len_ok len B Hok) as [Hlen HB].
  destruct (coords_in_bounds _ _ Hc Hlen) as [Hcb Hcl].
  assert (Hrem : Z.rem (wrap_basis B (basis_index s)) B = basis_index s).
  { rewrite wrap_basis_nonneg by lia. rewrite Z.rem_mod_nonneg by lia.
    now apply Z.mod_small. }
  split.
  - intros Hadd. subst added back lat.
    unfold asm_add_site_vector, asm_subtract_site_vector, enforce_boundary.
    rewrite length_mkNDLattice, basis_indices_mkNDLattice. cbn [bs basis_index].
    rewrite (zip_with_ext_Forall2 int_add Z.add _ _ _ Hadd)
      by (intros a b Hab; now apply int_wrap_small).
    rewrite enforce_dims_spec; [|assumption| |rewrite length_zip_with; lia].
    2:{ eapply Forall_zip_with_Forall2; [exact Hadd|]. intros a b Hab. exact Hab. }
    cbn [fst snd bs basis_index]. rewrite Hrem. intros Hsub.
    rewrite (zip_with_ext_Forall2 int_sub Z.sub _ _ _ Hsub)
      by (intros a b Hab; now apply int_wrap_small).
    rewrite enforce_dims_spec; [|assumption| |rewrite !length_zip_with; lia].
    2:{ eapply Forall_zip_with_Forall2; [exact Hsub|]. intros a b Hab. exact Hab. }
    cbn [fst snd]. rewrite Hrem.
    rewrite (add_sub_coords len (bs s) Hc v Hv). split; [now destruct s|].
    intros G HG HGbcs.
    rewrite (add_sub_dims G HG bcs len (bs s) Hc v 0%nat (ph_one P) (ph_one P) Hv HGbcs
               (exact_one G HG) (exact_one G HG)).
    apply (exact_mul_1_l G HG). apply (exact_one G HG).
  - intros d x L bc w Hx HL Hbc Hw Hint. subst lat.
    unfold enforce_boundary.
    rewrite length_mkNDLattice, basis_indices_mkNDLattice. cbn [bs basis_index].
    rewrite enforce_dims_spec; [|assumption| |rewrite length_insert; lia].
    2:{ apply Forall_insert; [|assumption].
        eapply Forall_impl; [exact Hcb|]. intros a Ha.
        unfold in_int, int_min, int_max in *. lia. }
    destruct (dims_phase_insert (Some bcs) d len (bs s) 0%nat (ph_one P) x L w Hc Hx HL Hw)
      as [H1 H2].
    rewrite H1, H2, Hrem. f_equal; [now destruct s|].
    unfold bc_phase_at. simpl. rewrite Hbc. simpl.
    apply mul_times_pow.
Qed.

End NDLattice.

Lemma plan_particle_move_terminates_witness :
  dims_ok [4] 1 /\
  ([0; 1] : PositionArguments) !! 0%nat = Some 0 /\
  (exists bound, forall fuel, (bound <= fuel)%nat ->
     exists site_index,
       plan_particle_move_to_nearby_empty_site_virtual Qc_phase fuel (mkNDLattice [4] 1)
         0%nat [0; 1] 0%nat 1 = Some site_index /\
       plan_result_ok [0; 1] 0 site_index).
Proof.
  assert (Hok : dims_ok [4] 1).
  { split; [|split]; [repeat (constructor; [lia|]); constructor|lia|vm_compute; discriminate]. }
  split; [exact Hok|]. split; [reflexivity|].
  refine (proj2 (plan_particle_move_terminates Qc_phase [4] 1 0%nat [0; 1] 0 0%nat 1
                   Hok eq_refl _ (or_intror eq_refl))).
  vm_compute. split; [discriminate|reflexivity].
Defined.

Ltac unit_phase_cases :=
  repeat match goal with
         | H : unit_phase _ |- _ => destruct H as [ -> | [ -> | [ -> | -> ] ] ]
         end.

Ltac unit_phase_member :=
  unfold unit_phase;
  first [ left; reflexivity
        | right; left; reflexivity
        | right; right; left; reflexivity
        | right; right; right; reflexivity ].

(** The truncating arithmetic is exact on 1, -1, i and -i, and rounds
    elsewhere: a half is 0. *)
Lemma truncating_exact_on_units : exact_on truncating_phase unit_phase.
Proof.
  constructor.
  - unit_phase_member.
  - intros a b Ha Hb. unit_phase_cases; unit_phase_member.
  - intros a b Ha Hb. unit_phase_cases; unit_phase_member.
  - intros a Ha. unit_phase_cases; reflexivity.
  - intros a b Ha Hb. unit_phase_cases; reflexivity.
  - intros a b c Ha Hb Hc. unit_phase_cases; reflexivity.
  - intros a b Ha Hb. unit_phase_cases; reflexivity.
Qed.

Lemma truncating_phase_rounds :
  ph_mul truncating_phase (ph_div truncating_phase (1, 0) (2, 0)) (2, 0) = (0, 0).
Proof. reflexivity. Qed.

Lemma enforce_boundary_closure_witness :
  let P := truncating_phase in
  let lat := mkNDLattice [6; 4] 1 in
  let bcs := [antiperiodic_bc P; mkBoundaryCondition P (1 # 4)] in
  let s := {| bs := [5; 3]; basis_index := 0 |} in
  let added := asm_add_site_vector P lat s [1; 1] (Some bcs) in
  let back := asm_subtract_site_vector P lat added.1 [1; 1] (Some bcs) in
  dims_ok [6; 4] 1 /\ site_in [6; 4] 1 s /\
  Forall (fun bc => is_initialized P bc = true) bcs /\
  exact_on P unit_phase /\
  Forall (fun bc => unit_phase (phase P bc)) bcs /\
  added = ({| bs := [0; 0]; basis_index := 0 |}, (0, -1)) /\
  back = (s, (0, 1)) /\
  (back.1 = s /\ ph_mul P added.2 back.2 = ph_one P) /\
  enforce_boundary P lat {| bs := [5 + 3 * 6; 3]; basis_index := 0 |} (Some bcs) =
    (s, ph_pow P (-1, 0) 3).
Proof.
  intros P lat bcs s added back.
  assert (Hok : dims_ok [6; 4] 1).
  { split; [|split]; [repeat (constructor; [lia|]); constructor|lia|vm_compute; discriminate]. }
  assert (Hin : site_in [6; 4] 1 s).
  { split; [repeat (constructor; [simpl; lia|]); constructor|simpl; lia]. }
  assert (Hbcs : Forall (fun bc => is_initialized P bc = true) bcs)
    by (repeat constructor).
  assert (Hunits : Forall (fun bc => unit_phase (phase P bc)) bcs)
    by (repeat constructor; unit_phase_member).
  destruct (enforce_boundary_closure P [6; 4] 1 bcs s [1; 1]
              Hok Hin eq_refl eq_refl Hbcs) as [Hround Hwrap].
  split; [exact Hok|]. split; [exact Hin|]. split; [exact Hbcs|].
  split; [exact truncating_exact_on_units|]. split; [exact Hunits|].
  split; [reflexivity|]. split; [reflexivity|]. split.
  - destruct Hround as [Hsite Hphase].
    + repeat constructor; vm_compute; discriminate.
    + repeat constructor; vm_compute; discriminate.
    + split; [exact Hsite|].
      exact (Hphase unit_phase truncating_exact_on_units Hunits).
  - apply (Hwrap 0%nat 5 6 (antiperiodic_bc P) 3); try reflexivity.
    + lia.
    + vm_compute. split; discriminate.
Defined.

(** C9 as stated fails with an open boundary condition, which is
    initialized and has phase 0: one wrap across it makes the accumulated
    phase 0, and no phase of the way back brings the total to 1. *)
Lemma open_boundary_closure_counterexample :
  let lat := mkNDLattice [6] 1 in
  let bcs := [open_bc Qc_phase] in
  let s := {| bs := [5]; basis_index := 0 |} in
  let added := asm_add_site_vector Qc_phase lat s [1] (Some bcs) in
  let back := asm_subtract_site_vector Qc_phase lat added.1 [1] (Some bcs) in
  site_is_valid lat s = true /\
  Forall (fun bc => is_initialized Qc_phase bc = true) bcs /\
  added = ({| bs := [0]; basis_index := 0 |}, 0%Qc) /\
  ~ (back.1 = s /\ ph_mul Qc_phase added.2 back.2 = ph_one Qc_phase).
Proof.
  intros lat bcs s added back.
  assert (Hadd : added = ({| bs := [0]; basis_index := 0 |}, 0%Qc)) by reflexivity.
  split; [reflexivity|]. split; [repeat constructor|]. split; [exact Hadd|].
  intros [_ H]. rewrite Hadd in H. simpl in H.
  rewrite Qcmult_0_l in H. discriminate.
Qed.

(** *** Sites and indices, both ways *)

(** The index loop and the digit loop on the coordinates of a site inside
    the lattice: the index is [acc + c * v] for some [v] below the number
    of Bravais sites, and the digits of [v + list_prod len * b] are the
    coordinates, with [b] left over. *)
Lemma site_loops_inverse coords len :
  coords_in coords len ->
  forall c acc, 0 < c -> 0 <= acc -> c * list_prod len <= int_max ->
  acc + c * (list_prod len - 1) <= int_max ->
  exists v, 0 <= v < list_prod len /\
    site_to_index_loop coords (set_up_offsets c len).1 acc = acc + c * v /\
    forall b, 0 <= b -> site_from_index_loop len (v + list_prod len * b) = (coords, b).
Proof.
  induction 1 as [|x L coords len Hx Hin IH]; intros c acc Hc Hacc Hb Hsum.
  - exists 0. simpl. split; [lia|]. split; [lia|]. intros b _. f_equal. lia.
  - rewrite list_prod_cons in *.
    assert (Hp : 0 < list_prod len).
    { apply list_prod_pos. clear -Hin. induction Hin; constructor; [lia|assumption]. }
    assert (HcL : c * L <= int_max).
    { assert (c * L * 1 <= c * L * list_prod len) by (apply Z.mul_le_mono_nonneg_l; nia).
      replace (c * (L * list_prod len)) with (c * L * list_prod len) in Hb by ring. lia. }
    assert (HLr : L <= int_max).
    { assert (1 * L <= c * L) by (apply Z.mul_le_mono_nonneg_r; lia). lia. }
    assert (Hcr : c <= int_max).
    { assert (c * 1 <= c * L) by (apply Z.mul_le_mono_nonneg_l; lia). lia. }
    assert (Hxc : 0 <= x * c <= c * (L - 1)) by nia.
    cbn [set_up_offsets site_from_index_loop].
    rewrite (uint_wrap_small (c * L)) by (unfold int_max in *; nia).
    rewrite (uint_wrap_small L) by (unfold int_max in *; lia).
    destruct (IH (c * L) (acc + x * c)) as (v & Hv & Hidx & Hdig); try nia.
    destruct (set_up_offsets (c * L) len) as [os c'] eqn:E.
    cbn [fst snd site_to_index_loop] in *.
    exists (x + L * v). split; [nia|]. split.
    + rewrite (int_wrap_small c) by (unfold in_int, int_min, int_max in *; lia).
      unfold int_mul. rewrite int_wrap_small by (unfold in_int, int_min, int_max in *; nia).
      rewrite uint_wrap_small by (unfold int_max in *; nia).
      rewrite Hidx. ring.
    + intros b Hb0.
      replace (x + L * v + L * list_prod len * b) with (x + (v + list_prod len * b) * L) by ring.
      rewrite Z.div_add, Z.mod_add by lia.
      rewrite Z.div_small, Z.mod_small by lia. rewrite Z.add_0_l.
      rewrite Hdig by assumption.
      rewrite int_wrap_small by (unfold in_int, int_min, int_max in *; lia). reflexivity.
Qed.

(** X1: a site index below [total_sites] is turned by [site_from_index]
    into a site that [site_is_valid] accepts (the assertion at its end
    holds), and [site_to_index] turns that site back into the index. *)
Theorem index_to_site_and_back (len : list Z) (B n : Z) :
  dims_ok len B -> 0 <= n < total_sites (mkNDLattice len B) ->
  let lat := mkNDLattice len B in
  site_is_valid lat (site_from_index lat n) = true /\
  site_to_index lat (site_from_index lat n) = n.
Proof.
  intros Hok Hn lat. split.
  - apply site_is_valid_iff. now apply site_from_index_in.
  - now apply site_to_from_index.
Qed.

Lemma dims_ok_4_3_2 : dims_ok [4; 3] 2.
Proof.
  split; [|split]; [repeat (constructor; [lia|]); constructor|lia|vm_compute; discriminate].
Qed.

Lemma index_to_site_and_back_witness :
  let lat := mkNDLattice [4; 3] 2 in
  site_from_index lat 17 = {| bs := [1; 1]; basis_index := 1 |} /\
  site_is_valid lat (site_from_index lat 17) = true /\
  site_to_index lat (site_from_index lat 17) = 17.
Proof.
  split; [reflexivity|].
  apply (index_to_site_and_back [4; 3] 2 17 dims_ok_4_3_2). vm_compute.
  split; [discriminate|reflexivity].
Defined.

(** The index of a site inside the lattice: a number [v] below the number
    of Bravais sites for the coordinates, and the basis index above it. *)
Lemma site_to_index_closed_form len B site :
  dims_ok len B -> site_in len B site ->
  exists v, 0 <= v < list_prod len /\
    site_to_index (mkNDLattice len B) site = v + list_prod len * basis_index site /\
    forall b, 0 <= b -> site_from_index_loop len (v + list_prod len * b) = (bs site, b).
Proof.
  intros (Hpos & HB & Hbound) [Hc Hb]. pose proof (list_prod_pos len Hpos) as Hp.
  destruct (site_loops_inverse (bs site) len Hc 1 0) as (v & Hv & Hidx & Hdig); try nia.
  destruct (index_loops_roundtrip len 1 0 0) as (_ & Hoff & _); try lia; try assumption; try nia.
  exists v. split; [exact Hv|]. split; [|exact Hdig].
  unfold site_to_index. rewrite offset_mkNDLattice, basis_offset_mkNDLattice.
  rewrite Hidx, Hoff.
  rewrite (int_wrap_small (1 * list_prod len))
    by (unfold in_int, int_min, int_max in *; nia).
  unfold int_mul. rewrite int_wrap_small by (unfold in_int, int_min, int_max in *; nia).
  rewrite uint_wrap_small by (unfold int_max in *; nia). ring.
Qed.

Lemma site_to_index_in_range len B site :
  dims_ok len B -> site_in len B site ->
  0 <= site_to_index (mkNDLattice len B) site < list_prod len * B.
Proof.
  intros Hok Hin.
  destruct (site_to_index_closed_form len B site Hok Hin) as (v & Hv & -> & _).
  destruct Hin as [_ Hb]. nia.
Qed.

(** X2: on a site that [site_is_valid] accepts, [site_to_index] gives an
    index below [total_sites] and [site_from_index] turns that index back
    into the site, so the assertion that ends [site_to_index] holds. *)
Theorem site_to_index_and_back (len : list Z) (B : Z) (site : Site) :
  dims_ok len B -> site_is_valid (mkNDLattice len B) site = true ->
  let lat := mkNDLattice len B in
  0 <= site_to_index lat site < total_sites lat /\
  site_from_index lat (site_to_index lat site) = site.
Proof.
  intros Hok Hvalid lat. apply site_is_valid_iff in Hvalid.
  unfold lat. rewrite total_sites_mkNDLattice, count_total_sites_ok by assumption.
  destruct (site_to_index_closed_form len B site Hok Hvalid) as (v & Hv & Hn & Hdig).
  destruct Hvalid as [Hc Hb]. destruct Hok as (Hpos & HB & Hbound).
  rewrite Hn. split; [nia|].
  unfold site_from_index. rewrite length_mkNDLattice, Hdig by lia.
  rewrite int_wrap_small by (unfold in_int, int_min, int_max in *; nia).
  now destruct site.
Qed.

Lemma site_to_index_and_back_witness :
  let lat := mkNDLattice [4; 3] 2 in
  let site := {| bs := [3; 2]; basis_index := 1 |} in
  site_to_index lat site = 23 /\
  0 <= site_to_index lat site < total_sites lat /\
  site_from_index lat (site_to_index lat site) = site.
Proof.
  split; [reflexivity|].
  exact (site_to_index_and_back [4; 3] 2 {| bs := [3; 2]; basis_index := 1 |}
           dims_ok_4_3_2 eq_refl).
Defined.

(** *** Wrapping and stepping in closed form *)

Section Wrapping.

Variable P : phase_ops.

(** [enforce_boundary] in closed form. *)
Lemma enforce_boundary_closed_form (len : list Z) (B : Z)
    (bcs : option (list (BoundaryCondition P))) (site : Site) :
  dims_ok len B -> length (bs site) = length len ->
  Forall in_int (bs site) -> in_int (basis_index site) ->
  (enforce_boundary P (mkNDLattice len B) site bcs).1 =
  {| bs := zip_with Z.modulo (bs site) len; basis_index := basis_index site mod B |}.
Proof.
  intros Hok Hl Hc Hb. destruct (dims_ok_len_ok len B Hok) as [Hlen HB].
  unfold enforce_boundary. rewrite length_mkNDLattice, basis_indices_mkNDLattice.
  rewrite enforce_dims_spec by assumption. cbn [fst].
  rewrite wrap_basis_spec by (try assumption; unfold in_int in Hb; lia).
  reflexivity.
Qed.

Lemma reduced_site_in (len : list Z) (B : Z) (coords : list Z) (b : Z) :
  dims_ok len B -> length coords = length len ->
  site_in len B {| bs := zip_with Z.modulo coords len; basis_index := b mod B |}.
Proof.
  intros Hok Hl. split; cbn [bs basis_index].
  - apply coords_in_mod; [apply Hok|assumption].
  - apply Z.mod_pos_bound. apply Hok.
Qed.

Lemma int_wrap_in_int x : in_int (int_wrap x).
Proof.
  unfold in_int, int_wrap, int_min, int_max.
  pose proof (Z.mod_pos_bound (x + 2 ^ 31) (2 ^ 32)). lia.
Qed.

(** The difference of two sites is wrapped to a site inside the lattice. *)
Lemma asm_subtract_site_in (len : list Z) (B : Z) (site : Site) (other : list Z) :
  dims_ok len B -> site_in len B site -> length other = length len ->
  site_in len B (asm_subtract_site_vector P (mkNDLattice len B) site other None).1.
Proof.
  intros Hok [Hc Hb] Hother. destruct (dims_ok_len_ok len B Hok) as [Hlen HB].
  destruct (coords_in_bounds _ _ Hc Hlen) as [_ Hcl].
  unfold asm_subtract_site_vector. rewrite enforce_boundary_closed_form; cbn [bs basis_index].
  - apply reduced_site_in; [exact Hok|]. rewrite length_zip_with. lia.
  - exact Hok.
  - rewrite length_zip_with. lia.
  - apply Forall_forall. intros x Hx. apply elem_of_lookup_zip_with in Hx.
    destruct Hx as (i & a & b & -> & _ & _). apply int_wrap_in_int.
  - unfold len_ok, in_int, int_min, int_max in *. lia.
Qed.

(** X3: [enforce_boundary] on any site whose coordinates and basis index
    are [int]s: every coordinate is reduced modulo the length of its
    dimension, the basis index modulo [basis_indices], and the result is a
    site that [site_is_valid] accepts, so the assertion at its end holds. *)
Theorem enforce_boundary_reduces (len : list Z) (B : Z)
    (bcs : option (list (BoundaryCondition P))) (site : Site) :
  dims_ok len B -> length (bs site) = length len ->
  Forall in_int (bs site) -> in_int (basis_index site) ->
  let lat := mkNDLattice len B in
  let wrapped := (enforce_boundary P lat site bcs).1 in
  site_is_valid lat wrapped = true /\
  bs wrapped = zip_with Z.modulo (bs site) len /\
  basis_index wrapped = basis_index site mod B.
Proof.
  intros Hok Hl Hc Hb lat wrapped.
  assert (Hw : wrapped = {| bs := zip_with Z.modulo (bs site) len;
                            basis_index := basis_index site mod B |})
    by now apply enforce_boundary_closed_form.
  rewrite Hw. cbn [bs basis_index]. split; [|split; reflexivity].
  apply site_is_valid_iff. now apply reduced_site_in.
Qed.

(** X4: [enforce_boundary] leaves a site that [site_is_valid] accepts as it
    is, and the phase change it returns is 1 whatever the boundary
    conditions are. *)
Theorem enforce_boundary_valid_site (len : list Z) (B : Z)
    (bcs : option (list (BoundaryCondition P))) (site : Site) :
  dims_ok len B -> site_is_valid (mkNDLattice len B) site = true ->
  enforce_boundary P (mkNDLattice len B) site bcs = (site, ph_one P).
Proof.
  intros Hok Hvalid. apply site_is_valid_iff in Hvalid. destruct Hvalid as [Hc Hb].
  destruct (dims_ok_len_ok len B Hok) as [Hlen HB].
  destruct (coords_in_bounds _ _ Hc Hlen) as [Hcb Hcl].
  unfold enforce_boundary. rewrite length_mkNDLattice, basis_indices_mkNDLattice.
  rewrite enforce_dims_spec; [|assumption| |assumption].
  - rewrite zip_mod_in, dims_phase_in by assumption.
    rewrite wrap_basis_spec by (try assumption; unfold int_min; lia).
    rewrite Z.mod_small by assumption. now destruct site.
  - eapply Forall_impl; [exact Hcb|].
    intros x Hx. cbv beta in Hx. unfold in_int, int_min, int_max in *. lia.
Qed.

Lemma step_back_coords d coords len :
  coords_in coords len -> forall mv, length mv = length len ->
  zip_with Z.modulo
    (zip_with (fun y mi => y + - d * mi)
       (zip_with Z.modulo (zip_with (fun x mi => x + d * mi) coords mv) len) mv) len = coords.
Proof.
  induction 1 as [|x L coords len Hx _ IH]; intros [|mi mv] Hlen; try discriminate;
    simpl; [reflexivity|].
  f_equal.
  - rewrite Zplus_mod_idemp_l. replace (x + d * mi + - d * mi) with x by ring.
    now apply Z.mod_small.
  - apply IH. simpl in Hlen. lia.
Qed.

(** X5: a [move_site] of a valid site along one of the move axes gives a
    valid site, and the step in the opposite direction along the same axis
    brings the site back. *)
Theorem move_site_and_back (len : list Z) (B : Z) (site : Site) (move_axis : nat)
    (step_direction : Z) :
  dims_ok len B -> site_is_valid (mkNDLattice len B) site = true ->
  (move_axis < move_axes_count (mkNDLattice len B))%nat ->
  step_direction = -1 \/ step_direction = 1 ->
  let lat := mkNDLattice len B in
  let moved := move_site P lat site move_axis step_direction in
  site_is_valid lat moved = true /\
  move_site P lat moved move_axis (- step_direction) = site.
Proof.
  intros Hok Hvalid Ha Hd lat moved. apply site_is_valid_iff in Hvalid.
  destruct (lookup_lt_is_Some_2 _ _ Ha) as [m Hm].
  destruct (move_axes_ok len B move_axis m Hm) as (Hmv & Hml & Hmb).
  destruct (dims_ok_len_ok len B Hok) as [Hlen HB].
  destruct (coords_in_bounds _ _ (proj1 Hvalid) Hlen) as [_ Hcl].
  assert (Hmoved : site_in len B moved).
  { unfold moved, lat. rewrite (move_site_in P len B site move_axis m) by assumption.
    split; cbn [bs basis_index].
    - apply coords_in_mod; [apply Hok|]. rewrite length_zip_with. lia.
    - apply Z.mod_pos_bound. apply Hok. }
  split; [now apply site_is_valid_iff|].
  unfold lat. rewrite (move_site_in P len B moved move_axis m) by (try assumption; lia).
  unfold moved, lat. rewrite (move_site_in P len B site move_axis m) by assumption.
  cbn [bs basis_index]. rewrite step_back_coords by (try apply Hvalid; assumption).
  rewrite Zplus_mod_idemp_l.
  replace (basis_index site + step_direction * move_basis_index m +
           - step_direction * move_basis_index m) with (basis_index site) by ring.
  rewrite Z.mod_small by apply Hvalid. now destruct site.
Qed.

End Wrapping.

Lemma enforce_boundary_reduces_witness :
  let lat := mkNDLattice [4; 3] 2 in
  let site := {| bs := [-5; 7]; basis_index := -3 |} in
  let wrapped := (enforce_boundary Qc_phase lat site None).1 in
  wrapped = {| bs := [3; 1]; basis_index := 1 |} /\
  site_is_valid lat wrapped = true /\
  bs wrapped = zip_with Z.modulo [-5; 7] [4; 3] /\
  basis_index wrapped = (-3) mod 2.
Proof.
  split; [reflexivity|].
  apply (enforce_boundary_reduces Qc_phase [4; 3] 2 None
           {| bs := [-5; 7]; basis_index := -3 |} dims_ok_4_3_2 eq_refl).
  - repeat constructor; vm_compute; discriminate.
  - split; vm_compute; discriminate.
Defined.

Lemma enforce_boundary_valid_site_witness :
  enforce_boundary Qc_phase (mkNDLattice [4; 3] 2) {| bs := [3; 2]; basis_index := 1 |}
    (Some [antiperiodic_bc Qc_phase; open_bc Qc_phase]) =
  ({| bs := [3; 2]; basis_index := 1 |}, ph_one Qc_phase).
Proof.
  exact (enforce_boundary_valid_site Qc_phase [4; 3] 2
           (Some [antiperiodic_bc Qc_phase; open_bc Qc_phase])
           {| bs := [3; 2]; basis_index := 1 |} dims_ok_4_3_2 eq_refl).
Defined.

Lemma move_site_and_back_witness :
  let lat := mkNDLattice [4; 3] 2 in
  let site := {| bs := [3; 2]; basis_index := 1 |} in
  let moved := move_site Qc_phase lat site 0 1 in
  moved = {| bs := [0; 2]; basis_index := 1 |} /\
  site_is_valid lat moved = true /\
  move_site Qc_phase lat moved 0 (- (1)) = site.
Proof.
  split; [reflexivity|].
  apply (move_site_and_back Qc_phase [4; 3] 2 {| bs := [3; 2]; basis_index := 1 |} 0 1
           dims_ok_4_3_2 eq_refl).
  - vm_compute. lia.
  - now right.
Defined.

(** *** The default move axes *)

Lemma zip_zero_step d coords len :
  coords_in coords len ->
  zip_with Z.modulo
    (zip_with (fun x mi => x + d * mi) coords (replicate (length len) 0)) len = coords.
Proof.
  induction 1 as [|x L coords len Hx _ IH]; simpl; [reflexivity|].
  rewrite IH. replace (x + d * 0) with x by ring. now rewrite Z.mod_small.
Qed.

Lemma zip_unit_step d coords len :
  coords_in coords len -> forall i x L,
  coords !! i = Some x -> len !! i = Some L ->
  zip_with Z.modulo
    (zip_with (fun x mi => x + d * mi) coords (<[i := 1]> (replicate (length len) 0))) len =
  <[i := (x + d) mod L]> coords.
Proof.
  induction 1 as [|x0 L0 coords len Hx Hin IH]; intros [|i] x L Hc Hl; try discriminate;
    simpl in Hc, Hl.
  - injection Hc as ->. injection Hl as ->. simpl.
    rewrite zip_zero_step by assumption. now replace (x + d * 1) with (x + d) by ring.
  - simpl. rewrite (IH i x L) by assumption.
    replace (x0 + d * 0) with x0 by ring. now rewrite Z.mod_small.
Qed.

Lemma unit_axis_lookup len B i :
  (i < length len)%nat ->
  move_axes (mkNDLattice len B) !! i = Some (unit_move (length len) i).
Proof.
  intros Hi. rewrite move_axes_mkNDLattice.
  rewrite lookup_app_l by (rewrite length_map, length_seq; exact Hi).
  change (map (unit_move (length len)) (seq 0 (length len)))
    with (unit_move (length len) <$> seq 0 (length len)).
  rewrite list_lookup_fmap, lookup_seq_lt by exact Hi. reflexivity.
Qed.

Section MoveAxes.

Variable P : phase_ops.

(** X6: the constructor's move axis [i], for [i] below the number of
    dimensions, steps coordinate [i] alone: [move_site] replaces it by
    [(x + step_direction) mod length[i]] and leaves the other coordinates
    and the basis index as they are. *)
Theorem move_site_along_dimension (len : list Z) (B : Z) (site : Site) (i : nat)
    (x L step_direction : Z) :
  dims_ok len B -> site_is_valid (mkNDLattice len B) site = true ->
  len !! i = Some L -> bs site !! i = Some x ->
  step_direction = -1 \/ step_direction = 1 ->
  move_site P (mkNDLattice len B) site i step_direction =
  {| bs := <[i := (x + step_direction) mod L]> (bs site);
     basis_index := basis_index site |}.
Proof.
  intros Hok Hvalid HL Hx Hd. apply site_is_valid_iff in Hvalid.
  apply lookup_lt_Some in HL as Hi.
  rewrite (move_site_in P len B site i (unit_move (length len) i) step_direction Hok Hvalid
             (unit_axis_lookup len B i Hi) Hd).
  cbn [unit_move bravais_site move_basis_index].
  rewrite (zip_unit_step step_direction (bs site) len (proj1 Hvalid) i x L Hx HL).
  replace (basis_index site + step_direction * 0) with (basis_index site) by ring.
  rewrite (Z.mod_small (basis_index site)) by apply Hvalid. reflexivity.
Qed.

(** X7: with more than one basis index the constructor adds one more move
    axis, after those of the dimensions; [move_site] along it steps the
    basis index modulo [basis_indices] and keeps the Bravais site.  With
    one basis index there are only the axes of the dimensions. *)
Theorem move_site_along_basis (len : list Z) (B : Z) (site : Site) (step_direction : Z) :
  dims_ok len B -> site_is_valid (mkNDLattice len B) site = true ->
  step_direction = -1 \/ step_direction = 1 ->
  let lat := mkNDLattice len B in
  if 1 <? B
  then move_axes_count lat = S (length len) /\
       move_site P lat site (length len) step_direction =
       {| bs := bs site; basis_index := (basis_index site + step_direction) mod B |}
  else move_axes_count lat = length len.
Proof.
  intros Hok Hvalid Hd lat. apply site_is_valid_iff in Hvalid.
  assert (Hcount : move_axes_count lat =
                   (length len + if (1 <? B)%Z then 1 else 0)%nat).
  { unfold move_axes_count, lat. rewrite move_axes_mkNDLattice.
    rewrite length_app, length_map, length_seq. now destruct (1 <? B). }
  destruct (1 <? B) eqn:HB; [|lia]. split; [lia|].
  assert (Hm : move_axes (mkNDLattice len B) !! length len = Some (basis_move (length len))).
  { rewrite move_axes_mkNDLattice, HB.
    rewrite lookup_app_r by (rewrite length_map, length_seq; lia).
    rewrite length_map, length_seq, Nat.sub_diag. reflexivity. }
  unfold lat. rewrite (move_site_in P len B site _ _ step_direction Hok Hvalid Hm Hd).
  cbn [basis_move bravais_site move_basis_index].
  rewrite zip_zero_step by apply Hvalid.
  now replace (basis_index site + step_direction * 1)
    with (basis_index site + step_direction) by ring.
Qed.

End MoveAxes.

Lemma move_site_along_dimension_witness :
  move_site Qc_phase (mkNDLattice [4; 3] 2) {| bs := [3; 0]; basis_index := 1 |} 1 (- (1)) =
  {| bs := [3; 2]; basis_index := 1 |}.
Proof.
  apply (move_site_along_dimension Qc_phase [4; 3] 2 {| bs := [3; 0]; basis_index := 1 |}
           1 0 3 (- (1)) dims_ok_4_3_2 eq_refl eq_refl eq_refl).
  now left.
Defined.

Lemma move_site_along_basis_witness :
  let lat := mkNDLattice [4; 3] 2 in
  move_axes_count lat = 3%nat /\
  move_site Qc_phase lat {| bs := [3; 0]; basis_index := 1 |} 2 1 =
  {| bs := [3; 0]; basis_index := 0 |}.
Proof.
  apply (move_site_along_basis Qc_phase [4; 3] 2 {| bs := [3; 0]; basis_index := 1 |} 1
           dims_ok_4_3_2 eq_refl).
  now right.
Defined.

(** *** SimpleSubsystem.hpp *)

(** [SimpleSubsystem<DIM>] holds [subsystem_length], an array of [DIM]
    [unsigned int]s.  [lattice_makes_sense]: the dynamic cast to
    [NDLattice<DIM>] succeeds when the lattice has the subsystem's number
    of dimensions. *)
Definition lattice_makes_sense (subsystem_length : list Z) (lat : NDLattice) : bool :=
  bool_decide (DIM lat = length subsystem_length).

(** [SimpleSubsystem (unsigned int subsystem_length_)] *)
Definition mkSimpleSubsystem (dim : nat) (subsystem_length_ : Z) : list Z :=
  replicate dim subsystem_length_.

(** The loop of [particle_is_within]: [BOOST_ASSERT(site[i] >= 0)], then
    [if (site[i] >= (int) subsystem_length[i]) return false]. *)
Fixpoint particle_is_within_loop (coords subsystem_length : list Z) : option bool :=
  match coords, subsystem_length with
  | x :: coords', l :: rest =>
      if x <? 0 then None
      else if int_wrap l <=? x then Some false
      else particle_is_within_loop coords' rest
  | _, _ => Some true
  end.

(** [particle_is_within]; [None] is a failed assertion: its own, or one of
    the two of [site_from_index]. *)
Definition particle_is_within (subsystem_length : list Z) (site_index : Z)
    (lat : NDLattice) : option bool :=
  if negb (lattice_makes_sense subsystem_length lat) then None
  else if negb (site_index <? total_sites lat) then None
  else
    let site := site_from_index lat site_index in
    if negb (site_is_valid lat site) then None
    else particle_is_within_loop (bs site) subsystem_length.

(** Coordinate [i] of the site with index [n]. *)
Lemma site_from_index_loop_lookup len :
  Forall len_ok len -> forall n i L, 0 <= n -> len !! i = Some L ->
  (site_from_index_loop len n).1 !! i = Some ((n / list_prod (take i len)) mod L).
Proof.
  induction 1 as [|L0 len HL0 Hrest IH]; intros n i L Hn Hi; [discriminate|].
  cbn [site_from_index_loop].
  rewrite uint_wrap_small by (unfold len_ok, int_max in *; lia).
  assert (H0 : 0 < L0) by (unfold len_ok in *; lia).
  specialize (IH (n / L0)).
  destruct (site_from_index_loop len (n / L0)) as [coords n'] eqn:E. cbn [fst] in *.
  destruct i as [|i]; simpl in Hi.
  - injection Hi as ->. simpl. rewrite Z.div_1_r.
    pose proof (Z.mod_pos_bound n L H0).
    rewrite int_wrap_small by (unfold len_ok, in_int, int_min, int_max in *; lia).
    reflexivity.
  - cbn [take lookup list_lookup]. rewrite list_prod_cons.
    assert (0 < list_prod (take i len)).
    { apply list_prod_pos. apply Forall_take.
      eapply Forall_impl; [exact Hrest|]. intros y Hy. unfold len_ok in Hy. lia. }
    rewrite <- Z.div_div by lia.
    apply IH; [apply Z.div_pos; lia|exact Hi].
Qed.

Lemma particle_is_within_loop_spec coords len :
  coords_in coords len -> forall subsystem_length,
  length subsystem_length = length len ->
  exists within, particle_is_within_loop coords subsystem_length = Some within /\
    (within = true <-> Forall2 (fun x l => x < int_wrap l) coords subsystem_length).
Proof.
  induction 1 as [|x L coords len Hx _ IH]; intros [|l rest] Hlen; try discriminate.
  - exists true. split; [reflexivity|]. split; [constructor|reflexivity].
  - cbn [particle_is_within_loop].
    destruct (Z.ltb_spec x 0) as [Hneg|_]; [lia|].
    destruct (Z.leb_spec (int_wrap l) x) as [Hout|Hwithin].
    + exists false. split; [reflexivity|]. split; [discriminate|].
      inversion 1; subst. lia.
    + destruct (IH rest) as (within & Hrun & Hiff); [simpl in Hlen; lia|].
      exists within. split; [exact Hrun|]. rewrite Hiff. split.
      * now constructor.
      * now inversion 1.
Qed.

Lemma particle_is_within_loop_empty coords len :
  coords_in coords len -> forall subsystem_length i l,
  length subsystem_length = length len ->
  subsystem_length !! i = Some l -> int_wrap l <= 0 ->
  particle_is_within_loop coords subsystem_length = Some false.
Proof.
  induction 1 as [|x L coords len Hx _ IH]; intros [|l0 rest] i l Hlen Hl Hneg;
    try discriminate.
  cbn [particle_is_within_loop].
  destruct (Z.ltb_spec x 0) as [Hx0|_]; [lia|].
  destruct (Z.leb_spec (int_wrap l0) x) as [Hout|Hwithin]; [reflexivity|].
  destruct i as [|i]; simpl in Hl.
  - injection Hl as ->. lia.
  - apply (IH rest i l); [simpl in Hlen; lia|exact Hl|exact Hneg].
Qed.

(** With the dimensions matching and the index in range, the assertions
    before the loop hold. *)
Lemma particle_is_within_run len B subsystem_length n :
  dims_ok len B -> length subsystem_length = length len ->
  0 <= n < total_sites (mkNDLattice len B) ->
  particle_is_within subsystem_length n (mkNDLattice len B) =
  particle_is_within_loop (bs (site_from_index (mkNDLattice len B) n)) subsystem_length.
Proof.
  intros Hok Hlen Hn.
  pose proof (site_from_index_in len B n Hok Hn) as Hin.
  unfold particle_is_within, lattice_makes_sense, DIM.
  rewrite length_mkNDLattice.
  rewrite bool_decide_eq_true_2 by (symmetry; exact Hlen).
  rewrite (proj2 (Z.ltb_lt _ _) (proj2 Hn)).
  rewrite (proj2 (site_is_valid_iff len B _) Hin). reflexivity.
Qed.

(** X8: [particle_is_within] on a subsystem with the lattice's number of
    dimensions and a site index below [total_sites] fails none of its
    assertions, and it answers true exactly when every coordinate of the
    site, [(n / (length[0] * ... * length[i-1])) mod length[i]], is below
    the subsystem's length in that dimension read as an [int]. *)
Theorem particle_is_within_spec (len : list Z) (B : Z) (subsystem_length : list Z) (n : Z) :
  dims_ok len B -> length subsystem_length = length len ->
  0 <= n < total_sites (mkNDLattice len B) ->
  exists within,
    particle_is_within subsystem_length n (mkNDLattice len B) = Some within /\
    (within = true <->
     forall i L l, len !! i = Some L -> subsystem_length !! i = Some l ->
       (n / list_prod (take i len)) mod L < int_wrap l).
Proof.
  intros Hok Hlen Hn.
  pose proof (site_from_index_in len B n Hok Hn) as Hin.
  destruct (dims_ok_len_ok len B Hok) as [Hlok _].
  rewrite particle_is_within_run by assumption.
  destruct (particle_is_within_loop_spec _ len (proj1 Hin) subsystem_length Hlen)
    as (within & Hrun & Hiff).
  exists within. split; [exact Hrun|]. rewrite Hiff.
  assert (Hcoord : forall i L, len !! i = Some L ->
            bs (site_from_index (mkNDLattice len B) n) !! i =
            Some ((n / list_prod (take i len)) mod L)).
  { intros i L HL. unfold site_from_index. rewrite length_mkNDLattice.
    pose proof (site_from_index_loop_lookup len Hlok n i L (proj1 Hn) HL) as Hlk.
    destruct (site_from_index_loop len n) as [coords n']. exact Hlk. }
  rewrite Forall2_same_length_lookup. split.
  - intros [_ Hall] i L l HL Hl. apply (Hall i); [now apply Hcoord|exact Hl].
  - intros Hall. split.
    + destruct (coords_in_bounds _ _ (proj1 Hin) Hlok) as [_ Hcl]. lia.
    + intros i x l Hx Hl.
      destruct (lookup_lt_is_Some_2 len i) as [L HL].
      { apply lookup_lt_Some in Hl. lia. }
      rewrite (Hcoord i L HL) in Hx. injection Hx as <-. now apply (Hall i).
Qed.

Lemma particle_is_within_spec_witness :
  exists within,
    particle_is_within (mkSimpleSubsystem 2 2) 17 (mkNDLattice [4; 3] 2) = Some within /\
    (within = true <->
     forall i L l, [4; 3] !! i = Some L -> mkSimpleSubsystem 2 2 !! i = Some l ->
       (17 / list_prod (take i [4; 3])) mod L < int_wrap l).
Proof.
  apply (particle_is_within_spec [4; 3] 2 (mkSimpleSubsystem 2 2) 17 dims_ok_4_3_2 eq_refl).
  vm_compute. split; [discriminate|reflexivity].
Defined.

(** X9: a subsystem whose length in some dimension is 0, or is [2^31] or
    more (the cast to [int] makes it negative), contains no site:
    [particle_is_within] answers false for every site index. *)
Theorem particle_is_within_empty_subsystem (len : list Z) (B : Z)
    (subsystem_length : list Z) (n : Z) (i : nat) (l : Z) :
  dims_ok len B -> length subsystem_length = length len ->
  0 <= n < total_sites (mkNDLattice len B) ->
  subsystem_length !! i = Some l -> l = 0 \/ 2 ^ 31 <= l < 2 ^ 32 ->
  particle_is_within subsystem_length n (mkNDLattice len B) = Some false.
Proof.
  intros Hok Hlen Hn Hl Hempty.
  pose proof (site_from_index_in len B n Hok Hn) as Hin.
  rewrite particle_is_within_run by assumption.
  apply (particle_is_within_loop_empty _ len (proj1 Hin) subsystem_length i l Hlen Hl).
  destruct Hempty as [-> | Hhuge]; [vm_compute; discriminate|].
  assert (int_wrap l = l - 2 ^ 32); [|lia].
  unfold int_wrap. replace (l + 2 ^ 31) with (l - 2 ^ 31 + 1 * 2 ^ 32) by lia.
  rewrite Z.mod_add by lia. rewrite Z.mod_small by lia. lia.
Qed.

Lemma particle_is_within_empty_subsystem_witness :
  particle_is_within [2; 2 ^ 31] 17 (mkNDLattice [4; 3] 2) = Some false.
Proof.
  apply (particle_is_within_empty_subsystem [4; 3] 2 [2; 2 ^ 31] 17 1 (2 ^ 31)
           dims_ok_4_3_2 eq_refl).
  - vm_compute. split; [discriminate|reflexivity].
  - reflexivity.
  - right. vm_compute. split; [discriminate|reflexivity].
Defined.

End Lattice.

(** ** DensityDensityMeasurement.hpp and the measurement part of
    vmc-core/MetropolisSimulation.cpp *)

Module Density.
Section Measurement.

Variable P : phase_ops.

(** [Eigen::Array<unsigned int, Dynamic, Dynamic>]: the rows are the basis
    indices, the columns the site indices. *)
Definition uint_array2 : Type := list (list Z).
Definition uint_array1 : Type := list Z.

Record DensityDensityMeasurement := {
  density_accum : uint_array2;
  current_density_accum : uint_array2;
  denominator : uint_array1;
  current_denominator : uint_array1
}.

(** [++a(row, col)] and [++v(row)] on [unsigned int] entries. *)
Definition increment2 (a : uint_array2) (row col : Z) : uint_array2 :=
  alter (alter (fun x => uint_wrap (x + 1)) (Z.to_nat col)) (Z.to_nat row) a.

Definition increment1 (v : uint_array1) (row : Z) : uint_array1 :=
  alter (fun x => uint_wrap (x + 1)) (Z.to_nat row) v.

(** [a += b], coefficient-wise. *)
Definition add1 (a b : uint_array1) : uint_array1 :=
  zip_with (fun x y => uint_wrap (x + y)) a b.

Definition add2 (a b : uint_array2) : uint_array2 := zip_with add1 a b.

Definition setZero1 (v : uint_array1) : uint_array1 := map (fun _ => 0) v.
Definition setZero2 (a : uint_array2) : uint_array2 := map setZero1 a.

(** [initialize_]: the accumulators are zeroed; the [current_] arrays are
    only resized ([resizeLike]), their contents [fresh2], [fresh1] are
    whatever the allocation holds. *)
Definition initialize_ (lat : Lattice.NDLattice) (fresh2 : uint_array2)
    (fresh1 : uint_array1) : DensityDensityMeasurement :=
  let total_sites := Z.to_nat (Lattice.total_sites lat) in
  let basis_indices := Z.to_nat (Lattice.basis_indices lat) in
  {| density_accum := replicate basis_indices (replicate total_sites 0);
     current_density_accum := fresh2;
     denominator := replicate basis_indices 0;
     current_denominator := fresh1 |}.

(** [repeat_measurement_] *)
Definition repeat_measurement_ (m : DensityDensityMeasurement) : DensityDensityMeasurement :=
  {| density_accum := add2 (density_accum m) (current_density_accum m);
     current_density_accum := current_density_accum m;
     denominator := add1 (denominator m) (current_denominator m);
     current_denominator := current_denominator m |}.

(** The inner loop of [measure_] over the particles [j], for the site
    [site_i] of particle [i]. *)
Definition measure_inner (lat : Lattice.NDLattice) (r : Lattice.PositionArguments)
    (site_i : Lattice.Site) (acc : uint_array2) : uint_array2 :=
  fold_left
    (fun acc rj =>
       let site_j := Lattice.site_from_index lat rj in
       let site_j' :=
         (Lattice.asm_subtract_site_vector P lat site_j (Lattice.bs site_i) None).1 in
       increment2 acc (Lattice.basis_index site_i) (Lattice.site_to_index lat site_j'))
    r acc.

(** [measure_]: both loops write to [density_accum] and [denominator]. *)
Definition measure_ (lat : Lattice.NDLattice) (r : Lattice.PositionArguments)
    (m : DensityDensityMeasurement) : DensityDensityMeasurement :=
  let cur2 := setZero2 (current_density_accum m) in
  let cur1 := setZero1 (current_denominator m) in
  let '(acc, den) :=
    fold_left
      (fun '(acc, den) ri =>
         let site_i := Lattice.site_from_index lat ri in
         (measure_inner lat r site_i acc, increment1 den (Lattice.basis_index site_i)))
      r (density_accum m, denominator m) in
  repeat_measurement_
    {| density_accum := acc; current_density_accum := cur2;
       denominator := den; current_denominator := cur1 |}.

(** Modelled from the spec: Measurement.hpp is not among the sources.
    [step_advanced] lets the measurement observe the newly advanced state
    ([measure_]); [step_repeated] lets it repeat its previous contribution
    ([repeat_measurement_]). *)
Definition step_advanced (lat : Lattice.NDLattice) (r : Lattice.PositionArguments)
    (m : DensityDensityMeasurement) : DensityDensityMeasurement :=
  measure_ lat r m.

Definition step_repeated (lat : Lattice.NDLattice) (r : Lattice.PositionArguments)
    (m : DensityDensityMeasurement) : DensityDensityMeasurement :=
  repeat_measurement_ m.

(** The measurement side of [MetropolisSimulation]. *)
Record MetropolisSimulation := {
  measurement : DensityDensityMeasurement;
  measurement_not_yet_updated : bool
}.

(** [MetropolisSimulation::iterate]: each sweep is given by the outcome of
    [perform_single_step] ([accepted]) and the walk's positions after it. *)
Definition iterate (lat : Lattice.NDLattice)
    (sweeps : list (bool * Lattice.PositionArguments))
    (sim : MetropolisSimulation) : MetropolisSimulation :=
  fold_left
    (fun sim '(accepted, r) =>
       if accepted || measurement_not_yet_updated sim
       then {| measurement := step_advanced lat r (measurement sim);
               measurement_not_yet_updated := false |}
       else {| measurement := step_repeated lat r (measurement sim);
               measurement_not_yet_updated := measurement_not_yet_updated sim |})
    sweeps sim.

(** After [measure_] the [current_] arrays are zero. *)
Lemma measure_current_zero lat r m :
  current_density_accum (measure_ lat r m) = setZero2 (current_density_accum m) /\
  current_denominator (measure_ lat r m) = setZero1 (current_denominator m).
Proof.
  unfold measure_.
  destruct (fold_left _ r (density_accum m, denominator m)) as [acc den].
  split; reflexivity.
Qed.

End Measurement.

(** C5 fails on the code: on a chain of two sites with one particle on site
    0, the advanced step adds 1 to [density_accum(0, 0)] and to
    [denominator(0)], and the repeated step that follows adds nothing. *)
Theorem step_repeated_adds_nothing :
  let lat := Lattice.mkNDLattice [2] 1 in
  let r := [0] in
  let m0 := initialize_ lat [[7; 7]] [7] in
  let m1 := step_advanced Qc_phase lat r m0 in
  let m2 := step_repeated lat r m1 in
  (density_accum m0 = [[0; 0]] /\ denominator m0 = [0]) /\
  (density_accum m1 = [[1; 0]] /\ denominator m1 = [1]) /\
  (density_accum m2 = [[1; 0]] /\ denominator m2 = [1]).
Proof. vm_compute. repeat split. Qed.

(** The same through [iterate]: an accepted sweep followed by a rejected one. *)
Lemma iterate_rejected_adds_nothing :
  let lat := Lattice.mkNDLattice [2] 1 in
  let sim0 := {| measurement := initialize_ lat [[7; 7]] [7];
                 measurement_not_yet_updated := true |} in
  let sim1 := iterate Qc_phase lat [(true, [0])] sim0 in
  let sim2 := iterate Qc_phase lat [(true, [0]); (false, [0])] sim0 in
  density_accum (measurement sim2) = density_accum (measurement sim1) /\
  denominator (measurement sim2) = denominator (measurement sim1) /\
  density_accum (measurement sim1) = [[1; 0]].
Proof. vm_compute. repeat split. Qed.

(** *** The accumulators over a run *)

(** The arrays as [initialize_] leaves their shapes ([resizeLike]): the
    [current_] arrays are as large as the accumulators; the entries are
    [unsigned int]s. *)
Definition uint_entries (v : uint_array1) : Prop := Forall (fun x => 0 <= x < 2 ^ 32) v.

Definition shaped (m : DensityDensityMeasurement) : Prop :=
  Forall2 (fun a c => length a = length c) (density_accum m) (current_density_accum m) /\
  length (denominator m) = length (current_denominator m) /\
  Forall uint_entries (density_accum m) /\ uint_entries (denominator m).

Lemma add1_zero (a c : uint_array1) :
  length a = length c -> uint_entries a -> add1 a (setZero1 c) = a.
Proof.
  revert c. induction a as [|x a IH]; intros [|y c] Hlen Ha; try discriminate;
    [reflexivity|].
  inversion Ha; subst. cbn [add1 setZero1 map zip_with]. f_equal.
  - rewrite Z.add_0_r. now apply uint_wrap_small.
  - apply IH; [simpl in Hlen; lia|assumption].
Qed.

Lemma add2_zero (a c : uint_array2) :
  Forall2 (fun x y => length x = length y) a c -> Forall uint_entries a ->
  add2 a (setZero2 c) = a.
Proof.
  induction 1 as [|x y a c Hxy _ IH]; intros Ha; [reflexivity|].
  inversion Ha; subst. cbn [add2 setZero2 map zip_with]. f_equal.
  - now apply add1_zero.
  - now apply IH.
Qed.

Lemma length_setZero1 v : length (setZero1 v) = length v.
Proof. apply length_map. Qed.

Lemma setZero1_idem v : setZero1 (setZero1 v) = setZero1 v.
Proof. unfold setZero1. rewrite map_map. reflexivity. Qed.

Lemma setZero2_idem a : setZero2 (setZero2 a) = setZero2 a.
Proof.
  unfold setZero2. rewrite map_map. apply map_ext. intros v. apply setZero1_idem.
Qed.

Lemma increment1_entries v row : uint_entries v -> uint_entries (increment1 v row).
Proof.
  unfold uint_entries, increment1. intros H. apply Forall_alter; [exact H|].
  intros x _ _. apply uint_wrap_range.
Qed.

Lemma increment2_entries a row col :
  Forall uint_entries a -> Forall uint_entries (increment2 a row col).
Proof.
  unfold increment2. intros H. apply Forall_alter; [exact H|].
  intros v _ Hv. now apply (increment1_entries v col).
Qed.

Lemma increment2_shape (a c : uint_array2) row col :
  Forall2 (fun x y => length x = length y) a c ->
  Forall2 (fun x y => length x = length y) (increment2 a row col) c.
Proof.
  unfold increment2, uint_array2 in *. intros H. apply Forall2_same_length_lookup.
  apply Forall2_same_length_lookup in H as [Hlen H].
  split; [now rewrite length_alter|]. intros i x y Hx Hy.
  destruct (decide (Z.to_nat row = i)) as [<-|Hne].
  - rewrite list_lookup_alter_eq in Hx.
    destruct (a !! Z.to_nat row) as [x0|] eqn:E; [|discriminate]. injection Hx as <-.
    rewrite length_alter. now apply (H (Z.to_nat row)).
  - rewrite list_lookup_alter_ne in Hx by exact Hne. now apply (H i).
Qed.

Section Run.

Variable P : phase_ops.

(** What the two loops of [measure_] keep of the arrays they write to. *)
Definition loops_keep (c2 : uint_array2) (c1 : uint_array1)
    (arrays : uint_array2 * uint_array1) : Prop :=
  Forall2 (fun a c => length a = length c) arrays.1 c2 /\
  length arrays.2 = length c1 /\
  Forall uint_entries arrays.1 /\ uint_entries arrays.2.

Lemma measure_inner_keeps lat site_i (c2 : uint_array2) (l : Lattice.PositionArguments) :
  forall acc : uint_array2,
  Forall2 (fun a c => length a = length c) acc c2 /\ Forall uint_entries acc ->
  let acc' :=
    fold_left
      (fun acc rj =>
         let site_j := Lattice.site_from_index lat rj in
         let site_j' :=
           (Lattice.asm_subtract_site_vector P lat site_j (Lattice.bs site_i) None).1 in
         increment2 acc (Lattice.basis_index site_i) (Lattice.site_to_index lat site_j'))
      l acc in
  Forall2 (fun a c => length a = length c) acc' c2 /\ Forall uint_entries acc'.
Proof.
  induction l as [|rj l IH]; intros acc [Hshape Hentries]; [now split|].
  cbn [fold_left]. apply IH. split.
  - now apply increment2_shape.
  - now apply increment2_entries.
Qed.

(** The two loops of [measure_], over the particles [l]. *)
Definition measure_loops (lat : Lattice.NDLattice) (r l : Lattice.PositionArguments)
    (arrays : uint_array2 * uint_array1) : uint_array2 * uint_array1 :=
  fold_left
    (fun '(acc, den) ri =>
       let site_i := Lattice.site_from_index lat ri in
       (measure_inner P lat r site_i acc, increment1 den (Lattice.basis_index site_i)))
    l arrays.

Lemma measure_loops_cons lat r ri l acc den :
  measure_loops lat r (ri :: l) (acc, den) =
  measure_loops lat r l
    (measure_inner P lat r (Lattice.site_from_index lat ri) acc,
     increment1 den (Lattice.basis_index (Lattice.site_from_index lat ri))).
Proof. reflexivity. Qed.

Lemma measure_unfold lat r m :
  measure_ P lat r m =
  repeat_measurement_
    {| density_accum := (measure_loops lat r r (density_accum m, denominator m)).1;
       current_density_accum := setZero2 (current_density_accum m);
       denominator := (measure_loops lat r r (density_accum m, denominator m)).2;
       current_denominator := setZero1 (current_denominator m) |}.
Proof.
  unfold measure_, measure_loops.
  now destruct (fold_left _ r (density_accum m, denominator m)).
Qed.

Lemma measure_loops_keep lat r c2 c1 (l : Lattice.PositionArguments) : forall arrays,
  loops_keep c2 c1 arrays -> loops_keep c2 c1 (measure_loops lat r l arrays).
Proof.
  induction l as [|ri l IH]; intros [acc den] Hkeep; [exact Hkeep|].
  rewrite measure_loops_cons. apply IH. destruct Hkeep as (H1 & H2 & H3 & H4).
  destruct (measure_inner_keeps lat (Lattice.site_from_index lat ri) c2 r acc
              (conj H1 H3)) as [H1' H3'].
  split; [exact H1'|]. split; [|split; [exact H3'|]]; cbn [fst snd] in *.
  - unfold increment1, uint_array1 in *. now rewrite length_alter.
  - now apply increment1_entries.
Qed.

(** X18: the repeated step after an advanced one adds nothing, on every
    lattice and for every configuration: [measure_] has zeroed the
    [current_] arrays and written its counts to the accumulators, so
    [step_repeated] leaves [density_accum] and [denominator] as they
    are. *)
Theorem repeated_step_adds_nothing (lat : Lattice.NDLattice)
    (r r' : Lattice.PositionArguments) (m : DensityDensityMeasurement) :
  shaped m ->
  let m1 := step_advanced P lat r m in
  density_accum (step_repeated lat r' m1) = density_accum m1 /\
  denominator (step_repeated lat r' m1) = denominator m1.
Proof.
  intros (H1 & H2 & H3 & H4). unfold step_advanced, step_repeated.
  rewrite measure_unfold.
  pose proof (measure_loops_keep lat r (current_density_accum m) (current_denominator m)
                r (density_accum m, denominator m)
                (conj H1 (conj H2 (conj H3 H4)))) as Hkeep.
  destruct (measure_loops lat r r (density_accum m, denominator m)) as [acc den].
  destruct Hkeep as (K1 & K2 & K3 & K4). cbn [fst snd] in *.
  cbn [repeat_measurement_ density_accum denominator current_density_accum
       current_denominator].
  rewrite (add2_zero acc), (add1_zero den) by assumption.
  rewrite (add2_zero acc), (add1_zero den) by assumption. now split.
Qed.

(** The sum of the entries of an array. *)
Definition sum1 (v : uint_array1) : Z := fold_right Z.add 0 v.
Definition sum2 (a : uint_array2) : Z := fold_right (fun row s => sum1 row + s) 0 a.

(** An array of [R] rows and [C] columns of [unsigned int]s. *)
Definition grid (R C : nat) (a : uint_array2) : Prop :=
  length a = R /\ Forall (fun row => length row = C) a /\ Forall uint_entries a.

Lemma sum1_nonneg v : uint_entries v -> 0 <= sum1 v.
Proof. induction 1; simpl; lia. Qed.

Lemma sum2_nonneg a : Forall uint_entries a -> 0 <= sum2 a.
Proof.
  induction 1 as [|row a Hrow _ IH]; simpl; [lia|].
  pose proof (sum1_nonneg row Hrow). lia.
Qed.

Lemma sum1_cons x v : sum1 (x :: v) = x + sum1 v.
Proof. reflexivity. Qed.

Lemma sum2_cons row a : sum2 (row :: a) = sum1 row + sum2 a.
Proof. reflexivity. Qed.

(** Every entry is at least 0 and at most [b]. *)
Definition bounded1 (b : Z) (v : uint_array1) : Prop := Forall (fun x => 0 <= x <= b) v.
Definition bounded2 (b : Z) (a : uint_array2) : Prop := Forall (bounded1 b) a.

Lemma increment1_bounded b (v : uint_array1) (col : Z) :
  bounded1 b v -> b + 1 < 2 ^ 32 -> bounded1 (b + 1) (increment1 v col).
Proof.
  unfold bounded1, increment1, uint_array1. intros H Hb.
  apply Forall_alter.
  - eapply Forall_impl; [exact H|]. intros x Hx. simpl in *. lia.
  - intros x Hlook _. pose proof (Forall_lookup_1 _ _ _ _ H Hlook) as Hx. simpl in Hx.
    rewrite uint_wrap_small by lia. lia.
Qed.

Lemma increment2_bounded b (a : uint_array2) (row col : Z) :
  bounded2 b a -> b + 1 < 2 ^ 32 -> bounded2 (b + 1) (increment2 a row col).
Proof.
  unfold bounded2, increment2, uint_array2. intros H Hb.
  apply Forall_alter.
  - eapply Forall_impl; [exact H|]. intros v Hv. simpl in *.
    unfold bounded1 in *. eapply Forall_impl; [exact Hv|]. intros x Hx. simpl in *. lia.
  - intros v Hlook _. pose proof (Forall_lookup_1 _ _ _ _ H Hlook) as Hv.
    now apply (increment1_bounded b v col).
Qed.

Lemma increment1_sum b (v : uint_array1) (col : Z) :
  bounded1 b v -> (Z.to_nat col < length v)%nat -> b + 1 < 2 ^ 32 ->
  sum1 (increment1 v col) = sum1 v + 1.
Proof.
  unfold bounded1, increment1, uint_array1 in *. generalize (Z.to_nat col) as i. clear col.
  induction v as [|x v IH]; intros i Hv Hi Hb; [simpl in Hi; lia|].
  inversion Hv as [|? ? Hx Hv']; subst. destruct i as [|i].
  - change (alter (fun x0 => uint_wrap (x0 + 1)) 0%nat (x :: v))
      with (uint_wrap (x + 1) :: v).
    rewrite !sum1_cons, uint_wrap_small by lia. lia.
  - change (alter (fun x0 => uint_wrap (x0 + 1)) (S i) (x :: v))
      with (x :: alter (fun x0 => uint_wrap (x0 + 1)) i v).
    rewrite !sum1_cons, (IH i) by (try assumption; simpl in Hi; lia). lia.
Qed.

Lemma increment2_sum R C b (a : uint_array2) (row col : Z) :
  grid R C a -> bounded2 b a -> (Z.to_nat row < R)%nat -> (Z.to_nat col < C)%nat ->
  b + 1 < 2 ^ 32 ->
  sum2 (increment2 a row col) = sum2 a + 1 /\ grid R C (increment2 a row col).
Proof.
  intros (Hlen & Hcols & Hentries) Hbound Hrow Hcol Hb. split.
  - unfold increment2, bounded2, uint_array2, uint_array1 in *. subst R. revert Hrow.
    generalize (Z.to_nat row) as i. clear row.
    induction a as [|v a IH]; intros i Hi; [simpl in Hi; lia|].
    inversion Hcols as [|? ? Hv Hcols']; subst. inversion Hentries as [|? ? Hu He']; subst.
    inversion Hbound as [|? ? Hbv Hba]; subst. destruct i as [|i].
    + change (alter (alter (fun x => uint_wrap (x + 1)) (Z.to_nat col)) 0%nat (v :: a))
        with (increment1 v col :: a).
      rewrite !sum2_cons, (increment1_sum b) by (try assumption; lia). lia.
    + change (alter (alter (fun x => uint_wrap (x + 1)) (Z.to_nat col)) (S i) (v :: a))
        with (v :: alter (alter (fun x => uint_wrap (x + 1)) (Z.to_nat col)) i a).
      rewrite !sum2_cons, (IH Hcols' He' Hba) by (simpl in Hi; lia). lia.
  - unfold increment2, uint_array2 in *. split; [now rewrite length_alter|]. split.
    + apply Forall_alter; [exact Hcols|]. intros v _ Hv. now rewrite length_alter.
    + now apply increment2_entries.
Qed.

Section Counts.

Variables (len : list Z) (B : Z).
Hypothesis Hok : Lattice.dims_ok len B.

Let lat := Lattice.mkNDLattice len B.
Let R := Z.to_nat B.
Let C := Z.to_nat (Lattice.total_sites lat).

Lemma total_sites_value : Lattice.total_sites lat = Lattice.list_prod len * B.
Proof.
  unfold lat. now rewrite Lattice.total_sites_mkNDLattice, Lattice.count_total_sites_ok.
Qed.

Lemma measure_inner_sum (site_i : Lattice.Site) (l : Lattice.PositionArguments) :
  Lattice.site_in len B site_i ->
  Forall (fun rj => 0 <= rj < Lattice.total_sites lat) l ->
  forall b acc, grid R C acc -> bounded2 b acc -> b + Z.of_nat (length l) < 2 ^ 32 ->
  let acc' :=
    fold_left
      (fun acc rj =>
         let site_j := Lattice.site_from_index lat rj in
         let site_j' :=
           (Lattice.asm_subtract_site_vector P lat site_j (Lattice.bs site_i) None).1 in
         increment2 acc (Lattice.basis_index site_i) (Lattice.site_to_index lat site_j'))
      l acc in
  sum2 acc' = sum2 acc + Z.of_nat (length l) /\ grid R C acc' /\
  bounded2 (b + Z.of_nat (length l)) acc'.
Proof.
  intros Hi. induction 1 as [|rj l Hrj _ IH]; intros b acc Hgrid Hbound Hb.
  - simpl. split; [lia|]. split; [exact Hgrid|]. now rewrite Z.add_0_r.
  - cbn [fold_left length] in *.
    set (site_j := Lattice.site_from_index lat rj).
    set (site_j' := (Lattice.asm_subtract_site_vector P lat site_j
                       (Lattice.bs site_i) None).1).
    assert (Hj : Lattice.site_in len B site_j)
      by (apply Lattice.site_from_index_in; assumption).
    destruct (Lattice.dims_ok_len_ok len B Hok) as [Hlok _].
    destruct (Lattice.coords_in_bounds _ _ (proj1 Hi) Hlok) as [_ Hil].
    assert (Hj' : Lattice.site_in len B site_j')
      by (apply Lattice.asm_subtract_site_in; assumption).
    pose proof (Lattice.site_to_index_in_range len B site_j' Hok Hj') as Hcol.
    destruct (increment2_sum R C b acc (Lattice.basis_index site_i)
                (Lattice.site_to_index lat site_j') Hgrid Hbound) as [Hs Hg].
    + unfold R. destruct Hi as [_ HB]. lia.
    + unfold C. rewrite total_sites_value. fold lat in Hcol. lia.
    + lia.
    + pose proof (increment2_bounded b acc (Lattice.basis_index site_i)
                    (Lattice.site_to_index lat site_j') Hbound ltac:(lia)) as Hb'.
      destruct (IH _ _ Hg Hb') as (Hs' & Hg' & Hb''); [lia|].
      split; [lia|]. split; [exact Hg'|].
      replace (b + Z.of_nat (S (length l))) with (b + 1 + Z.of_nat (length l)) by lia.
      exact Hb''.
Qed.

Lemma measure_outer_sum (r l : Lattice.PositionArguments) :
  Forall (fun rj => 0 <= rj < Lattice.total_sites lat) r ->
  Forall (fun ri => 0 <= ri < Lattice.total_sites lat) l ->
  forall (b d : Z) (acc : uint_array2) (den : uint_array1),
  grid R C acc -> bounded2 b acc -> length den = R -> bounded1 d den ->
  b + Z.of_nat (length l) * Z.of_nat (length r) < 2 ^ 32 ->
  d + Z.of_nat (length l) < 2 ^ 32 ->
  sum2 (measure_loops lat r l (acc, den)).1 =
    sum2 acc + Z.of_nat (length l) * Z.of_nat (length r) /\
  sum1 (measure_loops lat r l (acc, den)).2 = sum1 den + Z.of_nat (length l).
Proof.
  intros Hr. induction 1 as [|ri l Hri _ IH];
    intros b d acc den Hgrid Hbound Hden Hdbound Hs2 Hs1.
  - simpl. split; lia.
  - rewrite measure_loops_cons. cbn [length] in *.
    set (site_i := Lattice.site_from_index lat ri).
    assert (Hi : Lattice.site_in len B site_i)
      by (apply Lattice.site_from_index_in; assumption).
    assert (Hinner : sum2 (measure_inner P lat r site_i acc) =
                       sum2 acc + Z.of_nat (length r) /\
                     grid R C (measure_inner P lat r site_i acc) /\
                     bounded2 (b + Z.of_nat (length r)) (measure_inner P lat r site_i acc)).
    { apply (measure_inner_sum site_i r Hi Hr b acc Hgrid Hbound). nia. }
    destruct Hinner as (Hs & Hg & Hb).
    assert (Hd : sum1 (increment1 den (Lattice.basis_index site_i)) = sum1 den + 1).
    { apply (increment1_sum d); [exact Hdbound| |lia].
      rewrite Hden. unfold R. destruct Hi as [_ HB]. lia. }
    destruct (IH (b + Z.of_nat (length r)) (d + 1)
                (measure_inner P lat r site_i acc)
                (increment1 den (Lattice.basis_index site_i))) as [H2 H1].
    + exact Hg.
    + exact Hb.
    + unfold increment1, uint_array1 in *. now rewrite length_alter.
    + apply increment1_bounded; [exact Hdbound|lia].
    + nia.
    + lia.
    + split; [rewrite H2, Hs; nia|rewrite H1, Hd; lia].
Qed.

(** X19: an advanced step counts every ordered pair of particles once.
    With the arrays shaped as [initialize_] shapes them, every particle on
    a site of the lattice, and no entry overflowing (every entry of
    [density_accum] is below [2^32 - N * N], every entry of [denominator]
    below [2^32 - N]), [measure_] on [N] particles adds [N * N] to the sum
    of the entries of [density_accum] and [N] to the sum of the entries of
    [denominator]. *)
Theorem measure_counts_pairs (r : Lattice.PositionArguments)
    (m : DensityDensityMeasurement) :
  shaped m -> grid R C (density_accum m) -> length (denominator m) = R ->
  Forall (fun ri => 0 <= ri < Lattice.total_sites lat) r ->
  let N := Z.of_nat (length r) in
  Forall (Forall (fun x => x + N * N < 2 ^ 32)) (density_accum m) ->
  Forall (fun x => x + N < 2 ^ 32) (denominator m) ->
  sum2 (density_accum (step_advanced P lat r m)) = sum2 (density_accum m) + N * N /\
  sum1 (denominator (step_advanced P lat r m)) = sum1 (denominator m) + N.
Proof.
  intros Hshaped Hgrid Hden Hr N Hs2 Hs1. pose proof Hshaped as (H1 & H2 & H3 & H4).
  unfold step_advanced. rewrite measure_unfold.
  pose proof (measure_loops_keep lat r (current_density_accum m) (current_denominator m)
                r (density_accum m, denominator m)
                (conj H1 (conj H2 (conj H3 H4)))) as Hkeep.
  assert (Hb2 : bounded2 (2 ^ 32 - 1 - N * N) (density_accum m)).
  { unfold bounded2, bounded1. apply Forall_forall. intros row Hrow.
    apply Forall_forall. intros x Hx.
    pose proof (proj1 (Forall_forall _ _) (proj1 (Forall_forall _ _) H3 row Hrow) x Hx)
      as Hx0.
    pose proof (proj1 (Forall_forall _ _) (proj1 (Forall_forall _ _) Hs2 row Hrow) x Hx)
      as Hx1.
    simpl in Hx0, Hx1. lia. }
  assert (Hb1 : bounded1 (2 ^ 32 - 1 - N) (denominator m)).
  { unfold bounded1. apply Forall_forall. intros x Hx.
    pose proof (proj1 (Forall_forall _ _) H4 x Hx) as Hx0.
    pose proof (proj1 (Forall_forall _ _) Hs1 x Hx) as Hx1.
    simpl in Hx0, Hx1. lia. }
  pose proof (measure_outer_sum r r Hr Hr _ _ (density_accum m) (denominator m)
                Hgrid Hb2 Hden Hb1 ltac:(fold N; lia) ltac:(fold N; lia)) as Hsum.
  destruct (measure_loops lat r r (density_accum m, denominator m)) as [acc den].
  destruct Hkeep as (K1 & K2 & K3 & K4). cbn [fst snd] in *.
  cbn [repeat_measurement_ density_accum denominator current_density_accum
       current_denominator].
  rewrite (add2_zero acc), (add1_zero den) by assumption. exact Hsum.
Qed.

End Counts.

End Run.

Lemma measure_counts_pairs_witness :
  let lat := Lattice.mkNDLattice [3] 1 in
  let m := initialize_ lat [[7; 7; 7]] [7] in
  density_accum (step_advanced Qc_phase lat [0; 2] m) = [[2; 1; 1]] /\
  sum2 (density_accum (step_advanced Qc_phase lat [0; 2] m)) =
    sum2 (density_accum m) + 2 * 2 /\
  sum1 (denominator (step_advanced Qc_phase lat [0; 2] m)) = sum1 (denominator m) + 2.
Proof.
  intros lat m. split; [reflexivity|].
  assert (Hok : Lattice.dims_ok [3] 1).
  { split; [|split]; [repeat (constructor; [lia|]); constructor|lia|vm_compute; discriminate]. }
  apply (measure_counts_pairs Qc_phase [3] 1 Hok [0; 2] m).
  - split; [repeat constructor|]. split; [reflexivity|]. split; repeat constructor; lia.
  - split; [reflexivity|]. split; repeat constructor; lia.
  - reflexivity.
  - repeat constructor; vm_compute; congruence.
  - repeat constructor; vm_compute; reflexivity.
  - repeat constructor; vm_compute; reflexivity.
Defined.

Lemma repeated_step_adds_nothing_witness :
  let lat := Lattice.mkNDLattice [3] 1 in
  let m := initialize_ lat [[7; 7; 7]] [7] in
  let m1 := step_advanced Qc_phase lat [0; 2] m in
  shaped m /\
  density_accum m1 = [[2; 1; 1]] /\ denominator m1 = [2] /\
  density_accum (step_repeated lat [0; 2] m1) = density_accum m1 /\
  denominator (step_repeated lat [0; 2] m1) = denominator m1.
Proof.
  intros lat m m1.
  assert (Hshaped : shaped m).
  { split; [repeat constructor|]. split; [reflexivity|].
    split; repeat constructor; lia. }
  split; [exact Hshaped|]. split; [reflexivity|]. split; [reflexivity|].
  exact (repeated_step_adds_nothing Qc_phase lat [0; 2] [0; 2] m Hshaped).
Defined.

End Density.

(** ** main.cpp: validation of the JSON driver input *)

Module Driver.

(** A [Json::Value] of jsoncpp. *)
Inductive Json : Type :=
| JNull
| JBool (b : bool)
| JInt (n : Z)
| JReal (q : Q)
| JString (s : string)
| JArray (items : list Json)
| JObject (members : list (string * Json)).

(** What a validator does: it returns, it throws a [ParseError] carrying
    its message, or the run aborts (a failed [BOOST_ASSERT], or an
    exception of jsoncpp that [main] does not catch). *)
Inductive result (A : Type) : Type :=
| Ok (a : A)
| Throw (error_message : string)
| Abort.
Arguments Ok {A} a.
Arguments Throw {A} error_message.
Arguments Abort {A}.

Definition bind {A B} (r : result A) (k : A -> result B) : result B :=
  match r with
  | Ok a => k a
  | Throw msg => Throw msg
  | Abort => Abort
  end.

Notation "x <- e ;; k" := (bind e (fun x => k))
  (at level 100, e at next level, right associativity).
Notation "e ;;; k" := (bind e (fun _ => k))
  (at level 100, right associativity).

(** [for (...) body] over a list, stopping at the first throw. *)
Fixpoint for_each {A} (body : A -> result unit) (l : list A) : result unit :=
  match l with
  | [] => Ok tt
  | a :: rest => body a ;;; for_each body rest
  end.

Fixpoint map_result {A B} (f : A -> result B) (l : list A) : result (list B) :=
  match l with
  | [] => Ok []
  | a :: rest => b <- f a ;; bs <- map_result f rest ;; Ok (b :: bs)
  end.

(** *** The part of jsoncpp that the driver uses *)

Definition isObject (j : Json) : bool := match j with JObject _ => true | _ => false end.
Definition isArray (j : Json) : bool := match j with JArray _ => true | _ => false end.
Definition isString (j : Json) : bool := match j with JString _ => true | _ => false end.
Definition isIntegral (j : Json) : bool :=
  match j with JInt _ | JBool _ => true | _ => false end.

Fixpoint lookup_member (key : string) (members : list (string * Json)) : option Json :=
  match members with
  | [] => None
  | (k, v) :: rest => if String.eqb k key then Some v else lookup_member key rest
  end.

Definition isMember (j : Json) (key : string) : bool :=
  match j with
  | JObject members => bool_decide (is_Some (lookup_member key members))
  | _ => false
  end.

(** [j[key]] on a constant value: the member, or null. *)
Definition member (j : Json) (key : string) : Json :=
  match j with
  | JObject members => default JNull (lookup_member key members)
  | _ => JNull
  end.

Definition size (j : Json) : nat :=
  match j with
  | JArray items => length items
  | JObject members => length members
  | _ => 0%nat
  end.

Definition items_of (j : Json) : list Json :=
  match j with JArray items => items | _ => [] end.

(** [asInt] and [asUInt]; a value that is out of range or not convertible
    makes jsoncpp fail. *)
Definition asInt (j : Json) : result Z :=
  match j with
  | JInt n => if (int_min <=? n) && (n <=? int_max) then Ok n else Abort
  | JBool b => Ok (if b then 1 else 0)
  | JNull => Ok 0
  | _ => Abort
  end.

Definition asUInt (j : Json) : result Z :=
  match j with
  | JInt n => if (0 <=? n) && (n <? 2 ^ 32) then Ok n else Abort
  | JBool b => Ok (if b then 1 else 0)
  | JNull => Ok 0
  | _ => Abort
  end.

(** *** The validators *)

Definition ensure_object (j : Json) : result unit :=
  if isObject j then Ok tt else Throw "object expected".

Definition ensure_array (j : Json) : result unit :=
  if isArray j then Ok tt else Throw "array expected".

Definition ensure_array_of_length (j : Json) (array_length : nat) : result unit :=
  if negb (isArray j) then Throw "array expected"
  else if negb (size j =? array_length)%nat then Throw "array is not the correct size"
  else Ok tt.

Definition ensure_string (j : Json) : result unit :=
  if isString j then Ok tt else Throw "string expected".

(** A [const char * const keys[]]: the keys, then the terminating [NULL]
    ([None]). *)
Definition key_array : Type := list (option string).

(** A [const char * const *]: null, or the address of an element of a key
    array. *)
Inductive key_pointer : Type :=
| NullPointer
| ElementAt (index : nat).

Definition pointer_is_null (key : key_pointer) : bool :=
  match key with NullPointer => true | ElementAt _ => false end.

(** [ensure_required]: every key before the terminator must be a member. *)
Fixpoint ensure_required_loop (j : Json) (keys : key_array) : result unit :=
  match keys with
  | Some key :: rest =>
      if negb (isMember j key) then Throw "required keys not all given"
      else ensure_required_loop j rest
  | _ => Ok tt
  end.

Definition ensure_required (j : Json) (keys : key_array) : result unit :=
  if isObject j then ensure_required_loop j keys else Abort.

(** The inner loop of [ensure_only]:
    [for (; *key != NULL; ++key) if (strcmp (memberName, *key) == 0) break;]
    returns the pointer [key] as the loop leaves it. *)
Fixpoint scan_keys (memberName : string) (keys : key_array) (index : nat) : key_pointer :=
  match keys with
  | Some key :: rest =>
      if String.eqb memberName key then ElementAt index
      else scan_keys memberName rest (S index)
  | _ => ElementAt index
  end.

(** [ensure_only]: after the scan the source tests [key == NULL], the
    pointer itself. *)
Definition ensure_only (j : Json) (keys : key_array) : result unit :=
  match j with
  | JObject members =>
      for_each
        (fun m : string * Json =>
           let key := scan_keys m.1 keys 0 in
           if pointer_is_null key then Throw "too many keys provided" else Ok tt)
        members
  | _ => Abort
  end.

(** The member names of an object that are not among the allowed keys. *)
Definition unrecognized_keys (j : Json) (keys : key_array) : list string :=
  match j with
  | JObject members =>
      filter (fun name => Some name ∉ keys) (map fst members)
  | _ => []
  end.

Section Orbitals.

Variable P : phase_ops.

(** [BoundaryCondition (json_bcs[i].asUInt ())]: the [unsigned int] is
    converted to a [boost::rational<int>], the integer over 1, and the
    constructor asserts [0 <= p <= 1]. *)
Definition boundary_condition_of_uint (n : Z) : Lattice.BoundaryCondition P :=
  Lattice.mkBoundaryCondition P (int_wrap n # 1).

Definition construct_boundary_condition (n : Z) : result (Lattice.BoundaryCondition P) :=
  if Lattice.constructor_assertion (int_wrap n # 1)
  then Ok (boundary_condition_of_uint n)
  else Abort.

(** What [parse_json_orbitals] hands to [FilledOrbitals]. *)
Record orbitals := {
  filled_momenta : list (list Z);
  boundary_conditions : list (Lattice.BoundaryCondition P)
}.

Definition parse_boundary_condition (j : Json) : result (Lattice.BoundaryCondition P) :=
  n <- (if isIntegral j then asInt j else Throw "invalid boundary condition specifier") ;;
  if negb (0 <? n) then Throw "invalid boundary condition specifier"
  else u <- asUInt j ;; construct_boundary_condition u.

Definition parse_momentum_index (j_and_length : Json * Z) : result Z :=
  let '(j, L) := j_and_length in
  n <- (if isIntegral j then asInt j else Throw "invalid momentum index") ;;
  if negb ((0 <=? n) && (n <? L)) then Throw "invalid momentum index" else Ok n.

Definition parse_filling (lattice_length : list Z) (j : Json) : result (list Z) :=
  ensure_array_of_length j (length lattice_length) ;;;
  map_result parse_momentum_index (zip (items_of j) lattice_length).

(** [parse_json_orbitals<DIM>], with [DIM] the length of [lattice_length]. *)
Definition parse_json_orbitals (json_orbitals : Json) (lattice_length : list Z)
    : result orbitals :=
  let json_orbitals_required := [Some "filling"; Some "boundary-conditions"; None] in
  ensure_required json_orbitals json_orbitals_required ;;;
  ensure_only json_orbitals json_orbitals_required ;;;
  let json_bcs := member json_orbitals "boundary-conditions" in
  ensure_array_of_length json_bcs (length lattice_length) ;;;
  bcs <- map_result parse_boundary_condition (items_of json_bcs) ;;
  let json_filling := member json_orbitals "filling" in
  ensure_array json_filling ;;;
  filling <- map_result (parse_filling lattice_length) (items_of json_filling) ;;
  Ok {| filled_momenta := filling; boundary_conditions := bcs |}.

(** What the driver has when validation is over and the simulations start. *)
Record simulation_setup := {
  seed : Z;
  lattice_size : list Z;
  wavefunction_orbitals : orbitals
}.

(** The validating part of [do_simulation<DIM>]. *)
Definition do_simulation (json_input : Json) (seed_ : Z) : result simulation_setup :=
  let json_lattice_size := member (member (member json_input "system") "lattice") "size" in
  lattice_size_array <- map_result asInt (items_of json_lattice_size) ;;
  let json_wavefunction := member (member json_input "system") "wavefunction" in
  ensure_object json_wavefunction ;;;
  ensure_required json_wavefunction [Some "type"; None] ;;;
  ensure_string (member json_wavefunction "type") ;;;
  match member json_wavefunction "type" with
  | JString "free-fermion" =>
      let json_free_fermion_wavefunction_required := [Some "type"; Some "orbitals"; None] in
      ensure_required json_wavefunction json_free_fermion_wavefunction_required ;;;
      ensure_only json_wavefunction json_free_fermion_wavefunction_required ;;;
      orbs <- parse_json_orbitals (member json_wavefunction "orbitals") lattice_size_array ;;
      Ok {| seed := seed_; lattice_size := lattice_size_array;
            wavefunction_orbitals := orbs |}
  | _ => Throw "invalid wavefunction type"
  end.

Definition check_lattice_dimension (j : Json) : result unit :=
  n <- (if isIntegral j then asInt j
        else Throw "lattice dimensions must be positive integers") ;;
  if negb (0 <? n) then Throw "lattice dimensions must be positive integers" else Ok tt.

(** The body of the [try] block of [main]. *)
Definition main_try (json_input : Json) : result simulation_setup :=
  ensure_object json_input ;;;
  let json_input_required := [Some "rng"; Some "system"; None] in
  ensure_required json_input json_input_required ;;;
  ensure_only json_input json_input_required ;;;
  let json_rng := member json_input "rng" in
  ensure_object json_rng ;;;
  ensure_only json_rng [Some "seed"; None] ;;;
  seed_ <- (if isMember json_rng "seed"
            then if negb (isIntegral (member json_rng "seed"))
                 then Throw "seed must be correct data type"
                 else asUInt (member json_rng "seed")
            else Throw "seed must be given") ;;
  let json_system := member json_input "system" in
  ensure_object json_system ;;;
  let json_system_required := [Some "lattice"; Some "wavefunction"; None] in
  ensure_required json_system json_system_required ;;;
  ensure_only json_system json_system_required ;;;
  let json_lattice := member json_system "lattice" in
  ensure_object json_lattice ;;;
  ensure_required json_lattice [Some "size"; None] ;;;
  ensure_only json_lattice [Some "size"; None] ;;;
  let json_lattice_size := member json_lattice "size" in
  ensure_array json_lattice_size ;;;
  for_each check_lattice_dimension (items_of json_lattice_size) ;;;
  match size json_lattice_size with
  | 1%nat | 2%nat => do_simulation json_input seed_
  | _ => Throw "lattice given has a number of dimensions that is not supported by this build"
  end.

(** How [main] ends: a caught [ParseError] prints its message on stderr and
    returns 1; otherwise the simulations of [do_simulation] run on the
    validated setup. *)
Inductive outcome : Type :=
| ExitWithError (exit_code : Z) (stderr_line : string)
| RunsSimulations (setup : simulation_setup)
| Aborts.

Definition main (json_input : Json) : outcome :=
  match main_try json_input with
  | Ok setup => RunsSimulations setup
  | Throw error_message => ExitWithError 1 error_message
  | Abort => Aborts
  end.

(** *** Unrecognized keys *)

Lemma scan_keys_not_null memberName keys : forall index,
  pointer_is_null (scan_keys memberName keys index) = false.
Proof.
  induction keys as [|[key|] rest IH]; intros index; simpl; try reflexivity.
  destruct (String.eqb memberName key); [reflexivity|apply IH].
Qed.

(** [ensure_only] accepts every object, whatever its keys. *)
Lemma ensure_only_never_throws members keys :
  ensure_only (JObject members) keys = Ok tt.
Proof.
  unfold ensure_only. induction members as [|m rest IH]; simpl; [reflexivity|].
  rewrite scan_keys_not_null. simpl. exact IH.
Qed.

(** A well-formed input for a chain of four sites, with one key too many
    in each object that the driver validates. *)
Definition input_with_unrecognized_keys : Json :=
  JObject
    [("rng", JObject [("seed", JInt 7); ("bogus", JNull)]);
     ("system",
      JObject
        [("lattice", JObject [("size", JArray [JInt 4]); ("bogus", JNull)]);
         ("wavefunction",
          JObject
            [("type", JString "free-fermion");
             ("orbitals",
              JObject
                [("filling", JArray [JArray [JInt 0]; JArray [JInt 1]]);
                 ("boundary-conditions", JArray [JInt 1]);
                 ("bogus", JNull)]);
             ("bogus", JNull)]);
         ("bogus", JNull)]);
     ("bogus", JNull)].

(** C7 fails on the code: an input with an unrecognized key in the
    top-level object (and in every other validated object) passes the whole
    validation, and [main] goes on to run the simulations instead of
    exiting with code 1. *)
Theorem unrecognized_key_is_accepted :
  unrecognized_keys input_with_unrecognized_keys [Some "rng"; Some "system"; None]
    = ["bogus"] /\
  main input_with_unrecognized_keys =
  RunsSimulations
    {| seed := 7;
       lattice_size := [4];
       wavefunction_orbitals :=
         {| filled_momenta := [[0]; [1]];
            boundary_conditions := [Lattice.mkBoundaryCondition P 1] |} |}.
Proof. split; vm_compute; reflexivity. Qed.

(** *** Boundary conditions given as integers *)



(** C8 fails on the code: for [n = 2] the driver hands the constructor the
    rational 2 (not 1/2), which breaks the constructor's assertion
    [p_ <= 1]; the boundary condition built from it has twist 2. *)
Theorem boundary_condition_two_is_not_half :
  Lattice.p P (boundary_condition_of_uint 2) = 2 # 1 /\
  Qeq_bool (Lattice.p P (boundary_condition_of_uint 2)) (1 # 2) = false /\
  Lattice.constructor_assertion (2 # 1) = false /\
  parse_json_orbitals
    (JObject [("filling", JArray [JArray [JInt 0]]);
              ("boundary-conditions", JArray [JInt 2])]) [4] = Abort.
Proof. repeat split. Qed.

(** *** What an accepted input looks like *)












(** X14: an input that is not an object, or an object without the key
    ["rng"] or without the key ["system"], makes [main] print the message
    of the first failed check and return 1. *)
Theorem main_rejects_malformed_input (json_input : Json) :
  isObject json_input = false \/ isMember json_input "rng" = false \/
  isMember json_input "system" = false ->
  main json_input =
  ExitWithError 1
    (if isObject json_input then "required keys not all given" else "object expected").
Proof.
  intros H. unfold main, main_try, ensure_object.
  destruct (isObject json_input) eqn:Hobj; [|reflexivity].
  cbn [bind]. unfold ensure_required. rewrite Hobj. cbn [ensure_required_loop].
  destruct H as [H|[H|H]]; [discriminate| |].
  - rewrite H. reflexivity.
  - rewrite H. destruct (isMember json_input "rng"); reflexivity.
Qed.

End Orbitals.


Lemma main_rejects_malformed_input_witness :
  main Qc_phase (JObject [("rng", JObject [("seed", JInt 7)])]) =
  ExitWithError Qc_phase 1 "required keys not all given".
Proof.
  apply (main_rejects_malformed_input Qc_phase (JObject [("rng", JObject [("seed", JInt 7)])])).
  right. right. reflexivity.
Defined.

End Driver.

(** ** vmc-core/CeperleyMatrix.hpp: the determinant engine *)

(** The numerics the engine is built on, kept abstract: the scalar type
    [T] of the template with its (floating-point) operations, [Big<T>]
    (Big.hpp is not among the sources), and Eigen's full-pivot LU
    decomposition. *)
Record numerics := {
  T :> Type;
  tzero : T;
  tone : T;
  tadd : T -> T -> T;
  tsub : T -> T -> T;
  tmul : T -> T -> T;
  tdiv : T -> T -> T;
  (** [a != b] on scalars *)
  tneq : T -> T -> bool;
  (** the contents of freshly resized storage *)
  uninitialized : T;
  Big : Type;
  (** [Big<T> ()], the zero *)
  big_zero : Big;
  (** [det *= x] *)
  big_mul : Big -> T -> Big;
  big_is_zero : Big -> bool;
  (** [std::abs (det.get_base ()) < std::abs (cutoff)] *)
  base_below : Big -> T -> bool;
  ceperley_determinant_safe_lower_cutoff : T;
  (** [MyFullPivLU] of [calculate_inverse], with its raised threshold:
      the rank, the inverse, and the determinant as a [Big<T>] read off
      the diagonal and the sign of the permutation *)
  lu_rank : list (list T) -> Z;
  lu_inverse : list (list T) -> list (list T);
  lu_big_determinant : list (list T) -> Big;
  (** [Eigen::FullPivLU] with the default threshold, for the ratio matrix *)
  ratio_lu_isInvertible : list (list T) -> bool;
  ratio_lu_determinant : list (list T) -> T;
  ratio_lu_inverse : list (list T) -> list (list T)
}.

Module Ceperley.
Section Engine.

Variable N : numerics.

(** *** Dense matrices: the list of the rows *)

Local Abbreviation matrix := (list (list N)).
Local Abbreviation vector := (list N).

Definition rows (M : matrix) : nat := length M.
Definition cols (M : matrix) : nat := length (default [] (head M)).

(** An [r] by [c] matrix. *)
Definition has_shape (r c : nat) (M : matrix) : Prop :=
  length M = r /\ Forall (fun row => length row = c) M.

(** [M.resize (r, c)]: fresh storage. *)
Definition resize (r c : nat) : matrix := replicate r (replicate c (uninitialized N)).

(** [M.row (r)] and [M.col (c)] read as vectors. *)
Definition get_row (r : nat) (M : matrix) : vector := default [] (M !! r).
Definition get_col (c : nat) (M : matrix) : vector :=
  map (fun row => default (uninitialized N) (row !! c)) M.

(** [M.row (r) = v] and [M.col (c) = v]. *)
Definition set_row (r : nat) (v : vector) (M : matrix) : matrix := <[r := v]> M.

Fixpoint set_col (c : nat) (v : vector) (M : matrix) : matrix :=
  match M, v with
  | row :: M', x :: v' => <[c := x]> row :: set_col c v' M'
  | _, _ => M
  end.

Definition vadd (a b : vector) : vector := zip_with (tadd N) a b.
Definition vsub (a b : vector) : vector := zip_with (tsub N) a b.

(** The product of a row vector and a column vector. *)
Definition dot (a b : vector) : N :=
  fold_right (fun '(x, y) acc => tadd N (tmul N x y) acc) (tzero N) (zip a b).

(** [v * M] for a row vector [v]. *)
Definition vec_mat (v : vector) (M : matrix) : vector :=
  map (fun c => dot v (get_col c M)) (seq 0 (cols M)).

Definition entry (M : matrix) (i j : nat) : N :=
  default (uninitialized N) (get_row i M !! j).

(** *** The engine *)

Inductive State : Type :=
| UNINITIALIZED
| READY_FOR_UPDATE
| ROW_UPDATE_IN_PROGRESS
| COLUMN_UPDATE_IN_PROGRESS
| COLUMNS_UPDATE_IN_PROGRESS
| ROWCOL_UPDATE_IN_PROGRESS.

Definition State_eqb (a b : State) : bool :=
  match a, b with
  | UNINITIALIZED, UNINITIALIZED
  | READY_FOR_UPDATE, READY_FOR_UPDATE
  | ROW_UPDATE_IN_PROGRESS, ROW_UPDATE_IN_PROGRESS
  | COLUMN_UPDATE_IN_PROGRESS, COLUMN_UPDATE_IN_PROGRESS
  | COLUMNS_UPDATE_IN_PROGRESS, COLUMNS_UPDATE_IN_PROGRESS
  | ROWCOL_UPDATE_IN_PROGRESS, ROWCOL_UPDATE_IN_PROGRESS => true
  | _, _ => false
  end.

Record CeperleyMatrix := {
  current_state : State;
  be_extra_careful : bool;
  mat : matrix;
  invmat : matrix;
  new_invmat : matrix;
  detrat : N;
  det : Big N;
  old_det : Big N;
  pending_index : nat;
  nullity_lower_bound : Z;
  new_nullity_lower_bound : Z;
  inverse_recalculated_for_current_update : bool;
  detrat_inv_m : matrix;
  old_cols_m : matrix;
  old_rows_m : matrix;
  cols_offset_m : matrix;
  rows_offset_m : matrix;
  pending_col_indices : list nat;
  pending_row_indices : list nat
}.

(** A failed [BOOST_ASSERT] ends the run: [None]. *)
Definition BOOST_ASSERT (b : bool) : option unit := if b then Some tt else None.

(** [calculate_inverse (update_in_progress)] *)
Definition calculate_inverse (update_in_progress : bool) (cm : CeperleyMatrix)
    : CeperleyMatrix :=
  let nullity := Z.of_nat (cols (mat cm)) - lu_rank N (mat cm) in
  let isInvertible := (lu_rank N (mat cm) =? Z.of_nat (cols (mat cm)))
                      && (rows (mat cm) =? cols (mat cm))%nat in
  {| current_state := current_state cm;
     be_extra_careful := be_extra_careful cm;
     mat := mat cm;
     invmat := if negb update_in_progress && isInvertible
               then lu_inverse N (mat cm) else invmat cm;
     new_invmat := if update_in_progress && isInvertible
                   then lu_inverse N (mat cm) else new_invmat cm;
     detrat := detrat cm;
     det := if isInvertible then lu_big_determinant N (mat cm) else big_zero N;
     old_det := old_det cm;
     pending_index := pending_index cm;
     nullity_lower_bound :=
       if update_in_progress then nullity_lower_bound cm else nullity;
     new_nullity_lower_bound :=
       if update_in_progress then nullity else new_nullity_lower_bound cm;
     inverse_recalculated_for_current_update := update_in_progress;
     detrat_inv_m := detrat_inv_m cm;
     old_cols_m := old_cols_m cm;
     old_rows_m := old_rows_m cm;
     cols_offset_m := cols_offset_m cm;
     rows_offset_m := rows_offset_m cm;
     pending_col_indices := pending_col_indices cm;
     pending_row_indices := pending_row_indices cm |}.

Definition set_new_nullity (k : Z) (cm : CeperleyMatrix) : CeperleyMatrix :=
  {| current_state := current_state cm;
     be_extra_careful := be_extra_careful cm;
     mat := mat cm; invmat := invmat cm; new_invmat := new_invmat cm;
     detrat := detrat cm; det := det cm; old_det := old_det cm;
     pending_index := pending_index cm;
     nullity_lower_bound := nullity_lower_bound cm;
     new_nullity_lower_bound := k;
     inverse_recalculated_for_current_update :=
       inverse_recalculated_for_current_update cm;
     detrat_inv_m := detrat_inv_m cm;
     old_cols_m := old_cols_m cm; old_rows_m := old_rows_m cm;
     cols_offset_m := cols_offset_m cm; rows_offset_m := rows_offset_m cm;
     pending_col_indices := pending_col_indices cm;
     pending_row_indices := pending_row_indices cm |}.

Definition set_state (s : State) (cm : CeperleyMatrix) : CeperleyMatrix :=
  {| current_state := s;
     be_extra_careful := be_extra_careful cm;
     mat := mat cm; invmat := invmat cm; new_invmat := new_invmat cm;
     detrat := detrat cm; det := det cm; old_det := old_det cm;
     pending_index := pending_index cm;
     nullity_lower_bound := nullity_lower_bound cm;
     new_nullity_lower_bound := new_nullity_lower_bound cm;
     inverse_recalculated_for_current_update :=
       inverse_recalculated_for_current_update cm;
     detrat_inv_m := detrat_inv_m cm;
     old_cols_m := old_cols_m cm; old_rows_m := old_rows_m cm;
     cols_offset_m := cols_offset_m cm; rows_offset_m := rows_offset_m cm;
     pending_col_indices := pending_col_indices cm;
     pending_row_indices := pending_row_indices cm |}.

(** [detrat = x; det *= detrat;] with, where given, the new [detrat_inv_m]. *)
Definition set_detrat (x : N) (inv : option matrix) (cm : CeperleyMatrix)
    : CeperleyMatrix :=
  {| current_state := current_state cm;
     be_extra_careful := be_extra_careful cm;
     mat := mat cm; invmat := invmat cm; new_invmat := new_invmat cm;
     detrat := x; det := big_mul N (det cm) x; old_det := old_det cm;
     pending_index := pending_index cm;
     nullity_lower_bound := nullity_lower_bound cm;
     new_nullity_lower_bound := new_nullity_lower_bound cm;
     inverse_recalculated_for_current_update :=
       inverse_recalculated_for_current_update cm;
     detrat_inv_m := default (detrat_inv_m cm) inv;
     old_cols_m := old_cols_m cm; old_rows_m := old_rows_m cm;
     cols_offset_m := cols_offset_m cm; rows_offset_m := rows_offset_m cm;
     pending_col_indices := pending_col_indices cm;
     pending_row_indices := pending_row_indices cm |}.

(** [perform_singular_update (update_rank)] *)
Definition perform_singular_update (update_rank : nat) (cm : CeperleyMatrix)
    : option CeperleyMatrix :=
  BOOST_ASSERT (big_is_zero N (det cm)) ;;
  BOOST_ASSERT (new_nullity_lower_bound cm =? nullity_lower_bound cm) ;;
  BOOST_ASSERT (0 <? new_nullity_lower_bound cm) ;;
  let cm1 := set_new_nullity (int_wrap (new_nullity_lower_bound cm - Z.of_nat update_rank)) cm in
  Some (if new_nullity_lower_bound cm1 <=? 0 then calculate_inverse true cm1 else cm1).

(** The end of the non-singular branch of every [update_]: after
    [det *= detrat], a zero determinant marks the matrix singular; a small
    one has the inverse recomputed where [be_extra_careful] asks for it. *)
Definition after_ratio (cm : CeperleyMatrix) : CeperleyMatrix :=
  if big_is_zero N (det cm) then set_new_nullity 1 cm
  else if be_extra_careful cm &&
          base_below N (det cm) (ceperley_determinant_safe_lower_cutoff N)
       then calculate_inverse true cm
       else cm.

(** The determinant and inverse of the ratio matrix [detrat_m]: the 1 by 1
    shortcut, or an LU decomposition. *)
Definition ratio_of (detrat_m : matrix) : N * option matrix :=
  if (cols detrat_m =? 1)%nat then
    let d := entry detrat_m 0 0 in
    (d, if tneq N d (tzero N) then Some [[tdiv N (tone N) d]] else None)
  else if ratio_lu_isInvertible N detrat_m
       then (ratio_lu_determinant N detrat_m, Some (ratio_lu_inverse N detrat_m))
       else (tzero N, None).

(** What every [update_] remembers before it computes the new determinant:
    the new matrix, the rollback storage, [old_det = det] and
    [new_nullity_lower_bound = nullity_lower_bound]. *)
Definition begin_update (mat' old_cols' old_rows' cols_offset' rows_offset' : matrix)
    (pending_cols pending_rows : list nat) (pending : nat) (cm : CeperleyMatrix)
    : CeperleyMatrix :=
  {| current_state := current_state cm;
     be_extra_careful := be_extra_careful cm;
     mat := mat'; invmat := invmat cm; new_invmat := new_invmat cm;
     detrat := detrat cm; det := det cm; old_det := det cm;
     pending_index := pending;
     nullity_lower_bound := nullity_lower_bound cm;
     new_nullity_lower_bound := nullity_lower_bound cm;
     inverse_recalculated_for_current_update :=
       inverse_recalculated_for_current_update cm;
     detrat_inv_m := detrat_inv_m cm;
     old_cols_m := old_cols'; old_rows_m := old_rows';
     cols_offset_m := cols_offset'; rows_offset_m := rows_offset';
     pending_col_indices := pending_cols;
     pending_row_indices := pending_rows |}.

(** The end of every [cancel_]: the restored matrix, [det = old_det],
    the recalculation flag cleared, and the state back to ready. *)
Definition end_cancel (mat' : matrix) (cm : CeperleyMatrix) : CeperleyMatrix :=
  {| current_state := READY_FOR_UPDATE;
     be_extra_careful := be_extra_careful cm;
     mat := mat'; invmat := invmat cm; new_invmat := new_invmat cm;
     detrat := detrat cm; det := old_det cm; old_det := old_det cm;
     pending_index := pending_index cm;
     nullity_lower_bound := nullity_lower_bound cm;
     new_nullity_lower_bound := new_nullity_lower_bound cm;
     inverse_recalculated_for_current_update := false;
     detrat_inv_m := detrat_inv_m cm;
     old_cols_m := old_cols_m cm; old_rows_m := old_rows_m cm;
     cols_offset_m := cols_offset_m cm; rows_offset_m := rows_offset_m cm;
     pending_col_indices := pending_col_indices cm;
     pending_row_indices := pending_row_indices cm |}.

(** [CeperleyMatrix (initial_mat, be_extra_careful_)]; the members that the
    constructor leaves alone start out empty. *)
Definition mkCeperleyMatrix (initial_mat : matrix) (be_extra_careful_ : bool)
    : option CeperleyMatrix :=
  BOOST_ASSERT (rows initial_mat =? cols initial_mat)%nat ;;
  Some (calculate_inverse false
    {| current_state := READY_FOR_UPDATE;
       be_extra_careful := be_extra_careful_;
       mat := initial_mat; invmat := []; new_invmat := [];
       detrat := uninitialized N; det := big_zero N; old_det := big_zero N;
       pending_index := 0;
       nullity_lower_bound := 0; new_nullity_lower_bound := 0;
       inverse_recalculated_for_current_update := false;
       detrat_inv_m := []; old_cols_m := []; old_rows_m := [];
       cols_offset_m := []; rows_offset_m := [];
       pending_col_indices := []; pending_row_indices := [] |}).

(** [update_row (r, row)] *)
Definition update_row (r : nat) (row : vector) (cm : CeperleyMatrix)
    : option CeperleyMatrix :=
  BOOST_ASSERT (r <? rows (mat cm))%nat ;;
  BOOST_ASSERT (length row =? cols (mat cm))%nat ;;
  BOOST_ASSERT (State_eqb (current_state cm) READY_FOR_UPDATE) ;;
  BOOST_ASSERT (negb (inverse_recalculated_for_current_update cm)) ;;
  let old_cols' := set_col 0 (get_row r (mat cm)) (resize (rows (mat cm)) 1) in
  let cm1 := begin_update (set_row r row (mat cm)) old_cols' (old_rows_m cm)
               (cols_offset_m cm) (rows_offset_m cm)
               (pending_col_indices cm) (pending_row_indices cm) r cm in
  cm2 ← (if nullity_lower_bound cm1 =? 0
         then Some (after_ratio
                      (set_detrat (dot (get_row r (mat cm1)) (get_col r (invmat cm1)))
                                  None cm1))
         else perform_singular_update 1 cm1) ;
  Some (set_state ROW_UPDATE_IN_PROGRESS cm2).

(** [update_column (c, col)] *)
Definition update_column (c : nat) (col : vector) (cm : CeperleyMatrix)
    : option CeperleyMatrix :=
  BOOST_ASSERT (c <? cols (mat cm))%nat ;;
  BOOST_ASSERT (length col =? rows (mat cm))%nat ;;
  BOOST_ASSERT (State_eqb (current_state cm) READY_FOR_UPDATE) ;;
  BOOST_ASSERT (negb (inverse_recalculated_for_current_update cm)) ;;
  let old_cols' := set_col 0 (get_col c (mat cm)) (resize (rows (mat cm)) 1) in
  let cm1 := begin_update (set_col c col (mat cm)) old_cols' (old_rows_m cm)
               (cols_offset_m cm) (rows_offset_m cm)
               (pending_col_indices cm) (pending_row_indices cm) c cm in
  cm2 ← (if nullity_lower_bound cm1 =? 0
         then Some (after_ratio
                      (set_detrat (dot (get_row c (invmat cm1)) (get_col c (mat cm1)))
                                  None cm1))
         else perform_singular_update 1 cm1) ;
  Some (set_state COLUMN_UPDATE_IN_PROGRESS cm2).

(** The loop of [update_columns] and the column loop of
    [update_rows_and_columns]: column [i] of the rollback storage takes the
    old column, column [i] of the offsets the difference to the source
    column, which is then added to the matrix.  [cols] pairs the column to
    replace with the source column. *)
Fixpoint replace_columns (cols_ : list (nat * nat)) (i : nat) (srcmat : matrix)
    (m old off : matrix) : matrix * matrix * matrix :=
  match cols_ with
  | [] => (m, old, off)
  | (first, second) :: rest =>
      let old' := set_col i (get_col first m) old in
      let off' := set_col i (vsub (get_col second srcmat) (get_col first m)) off in
      let m' := set_col first (vadd (get_col first m) (get_col i off')) m in
      replace_columns rest (S i) srcmat m' old' off'
  end.

(** The row loop of [update_rows_and_columns]. *)
Fixpoint replace_rows (rows_ : list nat) (i : nat) (srcmat : matrix)
    (m old off : matrix) : matrix * matrix * matrix :=
  match rows_ with
  | [] => (m, old, off)
  | r :: rest =>
      let old' := set_row i (get_row r m) old in
      let off' := set_row i (vsub (get_row r srcmat) (get_row r m)) off in
      let m' := set_row r (vadd (get_row r m) (get_row i off')) m in
      replace_rows rest (S i) srcmat m' old' off'
  end.

(** The assertions inside the loops: indices in range and pairwise
    different. *)
Definition indices_ok (bound : nat) (l : list nat) : bool :=
  forallb (fun i => (i <? bound)%nat) l && bool_decide (NoDup l).

Definition add_one_at (i : nat) (row : vector) : vector :=
  alter (fun x => tadd N x (tone N)) i row.

(** The ratio matrix of [update_columns]. *)
Definition columns_ratio_matrix (cols_ : list nat) (inv off : matrix) : matrix :=
  imap (fun i first =>
          add_one_at i
            (map (fun j => dot (get_row first inv) (get_col j off))
                 (seq 0 (length cols_))))
       cols_.

(** [update_columns (cols, srcmat)] *)
Definition update_columns (cols_ : list (nat * nat)) (srcmat : matrix)
    (cm : CeperleyMatrix) : option CeperleyMatrix :=
  BOOST_ASSERT (0 <? length cols_)%nat ;;
  BOOST_ASSERT (length cols_ <=? cols (mat cm))%nat ;;
  BOOST_ASSERT (rows srcmat =? rows (mat cm))%nat ;;
  BOOST_ASSERT (State_eqb (current_state cm) READY_FOR_UPDATE) ;;
  BOOST_ASSERT (negb (inverse_recalculated_for_current_update cm)) ;;
  BOOST_ASSERT (0 <=? nullity_lower_bound cm) ;;
  BOOST_ASSERT (forallb (fun s => (s <? cols srcmat)%nat) (map snd cols_)) ;;
  BOOST_ASSERT (indices_ok (cols (mat cm)) (map fst cols_)) ;;
  let fresh := resize (rows (mat cm)) (length cols_) in
  let '(m', old', off') := replace_columns cols_ 0 srcmat (mat cm) fresh fresh in
  let cm1 := begin_update m' old' (old_rows_m cm) off' (rows_offset_m cm)
               (map fst cols_) (pending_row_indices cm) (pending_index cm) cm in
  cm2 ← (if negb (nullity_lower_bound cm1 =? 0)
         then perform_singular_update (length cols_) cm1
         else
           let '(d, inv) :=
             ratio_of (columns_ratio_matrix (map fst cols_) (invmat cm1) off') in
           Some (after_ratio (set_detrat d inv cm1))) ;
  Some (set_state COLUMNS_UPDATE_IN_PROGRESS cm2).

(** The ratio matrix of [update_rows_and_columns], of size [nc + nr]. *)
Definition rowcol_ratio_matrix (rows_ cols_ : list nat) (inv cols_off rows_off : matrix)
    : matrix :=
  let nc := length cols_ in
  imap (fun i c =>
          add_one_at i
            (map (fun j => dot (get_row c inv) (get_col j cols_off)) (seq 0 nc) ++
             map (fun r => entry inv c r) rows_))
       cols_ ++
  imap (fun i _ =>
          add_one_at (i + nc)
            (map (fun j => dot (vec_mat (get_row i rows_off) inv) (get_col j cols_off))
                 (seq 0 nc) ++
             map (fun r => dot (get_row i rows_off) (get_col r inv)) rows_))
       rows_.

(** [update_rows_and_columns (rows, cols, srcmat)] *)
Definition update_rows_and_columns (rows_ cols_ : list nat) (srcmat : matrix)
    (cm : CeperleyMatrix) : option CeperleyMatrix :=
  BOOST_ASSERT ((0 <? length cols_)%nat || (0 <? length rows_)%nat) ;;
  BOOST_ASSERT (length cols_ <=? cols (mat cm))%nat ;;
  BOOST_ASSERT (length rows_ <=? rows (mat cm))%nat ;;
  BOOST_ASSERT (rows srcmat =? rows (mat cm))%nat ;;
  BOOST_ASSERT (cols srcmat =? cols (mat cm))%nat ;;
  BOOST_ASSERT (State_eqb (current_state cm) READY_FOR_UPDATE) ;;
  BOOST_ASSERT (negb (inverse_recalculated_for_current_update cm)) ;;
  BOOST_ASSERT (0 <=? nullity_lower_bound cm) ;;
  BOOST_ASSERT (indices_ok (rows (mat cm)) rows_) ;;
  BOOST_ASSERT (indices_ok (cols (mat cm)) cols_) ;;
  let fresh_rows := resize (length rows_) (cols (mat cm)) in
  let '(m1, old_rows', rows_off') :=
    replace_rows rows_ 0 srcmat (mat cm) fresh_rows fresh_rows in
  let fresh_cols := resize (rows m1) (length cols_) in
  let '(m2, old_cols', cols_off') :=
    replace_columns (map (fun c => (c, c)) cols_) 0 srcmat m1 fresh_cols fresh_cols in
  let cm1 := begin_update m2 old_cols' old_rows' cols_off' rows_off'
               cols_ rows_ (pending_index cm) cm in
  cm2 ← (if negb (nullity_lower_bound cm1 =? 0)
         then perform_singular_update (length cols_) cm1
         else
           let '(d, inv) :=
             ratio_of (rowcol_ratio_matrix rows_ cols_ (invmat cm1) cols_off' rows_off') in
           Some (after_ratio (set_detrat d inv cm1))) ;
  Some (set_state ROWCOL_UPDATE_IN_PROGRESS cm2).

(** [for (i ...) mat.col (pending_col_indices[i]) = old_cols_m.col (i);] *)
Fixpoint restore_columns (pending : list nat) (i : nat) (old m : matrix) : matrix :=
  match pending with
  | [] => m
  | c :: rest => restore_columns rest (S i) old (set_col c (get_col i old) m)
  end.

(** [for (i ...) mat.row (pending_row_indices[i]) = old_rows_m.row (i);] *)
Fixpoint restore_rows (pending : list nat) (i : nat) (old m : matrix) : matrix :=
  match pending with
  | [] => m
  | r :: rest => restore_rows rest (S i) old (set_row r (get_row i old) m)
  end.

Definition cancel_row_update (cm : CeperleyMatrix) : option CeperleyMatrix :=
  BOOST_ASSERT (State_eqb (current_state cm) ROW_UPDATE_IN_PROGRESS) ;;
  Some (end_cancel (set_row (pending_index cm) (get_col 0 (old_cols_m cm)) (mat cm)) cm).

Definition cancel_column_update (cm : CeperleyMatrix) : option CeperleyMatrix :=
  BOOST_ASSERT (State_eqb (current_state cm) COLUMN_UPDATE_IN_PROGRESS) ;;
  Some (end_cancel (set_col (pending_index cm) (get_col 0 (old_cols_m cm)) (mat cm)) cm).

Definition cancel_columns_update (cm : CeperleyMatrix) : option CeperleyMatrix :=
  BOOST_ASSERT (State_eqb (current_state cm) COLUMNS_UPDATE_IN_PROGRESS) ;;
  Some (end_cancel
          (restore_columns (pending_col_indices cm) 0 (old_cols_m cm) (mat cm)) cm).

Definition cancel_rows_and_columns_update (cm : CeperleyMatrix) : option CeperleyMatrix :=
  BOOST_ASSERT (State_eqb (current_state cm) ROWCOL_UPDATE_IN_PROGRESS) ;;
  let m1 := restore_columns (pending_col_indices cm) 0 (old_cols_m cm) (mat cm) in
  Some (end_cancel (restore_rows (pending_row_indices cm) 0 (old_rows_m cm) m1) cm).

(** *** Reading and writing rows and columns *)

Lemma get_set_row i v (M : matrix) : (i < length M)%nat -> get_row i (set_row i v M) = v.
Proof. intros H. unfold get_row, set_row. now rewrite list_lookup_insert_eq. Qed.

Lemma get_set_row_ne i j v (M : matrix) : i <> j -> get_row j (set_row i v M) = get_row j M.
Proof. intros H. unfold get_row, set_row. now rewrite list_lookup_insert_ne. Qed.

Lemma set_get_row r (M : matrix) : set_row r (get_row r M) M = M.
Proof.
  unfold get_row, set_row. destruct (M !! r) as [row|] eqn:E; simpl.
  - now apply list_insert_id.
  - apply list_insert_ge. now apply lookup_ge_None.
Qed.

Lemma set_set_row r v w (M : matrix) : set_row r v (set_row r w M) = set_row r v M.
Proof. apply list_insert_insert_eq. Qed.

Lemma set_row_commute r r' v w (M : matrix) :
  r <> r' -> set_row r v (set_row r' w M) = set_row r' w (set_row r v M).
Proof. intros H. unfold set_row. now apply list_insert_insert_ne. Qed.

Lemma length_set_col c v (M : matrix) : length (set_col c v M) = length M.
Proof.
  revert v. induction M as [|row M IH]; intros [|x v]; simpl; try reflexivity.
  now rewrite IH.
Qed.

Lemma length_get_col c (M : matrix) : length (get_col c M) = length M.
Proof. apply length_map. Qed.

Lemma get_set_col c v (M : matrix) :
  length v = length M -> Forall (fun row => (c < length row)%nat) M ->
  get_col c (set_col c v M) = v.
Proof.
  unfold get_col.
  revert v. induction M as [|row M IH]; intros [|x v] Hl Hc; try discriminate;
    cbn [set_col map].
  - reflexivity.
  - inversion Hc; subst. rewrite list_lookup_insert_eq by assumption. simpl.
    f_equal. apply IH; [simpl in Hl; lia|assumption].
Qed.

Lemma get_set_col_ne c c' v (M : matrix) :
  c <> c' -> get_col c (set_col c' v M) = get_col c M.
Proof.
  intros Hne. unfold get_col.
  revert v. induction M as [|row M IH]; intros [|x v]; cbn [set_col map]; try reflexivity.
  rewrite list_lookup_insert_ne by auto. f_equal. apply IH.
Qed.

Lemma set_get_col c (M : matrix) : set_col c (get_col c M) M = M.
Proof.
  unfold get_col.
  induction M as [|row M IH]; cbn [set_col map]; [reflexivity|]. rewrite IH. f_equal.
  destruct (row !! c) as [x|] eqn:E; simpl.
  - now apply list_insert_id.
  - apply list_insert_ge. now apply lookup_ge_None.
Qed.

Lemma set_set_col c v w (M : matrix) :
  (length M <= length v)%nat -> set_col c v (set_col c w M) = set_col c v M.
Proof.
  revert v w. induction M as [|row M IH]; intros [|x v] [|y w] Hl;
    cbn [set_col length] in *; try reflexivity; try lia.
  rewrite list_insert_insert_eq. f_equal. apply IH. lia.
Qed.

Lemma set_col_commute c c' v w (M : matrix) :
  c <> c' -> set_col c v (set_col c' w M) = set_col c' w (set_col c v M).
Proof.
  intros Hne. revert v w. induction M as [|row M IH]; intros [|x v] [|y w];
    cbn [set_col]; try reflexivity.
  rewrite list_insert_insert_ne by assumption. f_equal. apply IH.
Qed.

Lemma set_col_row_lengths c v k (M : matrix) :
  Forall (fun row => (k <= length row)%nat) M ->
  Forall (fun row => (k <= length row)%nat) (set_col c v M).
Proof.
  intros H. revert v. induction H as [|row M Hrow HM IH]; intros [|x v]; cbn [set_col];
    try (constructor; assumption).
  constructor; [now rewrite length_insert|apply IH].
Qed.

Lemma resize_row_lengths r c : Forall (fun row => (c <= length row)%nat) (resize r c).
Proof.
  unfold resize. apply Forall_forall. intros row Hrow.
  apply elem_of_replicate in Hrow as [-> _]. now rewrite length_replicate.
Qed.

Lemma length_resize r c : length (resize r c) = r.
Proof. apply length_replicate. Qed.

(** *** The rollback storage restores what the loops replaced *)

Lemma replace_columns_old cols_ : forall i src m old off m' old' off',
  replace_columns cols_ i src m old off = (m', old', off') ->
  length old' = length old /\
  (forall k, Forall (fun row => (k <= length row)%nat) old ->
             Forall (fun row => (k <= length row)%nat) old') /\
  (forall j, (j < i)%nat -> get_col j old' = get_col j old).
Proof.
  induction cols_ as [|[first second] rest IH]; intros i src m old off m' old' off' H;
    cbn [replace_columns] in H.
  - injection H as <- <- <-. repeat split; auto.
  - apply IH in H as (H1 & H2 & H3). rewrite length_set_col in H1. repeat split.
    + exact H1.
    + intros k Hk. apply H2. now apply set_col_row_lengths.
    + intros j Hj. rewrite H3 by lia. apply get_set_col_ne. lia.
Qed.

Lemma restore_columns_commute pending : forall j old f v m,
  f ∉ pending ->
  restore_columns pending j old (set_col f v m) =
  set_col f v (restore_columns pending j old m).
Proof.
  induction pending as [|c rest IH]; intros j old f v m Hf; cbn [restore_columns].
  - reflexivity.
  - apply not_elem_of_cons in Hf as [Hne Hf].
    rewrite (set_col_commute c f) by auto. now apply IH.
Qed.

Lemma length_restore_columns pending : forall j old m,
  length (restore_columns pending j old m) = length m.
Proof.
  induction pending as [|c rest IH]; intros j old m; cbn [restore_columns]; [reflexivity|].
  rewrite IH. apply length_set_col.
Qed.

Lemma restore_replace_columns cols_ : forall i src m old off m' old' off',
  replace_columns cols_ i src m old off = (m', old', off') ->
  NoDup (map fst cols_) ->
  length old = length m ->
  Forall (fun row => (i + length cols_ <= length row)%nat) old ->
  restore_columns (map fst cols_) i old' m' = m.
Proof.
  induction cols_ as [|[first second] rest IH]; intros i src m old off m' old' off' H Hnd Hl Hc;
    cbn [replace_columns] in H.
  - injection H as <- <- <-. reflexivity.
  - cbn [map fst restore_columns]. cbn [map fst] in Hnd.
    apply NoDup_cons in Hnd as [Hfirst Hnd].
    pose proof (replace_columns_old _ _ _ _ _ _ _ _ _ H) as (Ho1 & _ & Ho3).
    rewrite length_set_col in Ho1.
    rewrite restore_columns_commute by assumption.
    rewrite (IH _ _ _ _ _ _ _ _ H Hnd).
    + rewrite set_set_col by (rewrite length_get_col; lia).
      rewrite Ho3 by lia. rewrite get_set_col.
      * apply set_get_col.
      * rewrite length_get_col. lia.
      * eapply Forall_impl; [exact Hc|]. intros row Hrow. simpl in Hrow. lia.
    + rewrite !length_set_col. exact Hl.
    + apply set_col_row_lengths. eapply Forall_impl; [exact Hc|].
      intros row Hrow. simpl in Hrow. lia.
Qed.

Lemma replace_rows_old rows_ : forall i src m old off m' old' off',
  replace_rows rows_ i src m old off = (m', old', off') ->
  length old' = length old /\
  (forall j, (j < i)%nat -> get_row j old' = get_row j old).
Proof.
  induction rows_ as [|r rest IH]; intros i src m old off m' old' off' H;
    cbn [replace_rows] in H.
  - injection H as <- <- <-. split; auto.
  - apply IH in H as (H1 & H2). unfold set_row in H1. rewrite length_insert in H1. split.
    + exact H1.
    + intros j Hj. rewrite H2 by lia. apply get_set_row_ne. lia.
Qed.

Lemma restore_rows_commute pending : forall j old r v m,
  r ∉ pending ->
  restore_rows pending j old (set_row r v m) =
  set_row r v (restore_rows pending j old m).
Proof.
  induction pending as [|c rest IH]; intros j old r v m Hr; cbn [restore_rows].
  - reflexivity.
  - apply not_elem_of_cons in Hr as [Hne Hr].
    rewrite (set_row_commute c r) by auto. now apply IH.
Qed.

Lemma restore_replace_rows rows_ : forall i src m old off m' old' off',
  replace_rows rows_ i src m old off = (m', old', off') ->
  NoDup rows_ ->
  (i + length rows_ <= length old)%nat ->
  restore_rows rows_ i old' m' = m.
Proof.
  induction rows_ as [|r rest IH]; intros i src m old off m' old' off' H Hnd Hl;
    cbn [replace_rows] in H.
  - injection H as <- <- <-. reflexivity.
  - cbn [restore_rows]. apply NoDup_cons in Hnd as [Hr Hnd].
    pose proof (replace_rows_old _ _ _ _ _ _ _ _ _ H) as (Ho1 & Ho2).
    rewrite restore_rows_commute by assumption.
    rewrite (IH _ _ _ _ _ _ _ _ H Hnd).
    + rewrite set_set_row. rewrite Ho2 by lia.
      rewrite get_set_row by (simpl in Hl; lia). apply set_get_row.
    + unfold set_row. rewrite length_insert. simpl in Hl. lia.
Qed.

(** *** Update, then cancel *)

(** An engine in the ready state, over an [n] by [n] matrix: no
    recalculated inverse is pending, the nullity lower bound is not
    negative, and a singular matrix has determinant zero. *)
Definition ready (n : nat) (cm : CeperleyMatrix) : Prop :=
  current_state cm = READY_FOR_UPDATE /\
  inverse_recalculated_for_current_update cm = false /\
  has_shape n n (mat cm) /\
  0 <= nullity_lower_bound cm /\
  (nullity_lower_bound cm <> 0 -> big_is_zero N (det cm) = true).

(** What cancel gives back of the engine [cm] from before the update. *)
Definition restored (cm cm' : CeperleyMatrix) : Prop :=
  mat cm' = mat cm /\
  det cm' = det cm /\
  invmat cm' = invmat cm /\
  nullity_lower_bound cm' = nullity_lower_bound cm /\
  current_state cm' = READY_FOR_UPDATE.

(** What the computation of the new determinant leaves alone. *)
Definition kept (cm cm' : CeperleyMatrix) : Prop :=
  mat cm' = mat cm /\ invmat cm' = invmat cm /\ old_det cm' = old_det cm /\
  nullity_lower_bound cm' = nullity_lower_bound cm /\
  old_cols_m cm' = old_cols_m cm /\ old_rows_m cm' = old_rows_m cm /\
  pending_index cm' = pending_index cm /\
  pending_col_indices cm' = pending_col_indices cm /\
  pending_row_indices cm' = pending_row_indices cm.

Lemma kept_refl cm : kept cm cm.
Proof. repeat split. Qed.

Lemma kept_calculate_inverse cm : kept cm (calculate_inverse true cm).
Proof. repeat split. Qed.

Lemma kept_after_ratio cm : kept cm (after_ratio cm).
Proof.
  unfold after_ratio. destruct (big_is_zero N (det cm)); [repeat split|].
  destruct (_ && _); [apply kept_calculate_inverse|apply kept_refl].
Qed.

Lemma kept_after_set_detrat x inv cm : kept cm (after_ratio (set_detrat x inv cm)).
Proof.
  destruct (kept_after_ratio (set_detrat x inv cm)) as (?&?&?&?&?&?&?&?&?).
  repeat split; assumption.
Qed.

Lemma kept_perform_singular_update k cm :
  big_is_zero N (det cm) = true ->
  new_nullity_lower_bound cm = nullity_lower_bound cm ->
  0 < nullity_lower_bound cm ->
  exists cm', perform_singular_update k cm = Some cm' /\ kept cm cm'.
Proof.
  intros Hz Hn Hpos. unfold perform_singular_update.
  rewrite Hz, Hn, Z.eqb_refl. simpl.
  destruct (0 <? nullity_lower_bound cm) eqn:E; [|lia]. simpl.
  eexists. split; [reflexivity|].
  destruct (_ <=? 0); repeat split.
Qed.

Lemma BOOST_ASSERT_true {A} b (k : option A) : b = true -> (BOOST_ASSERT b ;; k) = k.
Proof. intros ->. reflexivity. Qed.

Lemma has_shape_square_cols n (M : matrix) : has_shape n n M -> rows M = n /\ cols M = n.
Proof.
  intros [Hl Hr]. split; [exact Hl|]. unfold cols.
  destruct M as [|row M]; simpl in *; [exact Hl|]. now inversion Hr.
Qed.

Lemma has_shape_cols r c (M : matrix) : has_shape r c M -> (0 < r)%nat -> cols M = c.
Proof.
  intros [Hl Hr] Hpos. unfold cols.
  destruct M as [|row M]; simpl in *; [lia|]. now inversion Hr.
Qed.

Lemma length_get_row n r (M : matrix) :
  has_shape n n M -> (r < n)%nat -> length (get_row r M) = n.
Proof.
  intros [Hl Hr] Hlt. unfold get_row.
  destruct (M !! r) as [row|] eqn:E; simpl.
  - rewrite Forall_forall in Hr. apply Hr. eapply list_elem_of_lookup_2. exact E.
  - apply lookup_ge_None in E. lia.
Qed.

Lemma forallb_ltb bound (l : list nat) :
  Forall (fun i => (i < bound)%nat) l -> forallb (fun i => (i <? bound)%nat) l = true.
Proof.
  induction 1 as [|i l Hi _ IH]; simpl; [reflexivity|].
  rewrite IH, andb_true_r. now apply Nat.ltb_lt.
Qed.

Lemma indices_ok_true bound (l : list nat) :
  Forall (fun i => (i < bound)%nat) l -> NoDup l -> indices_ok bound l = true.
Proof.
  intros Hb Hnd. unfold indices_ok. rewrite forallb_ltb by assumption.
  now rewrite bool_decide_eq_true_2.
Qed.

(** The branch on the singularity, after [begin_update]. *)
Lemma new_determinant_kept (cm1 : CeperleyMatrix) (k : nat) (x : N) (inv : option matrix) :
  new_nullity_lower_bound cm1 = nullity_lower_bound cm1 ->
  0 <= nullity_lower_bound cm1 ->
  (nullity_lower_bound cm1 <> 0 -> big_is_zero N (det cm1) = true) ->
  exists cm2,
    (if nullity_lower_bound cm1 =? 0
     then Some (after_ratio (set_detrat x inv cm1))
     else perform_singular_update k cm1) = Some cm2 /\ kept cm1 cm2.
Proof.
  intros Hn Hpos Hz. destruct (Z.eqb_spec (nullity_lower_bound cm1) 0) as [E|E].
  - eexists. split; [reflexivity|]. apply kept_after_set_detrat.
  - apply kept_perform_singular_update; [auto|assumption|lia].
Qed.

Lemma cancel_update_row n cm r row :
  ready n cm -> (r < n)%nat -> length row = n ->
  exists cm1 cm2,
    update_row r row cm = Some cm1 /\
    current_state cm1 = ROW_UPDATE_IN_PROGRESS /\
    cancel_row_update cm1 = Some cm2 /\ restored cm cm2.
Proof.
  intros (Hs & Hf & Hsh & Hn & Hz) Hr Hrow.
  destruct (has_shape_square_cols n _ Hsh) as [Hrows Hcols].
  unfold update_row.
  rewrite !BOOST_ASSERT_true;
    [|now rewrite Hf|now rewrite Hs|rewrite Hcols; now apply Nat.eqb_eq
     |rewrite Hrows; now apply Nat.ltb_lt].
  match goal with
  | |- context [begin_update ?a ?b ?c ?d ?e ?f ?g ?h cm] =>
      set (cm1 := begin_update a b c d e f g h cm)
  end.
  destruct (new_determinant_kept cm1 1
              (dot (get_row r (mat cm1)) (get_col r (invmat cm1))) None)
    as (cm2 & Hcm2 & Hk); try assumption; try reflexivity.
  rewrite Hcm2. cbn [mbind option_bind].
  eexists. eexists. split; [reflexivity|]. split; [reflexivity|].
  destruct Hk as (Hm & Hi & Hod & Hnl & Hoc & _ & Hp & _ & _).
  unfold cancel_row_update. cbn [set_state current_state State_eqb BOOST_ASSERT].
  cbn [mbind option_bind]. split; [reflexivity|].
  unfold restored, end_cancel; cbn [mat det invmat nullity_lower_bound current_state
    set_state old_det pending_index old_cols_m].
  rewrite Hm, Hi, Hod, Hnl, Hoc, Hp. subst cm1.
  cbn [begin_update mat invmat old_det nullity_lower_bound old_cols_m pending_index].
  repeat split.
  rewrite Hrows, get_set_col.
  - rewrite set_set_row. apply set_get_row.
  - rewrite length_resize. now apply (length_get_row n).
  - unfold resize. apply Forall_forall. intros x Hx.
    apply elem_of_replicate in Hx as [-> _]. simpl. lia.
Qed.

Lemma cancel_update_column n cm c col :
  ready n cm -> (c < n)%nat -> length col = n ->
  exists cm1 cm2,
    update_column c col cm = Some cm1 /\
    current_state cm1 = COLUMN_UPDATE_IN_PROGRESS /\
    cancel_column_update cm1 = Some cm2 /\ restored cm cm2.
Proof.
  intros (Hs & Hf & Hsh & Hn & Hz) Hc Hcol.
  destruct (has_shape_square_cols n _ Hsh) as [Hrows Hcols].
  unfold update_column.
  rewrite !BOOST_ASSERT_true;
    [|now rewrite Hf|now rewrite Hs|rewrite Hrows; now apply Nat.eqb_eq
     |rewrite Hcols; now apply Nat.ltb_lt].
  match goal with
  | |- context [begin_update ?a ?b ?c ?d ?e ?f ?g ?h cm] =>
      set (cm1 := begin_update a b c d e f g h cm)
  end.
  destruct (new_determinant_kept cm1 1
              (dot (get_row c (invmat cm1)) (get_col c (mat cm1))) None)
    as (cm2 & Hcm2 & Hk); try assumption; try reflexivity.
  rewrite Hcm2. cbn [mbind option_bind].
  eexists. eexists. split; [reflexivity|]. split; [reflexivity|].
  destruct Hk as (Hm & Hi & Hod & Hnl & Hoc & _ & Hp & _ & _).
  unfold cancel_column_update. cbn [set_state current_state State_eqb BOOST_ASSERT].
  cbn [mbind option_bind]. split; [reflexivity|].
  unfold restored, end_cancel; cbn [mat det invmat nullity_lower_bound current_state
    set_state old_det pending_index old_cols_m].
  rewrite Hm, Hi, Hod, Hnl, Hoc, Hp. subst cm1.
  cbn [begin_update mat invmat old_det nullity_lower_bound old_cols_m pending_index].
  repeat split.
  rewrite get_set_col.
  - rewrite set_set_col by (rewrite length_get_col; lia). apply set_get_col.
  - rewrite length_resize, length_get_col. reflexivity.
  - unfold resize. apply Forall_forall. intros x Hx.
    apply elem_of_replicate in Hx as [-> _]. simpl. lia.
Qed.

(** The same branch as the multi-column updates write it. *)
Lemma new_determinant_kept_ratio (cm1 : CeperleyMatrix) (k : nat) (R : matrix) :
  new_nullity_lower_bound cm1 = nullity_lower_bound cm1 ->
  0 <= nullity_lower_bound cm1 ->
  (nullity_lower_bound cm1 <> 0 -> big_is_zero N (det cm1) = true) ->
  exists cm2,
    (if negb (nullity_lower_bound cm1 =? 0)
     then perform_singular_update k cm1
     else let '(d, inv) := ratio_of R in Some (after_ratio (set_detrat d inv cm1)))
    = Some cm2 /\ kept cm1 cm2.
Proof.
  intros Hn Hpos Hz. destruct (Z.eqb_spec (nullity_lower_bound cm1) 0) as [E|E];
    cbn [negb].
  - destruct (ratio_of R) as [d inv]. eexists. split; [reflexivity|].
    apply kept_after_set_detrat.
  - apply kept_perform_singular_update; [auto|assumption|lia].
Qed.

Lemma cancel_update_columns n k cm (cols_ : list (nat * nat)) (srcmat : matrix) :
  ready n cm ->
  cols_ <> [] -> (length cols_ <= n)%nat -> has_shape n k srcmat ->
  Forall (fun fs => (fs.1 < n)%nat /\ (fs.2 < k)%nat) cols_ ->
  NoDup (map fst cols_) ->
  exists cm1 cm2,
    update_columns cols_ srcmat cm = Some cm1 /\
    current_state cm1 = COLUMNS_UPDATE_IN_PROGRESS /\
    cancel_columns_update cm1 = Some cm2 /\ restored cm cm2.
Proof.
  intros (Hs & Hf & Hsh & Hn & Hz) Hne Hlen Hsrc Hidx Hnd.
  destruct (has_shape_square_cols n _ Hsh) as [Hrows Hcols].
  assert (Hpos : (0 < length cols_)%nat) by (destruct cols_; [congruence|simpl; lia]).
  assert (Hk : cols srcmat = k) by (apply (has_shape_cols n); [assumption|lia]).
  unfold update_columns.
  rewrite !BOOST_ASSERT_true.
  2:{ apply indices_ok_true; [|assumption]. rewrite Hcols. apply Forall_fmap.
      eapply Forall_impl; [exact Hidx|]. intros fs [H _]. exact H. }
  2:{ rewrite Hk. apply forallb_ltb. apply Forall_fmap.
      eapply Forall_impl; [exact Hidx|]. intros fs [_ H]. exact H. }
  2:{ now apply Z.leb_le. }
  2:{ now rewrite Hf. }
  2:{ now rewrite Hs. }
  2:{ rewrite Hrows. apply Nat.eqb_eq. apply Hsrc. }
  2:{ rewrite Hcols. now apply Nat.leb_le. }
  2:{ now apply Nat.ltb_lt. }
  destruct (replace_columns cols_ 0 srcmat (mat cm) _ _) as [[m' old'] off'] eqn:Hrep.
  match goal with
  | |- context [begin_update ?a ?b ?c ?d ?e ?f ?g ?h cm] =>
      set (cm1 := begin_update a b c d e f g h cm)
  end.
  destruct (new_determinant_kept_ratio cm1 (length cols_)
              (columns_ratio_matrix (map fst cols_) (invmat cm1) off'))
    as (cm2 & Hcm2 & Hkept); try assumption; try reflexivity.
  rewrite Hcm2. cbn [mbind option_bind].
  eexists. eexists. split; [reflexivity|]. split; [reflexivity|].
  destruct Hkept as (Hm & Hi & Hod & Hnl & Hoc & _ & _ & Hpc & _).
  unfold cancel_columns_update. cbn [set_state current_state State_eqb BOOST_ASSERT].
  cbn [mbind option_bind]. split; [reflexivity|].
  unfold restored, end_cancel; cbn [mat det invmat nullity_lower_bound current_state
    set_state old_det pending_col_indices old_cols_m].
  rewrite Hm, Hi, Hod, Hnl, Hoc, Hpc. subst cm1.
  cbn [begin_update mat invmat old_det nullity_lower_bound old_cols_m pending_col_indices].
  repeat split.
  eapply restore_replace_columns; [exact Hrep|assumption| |].
  - rewrite length_resize. reflexivity.
  - apply resize_row_lengths.
Qed.

Lemma cancel_update_rows_and_columns n cm (rows_ cols_ : list nat) (srcmat : matrix) :
  ready n cm ->
  rows_ <> [] \/ cols_ <> [] ->
  (length cols_ <= n)%nat -> (length rows_ <= n)%nat -> has_shape n n srcmat ->
  Forall (fun r => (r < n)%nat) rows_ -> NoDup rows_ ->
  Forall (fun c => (c < n)%nat) cols_ -> NoDup cols_ ->
  exists cm1 cm2,
    update_rows_and_columns rows_ cols_ srcmat cm = Some cm1 /\
    current_state cm1 = ROWCOL_UPDATE_IN_PROGRESS /\
    cancel_rows_and_columns_update cm1 = Some cm2 /\ restored cm cm2.
Proof.
  intros (Hs & Hf & Hsh & Hn & Hz) Hne Hlc Hlr Hsrc Hri Hrn Hci Hcn.
  destruct (has_shape_square_cols n _ Hsh) as [Hrows Hcols].
  destruct (has_shape_square_cols n _ Hsrc) as [Hsrows Hscols].
  unfold update_rows_and_columns.
  rewrite !BOOST_ASSERT_true.
  2:{ apply indices_ok_true; [now rewrite Hcols|assumption]. }
  2:{ apply indices_ok_true; [now rewrite Hrows|assumption]. }
  2:{ now apply Z.leb_le. }
  2:{ now rewrite Hf. }
  2:{ now rewrite Hs. }
  2:{ rewrite Hscols, Hcols. apply Nat.eqb_refl. }
  2:{ rewrite Hsrows, Hrows. apply Nat.eqb_refl. }
  2:{ rewrite Hrows. now apply Nat.leb_le. }
  2:{ rewrite Hcols. now apply Nat.leb_le. }
  2:{ apply orb_true_iff. destruct Hne as [H|H]; [right|left]; apply Nat.ltb_lt;
      [destruct rows_|destruct cols_]; simpl; try congruence; lia. }
  destruct (replace_rows rows_ 0 srcmat (mat cm) _ _) as [[m1 old_rows'] rows_off'] eqn:Hrr.
  destruct (replace_columns _ 0 srcmat m1 _ _) as [[m2 old_cols'] cols_off'] eqn:Hrc.
  match goal with
  | |- context [begin_update ?a ?b ?c ?d ?e ?f ?g ?h cm] =>
      set (cm1 := begin_update a b c d e f g h cm)
  end.
  destruct (new_determinant_kept_ratio cm1 (length cols_)
              (rowcol_ratio_matrix rows_ cols_ (invmat cm1) cols_off' rows_off'))
    as (cm2 & Hcm2 & Hkept); try assumption; try reflexivity.
  rewrite Hcm2. cbn [mbind option_bind].
  eexists. eexists. split; [reflexivity|]. split; [reflexivity|].
  destruct Hkept as (Hm & Hi & Hod & Hnl & Hoc & Hor & _ & Hpc & Hpr).
  unfold cancel_rows_and_columns_update.
  cbn [set_state current_state State_eqb BOOST_ASSERT].
  cbn [mbind option_bind]. split; [reflexivity|].
  unfold restored, end_cancel; cbn [mat det invmat nullity_lower_bound current_state
    set_state old_det pending_col_indices pending_row_indices old_cols_m old_rows_m].
  rewrite Hm, Hi, Hod, Hnl, Hoc, Hor, Hpc, Hpr. subst cm1.
  cbn [begin_update mat invmat old_det nullity_lower_bound old_cols_m old_rows_m
       pending_col_indices pending_row_indices].
  repeat split.
  assert (Hcols_restored : restore_columns cols_ 0 old_cols' m2 = m1).
  { replace cols_ with (map fst (map (fun c => (c, c)) cols_)) at 1
      by (rewrite map_map; apply map_id).
    eapply restore_replace_columns; [exact Hrc| | |].
    - rewrite map_map. simpl. now rewrite map_id.
    - rewrite length_resize. reflexivity.
    - rewrite length_map. apply resize_row_lengths. }
  rewrite Hcols_restored.
  eapply restore_replace_rows; [exact Hrr|assumption|].
  rewrite length_resize. simpl. lia.
Qed.

(** C1: in the ready state, each kind of update with arguments that
    satisfy its preconditions, followed by the matching cancel, gives back
    the matrix, the determinant, the inverse and the nullity lower bound
    exactly as they were, and the ready state. *)
Theorem cancel_restores_ready_engine (n : nat) (cm : CeperleyMatrix) :
  ready n cm ->
  (forall r row, (r < n)%nat -> length row = n ->
     exists cm1 cm2,
       update_row r row cm = Some cm1 /\
       current_state cm1 = ROW_UPDATE_IN_PROGRESS /\
       cancel_row_update cm1 = Some cm2 /\ restored cm cm2) /\
  (forall c col, (c < n)%nat -> length col = n ->
     exists cm1 cm2,
       update_column c col cm = Some cm1 /\
       current_state cm1 = COLUMN_UPDATE_IN_PROGRESS /\
       cancel_column_update cm1 = Some cm2 /\ restored cm cm2) /\
  (forall k (cols_ : list (nat * nat)) (srcmat : matrix),
     cols_ <> [] -> (length cols_ <= n)%nat -> has_shape n k srcmat ->
     Forall (fun fs => (fs.1 < n)%nat /\ (fs.2 < k)%nat) cols_ ->
     NoDup (map fst cols_) ->
     exists cm1 cm2,
       update_columns cols_ srcmat cm = Some cm1 /\
       current_state cm1 = COLUMNS_UPDATE_IN_PROGRESS /\
       cancel_columns_update cm1 = Some cm2 /\ restored cm cm2) /\
  (forall (rows_ cols_ : list nat) (srcmat : matrix),
     rows_ <> [] \/ cols_ <> [] ->
     (length cols_ <= n)%nat -> (length rows_ <= n)%nat -> has_shape n n srcmat ->
     Forall (fun r => (r < n)%nat) rows_ -> NoDup rows_ ->
     Forall (fun c => (c < n)%nat) cols_ -> NoDup cols_ ->
     exists cm1 cm2,
       update_rows_and_columns rows_ cols_ srcmat cm = Some cm1 /\
       current_state cm1 = ROWCOL_UPDATE_IN_PROGRESS /\
       cancel_rows_and_columns_update cm1 = Some cm2 /\ restored cm cm2).
Proof.
  intros Hready. repeat split.
  - intros r row. now apply cancel_update_row.
  - intros c col. now apply cancel_update_column.
  - intros k cols_ srcmat. now apply cancel_update_columns.
  - intros rows_ cols_ srcmat. now apply cancel_update_rows_and_columns.
Qed.

(** *** Updates of a singular matrix *)

(** [perform_singular_update]: the pending bound is the old one minus
    [update_rank]; at zero or below, the determinant and the inverse are
    recomputed from scratch, above it nothing else changes. *)
Lemma perform_singular_update_spec (update_rank : nat) (cm cm' : CeperleyMatrix) :
  perform_singular_update update_rank cm = Some cm' ->
  let k' := int_wrap (nullity_lower_bound cm - Z.of_nat update_rank) in
  (k' <= 0 -> cm' = calculate_inverse true (set_new_nullity k' cm)) /\
  (0 < k' -> cm' = set_new_nullity k' cm).
Proof.
  intros H k'. unfold perform_singular_update in H.
  destruct (big_is_zero N (det cm)); [|discriminate].
  destruct (Z.eqb_spec (new_nullity_lower_bound cm) (nullity_lower_bound cm)) as [E|];
    [|discriminate].
  destruct (0 <? new_nullity_lower_bound cm); [|discriminate].
  cbn [BOOST_ASSERT mbind option_bind] in H. injection H as <-.
  cbn [set_new_nullity new_nullity_lower_bound]. rewrite E. fold k'.
  destruct (Z.leb_spec k' 0); split; intros; try lia; reflexivity.
Qed.

(** [update_rows_and_columns] on a singular matrix hands only the number of
    columns to [perform_singular_update]: while the old bound exceeds it,
    the pending bound is the old one minus the number of columns, whatever
    the number of rows, and the determinant is not recomputed. *)
Lemma singular_rows_and_columns_update (cm cm1 : CeperleyMatrix)
    (rows_ cols_ : list nat) (srcmat : matrix) :
  update_rows_and_columns rows_ cols_ srcmat cm = Some cm1 ->
  nullity_lower_bound cm <> 0 ->
  0 < int_wrap (nullity_lower_bound cm - Z.of_nat (length cols_)) ->
  new_nullity_lower_bound cm1 =
    int_wrap (nullity_lower_bound cm - Z.of_nat (length cols_)) /\
  det cm1 = det cm /\
  inverse_recalculated_for_current_update cm1 =
    inverse_recalculated_for_current_update cm.
Proof.
  unfold update_rows_and_columns. intros H Hk Hpos.
  repeat match type of H with
  | (BOOST_ASSERT ?b ;; _) = Some _ =>
      destruct b; [cbn [BOOST_ASSERT mbind option_bind] in H|discriminate]
  end.
  destruct (replace_rows rows_ 0 srcmat (mat cm) _ _) as [[m1 old_rows'] rows_off'].
  destruct (replace_columns _ 0 srcmat m1 _ _) as [[m2 old_cols'] cols_off'].
  cbn [begin_update nullity_lower_bound] in H.
  destruct (Z.eqb_spec (nullity_lower_bound cm) 0) as [|_]; [contradiction|].
  cbn [negb] in H.
  match type of H with
  | (?e ≫= _) = Some _ => destruct e as [cm2|] eqn:Hps; [|discriminate]
  end.
  cbn [mbind option_bind] in H. injection H as <-.
  apply perform_singular_update_spec in Hps as [_ Hps].
  cbn [begin_update nullity_lower_bound] in Hps.
  rewrite (Hps Hpos). repeat split.
Qed.

(** *** swap_rows and swap_columns *)

(** [M.row (r1).swap (M.row (r2))] and [M.col (c1).swap (M.col (c2))] *)
Definition swap_matrix_rows (r1 r2 : nat) (M : matrix) : matrix :=
  set_row r1 (get_row r2 M) (set_row r2 (get_row r1 M) M).

Definition swap_matrix_cols (c1 c2 : nat) (M : matrix) : matrix :=
  set_col c1 (get_col c2 M) (set_col c2 (get_col c1 M) M).

(** What [swap_rows] and [swap_columns] write: the matrix, the inverse and
    [det *= -1]. *)
Definition swapped (mat' invmat' : matrix) (cm : CeperleyMatrix) : CeperleyMatrix :=
  {| current_state := current_state cm;
     be_extra_careful := be_extra_careful cm;
     mat := mat'; invmat := invmat'; new_invmat := new_invmat cm;
     detrat := detrat cm;
     det := big_mul N (det cm) (tsub N (tzero N) (tone N));
     old_det := old_det cm;
     pending_index := pending_index cm;
     nullity_lower_bound := nullity_lower_bound cm;
     new_nullity_lower_bound := new_nullity_lower_bound cm;
     inverse_recalculated_for_current_update :=
       inverse_recalculated_for_current_update cm;
     detrat_inv_m := detrat_inv_m cm;
     old_cols_m := old_cols_m cm;
     old_rows_m := old_rows_m cm;
     cols_offset_m := cols_offset_m cm;
     rows_offset_m := rows_offset_m cm;
     pending_col_indices := pending_col_indices cm;
     pending_row_indices := pending_row_indices cm |}.

(** [swap_rows (r1, r2)] *)
Definition swap_rows (r1 r2 : nat) (cm : CeperleyMatrix) : option CeperleyMatrix :=
  BOOST_ASSERT (State_eqb (current_state cm) READY_FOR_UPDATE) ;;
  BOOST_ASSERT (r1 <? rows (mat cm))%nat ;;
  BOOST_ASSERT (r2 <? rows (mat cm))%nat ;;
  BOOST_ASSERT (negb (r1 =? r2)%nat) ;;
  Some (swapped (swap_matrix_rows r1 r2 (mat cm))
          (if nullity_lower_bound cm =? 0 then swap_matrix_cols r1 r2 (invmat cm)
           else invmat cm) cm).

(** [swap_columns (c1, c2)] *)
Definition swap_columns (c1 c2 : nat) (cm : CeperleyMatrix) : option CeperleyMatrix :=
  BOOST_ASSERT (State_eqb (current_state cm) READY_FOR_UPDATE) ;;
  BOOST_ASSERT (c1 <? cols (mat cm))%nat ;;
  BOOST_ASSERT (c2 <? cols (mat cm))%nat ;;
  BOOST_ASSERT (negb (c1 =? c2)%nat) ;;
  Some (swapped (swap_matrix_cols c1 c2 (mat cm))
          (if nullity_lower_bound cm =? 0 then swap_matrix_rows c1 c2 (invmat cm)
           else invmat cm) cm).

(** A vector with the entries [i] and [j] exchanged. *)
Definition swap_vector (i j : nat) (v : vector) : vector :=
  <[i := default (uninitialized N) (v !! j)]>
    (<[j := default (uninitialized N) (v !! i)]> v).

Lemma lookup_swap_vector i j (v : vector) k :
  (i < length v)%nat -> (j < length v)%nat ->
  swap_vector i j v !! k = v !! (if decide (k = i) then j else if decide (k = j) then i else k).
Proof.
  intros Hi Hj. unfold swap_vector.
  destruct (lookup_lt_is_Some_2 v i Hi) as [x Ex].
  destruct (lookup_lt_is_Some_2 v j Hj) as [y Ey]. rewrite Ex, Ey. cbn [default].
  destruct (decide (k = i)) as [->|Hki].
  - rewrite list_lookup_insert_eq by (rewrite length_insert; exact Hi). now rewrite Ey.
  - rewrite list_lookup_insert_ne by auto. destruct (decide (k = j)) as [->|Hkj].
    + rewrite list_lookup_insert_eq by exact Hj. now rewrite Ex.
    + now rewrite list_lookup_insert_ne by auto.
Qed.

Lemma length_swap_vector i j (v : vector) : length (swap_vector i j v) = length v.
Proof. unfold swap_vector. now rewrite !length_insert. Qed.

Lemma swap_vector_twice i j (v : vector) :
  (i < length v)%nat -> (j < length v)%nat -> swap_vector i j (swap_vector i j v) = v.
Proof.
  intros Hi Hj. apply list_eq. intros k.
  rewrite lookup_swap_vector by (rewrite length_swap_vector; assumption).
  rewrite lookup_swap_vector by assumption.
  destruct (decide (k = i)) as [->|Hki].
  - destruct (decide (j = i)) as [->|Hji]; [reflexivity|]. now rewrite decide_True.
  - destruct (decide (k = j)) as [->|Hkj].
    + now rewrite decide_True.
    + now rewrite decide_False, decide_False.
Qed.

(** Swapping two rows exchanges two entries of every column, and swapping
    two columns exchanges two entries of every row. *)
Lemma get_col_swap_rows r1 r2 c (M : matrix) :
  (r1 < length M)%nat -> (r2 < length M)%nat ->
  get_col c (swap_matrix_rows r1 r2 M) = swap_vector r1 r2 (get_col c M).
Proof.
  intros H1 H2. unfold swap_matrix_rows, set_row, get_row, get_col, swap_vector.
  change (map (fun row : vector => default (uninitialized N) (row !! c)))
    with (fmap (M := list) (fun row : vector => default (uninitialized N) (row !! c))).
  rewrite !list_fmap_insert, !list_lookup_fmap.
  destruct (lookup_lt_is_Some_2 M r1 H1) as [x ->].
  destruct (lookup_lt_is_Some_2 M r2 H2) as [y ->]. reflexivity.
Qed.

Lemma swap_matrix_cols_rows c1 c2 (M : matrix) :
  swap_matrix_cols c1 c2 M = map (swap_vector c1 c2) M.
Proof.
  unfold swap_matrix_cols, get_col.
  induction M as [|row M IH]; [reflexivity|].
  cbn [map set_col]. rewrite IH. reflexivity.
Qed.

Lemma get_row_swap_cols c1 c2 r n (M : matrix) :
  has_shape n n M -> (c1 < n)%nat -> (c2 < n)%nat -> (r < n)%nat ->
  get_row r (swap_matrix_cols c1 c2 M) = swap_vector c1 c2 (get_row r M).
Proof.
  intros [Hlen Hrows] H1 H2 Hr. rewrite swap_matrix_cols_rows.
  unfold get_row.
  change (map (swap_vector c1 c2) M) with (swap_vector c1 c2 <$> M).
  rewrite list_lookup_fmap.
  destruct (lookup_lt_is_Some_2 M r ltac:(lia)) as [row ->]. reflexivity.
Qed.

Lemma swap_matrix_rows_twice r1 r2 (M : matrix) :
  (r1 < length M)%nat -> (r2 < length M)%nat ->
  swap_matrix_rows r1 r2 (swap_matrix_rows r1 r2 M) = M.
Proof.
  intros H1 H2. unfold swap_matrix_rows, set_row, get_row.
  destruct (lookup_lt_is_Some_2 M r1 H1) as [x Ex].
  destruct (lookup_lt_is_Some_2 M r2 H2) as [y Ey]. rewrite Ex, Ey.
  cbn [default from_option id].
  destruct (decide (r1 = r2)) as [->|Hne].
  - assert (x = y) as -> by congruence.
    rewrite !list_lookup_insert_eq by (rewrite ?length_insert; exact H2).
    cbn [default from_option id].
    rewrite !list_insert_insert_eq. now apply list_insert_id.
  - set (M1 := <[r1 := y]> (<[r2 := x]> M)).
    assert (E1 : M1 !! r1 = Some y).
    { unfold M1. apply list_lookup_insert_eq. rewrite length_insert. exact H1. }
    assert (E2 : M1 !! r2 = Some x).
    { unfold M1. rewrite list_lookup_insert_ne by auto.
      apply list_lookup_insert_eq. exact H2. }
    fold M1. rewrite E1, E2. cbn [default from_option id]. apply list_eq. intros k.
    destruct (decide (k = r1)) as [->|Hk1].
    + rewrite list_lookup_insert_eq by (unfold M1; rewrite !length_insert; exact H1).
      now rewrite Ex.
    + rewrite list_lookup_insert_ne by auto. destruct (decide (k = r2)) as [->|Hk2].
      * rewrite list_lookup_insert_eq by (unfold M1; rewrite !length_insert; exact H2).
        now rewrite Ey.
      * unfold M1. rewrite !list_lookup_insert_ne by auto. reflexivity.
Qed.

Lemma swap_matrix_cols_twice c1 c2 n (M : matrix) :
  has_shape n n M -> (c1 < n)%nat -> (c2 < n)%nat ->
  swap_matrix_cols c1 c2 (swap_matrix_cols c1 c2 M) = M.
Proof.
  intros [_ Hrows] H1 H2. rewrite !swap_matrix_cols_rows, map_map.
  rewrite <- (map_id M) at 2. apply map_ext_in. intros row Hrow.
  rewrite Forall_forall in Hrows.
  assert (length row = n) by (apply Hrows; now apply list_elem_of_In).
  apply swap_vector_twice; lia.
Qed.

(** X22: swapping the same two rows twice gives back the matrix and the
    inverse.  On an engine that is ready for an update, with rows [r1] and
    [r2] of the matrix distinct, [swap_rows] fails none of its assertions,
    and a second [swap_rows (r1, r2)] restores [mat] and [invmat]. *)
Theorem swap_rows_twice (n : nat) (cm : CeperleyMatrix) (r1 r2 : nat) :
  current_state cm = READY_FOR_UPDATE ->
  has_shape n n (mat cm) -> has_shape n n (invmat cm) ->
  (r1 < n)%nat -> (r2 < n)%nat -> r1 <> r2 ->
  exists cm1 cm2,
    swap_rows r1 r2 cm = Some cm1 /\ swap_rows r1 r2 cm1 = Some cm2 /\
    mat cm2 = mat cm /\ invmat cm2 = invmat cm /\
    nullity_lower_bound cm2 = nullity_lower_bound cm /\
    current_state cm2 = READY_FOR_UPDATE.
Proof.
  intros Hstate Hmat Hinv H1 H2 Hne.
  assert (Hrows : rows (mat cm) = n) by apply Hmat.
  assert (Hasserts : forall cm0, current_state cm0 = READY_FOR_UPDATE ->
            rows (mat cm0) = n ->
            swap_rows r1 r2 cm0 =
            Some (swapped (swap_matrix_rows r1 r2 (mat cm0))
                    (if nullity_lower_bound cm0 =? 0
                     then swap_matrix_cols r1 r2 (invmat cm0) else invmat cm0) cm0)).
  { intros cm0 Hs Hr. unfold swap_rows. rewrite Hs, Hr.
    rewrite (proj2 (Nat.ltb_lt _ _) H1), (proj2 (Nat.ltb_lt _ _) H2).
    rewrite (proj2 (Nat.eqb_neq _ _) Hne). reflexivity. }
  eexists. eexists. split; [apply Hasserts; assumption|]. split.
  - apply Hasserts; [exact Hstate|]. cbn [swapped mat]. unfold rows, swap_matrix_rows, set_row.
    rewrite !length_insert. exact Hrows.
  - cbn [swapped mat invmat nullity_lower_bound current_state].
    split; [apply swap_matrix_rows_twice; unfold rows in Hrows; lia|].
    split; [|split; [reflexivity|exact Hstate]].
    destruct (nullity_lower_bound cm =? 0); [|reflexivity].
    now apply (swap_matrix_cols_twice r1 r2 n).
Qed.

(** *** The products of the matrix and its inverse under a swap *)

(** The exchange of [i] and [j] on the indices. *)
Definition transpose_index (i j k : nat) : nat :=
  if decide (k = i) then j else if decide (k = j) then i else k.

Lemma transpose_index_twice i j k : transpose_index i j (transpose_index i j k) = k.
Proof.
  unfold transpose_index.
  repeat (destruct (decide _); try congruence).
Qed.

Lemma transpose_index_lt i j n k :
  (i < n)%nat -> (j < n)%nat -> (k < n)%nat -> (transpose_index i j k < n)%nat.
Proof. intros. unfold transpose_index. repeat (destruct (decide _)); lia. Qed.

Lemma transpose_seq i j n :
  (i < n)%nat -> (j < n)%nat -> transpose_index i j <$> seq 0 n ≡ₚ seq 0 n.
Proof.
  intros Hi Hj. apply NoDup_Permutation.
  - apply NoDup_fmap_2; [|apply NoDup_seq].
    intros a b Hab. rewrite <- (transpose_index_twice i j a), Hab.
    apply transpose_index_twice.
  - apply NoDup_seq.
  - intros k. rewrite list_elem_of_fmap. setoid_rewrite elem_of_seq. split.
    + intros (k' & -> & Hk'). split; [lia|]. apply transpose_index_lt; lia.
    + intros Hk. exists (transpose_index i j k). split.
      * symmetry. apply transpose_index_twice.
      * split; [lia|]. apply transpose_index_lt; lia.
Qed.

Lemma vector_as_seq (v : vector) :
  v = (fun k => default (uninitialized N) (v !! k)) <$> seq 0 (length v).
Proof.
  apply list_eq. intros k. rewrite list_lookup_fmap.
  destruct (decide (k < length v)%nat) as [Hk|Hk].
  - rewrite lookup_seq_lt by exact Hk. cbn.
    destruct (lookup_lt_is_Some_2 v k Hk) as [x Ex]. rewrite Ex. reflexivity.
  - rewrite lookup_seq_ge by lia. apply lookup_ge_None. lia.
Qed.

Lemma swap_vector_as_seq i j (v : vector) :
  (i < length v)%nat -> (j < length v)%nat ->
  swap_vector i j v =
  (fun k => default (uninitialized N) (v !! k)) <$>
    (transpose_index i j <$> seq 0 (length v)).
Proof.
  intros Hi Hj. apply list_eq. intros k.
  rewrite lookup_swap_vector by assumption. fold (transpose_index i j k).
  rewrite !list_lookup_fmap.
  destruct (decide (k < length v)%nat) as [Hk|Hk].
  - rewrite lookup_seq_lt by exact Hk. cbn.
    destruct (lookup_lt_is_Some_2 v (transpose_index i j k)) as [x Ex].
    { apply transpose_index_lt; assumption. }
    rewrite Ex. reflexivity.
  - rewrite lookup_seq_ge by lia. cbn. apply lookup_ge_None.
    unfold transpose_index. repeat (destruct (decide _)); lia.
Qed.

Lemma zip_fmap_same {A B C} (f : A -> B) (g : A -> C) (l : list A) :
  zip (f <$> l) (g <$> l) = (fun a => (f a, g a)) <$> l.
Proof. induction l as [|a l IH]; [reflexivity|]. cbn. now rewrite <- IH. Qed.

Section Commutative.

(** The sum of the scalars is commutative and associative. *)
Hypothesis tadd_comm : forall x y : N, tadd N x y = tadd N y x.
Hypothesis tadd_assoc : forall x y z : N, tadd N x (tadd N y z) = tadd N (tadd N x y) z.

Lemma dot_swap_vector i j (a b : vector) :
  length a = length b -> (i < length a)%nat -> (j < length a)%nat ->
  dot (swap_vector i j a) (swap_vector i j b) = dot a b.
Proof.
  intros Hlen Hi Hj. unfold dot.
  rewrite (swap_vector_as_seq i j a), (swap_vector_as_seq i j b) by lia.
  rewrite <- Hlen, zip_fmap_same.
  assert (E : zip a b =
              (fun k => (default (uninitialized N) (a !! k),
                         default (uninitialized N) (b !! k))) <$> seq 0 (length a)).
  { rewrite <- zip_fmap_same. f_equal; [apply vector_as_seq|].
    rewrite Hlen. apply vector_as_seq. }
  rewrite E.
  apply (foldr_permutation_proper eq).
  - intros [x y] acc acc' ->. reflexivity.
  - intros [x y] [x' y'] acc.
    rewrite !tadd_assoc. f_equal. apply tadd_comm.
  - apply fmap_Permutation. now apply transpose_seq.
Qed.

(** X23: [swap_rows] keeps the product of the inverse and the matrix.
    With a commutative and associative sum, on an engine whose inverse is
    in use ([nullity_lower_bound == 0]), every entry of [invmat * mat] is
    after [swap_rows] what it was before; if [invmat] was the inverse of
    [mat], it still is. *)
Theorem swap_rows_keeps_product (n : nat) (cm cm' : CeperleyMatrix) (r1 r2 i j : nat) :
  has_shape n n (mat cm) -> has_shape n n (invmat cm) ->
  nullity_lower_bound cm = 0 ->
  swap_rows r1 r2 cm = Some cm' ->
  (i < n)%nat -> (j < n)%nat ->
  dot (get_row i (invmat cm')) (get_col j (mat cm')) =
  dot (get_row i (invmat cm)) (get_col j (mat cm)).
Proof.
  intros Hmat Hinv Hnull Hswap Hi Hj. unfold swap_rows in Hswap.
  destruct (State_eqb (current_state cm) READY_FOR_UPDATE); [|discriminate].
  assert (Hrows : rows (mat cm) = n) by apply Hmat. rewrite Hrows in Hswap.
  destruct (Nat.ltb_spec r1 n) as [H1|]; [|discriminate].
  destruct (Nat.ltb_spec r2 n) as [H2|]; [|discriminate].
  destruct (negb (r1 =? r2)%nat); [|discriminate].
  cbn [BOOST_ASSERT mbind option_bind] in Hswap. injection Hswap as <-.
  cbn [swapped mat invmat]. rewrite Hnull. cbn [Z.eqb].
  rewrite (get_row_swap_cols r1 r2 i n) by assumption.
  rewrite get_col_swap_rows by (unfold rows in Hrows; lia).
  apply dot_swap_vector.
  - rewrite length_get_col. rewrite (length_get_row n) by assumption.
    unfold rows in Hrows. lia.
  - rewrite (length_get_row n) by assumption. exact H1.
  - rewrite (length_get_row n) by assumption. exact H2.
Qed.

(** X24: [swap_columns] keeps the product of the matrix and the inverse:
    under the same conditions every entry of [mat * invmat] is after
    [swap_columns] what it was before. *)
Theorem swap_columns_keeps_product (n : nat) (cm cm' : CeperleyMatrix)
    (c1 c2 i j : nat) :
  has_shape n n (mat cm) -> has_shape n n (invmat cm) ->
  nullity_lower_bound cm = 0 ->
  swap_columns c1 c2 cm = Some cm' ->
  (i < n)%nat -> (j < n)%nat ->
  dot (get_row i (mat cm')) (get_col j (invmat cm')) =
  dot (get_row i (mat cm)) (get_col j (invmat cm)).
Proof.
  intros Hmat Hinv Hnull Hswap Hi Hj. unfold swap_columns in Hswap.
  destruct (State_eqb (current_state cm) READY_FOR_UPDATE); [|discriminate].
  assert (Hcols : cols (mat cm) = n).
  { apply (has_shape_cols n n); [exact Hmat|lia]. }
  rewrite Hcols in Hswap.
  destruct (Nat.ltb_spec c1 n) as [H1|]; [|discriminate].
  destruct (Nat.ltb_spec c2 n) as [H2|]; [|discriminate].
  destruct (negb (c1 =? c2)%nat); [|discriminate].
  cbn [BOOST_ASSERT mbind option_bind] in Hswap. injection Hswap as <-.
  cbn [swapped mat invmat]. rewrite Hnull. cbn [Z.eqb].
  assert (Hil : length (invmat cm) = n) by apply Hinv.
  rewrite (get_row_swap_cols c1 c2 i n) by assumption.
  rewrite get_col_swap_rows by lia.
  apply dot_swap_vector.
  - rewrite length_get_col. rewrite (length_get_row n) by assumption. lia.
  - rewrite (length_get_row n) by assumption. exact H1.
  - rewrite (length_get_row n) by assumption. exact H2.
Qed.

End Commutative.

End Engine.

(** *** An exact instance *)

(** Exact rationals, with a decomposition that is right for diagonal
    matrices: the rank counts the non-zero rows, the determinant is the
    product of the diagonal, the inverse inverts the diagonal. *)
Definition row_is_zero (row : list Q) : bool := forallb (fun x => Qeq_bool x 0) row.

Definition diagonal (M : list (list Q)) : list Q :=
  imap (fun i row => default 0%Q (row !! i)) M.

Definition diagonal_inverse (M : list (list Q)) : list (list Q) :=
  imap (fun i row => imap (fun j x => if (i =? j)%nat then Qinv x else 0%Q) row) M.

Definition diagonal_rank (M : list (list Q)) : Z :=
  Z.of_nat (length (filter (fun row => row_is_zero row = false) M)).

Definition diagonal_numerics : numerics := {|
  T := Q;
  tzero := 0%Q; tone := 1%Q;
  tadd := Qplus; tsub := Qminus; tmul := Qmult; tdiv := Qdiv;
  tneq := fun a b => negb (Qeq_bool a b);
  uninitialized := 0%Q;
  Big := Q;
  big_zero := 0%Q;
  big_mul := Qmult;
  big_is_zero := fun b => Qeq_bool b 0;
  base_below := fun b c => Qle_bool (Qabs b) (Qabs c) && negb (Qeq_bool (Qabs b) (Qabs c));
  ceperley_determinant_safe_lower_cutoff := (1 # 1000000)%Q;
  lu_rank := diagonal_rank;
  lu_inverse := diagonal_inverse;
  lu_big_determinant := fun M => fold_right Qmult 1%Q (diagonal M);
  ratio_lu_isInvertible := fun M => diagonal_rank M =? Z.of_nat (length M);
  ratio_lu_determinant := fun M => fold_right Qmult 1%Q (diagonal M);
  ratio_lu_inverse := diagonal_inverse
|}.

Lemma cancel_restores_ready_engine_witness :
  exists cm,
    mkCeperleyMatrix diagonal_numerics [[1; 0]; [0; 2]]%Q false = Some cm /\
    ready diagonal_numerics 2 cm /\
    exists cm1 cm2,
      update_row diagonal_numerics 1 [0; 3]%Q cm = Some cm1 /\
      current_state diagonal_numerics cm1 = ROW_UPDATE_IN_PROGRESS /\
      cancel_row_update diagonal_numerics cm1 = Some cm2 /\
      restored diagonal_numerics cm cm2.
Proof.
  eexists. split; [reflexivity|].
  match goal with
  | |- ready _ _ ?c /\ _ => assert (Hready : ready diagonal_numerics 2 c)
  end.
  { split; [reflexivity|]. split; [reflexivity|].
    split; [split; [reflexivity|repeat constructor]|].
    split; [vm_compute; discriminate|].
    intros H. exfalso. apply H. reflexivity. }
  split; [exact Hready|].
  apply (proj1 (cancel_restores_ready_engine diagonal_numerics 2 _ Hready) 1%nat [0; 3]%Q);
    [lia|reflexivity].
Defined.

(** C2 fails on the code: on the singular 1 by 1 matrix [[0]], with
    nullity lower bound 1, [update_rows_and_columns] replacing the one row
    (and no column) leaves the pending bound at 1, recomputes nothing and
    keeps the determinant at 0, although the new matrix [[1]] is regular;
    [update_row] with the same row counts it: the bound reaches 0, and the
    determinant and the inverse are recomputed. *)
Theorem singular_row_replacement_not_counted :
  exists cm cm1 cm2,
    mkCeperleyMatrix diagonal_numerics [[0]]%Q false = Some cm /\
    nullity_lower_bound diagonal_numerics cm = 1 /\
    update_rows_and_columns diagonal_numerics [0%nat] [] [[1]]%Q cm = Some cm1 /\
    mat diagonal_numerics cm1 = [[1]]%Q /\
    new_nullity_lower_bound diagonal_numerics cm1 = 1 /\
    inverse_recalculated_for_current_update diagonal_numerics cm1 = false /\
    det diagonal_numerics cm1 = 0%Q /\
    update_row diagonal_numerics 0 [1]%Q cm = Some cm2 /\
    new_nullity_lower_bound diagonal_numerics cm2 = 0 /\
    inverse_recalculated_for_current_update diagonal_numerics cm2 = true /\
    Qeq_bool (det diagonal_numerics cm2) 1 = true.
Proof.
  let v := eval vm_compute in (mkCeperleyMatrix diagonal_numerics [[0]]%Q false) in
  match v with Some ?cm => exists cm end.
  let v := eval vm_compute in
    (cm ← mkCeperleyMatrix diagonal_numerics [[0]]%Q false;
     update_rows_and_columns diagonal_numerics [0%nat] [] [[1]]%Q cm) in
  match v with Some ?cm1 => exists cm1 end.
  let v := eval vm_compute in
    (cm ← mkCeperleyMatrix diagonal_numerics [[0]]%Q false;
     update_row diagonal_numerics 0 [1]%Q cm) in
  match v with Some ?cm2 => exists cm2 end.
  repeat (split; [reflexivity|]). reflexivity.
Qed.

(** The sum of the rationals is commutative and associative as it stands,
    not only up to [Qeq]. *)
Lemma Qplus_comm_eq (x y : Q) : Qplus x y = Qplus y x.
Proof.
  destruct x as [a b], y as [c d]. unfold Qplus. cbn [Qnum Qden].
  f_equal; [lia|apply Pos.mul_comm].
Qed.

Lemma Qplus_assoc_eq (x y z : Q) : Qplus x (Qplus y z) = Qplus (Qplus x y) z.
Proof.
  destruct x as [a b], y as [c d], z as [e f]. unfold Qplus. cbn [Qnum Qden].
  f_equal; [|apply Pos.mul_assoc]. rewrite !Pos2Z.inj_mul. ring.
Qed.

(** The engine of the matrix [[1, 0], [0, 2]]. *)
Definition example_engine : option (CeperleyMatrix diagonal_numerics) :=
  Eval vm_compute in mkCeperleyMatrix diagonal_numerics [[1; 0]; [0; 2]]%Q false.

Lemma example_engine_made :
  mkCeperleyMatrix diagonal_numerics [[1; 0]; [0; 2]]%Q false = example_engine.
Proof. vm_compute. reflexivity. Qed.

Lemma swap_rows_twice_witness :
  exists cm,
    mkCeperleyMatrix diagonal_numerics [[1; 0]; [0; 2]]%Q false = Some cm /\
    exists cm1 cm2,
      swap_rows diagonal_numerics 0 1 cm = Some cm1 /\
      swap_rows diagonal_numerics 0 1 cm1 = Some cm2 /\
      mat diagonal_numerics cm2 = mat diagonal_numerics cm /\
      invmat diagonal_numerics cm2 = invmat diagonal_numerics cm /\
      nullity_lower_bound diagonal_numerics cm2 = nullity_lower_bound diagonal_numerics cm /\
      current_state diagonal_numerics cm2 = READY_FOR_UPDATE.
Proof.
  rewrite example_engine_made. unfold example_engine.
  eexists. split; [reflexivity|].
  apply (swap_rows_twice diagonal_numerics 2 _ 0 1); try lia; try reflexivity;
    (split; [reflexivity|repeat constructor]).
Defined.

Lemma swap_rows_keeps_product_witness :
  exists cm cm',
    mkCeperleyMatrix diagonal_numerics [[1; 0]; [0; 2]]%Q false = Some cm /\
    swap_rows diagonal_numerics 0 1 cm = Some cm' /\
    mat diagonal_numerics cm' = [[0; 2]; [1; 0]]%Q /\
    dot diagonal_numerics (get_row diagonal_numerics 1 (invmat diagonal_numerics cm'))
      (get_col diagonal_numerics 1 (mat diagonal_numerics cm')) =
    dot diagonal_numerics (get_row diagonal_numerics 1 (invmat diagonal_numerics cm))
      (get_col diagonal_numerics 1 (mat diagonal_numerics cm)).
Proof.
  rewrite example_engine_made. unfold example_engine.
  eexists. eexists. split; [reflexivity|]. split; [reflexivity|]. split; [reflexivity|].
  apply (swap_rows_keeps_product diagonal_numerics Qplus_comm_eq Qplus_assoc_eq 2 _ _ 0 1 1 1);
    try lia; try reflexivity; (split; [reflexivity|repeat constructor]).
Defined.

Lemma swap_columns_keeps_product_witness :
  exists cm cm',
    mkCeperleyMatrix diagonal_numerics [[1; 0]; [0; 2]]%Q false = Some cm /\
    swap_columns diagonal_numerics 0 1 cm = Some cm' /\
    mat diagonal_numerics cm' = [[0; 1]; [2; 0]]%Q /\
    dot diagonal_numerics (get_row diagonal_numerics 1 (mat diagonal_numerics cm'))
      (get_col diagonal_numerics 1 (invmat diagonal_numerics cm')) =
    dot diagonal_numerics (get_row diagonal_numerics 1 (mat diagonal_numerics cm))
      (get_col diagonal_numerics 1 (invmat diagonal_numerics cm)).
Proof.
  rewrite example_engine_made. unfold example_engine.
  eexists. eexists. split; [reflexivity|]. split; [reflexivity|]. split; [reflexivity|].
  apply (swap_columns_keeps_product diagonal_numerics Qplus_comm_eq Qplus_assoc_eq
           2 _ _ 0 1 1 1);
    try lia; try reflexivity; (split; [reflexivity|repeat constructor]).
Defined.

End Ceperley.

(** ** vmc-core/SwappedSystem.cpp *)

Module Swapped.
Section SwappedSystem.

(** [subsystem->position_is_within (site_index, lattice)], for the
    subsystem and the lattice at hand (Subsystem.hpp is not among the
    sources; the swapped system only asks this question). *)
Variable position_is_within : Z -> bool.

(** Modelled from the spec: [Particle] is declared in PositionArguments.hpp,
    which is not among the sources.  An (index, species) pair: [index] is
    the position within the list of the species. *)
Record Particle := { index : nat; species : nat }.

(** Modelled from the spec: PositionArguments.hpp is not among the sources.
    For each species, the ordered list of the site indices of its
    particles; [r[particle]] reads one of them.  The reverse map of the
    occupancy, and the refusal of [update_position] to put two particles
    of one species on one site, are left out: a run of the code is then
    also a run of this model. *)
Local Abbreviation PositionArguments := (list (list Z)).

Definition get_N_species (r : PositionArguments) : nat := length r.
Definition get_N_filled (r : PositionArguments) (s : nat) : nat := length (r !!! s).
Definition r_vector (r : PositionArguments) (s : nat) : list Z := r !!! s.
Definition position (r : PositionArguments) (particle : Particle) : Z :=
  (r !!! species particle) !!! index particle.
Definition particle_is_valid (r : PositionArguments) (particle : Particle) : bool :=
  (species particle <? get_N_species r)%nat &&
  (index particle <? get_N_filled r (species particle))%nat.
Definition update_position (particle : Particle) (destination : Z)
    (r : PositionArguments) : PositionArguments :=
  alter (fun v => <[index particle := destination]> v) (species particle) r.

(** [std::swap (l[i], l[j])] *)
Definition swap_entries {A} `{Inhabited A} (i j : nat) (l : list A) : list A :=
  <[i := l !!! j]> (<[j := l !!! i]> l).

(** Modelled from the spec: Wavefunction::Amplitude is not among the
    sources.  Of an amplitude the swapped system reads the positions only:
    [perform_move] moves the particles of the move and keeps the old
    positions until [finish_move] drops them or [cancel_move] puts them
    back; [swap_particles] exchanges two entries of one species; [reset]
    takes new positions; [clone] copies. *)
Record Amplitude := {
  positions : PositionArguments;
  move_in_progress : option PositionArguments
}.

Definition get_positions (a : Amplitude) : PositionArguments := positions a.

Definition perform_move (move : list (Particle * Z)) (a : Amplitude) : Amplitude :=
  {| positions := fold_left (fun r '(particle, destination) =>
                               update_position particle destination r)
                            move (positions a);
     move_in_progress := Some (positions a) |}.

Definition finish_move (a : Amplitude) : Amplitude :=
  {| positions := positions a; move_in_progress := None |}.

Definition cancel_move (a : Amplitude) : Amplitude :=
  {| positions := default (positions a) (move_in_progress a); move_in_progress := None |}.

Definition swap_particles (i j s : nat) (a : Amplitude) : Amplitude :=
  {| positions := alter (swap_entries i j) s (positions a);
     move_in_progress := move_in_progress a |}.

Definition reset (r : PositionArguments) (a : Amplitude) : Amplitude :=
  {| positions := r; move_in_progress := None |}.

Definition clone (a : Amplitude) : Amplitude := a.

(** *** The swapped system *)

Inductive State : Type := UNINITIALIZED | READY | UPDATE_IN_PROGRESS.

Definition State_eqb (a b : State) : bool :=
  match a, b with
  | UNINITIALIZED, UNINITIALIZED | READY, READY
  | UPDATE_IN_PROGRESS, UPDATE_IN_PROGRESS => true
  | _, _ => false
  end.

(** The two [phibeta] handles are held by value: a handle that is not
    unique is cloned before it is written, so no write is seen through
    another handle. *)
Record SwappedSystem := {
  copy1_subsystem_indices : list (list nat);
  copy2_subsystem_indices : list (list nat);
  phibeta1 : Amplitude;
  phibeta2 : Amplitude;
  phibeta1_dirty : bool;
  phibeta2_dirty : bool;
  current_state : State;
  recent_delta : Z;
  recent_particle1 : Particle;
  recent_particle2 : Particle
}.

Definition BOOST_ASSERT (b : bool) : option unit := if b then Some tt else None.

(** [vector_find]: the first index of [val], or -1. *)
Fixpoint vector_find_from (i : Z) (vec : list nat) (val : nat) : Z :=
  match vec with
  | [] => -1
  | x :: rest => if (x =? val)%nat then i else vector_find_from (i + 1) rest val
  end.

Definition vector_find (vec : list nat) (val : nat) : Z := vector_find_from 0 vec val.

(** One turn of the inner loop of [swap_positions]. *)
Definition swap_pair (v : list Z * list Z) (i : nat * nat) : list Z * list Z :=
  let tmp_pos := v.1 !!! i.1 in
  (<[i.1 := v.2 !!! i.2]> v.1, <[i.2 := tmp_pos]> v.2).

(** [swap_positions] on one species. *)
Definition swap_species (c1 c2 : list nat) (v1 v2 : list Z) : list Z * list Z :=
  fold_left swap_pair (zip c1 c2) (v1, v2).

(** [swap_positions]: the two swapped configurations.  Its assertions
    (the same number of species and of particles in [r1] and [r2], index
    lists of the same length) are those that its two callers,
    [reinitialize_phibetas] and [verify_phibetas], have made before. *)
Definition swap_positions (c1 c2 : list (list nat)) (r1 r2 : PositionArguments)
    : PositionArguments * PositionArguments :=
  let swapped := imap (fun s v1 => swap_species (c1 !!! s) (c2 !!! s) v1 (r2 !!! s)) r1 in
  (fst <$> swapped, snd <$> swapped).

(** [subsystem_particle_counts_match] *)
Definition subsystem_particle_counts_match (ss : SwappedSystem) : option bool :=
  BOOST_ASSERT (length (copy1_subsystem_indices ss) =?
                length (copy2_subsystem_indices ss))%nat ;;
  Some (forallb (fun c => (length c.1 =? length c.2)%nat)
          (zip (copy1_subsystem_indices ss) (copy2_subsystem_indices ss))).

Definition assert_counts_match (ss : SwappedSystem) : option unit :=
  b ← subsystem_particle_counts_match ss ; BOOST_ASSERT b.

Definition same_fillings (r1 r2 : PositionArguments) : bool :=
  (get_N_species r1 =? get_N_species r2)%nat &&
  forallb (fun v => (length v.1 =? length v.2)%nat) (zip r1 r2).

(** [SwappedSystem (subsystem)] *)
Definition mkSwappedSystem : SwappedSystem :=
  {| copy1_subsystem_indices := []; copy2_subsystem_indices := [];
     phibeta1 := {| positions := []; move_in_progress := None |};
     phibeta2 := {| positions := []; move_in_progress := None |};
     phibeta1_dirty := false; phibeta2_dirty := false;
     current_state := UNINITIALIZED;
     recent_delta := 0;
     recent_particle1 := {| index := 0; species := 0 |};
     recent_particle2 := {| index := 0; species := 0 |} |}.

(** The particles [i < N] of [v] that are inside the subsystem. *)
Definition indices_within (N : nat) (v : list Z) : list nat :=
  filter (fun i => position_is_within (v !!! i) = true) (seq 0 N).

(** [reinitialize_phibetas] *)
Definition reinitialize_phibetas (phialpha1 phialpha2 : Amplitude) (ss : SwappedSystem)
    : option SwappedSystem :=
  assert_counts_match ss ;;
  let swapped := swap_positions (copy1_subsystem_indices ss) (copy2_subsystem_indices ss)
                   (get_positions phialpha1) (get_positions phialpha2) in
  Some {| copy1_subsystem_indices := copy1_subsystem_indices ss;
          copy2_subsystem_indices := copy2_subsystem_indices ss;
          phibeta1 := reset swapped.1 (clone phialpha1);
          phibeta2 := reset swapped.2 (clone phialpha2);
          phibeta1_dirty := false; phibeta2_dirty := false;
          current_state := current_state ss;
          recent_delta := recent_delta ss;
          recent_particle1 := recent_particle1 ss;
          recent_particle2 := recent_particle2 ss |}.

Definition set_state (s : State) (ss : SwappedSystem) : SwappedSystem :=
  {| copy1_subsystem_indices := copy1_subsystem_indices ss;
     copy2_subsystem_indices := copy2_subsystem_indices ss;
     phibeta1 := phibeta1 ss; phibeta2 := phibeta2 ss;
     phibeta1_dirty := phibeta1_dirty ss; phibeta2_dirty := phibeta2_dirty ss;
     current_state := s;
     recent_delta := recent_delta ss;
     recent_particle1 := recent_particle1 ss;
     recent_particle2 := recent_particle2 ss |}.

(** [initialize (phialpha1, phialpha2)].  The assertions on the number of
    sites and on the lattice ([get_N_sites], [lattice_makes_sense]) are
    about what the model leaves out. *)
Definition initialize (phialpha1 phialpha2 : Amplitude) (ss : SwappedSystem)
    : option SwappedSystem :=
  BOOST_ASSERT (State_eqb (current_state ss) UNINITIALIZED) ;;
  let r1 := get_positions phialpha1 in
  let r2 := get_positions phialpha2 in
  BOOST_ASSERT (same_fillings r1 r2) ;;
  let ss1 :=
    {| copy1_subsystem_indices := map (fun v1 => indices_within (length v1) v1) r1;
       copy2_subsystem_indices :=
         imap (fun s v1 => indices_within (length v1) (r2 !!! s)) r1;
       phibeta1 := phibeta1 ss; phibeta2 := phibeta2 ss;
       phibeta1_dirty := phibeta1_dirty ss; phibeta2_dirty := phibeta2_dirty ss;
       current_state := current_state ss;
       recent_delta := recent_delta ss;
       recent_particle1 := recent_particle1 ss;
       recent_particle2 := recent_particle2 ss |} in
  assert_counts_match ss1 ;;
  ss2 ← reinitialize_phibetas phialpha1 phialpha2 ss1 ;
  Some (set_state READY ss2).

(** *** update *)

Definition with_indices (c1 c2 : list (list nat)) (ss : SwappedSystem) : SwappedSystem :=
  {| copy1_subsystem_indices := c1; copy2_subsystem_indices := c2;
     phibeta1 := phibeta1 ss; phibeta2 := phibeta2 ss;
     phibeta1_dirty := phibeta1_dirty ss; phibeta2_dirty := phibeta2_dirty ss;
     current_state := current_state ss;
     recent_delta := recent_delta ss;
     recent_particle1 := recent_particle1 ss;
     recent_particle2 := recent_particle2 ss |}.

Definition with_phibetas (b1 b2 : Amplitude) (d1 d2 : bool) (ss : SwappedSystem)
    : SwappedSystem :=
  {| copy1_subsystem_indices := copy1_subsystem_indices ss;
     copy2_subsystem_indices := copy2_subsystem_indices ss;
     phibeta1 := b1; phibeta2 := b2;
     phibeta1_dirty := d1; phibeta2_dirty := d2;
     current_state := current_state ss;
     recent_delta := recent_delta ss;
     recent_particle1 := recent_particle1 ss;
     recent_particle2 := recent_particle2 ss |}.

(** [recent_delta = delta; if (particle1) recent_particle1 = *particle1; ...] *)
Definition remember (delta : Z) (particle1 particle2 : option Particle)
    (ss : SwappedSystem) : SwappedSystem :=
  {| copy1_subsystem_indices := copy1_subsystem_indices ss;
     copy2_subsystem_indices := copy2_subsystem_indices ss;
     phibeta1 := phibeta1 ss; phibeta2 := phibeta2 ss;
     phibeta1_dirty := phibeta1_dirty ss; phibeta2_dirty := phibeta2_dirty ss;
     current_state := current_state ss;
     recent_delta := delta;
     recent_particle1 := default (recent_particle1 ss) particle1;
     recent_particle2 := default (recent_particle2 ss) particle2 |}.

Definition mkParticle (i s : nat) : Particle := {| index := i; species := s |}.

(** A move of one particle on [phibeta1] ([first]) or [phibeta2], which
    must not be dirty, and is dirty afterwards. *)
Definition move_phibeta (first : bool) (phibeta_particle : Particle) (destination : Z)
    (ss : SwappedSystem) : option SwappedSystem :=
  if first then
    BOOST_ASSERT (negb (phibeta1_dirty ss)) ;;
    Some (with_phibetas (perform_move [(phibeta_particle, destination)] (phibeta1 ss))
                        (phibeta2 ss) true (phibeta2_dirty ss) ss)
  else
    BOOST_ASSERT (negb (phibeta2_dirty ss)) ;;
    Some (with_phibetas (phibeta1 ss)
                        (perform_move [(phibeta_particle, destination)] (phibeta2 ss))
                        (phibeta1_dirty ss) true ss).

(** [c[k] = c[c.size () - 1]; c.pop_back ();] *)
Definition remove_pair (k : nat) (c : list nat) : list nat :=
  removelast (<[k := c !!! (length c - 1)%nat]> c).

(** The branch [delta == -1] of [update]: a particle of the same species
    leaves the subsystem in each copy. *)
Definition update_both_left (particle1 particle2 : Particle)
    (pairing_index1 pairing_index2 : Z)
    (particle1_now_in_subsystem particle2_now_in_subsystem : bool)
    (r1 r2 : PositionArguments) (ss : SwappedSystem) : option SwappedSystem :=
  BOOST_ASSERT ((0 <=? pairing_index1) && (0 <=? pairing_index2)) ;;
  BOOST_ASSERT (negb particle1_now_in_subsystem) ;;
  BOOST_ASSERT (negb particle2_now_in_subsystem) ;;
  let s := species particle1 in
  let c1_s := copy1_subsystem_indices ss !!! s in
  let c2_s := copy2_subsystem_indices ss !!! s in
  let i1 := Z.to_nat pairing_index1 in
  let i2 := Z.to_nat pairing_index2 in
  let repair := negb (pairing_index1 =? pairing_index2) in
  let b1 := if repair then swap_particles (c1_s !!! i1) (c1_s !!! i2) s (clone (phibeta1 ss))
            else clone (phibeta1 ss) in
  let b2 := if repair then swap_particles (c2_s !!! i1) (c2_s !!! i2) s (clone (phibeta2 ss))
            else clone (phibeta2 ss) in
  let c1_s' := if repair && (pairing_index1 <? pairing_index2)
               then swap_entries i1 i2 c1_s else c1_s in
  let c2_s' := if repair && negb (pairing_index1 <? pairing_index2)
               then swap_entries i1 i2 c2_s else c2_s in
  let max_pairing_index := Z.to_nat (Z.max pairing_index1 pairing_index2) in
  BOOST_ASSERT (negb (phibeta1_dirty ss) && negb (phibeta2_dirty ss)) ;;
  let b1' := perform_move
               [(mkParticle (c1_s' !!! max_pairing_index) s, position r1 particle1)] b1 in
  let b2' := perform_move
               [(mkParticle (c2_s' !!! max_pairing_index) s, position r2 particle2)] b2 in
  Some (with_indices
          (<[s := remove_pair max_pairing_index c1_s']> (copy1_subsystem_indices ss))
          (<[s := remove_pair max_pairing_index c2_s']> (copy2_subsystem_indices ss))
          (with_phibetas b1' b2' true true ss)).

(** The same branch as the specification words it, to compare: the two
    particles are exchanged within one phibeta and within the index list
    of the same copy (the copy for which both leaving particles then sit
    at the slot [max_pair]), one particle is moved on each phibeta, and
    the last slot of both lists is popped. *)
Definition update_both_left_as_specified (particle1 particle2 : Particle)
    (pairing_index1 pairing_index2 : Z)
    (r1 r2 : PositionArguments) (ss : SwappedSystem) : SwappedSystem :=
  let s := species particle1 in
  let c1_s := copy1_subsystem_indices ss !!! s in
  let c2_s := copy2_subsystem_indices ss !!! s in
  let i1 := Z.to_nat pairing_index1 in
  let i2 := Z.to_nat pairing_index2 in
  let in_copy1 := pairing_index1 <? pairing_index2 in
  let b1 := if in_copy1 then swap_particles (c1_s !!! i1) (c1_s !!! i2) s (phibeta1 ss)
            else phibeta1 ss in
  let b2 := if in_copy1 then phibeta2 ss
            else swap_particles (c2_s !!! i1) (c2_s !!! i2) s (phibeta2 ss) in
  let c1_s' := if in_copy1 then swap_entries i1 i2 c1_s else c1_s in
  let c2_s' := if in_copy1 then c2_s else swap_entries i1 i2 c2_s in
  let max_pair := Z.to_nat (Z.max pairing_index1 pairing_index2) in
  let b1' := perform_move [(mkParticle (c1_s' !!! max_pair) s, position r1 particle1)] b1 in
  let b2' := perform_move [(mkParticle (c2_s' !!! max_pair) s, position r2 particle2)] b2 in
  with_indices
    (<[s := removelast c1_s']> (copy1_subsystem_indices ss))
    (<[s := removelast c2_s']> (copy2_subsystem_indices ss))
    (with_phibetas b1' b2' true true ss).

(** The other branch: the particles moved without crossing the boundary
    of the subsystem ([delta == 0]) or both entered it ([delta == 1]). *)
Definition update_entered_or_within (delta : Z) (particle1 particle2 : option Particle)
    (pairing_index1 pairing_index2 : Z)
    (particle1_now_in_subsystem particle2_now_in_subsystem : bool)
    (r1 r2 : PositionArguments) (ss : SwappedSystem) : option SwappedSystem :=
  BOOST_ASSERT ((delta =? 0) || (delta =? 1)) ;;
  '(ss1, pairing_index1, pairing_index2) ←
    (if delta =? 1 then
       match particle1, particle2 with
       | Some p1, Some p2 =>
           let c1_s := copy1_subsystem_indices ss !!! species p1 ++ [index p1] in
           let c1 := <[species p1 := c1_s]> (copy1_subsystem_indices ss) in
           let c2_s := copy2_subsystem_indices ss !!! species p2 ++ [index p2] in
           let c2 := <[species p2 := c2_s]> (copy2_subsystem_indices ss) in
           Some (with_indices c1 c2 ss,
                 Z.of_nat (length c1_s) - 1, Z.of_nat (length c2_s) - 1)
       | _, _ => None
       end
     else Some (ss, pairing_index1, pairing_index2)) ;
  assert_counts_match ss1 ;;
  ss2 ← match particle1 with
        | Some p1 =>
            let phibeta_particle :=
              if particle1_now_in_subsystem
              then mkParticle
                     ((copy2_subsystem_indices ss1 !!! species p1)
                        !!! Z.to_nat pairing_index1) (species p1)
              else p1 in
            move_phibeta (negb particle1_now_in_subsystem) phibeta_particle
              (position r1 p1) ss1
        | None => Some ss1
        end ;
  match particle2 with
  | Some p2 =>
      let phibeta_particle :=
        if particle2_now_in_subsystem
        then mkParticle
               ((copy1_subsystem_indices ss2 !!! species p2)
                  !!! Z.to_nat pairing_index2) (species p2)
        else p2 in
      move_phibeta particle2_now_in_subsystem phibeta_particle (position r2 p2) ss2
  | None => Some ss2
  end.

Definition pairing_index_of (particle : option Particle) (copy : list (list nat)) : Z :=
  match particle with
  | None => -2
  | Some p0 => vector_find (copy !!! species p0) (index p0)
  end.

Definition now_in_subsystem (particle : option Particle) (r : PositionArguments) : bool :=
  match particle with
  | Some p0 => position_is_within (position r p0)
  | None => false
  end.

Definition delta_of (now_in : bool) (pairing_index : Z) : Z :=
  (if now_in then 1 else 0) + (if 0 <=? pairing_index then -1 else 0).

Definition valid_or_null (particle : option Particle) (r : PositionArguments) : bool :=
  match particle with Some p0 => particle_is_valid r p0 | None => true end.

Definition same_species (particle1 particle2 : option Particle) : bool :=
  match particle1, particle2 with
  | Some p1, Some p2 => (species p1 =? species p2)%nat
  | _, _ => false
  end.

(** [update (particle1, particle2, phialpha1, phialpha2)], called after the
    phialphas were moved; [None] stands for a null particle pointer. *)
Definition update (particle1 particle2 : option Particle)
    (phialpha1 phialpha2 : Amplitude) (ss : SwappedSystem) : option SwappedSystem :=
  BOOST_ASSERT (State_eqb (current_state ss) READY) ;;
  let ss := set_state UPDATE_IN_PROGRESS ss in
  let r1 := get_positions phialpha1 in
  let r2 := get_positions phialpha2 in
  BOOST_ASSERT (same_fillings r1 r2) ;;
  BOOST_ASSERT (valid_or_null particle1 r1) ;;
  BOOST_ASSERT (valid_or_null particle2 r2) ;;
  let pairing_index1 := pairing_index_of particle1 (copy1_subsystem_indices ss) in
  let pairing_index2 := pairing_index_of particle2 (copy2_subsystem_indices ss) in
  let particle1_now_in_subsystem := now_in_subsystem particle1 r1 in
  let particle2_now_in_subsystem := now_in_subsystem particle2 r2 in
  let delta1 := delta_of particle1_now_in_subsystem pairing_index1 in
  let delta2 := delta_of particle2_now_in_subsystem pairing_index2 in
  BOOST_ASSERT (bool_decide (is_Some particle1) || (delta1 =? 0)) ;;
  BOOST_ASSERT (bool_decide (is_Some particle2) || (delta2 =? 0)) ;;
  BOOST_ASSERT (delta1 =? delta2) ;;
  let delta := delta1 in
  BOOST_ASSERT ((delta =? 0) || same_species particle1 particle2) ;;
  BOOST_ASSERT ((delta =? 0) ||
                eqb particle1_now_in_subsystem particle2_now_in_subsystem) ;;
  BOOST_ASSERT (negb (delta =? 0) ||
                negb (bool_decide (is_Some particle1) && bool_decide (is_Some particle2))) ;;
  let ss := remember delta particle1 particle2 ss in
  if delta =? -1 then
    match particle1, particle2 with
    | Some p1, Some p2 =>
        update_both_left p1 p2 pairing_index1 pairing_index2
          particle1_now_in_subsystem particle2_now_in_subsystem r1 r2 ss
    | _, _ => None
    end
  else
    update_entered_or_within delta particle1 particle2 pairing_index1 pairing_index2
      particle1_now_in_subsystem particle2_now_in_subsystem r1 r2 ss.

(** [finish_update] *)
Definition finish_update (ss : SwappedSystem) : option SwappedSystem :=
  BOOST_ASSERT (State_eqb (current_state ss) UPDATE_IN_PROGRESS) ;;
  let ss := set_state READY ss in
  assert_counts_match ss ;;
  let b1 := if phibeta1_dirty ss then finish_move (phibeta1 ss) else phibeta1 ss in
  let b2 := if phibeta2_dirty ss then finish_move (phibeta2 ss) else phibeta2 ss in
  Some (with_phibetas b1 b2 false false ss).

(** [cancel_update] *)
Definition cancel_update (ss : SwappedSystem) : option SwappedSystem :=
  BOOST_ASSERT (State_eqb (current_state ss) UPDATE_IN_PROGRESS) ;;
  let ss := set_state READY ss in
  assert_counts_match ss ;;
  let b1 := if phibeta1_dirty ss then cancel_move (phibeta1 ss) else phibeta1 ss in
  let b2 := if phibeta2_dirty ss then cancel_move (phibeta2 ss) else phibeta2 ss in
  let ss := with_phibetas b1 b2 false false ss in
  if negb (recent_delta ss =? 0) then
    BOOST_ASSERT (species (recent_particle1 ss) =? species (recent_particle2 ss))%nat ;;
    let s := species (recent_particle1 ss) in
    let c1_s := copy1_subsystem_indices ss !!! s in
    let c2_s := copy2_subsystem_indices ss !!! s in
    if recent_delta ss =? 1 then
      Some (with_indices (<[s := removelast c1_s]> (copy1_subsystem_indices ss))
                         (<[s := removelast c2_s]> (copy2_subsystem_indices ss)) ss)
    else
      BOOST_ASSERT (recent_delta ss =? -1) ;;
      Some (with_indices
              (<[s := c1_s ++ [index (recent_particle1 ss)]]> (copy1_subsystem_indices ss))
              (<[s := c2_s ++ [index (recent_particle2 ss)]]> (copy2_subsystem_indices ss))
              ss)
  else Some ss.

(** [verify_phibetas]: whether all its assertions hold (those on the
    number of sites and on the phibeta pointers apart). *)
Definition verify_species (c1_s c2_s : list nat) (v1 v2 : list Z) : bool :=
  let N := length v1 in
  (N =? length v2)%nat &&
  forallb (fun i =>
             eqb (negb (vector_find c1_s i =? -1)) (position_is_within (v1 !!! i)) &&
             eqb (negb (vector_find c2_s i =? -1)) (position_is_within (v2 !!! i)))
          (seq 0 N) &&
  let count1 := length (filter (fun i => vector_find c1_s i <> -1) (seq 0 N)) in
  let count2 := length (filter (fun i => vector_find c2_s i <> -1) (seq 0 N)) in
  (count1 =? count2)%nat && (count1 =? length c1_s)%nat && (count2 =? length c2_s)%nat.

Definition verify_phibetas (phialpha1 phialpha2 : Amplitude) (ss : SwappedSystem) : bool :=
  let r1 := get_positions phialpha1 in
  let r2 := get_positions phialpha2 in
  (get_N_species r1 =? get_N_species r2)%nat &&
  (length (copy1_subsystem_indices ss) =? get_N_species r1)%nat &&
  (length (copy2_subsystem_indices ss) =? get_N_species r1)%nat &&
  forallb (fun s => verify_species (copy1_subsystem_indices ss !!! s)
                      (copy2_subsystem_indices ss !!! s) (r1 !!! s) (r2 !!! s))
          (seq 0 (get_N_species r1)) &&
  let swapped := swap_positions (copy1_subsystem_indices ss) (copy2_subsystem_indices ss)
                   r1 r2 in
  forallb (fun s =>
             forallb (fun i =>
                        ((swapped.1 !!! s) !!! i =? (get_positions (phibeta1 ss) !!! s) !!! i) &&
                        ((swapped.2 !!! s) !!! i =? (get_positions (phibeta2 ss) !!! s) !!! i))
                     (seq 0 (get_N_filled r1 s)))
          (seq 0 (get_N_species r1)).

(** *** Lists: entries of the index lists after the edits of [update] *)

Lemma alter_as_insert {A} `{Inhabited A} (f : A -> A) (i : nat) (l : list A) :
  alter f i l = <[i := f (l !!! i)]> l.
Proof.
  apply list_eq. intros k.
  destruct (decide (i = k)) as [->|Hne].
  - rewrite list_lookup_alter_eq.
    destruct (decide (k < length l)%nat) as [Hlt|Hge].
    + rewrite list_lookup_insert_eq by exact Hlt.
      rewrite (list_lookup_lookup_total_lt l k Hlt). reflexivity.
    + rewrite !(lookup_ge_None_2 _ k); [reflexivity| |]; [rewrite length_insert|]; lia.
  - rewrite list_lookup_alter_ne, list_lookup_insert_ne by exact Hne. reflexivity.
Qed.

Lemma removelast_take {A} (l : list A) : removelast l = take (length l - 1) l.
Proof.
  induction l as [|x [|y l] IH]; [reflexivity|reflexivity|].
  change (removelast (x :: y :: l)) with (x :: removelast (y :: l)).
  rewrite IH. simpl. rewrite Nat.sub_0_r. reflexivity.
Qed.

Lemma removelast_snoc {A} (l : list A) (x : A) : removelast (l ++ [x]) = l.
Proof. apply removelast_last. Qed.

Lemma lookup_swap_entries {A} `{Inhabited A} (p q k : nat) (l : list A) :
  (p < length l)%nat -> (q < length l)%nat ->
  swap_entries p q l !! k =
  l !! (if decide (k = p) then q else if decide (k = q) then p else k).
Proof.
  intros Hp Hq. unfold swap_entries.
  destruct (decide (k = p)) as [->|Hkp].
  - rewrite list_lookup_insert_eq by (rewrite length_insert; exact Hp).
    symmetry. apply list_lookup_lookup_total_lt. exact Hq.
  - rewrite list_lookup_insert_ne by congruence.
    destruct (decide (k = q)) as [->|Hkq].
    + rewrite list_lookup_insert_eq by exact Hq.
      symmetry. apply list_lookup_lookup_total_lt. exact Hp.
    + rewrite list_lookup_insert_ne by congruence. reflexivity.
Qed.

Lemma length_swap_entries {A} `{Inhabited A} (p q : nat) (l : list A) :
  length (swap_entries p q l) = length l.
Proof. unfold swap_entries. rewrite !length_insert. reflexivity. Qed.

Lemma swap_entries_same {A} `{Inhabited A} (p : nat) (l : list A) :
  swap_entries p p l = l.
Proof.
  unfold swap_entries. rewrite list_insert_insert_eq.
  apply list_insert_id'. intros Hp. apply list_lookup_lookup_total_lt. exact Hp.
Qed.

Lemma length_remove_pair (m : nat) (c : list nat) :
  length (remove_pair m c) = (length c - 1)%nat.
Proof.
  unfold remove_pair. rewrite removelast_take, length_take, !length_insert. lia.
Qed.

Lemma lookup_remove_pair (m k : nat) (c : list nat) :
  (m < length c)%nat ->
  remove_pair m c !! k =
  if decide (k < length c - 1)%nat
  then c !! (if decide (k = m) then (length c - 1)%nat else k)
  else None.
Proof.
  intros Hm. unfold remove_pair. rewrite removelast_take, length_insert.
  destruct (decide (k < length c - 1)%nat) as [Hk|Hk].
  - rewrite lookup_take_lt by exact Hk.
    destruct (decide (k = m)) as [->|Hkm].
    + rewrite list_lookup_insert_eq by exact Hm.
      symmetry. apply list_lookup_lookup_total_lt. lia.
    + rewrite list_lookup_insert_ne by congruence. reflexivity.
  - apply lookup_take_ge. lia.
Qed.

(** [vector_find] gives -1 for a value that is absent and a slot holding
    the value otherwise. *)
Lemma vector_find_from_spec (vec : list nat) (val : nat) (i : Z) :
  0 <= i ->
  ((val ∉ vec) /\ vector_find_from i vec val = -1) \/
  (i <= vector_find_from i vec val /\
   vec !! Z.to_nat (vector_find_from i vec val - i) = Some val).
Proof.
  revert i. induction vec as [|x vec IH]; intros i Hi; simpl.
  - left. split; [apply not_elem_of_nil|reflexivity].
  - destruct (Nat.eqb_spec x val) as [->|Hne].
    + right. split; [lia|]. rewrite Z.sub_diag. reflexivity.
    + destruct (IH (i + 1) ltac:(lia)) as [[Hnot Hf]|[Hle Hf]].
      * left. split; [|exact Hf]. rewrite elem_of_cons. intros [Heq|Hin]; [congruence|tauto].
      * right. split; [lia|].
        replace (Z.to_nat (vector_find_from (i + 1) vec val - i))
          with (S (Z.to_nat (vector_find_from (i + 1) vec val - (i + 1)))) by lia.
        exact Hf.
Qed.

Lemma vector_find_absent (vec : list nat) (val : nat) :
  val ∉ vec -> vector_find vec val = -1.
Proof.
  intros Hnot. unfold vector_find.
  destruct (vector_find_from_spec vec val 0 ltac:(lia)) as [[_ Hf]|[_ Hf]]; [exact Hf|].
  exfalso. apply Hnot. eapply list_elem_of_lookup_2. exact Hf.
Qed.

Lemma vector_find_present (vec : list nat) (val : nat) :
  val ∈ vec ->
  0 <= vector_find vec val /\ vec !! Z.to_nat (vector_find vec val) = Some val.
Proof.
  intros Hin. unfold vector_find.
  destruct (vector_find_from_spec vec val 0 ltac:(lia)) as [[Hnot _]|[Hle Hf]]; [tauto|].
  split; [exact Hle|]. rewrite Z.sub_0_r in Hf. exact Hf.
Qed.

Lemma vector_find_nonneg_elem (vec : list nat) (val : nat) :
  0 <= vector_find vec val -> val ∈ vec.
Proof.
  intros Hle. destruct (decide (val ∈ vec)) as [Hin|Hnot]; [exact Hin|].
  rewrite (vector_find_absent vec val Hnot) in Hle. lia.
Qed.

(** *** One species: the pairing and the swapped configurations *)

(** [f1], [f2] are [v1], [v2] with the positions of the paired particles
    exchanged: the particle [i] of copy 1 and the particle [j] of copy 2
    are paired when they sit at the same slot of [c1] and [c2]. *)
Definition swapped_by (c1 c2 : list nat) (v1 v2 f1 f2 : list Z) : Prop :=
  length f1 = length v1 /\ length f2 = length v2 /\
  (forall i j, (i, j) ∈ zip c1 c2 -> f1 !!! i = v2 !!! j /\ f2 !!! j = v1 !!! i) /\
  (forall i, (i ∉ c1) -> f1 !!! i = v1 !!! i) /\
  (forall j, (j ∉ c2) -> f2 !!! j = v2 !!! j).

(** [c] lists, without repetition, the particles of [v] that are inside
    the subsystem. *)
Definition tracks (c : list nat) (v : list Z) : Prop :=
  NoDup c /\
  forall i, i ∈ c <-> (i < length v)%nat /\ position_is_within (v !!! i) = true.

Definition species_ok (c1 c2 : list nat) (v1 v2 f1 f2 : list Z) : Prop :=
  length c1 = length c2 /\ length v1 = length v2 /\
  tracks c1 v1 /\ tracks c2 v2 /\ swapped_by c1 c2 v1 v2 f1 f2.

Lemma elem_of_zip_lookup (c1 c2 : list nat) (i j : nat) :
  (i, j) ∈ zip c1 c2 <-> exists k, c1 !! k = Some i /\ c2 !! k = Some j.
Proof.
  rewrite elem_of_lookup_zip_with. split.
  - intros (k & x & y & Heq & H1 & H2). inversion Heq; subst. eauto.
  - intros (k & H1 & H2). exists k, i, j. auto.
Qed.

Lemma zip_partner (c1 c2 : list nat) (i : nat) :
  length c1 = length c2 -> i ∈ c1 -> exists j, (i, j) ∈ zip c1 c2.
Proof.
  intros Hlen Hin. apply list_elem_of_lookup_1 in Hin as [k Hk].
  destruct (lookup_lt_is_Some_2 c2 k) as [j Hj].
  { rewrite <- Hlen. eapply lookup_lt_Some. exact Hk. }
  exists j. apply elem_of_zip_lookup. eauto.
Qed.

Lemma zip_left_functional (c1 c2 : list nat) (i j j' : nat) :
  NoDup c1 -> (i, j) ∈ zip c1 c2 -> (i, j') ∈ zip c1 c2 -> j = j'.
Proof.
  intros Hnd H1 H2.
  apply elem_of_zip_lookup in H1 as (k & Hk1 & Hk2).
  apply elem_of_zip_lookup in H2 as (k' & Hk1' & Hk2').
  assert (k = k') by (eapply NoDup_lookup; eauto). subst k'. congruence.
Qed.

Lemma zip_right_functional (c1 c2 : list nat) (i i' j : nat) :
  NoDup c2 -> (i, j) ∈ zip c1 c2 -> (i', j) ∈ zip c1 c2 -> i = i'.
Proof.
  intros Hnd H1 H2.
  apply elem_of_zip_lookup in H1 as (k & Hk1 & Hk2).
  apply elem_of_zip_lookup in H2 as (k' & Hk1' & Hk2').
  assert (k = k') by (eapply NoDup_lookup; eauto). subst k'. congruence.
Qed.

Lemma zip_swap (c1 c2 : list nat) (i j : nat) :
  (i, j) ∈ zip c1 c2 <-> (j, i) ∈ zip c2 c1.
Proof. rewrite !elem_of_zip_lookup. split; intros (k & ? & ?); eauto. Qed.

Lemma swapped_by_sym c1 c2 v1 v2 f1 f2 :
  swapped_by c1 c2 v1 v2 f1 f2 -> swapped_by c2 c1 v2 v1 f2 f1.
Proof.
  intros (Hl1 & Hl2 & Hp & Hu1 & Hu2). unfold swapped_by.
  split; [exact Hl2|]. split; [exact Hl1|]. split; [|split; assumption].
  intros j i Hin. apply zip_swap in Hin. apply Hp in Hin. tauto.
Qed.

Lemma species_ok_sym c1 c2 v1 v2 f1 f2 :
  species_ok c1 c2 v1 v2 f1 f2 -> species_ok c2 c1 v2 v1 f2 f1.
Proof.
  intros (Hc & Hv & Ht1 & Ht2 & Hs). unfold species_ok.
  split; [congruence|]. split; [congruence|]. split; [exact Ht2|]. split; [exact Ht1|].
  apply swapped_by_sym. exact Hs.
Qed.

Lemma list_eq_total (f g : list Z) :
  length f = length g -> (forall i, f !!! i = g !!! i) -> f = g.
Proof.
  intros Hlen Heq. apply (list_eq_same_length f g (length g)); [reflexivity|exact Hlen|].
  intros i x y _ Hx Hy.
  apply list_lookup_total_correct in Hx. apply list_lookup_total_correct in Hy.
  rewrite <- Hx, <- Hy. apply Heq.
Qed.

Lemma swapped_by_unique_left c1 c2 v1 v2 f1 f2 g1 g2 :
  length c1 = length c2 ->
  swapped_by c1 c2 v1 v2 f1 f2 -> swapped_by c1 c2 v1 v2 g1 g2 -> f1 = g1.
Proof.
  intros Hlen (Hf1 & _ & Hfp & Hfu & _) (Hg1 & _ & Hgp & Hgu & _).
  apply list_eq_total; [congruence|]. intros i.
  destruct (decide (i ∈ c1)) as [Hin|Hnot].
  - destruct (zip_partner c1 c2 i Hlen Hin) as [j Hj].
    destruct (Hfp i j Hj) as [-> _]. destruct (Hgp i j Hj) as [-> _]. reflexivity.
  - rewrite (Hfu i Hnot), (Hgu i Hnot). reflexivity.
Qed.

Lemma swapped_by_unique c1 c2 v1 v2 f1 f2 g1 g2 :
  length c1 = length c2 ->
  swapped_by c1 c2 v1 v2 f1 f2 -> swapped_by c1 c2 v1 v2 g1 g2 ->
  f1 = g1 /\ f2 = g2.
Proof.
  intros Hlen Hf Hg. split.
  - eapply swapped_by_unique_left; eassumption.
  - eapply (swapped_by_unique_left c2 c1); [symmetry; exact Hlen| |];
      apply swapped_by_sym; eassumption.
Qed.

Lemma swap_species_cons x y c1 c2 v1 v2 :
  swap_species (x :: c1) (y :: c2) v1 v2 =
  swap_species c1 c2 (<[x := v2 !!! y]> v1) (<[y := v1 !!! x]> v2).
Proof. reflexivity. Qed.

(** The loop of [swap_positions] exchanges the positions of the paired
    particles and leaves the others alone. *)
Lemma swap_species_swapped_by c1 c2 v1 v2 :
  NoDup c1 -> NoDup c2 ->
  (forall i, i ∈ c1 -> (i < length v1)%nat) ->
  (forall j, j ∈ c2 -> (j < length v2)%nat) ->
  swapped_by c1 c2 v1 v2 (swap_species c1 c2 v1 v2).1 (swap_species c1 c2 v1 v2).2.
Proof.
  revert c2 v1 v2. induction c1 as [|x c1 IH]; intros c2 v1 v2 Hnd1 Hnd2 Hb1 Hb2.
  { unfold swapped_by. simpl.
    split; [reflexivity|split; [reflexivity|split; [|split; intros; reflexivity]]].
    intros i j Hin. apply elem_of_nil in Hin. contradiction. }
  destruct c2 as [|y c2].
  { unfold swapped_by. simpl.
    split; [reflexivity|split; [reflexivity|split; [|split; intros; reflexivity]]].
    intros i j Hin. apply elem_of_nil in Hin. contradiction. }
  rewrite swap_species_cons.
  apply NoDup_cons in Hnd1 as [Hx Hnd1]. apply NoDup_cons in Hnd2 as [Hy Hnd2].
  assert (Hxlt : (x < length v1)%nat) by (apply Hb1; left).
  assert (Hylt : (y < length v2)%nat) by (apply Hb2; left).
  destruct (IH c2 (<[x := v2 !!! y]> v1) (<[y := v1 !!! x]> v2) Hnd1 Hnd2)
    as (Hl1 & Hl2 & Hp & Hu1 & Hu2).
  { intros i Hi. rewrite length_insert. apply Hb1. right. exact Hi. }
  { intros j Hj. rewrite length_insert. apply Hb2. right. exact Hj. }
  rewrite length_insert in Hl1, Hl2.
  unfold swapped_by. split; [exact Hl1|]. split; [exact Hl2|]. split; [|split].
  - intros i j Hin. change (zip (x :: c1) (y :: c2)) with ((x, y) :: zip c1 c2) in Hin.
    apply elem_of_cons in Hin as [Heq|Hin].
    + inversion Heq; subst i j.
      rewrite (Hu1 x Hx), (Hu2 y Hy).
      rewrite !list_lookup_total_insert_eq by assumption. split; reflexivity.
    + destruct (Hp i j Hin) as [-> ->].
      assert (i <> x) by (intros ->; apply Hx; eapply elem_of_zip_l; exact Hin).
      assert (j <> y) by (intros ->; apply Hy; eapply elem_of_zip_r; exact Hin).
      rewrite !list_lookup_total_insert_ne by congruence. split; reflexivity.
  - intros i Hi. rewrite not_elem_of_cons in Hi. destruct Hi as [Hne Hi].
    rewrite (Hu1 i Hi). apply list_lookup_total_insert_ne. congruence.
  - intros j Hj. rewrite not_elem_of_cons in Hj. destruct Hj as [Hne Hj].
    rewrite (Hu2 j Hj). apply list_lookup_total_insert_ne. congruence.
Qed.

Lemma lookup_total_swap_entries {A} `{Inhabited A} (p q k : nat) (l : list A) :
  (p < length l)%nat -> (q < length l)%nat ->
  swap_entries p q l !!! k =
  l !!! (if decide (k = p) then q else if decide (k = q) then p else k).
Proof.
  intros Hp Hq. rewrite !list_lookup_total_alt, lookup_swap_entries by assumption.
  reflexivity.
Qed.

Lemma tracks_lt c v i : tracks c v -> i ∈ c -> (i < length v)%nat.
Proof. intros [_ Hiff] Hin. apply Hiff in Hin. tauto. Qed.

Lemma tracks_insert_inside c v a d :
  tracks c v -> a ∈ c -> position_is_within d = true -> tracks c (<[a := d]> v).
Proof.
  intros Ht Ha Hd. pose proof (tracks_lt c v a Ht Ha) as Hlt.
  destruct Ht as [Hnd Hiff]. split; [exact Hnd|].
  intros i. rewrite length_insert. rewrite Hiff.
  destruct (decide (i = a)) as [->|Hne].
  - rewrite list_lookup_total_insert_eq by exact Hlt. apply Hiff in Ha. tauto.
  - rewrite list_lookup_total_insert_ne by congruence. reflexivity.
Qed.

Lemma tracks_insert_outside c v a d :
  tracks c v -> (a ∉ c) -> position_is_within d = false -> tracks c (<[a := d]> v).
Proof.
  intros [Hnd Hiff] Ha Hd. split; [exact Hnd|].
  intros i. rewrite length_insert. rewrite Hiff.
  destruct (decide (i = a)) as [->|Hne].
  - destruct (decide (a < length v)%nat) as [Hlt|Hge].
    + rewrite list_lookup_total_insert_eq by exact Hlt.
      split; [intros H; exfalso; apply Ha, Hiff, H|intros [_ H]; congruence].
    + split; intros [? _]; lia.
  - rewrite list_lookup_total_insert_ne by congruence. reflexivity.
Qed.

(** A particle moves inside the subsystem of copy 1: its partner is the
    one to move in [phibeta2]. *)
Lemma species_ok_move_inside c1 c2 v1 v2 f1 f2 a j d :
  species_ok c1 c2 v1 v2 f1 f2 ->
  (a, j) ∈ zip c1 c2 -> position_is_within d = true ->
  species_ok c1 c2 (<[a := d]> v1) v2 f1 (<[j := d]> f2).
Proof.
  intros (Hc & Hv & Ht1 & Ht2 & Hl1 & Hl2 & Hp & Hu1 & Hu2) Haj Hd.
  pose proof (elem_of_zip_l _ _ _ _ Haj) as Ha.
  pose proof (elem_of_zip_r _ _ _ _ Haj) as Hj.
  pose proof (tracks_lt _ _ _ Ht1 Ha) as Halt.
  pose proof (tracks_lt _ _ _ Ht2 Hj) as Hjlt.
  unfold species_ok, swapped_by. rewrite !length_insert.
  split; [exact Hc|]. split; [exact Hv|].
  split; [apply tracks_insert_inside; assumption|]. split; [exact Ht2|].
  split; [exact Hl1|]. split; [exact Hl2|]. split; [|split].
  - intros i j' Hin. destruct (Hp i j' Hin) as [E1 E2]. split; [exact E1|].
    destruct (decide (j' = j)) as [->|Hne].
    + assert (i = a) as -> by (eapply zip_right_functional; [apply Ht2| |]; eassumption).
      rewrite !list_lookup_total_insert_eq by lia. reflexivity.
    + assert (i <> a).
      { intros ->. apply Hne. eapply zip_left_functional; [apply Ht1| |]; eassumption. }
      rewrite !list_lookup_total_insert_ne by congruence. exact E2.
  - intros i Hi. rewrite (Hu1 i Hi).
    rewrite list_lookup_total_insert_ne by (intros ->; tauto). reflexivity.
  - intros j' Hj'. rewrite list_lookup_total_insert_ne by (intros ->; tauto).
    apply Hu2. exact Hj'.
Qed.

(** A particle moves outside the subsystem of copy 1: it moves in
    [phibeta1] as well. *)
Lemma species_ok_move_outside c1 c2 v1 v2 f1 f2 a d :
  species_ok c1 c2 v1 v2 f1 f2 ->
  (a ∉ c1) -> position_is_within d = false ->
  species_ok c1 c2 (<[a := d]> v1) v2 (<[a := d]> f1) f2.
Proof.
  intros (Hc & Hv & Ht1 & Ht2 & Hl1 & Hl2 & Hp & Hu1 & Hu2) Ha Hd.
  unfold species_ok, swapped_by. rewrite !length_insert.
  split; [exact Hc|]. split; [exact Hv|].
  split; [apply tracks_insert_outside; assumption|]. split; [exact Ht2|].
  split; [exact Hl1|]. split; [exact Hl2|]. split; [|split].
  - intros i j Hin. destruct (Hp i j Hin) as [E1 E2].
    assert (i <> a) by (intros ->; apply Ha; eapply elem_of_zip_l; exact Hin).
    rewrite !list_lookup_total_insert_ne by congruence. tauto.
  - intros i Hi. destruct (decide (i = a)) as [->|Hne].
    + destruct (decide (a < length v1)%nat) as [Hlt|Hge].
      * rewrite !list_lookup_total_insert_eq by lia. reflexivity.
      * rewrite !list_insert_ge by lia. apply Hu1. exact Hi.
    + rewrite !list_lookup_total_insert_ne by congruence. apply Hu1. exact Hi.
  - exact Hu2.
Qed.

Lemma tracks_snoc c v a d :
  tracks c v -> (a ∉ c) -> (a < length v)%nat -> position_is_within d = true ->
  tracks (c ++ [a]) (<[a := d]> v).
Proof.
  intros [Hnd Hiff] Ha Hlt Hd. split.
  - apply NoDup_app. split; [exact Hnd|]. split; [|apply NoDup_singleton].
    intros x Hx Hx'. apply list_elem_of_singleton in Hx'. subst x. tauto.
  - intros i. rewrite length_insert, elem_of_app, list_elem_of_singleton, Hiff.
    destruct (decide (i = a)) as [->|Hne].
    + rewrite list_lookup_total_insert_eq by exact Hlt. tauto.
    + rewrite list_lookup_total_insert_ne by congruence. tauto.
Qed.

Lemma elem_of_zip_snoc (c1 c2 : list nat) (a b i j : nat) :
  length c1 = length c2 ->
  (i, j) ∈ zip (c1 ++ [a]) (c2 ++ [b]) <-> (i, j) ∈ zip c1 c2 \/ (i = a /\ j = b).
Proof.
  intros Hlen. rewrite zip_with_app by exact Hlen.
  rewrite elem_of_app. simpl. rewrite list_elem_of_singleton.
  split; (intros [H|H]; [left; exact H|right]); [inversion H|destruct H]; subst; auto.
Qed.

(** A particle enters the subsystem in each copy: the two are appended
    to the lists and paired with each other. *)
Lemma species_ok_both_entered c1 c2 v1 v2 f1 f2 a b d1 d2 :
  species_ok c1 c2 v1 v2 f1 f2 ->
  (a ∉ c1) -> (b ∉ c2) -> (a < length v1)%nat -> (b < length v2)%nat ->
  position_is_within d1 = true -> position_is_within d2 = true ->
  species_ok (c1 ++ [a]) (c2 ++ [b]) (<[a := d1]> v1) (<[b := d2]> v2)
    (<[a := d2]> f1) (<[b := d1]> f2).
Proof.
  intros (Hc & Hv & Ht1 & Ht2 & Hl1 & Hl2 & Hp & Hu1 & Hu2) Ha Hb Halt Hblt Hd1 Hd2.
  unfold species_ok, swapped_by. rewrite !length_insert, !length_app.
  split; [simpl; lia|]. split; [exact Hv|].
  split; [apply tracks_snoc; assumption|]. split; [apply tracks_snoc; assumption|].
  split; [exact Hl1|]. split; [exact Hl2|]. split; [|split].
  - intros i j Hin. apply elem_of_zip_snoc in Hin as [Hin|[-> ->]]; [| |exact Hc].
    + destruct (Hp i j Hin) as [E1 E2].
      assert (i <> a) by (intros ->; apply Ha; eapply elem_of_zip_l; exact Hin).
      assert (j <> b) by (intros ->; apply Hb; eapply elem_of_zip_r; exact Hin).
      rewrite !list_lookup_total_insert_ne by congruence. tauto.
    + rewrite !list_lookup_total_insert_eq by lia. tauto.
  - intros i Hi. rewrite not_elem_of_app, list_elem_of_singleton in Hi.
    rewrite !list_lookup_total_insert_ne by (intros ->; tauto). apply Hu1. tauto.
  - intros j Hj. rewrite not_elem_of_app, list_elem_of_singleton in Hj.
    rewrite !list_lookup_total_insert_ne by (intros ->; tauto). apply Hu2. tauto.
Qed.

(** The lists [L1], [L2] pair the particles that stay when [a] leaves copy
    1 and [b] leaves copy 2: the pairs of [c1], [c2] are kept, except that
    the partner [a'] of [b] and the partner [b'] of [a] are now paired with
    each other. *)
Definition repaired (c1 c2 : list nat) (a b a' b' : nat) (L1 L2 : list nat) : Prop :=
  NoDup L1 /\ NoDup L2 /\ length L1 = length L2 /\
  (forall i, i ∈ L1 <-> i ∈ c1 /\ i <> a) /\
  (forall j, j ∈ L2 <-> j ∈ c2 /\ j <> b) /\
  (forall i j, (i, j) ∈ zip L1 L2 -> (i, j) ∈ zip c1 c2 \/ (i = a' /\ j = b')).

Lemma tracks_left c v a d L :
  tracks c v -> a ∈ c -> position_is_within d = false ->
  NoDup L -> (forall i, i ∈ L <-> i ∈ c /\ i <> a) ->
  tracks L (<[a := d]> v).
Proof.
  intros Ht Ha Hd HndL HL. pose proof (tracks_lt _ _ _ Ht Ha) as Hlt.
  destruct Ht as [Hnd Hiff]. split; [exact HndL|].
  intros i. rewrite length_insert, HL, Hiff.
  destruct (decide (i = a)) as [->|Hne].
  - rewrite list_lookup_total_insert_eq by exact Hlt.
    split; [tauto|intros [_ H]; congruence].
  - rewrite list_lookup_total_insert_ne by congruence. tauto.
Qed.

Lemma swap_entries_comm {A} `{Inhabited A} (p q : nat) (l : list A) :
  swap_entries p q l = swap_entries q p l.
Proof.
  unfold swap_entries. destruct (decide (p = q)) as [->|Hne]; [reflexivity|].
  apply list_insert_insert_ne. exact Hne.
Qed.

Lemma repaired_sym c1 c2 a b a' b' L1 L2 :
  repaired c1 c2 a b a' b' L1 L2 -> repaired c2 c1 b a b' a' L2 L1.
Proof.
  intros (Hn1 & Hn2 & Hlen & Hm1 & Hm2 & Hz). unfold repaired.
  split; [exact Hn2|]. split; [exact Hn1|]. split; [congruence|].
  split; [exact Hm2|]. split; [exact Hm1|].
  intros j i Hin. apply zip_swap in Hin. destruct (Hz i j Hin) as [H|[-> ->]].
  - left. apply zip_swap. exact H.
  - right. split; reflexivity.
Qed.

(** What [phibeta1] holds after its two particles were exchanged, seen
    from the pairing of the particles that stay. *)
Lemma repaired_swapped_half c1 c2 v1 v2 f1 f2 a b a' b' L1 L2 :
  species_ok c1 c2 v1 v2 f1 f2 ->
  (a, b') ∈ zip c1 c2 -> (a', b) ∈ zip c1 c2 ->
  repaired c1 c2 a b a' b' L1 L2 ->
  (forall i j, (i, j) ∈ zip L1 L2 ->
     i <> a /\ j <> b /\ swap_entries a a' f1 !!! i = v2 !!! j) /\
  (forall i, (i ∉ c1) -> swap_entries a a' f1 !!! i = v1 !!! i) /\
  swap_entries a a' f1 !!! a = v2 !!! b.
Proof.
  intros (Hc & Hv & Ht1 & Ht2 & Hl1 & Hl2 & Hp & Hu1 & Hu2) Hab' Ha'b
    (Hn1 & Hn2 & Hlen & Hm1 & Hm2 & Hz).
  pose proof (elem_of_zip_l _ _ _ _ Hab') as Ha.
  pose proof (elem_of_zip_l _ _ _ _ Ha'b) as Ha'.
  assert (Halt : (a < length f1)%nat) by (rewrite Hl1; eapply tracks_lt; eassumption).
  assert (Ha'lt : (a' < length f1)%nat) by (rewrite Hl1; eapply tracks_lt; eassumption).
  split; [|split].
  - intros i j Hin.
    pose proof (elem_of_zip_l _ _ _ _ Hin) as Hi. apply Hm1 in Hi as [Hi Hia].
    pose proof (elem_of_zip_r _ _ _ _ Hin) as Hj. apply Hm2 in Hj as [Hj Hjb].
    split; [exact Hia|]. split; [exact Hjb|].
    rewrite lookup_total_swap_entries by assumption.
    destruct (decide (i = a)) as [?|_]; [contradiction|].
    destruct (Hz i j Hin) as [Hold|[-> ->]].
    + destruct (decide (i = a')) as [->|_].
      * exfalso. apply Hjb. eapply zip_left_functional; [apply Ht1| |]; eassumption.
      * apply Hp. exact Hold.
    + destruct (decide (a' = a')) as [_|?]; [|contradiction]. apply Hp. exact Hab'.
  - intros i Hi. rewrite lookup_total_swap_entries by assumption.
    destruct (decide (i = a)) as [->|_]; [contradiction|].
    destruct (decide (i = a')) as [->|_]; [contradiction|]. apply Hu1. exact Hi.
  - rewrite lookup_total_swap_entries by assumption.
    destruct (decide (a = a)) as [_|?]; [|contradiction]. apply Hp. exact Ha'b.
Qed.

(** A particle leaves the subsystem in each copy. *)
Lemma species_ok_both_left c1 c2 v1 v2 f1 f2 a b a' b' d1 d2 L1 L2 :
  species_ok c1 c2 v1 v2 f1 f2 ->
  (a, b') ∈ zip c1 c2 -> (a', b) ∈ zip c1 c2 ->
  position_is_within d1 = false -> position_is_within d2 = false ->
  repaired c1 c2 a b a' b' L1 L2 ->
  species_ok L1 L2 (<[a := d1]> v1) (<[b := d2]> v2)
    (<[a := d1]> (swap_entries a a' f1)) (<[b := d2]> (swap_entries b' b f2)).
Proof.
  intros Hok Hab' Ha'b Hd1 Hd2 Hrep.
  destruct (repaired_swapped_half _ _ _ _ _ _ _ _ _ _ _ _ Hok Hab' Ha'b Hrep)
    as (Hp1 & Hu1 & _).
  destruct (repaired_swapped_half _ _ _ _ _ _ _ _ _ _ _ _ (species_ok_sym _ _ _ _ _ _ Hok)
              (proj1 (zip_swap _ _ _ _) Ha'b) (proj1 (zip_swap _ _ _ _) Hab')
              (repaired_sym _ _ _ _ _ _ _ _ Hrep)) as (Hp2 & Hu2 & _).
  rewrite (swap_entries_comm b b') in Hp2, Hu2.
  destruct Hok as (Hc & Hv & Ht1 & Ht2 & Hl1 & Hl2 & _).
  destruct Hrep as (Hn1 & Hn2 & Hlen & Hm1 & Hm2 & Hz).
  pose proof (elem_of_zip_l _ _ _ _ Hab') as Ha.
  pose proof (elem_of_zip_r _ _ _ _ Ha'b) as Hb.
  pose proof (tracks_lt _ _ _ Ht1 Ha) as Halt.
  pose proof (tracks_lt _ _ _ Ht2 Hb) as Hblt.
  unfold species_ok, swapped_by. rewrite !length_insert, !length_swap_entries.
  split; [exact Hlen|]. split; [exact Hv|].
  split; [eapply tracks_left; eassumption|]. split; [eapply tracks_left; eassumption|].
  split; [exact Hl1|]. split; [exact Hl2|]. split; [|split].
  - intros i j Hin. destruct (Hp1 i j Hin) as (Hia & Hjb & E1).
    destruct (Hp2 j i (proj1 (zip_swap _ _ _ _) Hin)) as (_ & _ & E2).
    rewrite !list_lookup_total_insert_ne by congruence. split; assumption.
  - intros i Hi. destruct (decide (i = a)) as [->|Hne].
    + rewrite !list_lookup_total_insert_eq by (rewrite ?length_swap_entries; lia).
      reflexivity.
    + rewrite !list_lookup_total_insert_ne by congruence. apply Hu1.
      intros Hin. apply Hi, Hm1. split; assumption.
  - intros j Hj. destruct (decide (j = b)) as [->|Hne].
    + rewrite !list_lookup_total_insert_eq by (rewrite ?length_swap_entries; lia).
      reflexivity.
    + rewrite !list_lookup_total_insert_ne by congruence. apply Hu2.
      intros Hin. apply Hj, Hm2. split; assumption.
Qed.

(** The same update cancelled: the two particles that left are appended
    to the lists and are now paired with each other. *)
Lemma species_ok_both_left_cancelled c1 c2 v1 v2 f1 f2 a b a' b' L1 L2 :
  species_ok c1 c2 v1 v2 f1 f2 ->
  (a, b') ∈ zip c1 c2 -> (a', b) ∈ zip c1 c2 ->
  repaired c1 c2 a b a' b' L1 L2 ->
  species_ok (L1 ++ [a]) (L2 ++ [b]) v1 v2
    (swap_entries a a' f1) (swap_entries b' b f2).
Proof.
  intros Hok Hab' Ha'b Hrep.
  destruct (repaired_swapped_half _ _ _ _ _ _ _ _ _ _ _ _ Hok Hab' Ha'b Hrep)
    as (Hp1 & Hu1 & Ea).
  destruct (repaired_swapped_half _ _ _ _ _ _ _ _ _ _ _ _ (species_ok_sym _ _ _ _ _ _ Hok)
              (proj1 (zip_swap _ _ _ _) Ha'b) (proj1 (zip_swap _ _ _ _) Hab')
              (repaired_sym _ _ _ _ _ _ _ _ Hrep)) as (Hp2 & Hu2 & Eb).
  rewrite (swap_entries_comm b b') in Hp2, Hu2, Eb.
  destruct Hok as (Hc & Hv & Ht1 & Ht2 & Hl1 & Hl2 & _).
  destruct Hrep as (Hn1 & Hn2 & Hlen & Hm1 & Hm2 & Hz).
  pose proof (elem_of_zip_l _ _ _ _ Hab') as Ha.
  pose proof (elem_of_zip_r _ _ _ _ Ha'b) as Hb.
  assert (Hback : forall c v L x, tracks c v -> x ∈ c -> NoDup L ->
            (forall i, i ∈ L <-> i ∈ c /\ i <> x) -> tracks (L ++ [x]) v).
  { intros c v L x [Hnd Hiff] Hx HndL HL. split.
    - apply NoDup_app. split; [exact HndL|]. split; [|apply NoDup_singleton].
      intros y Hy Hy'. apply list_elem_of_singleton in Hy'. subst y.
      apply HL in Hy. tauto.
    - intros i. rewrite <- Hiff, elem_of_app, list_elem_of_singleton, HL.
      destruct (decide (i = x)) as [->|Hne]; tauto. }
  unfold species_ok, swapped_by. rewrite !length_app, !length_swap_entries.
  split; [simpl; lia|]. split; [exact Hv|].
  split; [eapply Hback; eassumption|]. split; [eapply Hback; eassumption|].
  split; [exact Hl1|]. split; [exact Hl2|]. split; [|split].
  - intros i j Hin. apply elem_of_zip_snoc in Hin as [Hin|[-> ->]]; [| |exact Hlen].
    + destruct (Hp1 i j Hin) as (_ & _ & E1).
      destruct (Hp2 j i (proj1 (zip_swap _ _ _ _) Hin)) as (_ & _ & E2).
      split; assumption.
    + split; assumption.
  - intros i Hi. rewrite not_elem_of_app, list_elem_of_singleton in Hi.
    apply Hu1. intros Hin. apply (proj1 Hi), Hm1. split; tauto.
  - intros j Hj. rewrite not_elem_of_app, list_elem_of_singleton in Hj.
    apply Hu2. intros Hin. apply (proj1 Hj), Hm2. split; tauto.
Qed.

(** *** The index lists after the edits *)

Lemma swap_entries_NoDup (p q : nat) (l : list nat) :
  NoDup l -> (p < length l)%nat -> (q < length l)%nat -> NoDup (swap_entries p q l).
Proof.
  intros Hnd Hp Hq. apply NoDup_alt. intros k k' x Hk Hk'.
  rewrite lookup_swap_entries in Hk, Hk' by assumption.
  pose proof (NoDup_lookup _ _ _ _ Hnd Hk Hk') as Heq.
  repeat destruct (decide _) in Heq; congruence.
Qed.

Lemma swap_entries_elem (p q i : nat) (l : list nat) :
  (p < length l)%nat -> (q < length l)%nat -> i ∈ swap_entries p q l <-> i ∈ l.
Proof.
  intros Hp Hq. rewrite !list_elem_of_lookup. split.
  - intros [k Hk]. rewrite lookup_swap_entries in Hk by assumption. eauto.
  - intros [k Hk].
    exists (if decide (k = p) then q else if decide (k = q) then p else k).
    rewrite lookup_swap_entries by assumption. rewrite <- Hk. f_equal.
    repeat destruct (decide _); congruence.
Qed.

Lemma remove_pair_NoDup (m : nat) (c : list nat) :
  NoDup c -> (m < length c)%nat -> NoDup (remove_pair m c).
Proof.
  intros Hnd Hm. apply NoDup_alt. intros k k' x Hk Hk'.
  rewrite lookup_remove_pair in Hk, Hk' by exact Hm.
  destruct (decide (k < length c - 1)%nat) as [Hlt|]; [|discriminate].
  destruct (decide (k' < length c - 1)%nat) as [Hlt'|]; [|discriminate].
  pose proof (NoDup_lookup _ _ _ _ Hnd Hk Hk') as Heq.
  repeat destruct (decide _) in Heq; lia.
Qed.

Lemma remove_pair_elem (m a i : nat) (c : list nat) :
  NoDup c -> c !! m = Some a -> i ∈ remove_pair m c <-> i ∈ c /\ i <> a.
Proof.
  intros Hnd Ha. pose proof (lookup_lt_Some _ _ _ Ha) as Hm.
  rewrite !list_elem_of_lookup. split.
  - intros [k Hk]. rewrite lookup_remove_pair in Hk by exact Hm.
    destruct (decide (k < length c - 1)%nat) as [Hlt|]; [|discriminate].
    split; [eauto|]. intros ->.
    pose proof (NoDup_lookup _ _ _ _ Hnd Hk Ha) as Heq.
    destruct (decide (k = m)); lia.
  - intros [[k Hk] Hne]. pose proof (lookup_lt_Some _ _ _ Hk) as Hklt.
    assert (k <> m) by congruence.
    exists (if decide (k = length c - 1)%nat then m else k).
    rewrite lookup_remove_pair by exact Hm. rewrite <- Hk.
    destruct (decide (k = length c - 1)%nat) as [->|Hk'].
    + destruct (decide (m < length c - 1)%nat); [|lia].
      destruct (decide (m = m)); [reflexivity|contradiction].
    + destruct (decide (k < length c - 1)%nat); [|lia].
      destruct (decide (k = m)); [contradiction|reflexivity].
Qed.

Lemma remove_pair_zip (m i j : nat) (c1 c2 : list nat) :
  length c1 = length c2 -> (m < length c1)%nat ->
  (i, j) ∈ zip (remove_pair m c1) (remove_pair m c2) -> (i, j) ∈ zip c1 c2.
Proof.
  intros Hlen Hm. rewrite !elem_of_zip_lookup. intros (k & H1 & H2).
  rewrite lookup_remove_pair in H1 by exact Hm.
  rewrite lookup_remove_pair in H2 by (rewrite <- Hlen; exact Hm).
  rewrite <- Hlen in H2.
  destruct (decide (k < length c1 - 1)%nat); [|discriminate]. eauto.
Qed.

(** The lists that the branch [delta == -1] of [update] leaves: the two
    particles that leave are brought to the slot [max p q] by an exchange
    in the list of one copy, and that slot is removed. *)
Lemma update_lists_repaired (c1 c2 : list nat) (p q a b : nat) :
  NoDup c1 -> NoDup c2 -> length c1 = length c2 ->
  c1 !! p = Some a -> c2 !! q = Some b ->
  let a' := c1 !!! q in
  let b' := c2 !!! p in
  let C1 := if decide (p < q)%nat then swap_entries p q c1 else c1 in
  let C2 := if decide (q < p)%nat then swap_entries p q c2 else c2 in
  let m := Nat.max p q in
  C1 !! m = Some a /\ C2 !! m = Some b /\
  (a, b') ∈ zip c1 c2 /\ (a', b) ∈ zip c1 c2 /\
  repaired c1 c2 a b a' b' (remove_pair m C1) (remove_pair m C2).
Proof.
  intros Hn1 Hn2 Hlen Ha Hb a' b' C1 C2 m.
  pose proof (lookup_lt_Some _ _ _ Ha) as Hp.
  pose proof (lookup_lt_Some _ _ _ Hb) as Hq.
  assert (Ha' : c1 !! q = Some a') by (apply list_lookup_lookup_total_lt; lia).
  assert (Hb' : c2 !! p = Some b') by (apply list_lookup_lookup_total_lt; lia).
  assert (HC1 : C1 !! m = Some a).
  { subst C1 m. destruct (decide (p < q)%nat).
    - rewrite lookup_swap_entries by lia. rewrite Nat.max_r by lia.
      destruct (decide (q = p)); [lia|]. destruct (decide (q = q)); [exact Ha|contradiction].
    - rewrite Nat.max_l by lia. exact Ha. }
  assert (HC2 : C2 !! m = Some b).
  { subst C2 m. destruct (decide (q < p)%nat).
    - rewrite lookup_swap_entries by lia. rewrite Nat.max_l by lia.
      destruct (decide (p = p)); [exact Hb|contradiction].
    - rewrite Nat.max_r by lia. exact Hb. }
  assert (HlC1 : length C1 = length c1).
  { subst C1. destruct (decide (p < q)%nat); [apply length_swap_entries|reflexivity]. }
  assert (HlC2 : length C2 = length c2).
  { subst C2. destruct (decide (q < p)%nat); [apply length_swap_entries|reflexivity]. }
  assert (HnC1 : NoDup C1).
  { subst C1. destruct (decide (p < q)%nat);
      [apply swap_entries_NoDup; [assumption|lia|lia]|assumption]. }
  assert (HnC2 : NoDup C2).
  { subst C2. destruct (decide (q < p)%nat);
      [apply swap_entries_NoDup; [assumption|lia|lia]|assumption]. }
  assert (HeC1 : forall i, i ∈ C1 <-> i ∈ c1).
  { intros i. subst C1.
    destruct (decide (p < q)%nat); [apply swap_entries_elem; lia|reflexivity]. }
  assert (HeC2 : forall j, j ∈ C2 <-> j ∈ c2).
  { intros j. subst C2.
    destruct (decide (q < p)%nat); [apply swap_entries_elem; lia|reflexivity]. }
  split; [exact HC1|]. split; [exact HC2|].
  split; [apply elem_of_zip_lookup; eauto|]. split; [apply elem_of_zip_lookup; eauto|].
  unfold repaired.
  split; [apply remove_pair_NoDup; [assumption|subst m; lia]|].
  split; [apply remove_pair_NoDup; [assumption|subst m; lia]|].
  split; [rewrite !length_remove_pair; lia|].
  split; [intros i; rewrite (remove_pair_elem m a i C1 HnC1 HC1), HeC1; reflexivity|].
  split; [intros j; rewrite (remove_pair_elem m b j C2 HnC2 HC2), HeC2; reflexivity|].
  intros i j Hin.
  pose proof (elem_of_zip_l _ _ _ _ Hin) as Hi.
  apply (remove_pair_elem m a i C1 HnC1 HC1) in Hi as [_ Hia].
  apply remove_pair_zip in Hin; [|lia|subst m; lia].
  apply elem_of_zip_lookup in Hin as (k & H1 & H2).
  subst C1 C2. destruct (decide (p < q)%nat) as [Hpq|Hpq].
  - destruct (decide (q < p)%nat); [lia|].
    rewrite lookup_swap_entries in H1 by lia.
    destruct (decide (k = p)) as [->|Hkp]; [right; split; congruence|].
    destruct (decide (k = q)) as [->|Hkq]; [congruence|].
    left. apply elem_of_zip_lookup. eauto.
  - destruct (decide (q < p)%nat) as [Hqp|Hqp].
    + rewrite lookup_swap_entries in H2 by lia.
      destruct (decide (k = p)) as [->|Hkp]; [congruence|].
      destruct (decide (k = q)) as [->|Hkq]; [right; split; congruence|].
      left. apply elem_of_zip_lookup. eauto.
    + left. apply elem_of_zip_lookup. eauto.
Qed.

(** *** All species *)

(** The invariant of the data: for every species the lists pair the
    particles inside the subsystem and the phibeta positions are the
    swapped configurations of [r1], [r2]. *)
Definition pairing_ok (c1 c2 : list (list nat)) (r1 r2 b1 b2 : PositionArguments) : Prop :=
  length c1 = length r1 /\ length c2 = length r1 /\ length r2 = length r1 /\
  length b1 = length r1 /\ length b2 = length r1 /\
  forall s, (s < length r1)%nat ->
    species_ok (c1 !!! s) (c2 !!! s) (r1 !!! s) (r2 !!! s) (b1 !!! s) (b2 !!! s).

(** The invariant of a swapped system at rest, for the phialpha positions
    [r1], [r2]. *)
Definition good (ss : SwappedSystem) (r1 r2 : PositionArguments) : Prop :=
  current_state ss = READY /\
  phibeta1_dirty ss = false /\ phibeta2_dirty ss = false /\
  pairing_ok (copy1_subsystem_indices ss) (copy2_subsystem_indices ss) r1 r2
    (get_positions (phibeta1 ss)) (get_positions (phibeta2 ss)).

Lemma pairing_ok_insert c1 c2 r1 r2 b1 b2 s L1 L2 w1 w2 g1 g2 :
  pairing_ok c1 c2 r1 r2 b1 b2 ->
  species_ok L1 L2 w1 w2 g1 g2 ->
  pairing_ok (<[s := L1]> c1) (<[s := L2]> c2) (<[s := w1]> r1) (<[s := w2]> r2)
    (<[s := g1]> b1) (<[s := g2]> b2).
Proof.
  intros (Hc1 & Hc2 & Hr2 & Hb1 & Hb2 & Hall) Hs.
  unfold pairing_ok. rewrite !length_insert.
  split; [exact Hc1|]. split; [exact Hc2|]. split; [exact Hr2|].
  split; [exact Hb1|]. split; [exact Hb2|].
  intros s' Hs'. destruct (decide (s' = s)) as [->|Hne].
  - rewrite !list_lookup_total_insert_eq by lia. exact Hs.
  - rewrite !list_lookup_total_insert_ne by congruence. apply Hall. exact Hs'.
Qed.

Lemma insert_lookup_total_same {A} `{Inhabited A} (s : nat) (l : list A) :
  <[s := l !!! s]> l = l.
Proof.
  apply list_insert_id'. intros Hs. apply list_lookup_lookup_total_lt. exact Hs.
Qed.

Lemma update_position_insert particle destination (r : PositionArguments) :
  update_position particle destination r =
  <[species particle := <[index particle := destination]> (r !!! species particle)]> r.
Proof. unfold update_position. apply alter_as_insert. Qed.

Lemma position_update_position particle destination (r : PositionArguments) :
  particle_is_valid r particle = true ->
  position (update_position particle destination r) particle = destination.
Proof.
  unfold particle_is_valid, get_N_species, get_N_filled, position.
  intros Hv. apply andb_true_iff in Hv as [Hs Hi].
  apply Nat.ltb_lt in Hs. apply Nat.ltb_lt in Hi.
  rewrite update_position_insert.
  rewrite list_lookup_total_insert_eq by exact Hs.
  apply list_lookup_total_insert_eq. exact Hi.
Qed.

Lemma particle_is_valid_update_position particle destination r q :
  particle_is_valid (update_position particle destination r) q = particle_is_valid r q.
Proof.
  unfold particle_is_valid, get_N_species, get_N_filled.
  rewrite update_position_insert, length_insert.
  destruct (decide (species q = species particle)) as [->|Hne].
  - destruct (Nat.ltb_spec (species particle) (length r)) as [Hlt|Hge]; [|reflexivity].
    rewrite list_lookup_total_insert_eq by exact Hlt. rewrite length_insert. reflexivity.
  - rewrite list_lookup_total_insert_ne by congruence. reflexivity.
Qed.

Lemma BOOST_ASSERT_bind {A} (b : bool) (k : option A) (x : A) :
  (BOOST_ASSERT b ;; k) = Some x -> b = true /\ k = Some x.
Proof. destruct b; simpl; [auto|discriminate]. Qed.

Lemma forallb_zip_lookup {A B} (f : A * B -> bool) (l : list A) (k : list B) :
  forallb f (zip l k) = true ->
  forall i x y, l !! i = Some x -> k !! i = Some y -> f (x, y) = true.
Proof.
  revert k. induction l as [|a l IH]; intros [|b k] Hf i x y Hx Hy;
    try (destruct i; discriminate).
  simpl in Hf. apply andb_true_iff in Hf as [Hab Hf].
  destruct i as [|i]; simpl in Hx, Hy.
  - congruence.
  - eapply IH; eassumption.
Qed.

Lemma forallb_zip_intro {A B} (f : A * B -> bool) (l : list A) (k : list B) :
  (forall i x y, l !! i = Some x -> k !! i = Some y -> f (x, y) = true) ->
  forallb f (zip l k) = true.
Proof.
  revert k. induction l as [|a l IH]; intros [|b k] Hf; try reflexivity.
  simpl. apply andb_true_iff. split.
  - apply (Hf 0%nat); reflexivity.
  - apply IH. intros i x y Hx Hy. apply (Hf (S i)); assumption.
Qed.

Lemma assert_counts_match_inv ss u :
  assert_counts_match ss = Some u ->
  length (copy1_subsystem_indices ss) = length (copy2_subsystem_indices ss) /\
  forall s, (s < length (copy1_subsystem_indices ss))%nat ->
    length (copy1_subsystem_indices ss !!! s) = length (copy2_subsystem_indices ss !!! s).
Proof.
  unfold assert_counts_match, subsystem_particle_counts_match. intros H.
  destruct (Nat.eqb_spec (length (copy1_subsystem_indices ss))
              (length (copy2_subsystem_indices ss))) as [Hlen|]; [|discriminate].
  simpl in H. split; [exact Hlen|]. intros s Hs.
  destruct (forallb _ _) eqn:Hf; [|discriminate].
  pose proof (forallb_zip_lookup _ _ _ Hf s _ _
                (list_lookup_lookup_total_lt _ _ Hs)
                (list_lookup_lookup_total_lt _ _ ltac:(rewrite <- Hlen; exact Hs))) as Heq.
  simpl in Heq. apply Nat.eqb_eq in Heq. exact Heq.
Qed.

Lemma same_fillings_inv r1 r2 :
  same_fillings r1 r2 = true ->
  length r1 = length r2 /\
  forall s, (s < length r1)%nat -> length (r1 !!! s) = length (r2 !!! s).
Proof.
  unfold same_fillings, get_N_species. intros H. apply andb_true_iff in H as [Hlen Hf].
  apply Nat.eqb_eq in Hlen. split; [exact Hlen|]. intros s Hs.
  pose proof (forallb_zip_lookup _ _ _ Hf s _ _
                (list_lookup_lookup_total_lt _ _ Hs)
                (list_lookup_lookup_total_lt _ _ ltac:(rewrite <- Hlen; exact Hs))) as Heq.
  simpl in Heq. apply Nat.eqb_eq in Heq. exact Heq.
Qed.

Lemma swap_positions_length c1 c2 r1 r2 :
  length (swap_positions c1 c2 r1 r2).1 = length r1 /\
  length (swap_positions c1 c2 r1 r2).2 = length r1.
Proof. unfold swap_positions. simpl. rewrite !length_fmap, !length_imap. auto. Qed.

Lemma swap_positions_lookup c1 c2 r1 r2 s :
  (s < length r1)%nat ->
  (swap_positions c1 c2 r1 r2).1 !!! s =
    (swap_species (c1 !!! s) (c2 !!! s) (r1 !!! s) (r2 !!! s)).1 /\
  (swap_positions c1 c2 r1 r2).2 !!! s =
    (swap_species (c1 !!! s) (c2 !!! s) (r1 !!! s) (r2 !!! s)).2.
Proof.
  intros Hs. unfold swap_positions. simpl.
  rewrite (list_lookup_total_alt (fst <$> _)), (list_lookup_total_alt (snd <$> _)).
  rewrite !list_lookup_fmap, !list_lookup_imap.
  rewrite (list_lookup_lookup_total_lt r1 s Hs). simpl. auto.
Qed.

Lemma tracks_species_ok c1 c2 v1 v2 :
  length c1 = length c2 -> length v1 = length v2 ->
  tracks c1 v1 -> tracks c2 v2 ->
  species_ok c1 c2 v1 v2 (swap_species c1 c2 v1 v2).1 (swap_species c1 c2 v1 v2).2.
Proof.
  intros Hc Hv Ht1 Ht2. unfold species_ok.
  split; [exact Hc|]. split; [exact Hv|]. split; [exact Ht1|]. split; [exact Ht2|].
  apply swap_species_swapped_by; [apply Ht1|apply Ht2| |].
  - intros i. apply tracks_lt. exact Ht1.
  - intros j. apply tracks_lt. exact Ht2.
Qed.

(** Under the invariant the phibeta positions are what [swap_positions]
    computes from the phialpha positions. *)
Lemma pairing_ok_swap_positions c1 c2 r1 r2 b1 b2 :
  pairing_ok c1 c2 r1 r2 b1 b2 ->
  b1 = (swap_positions c1 c2 r1 r2).1 /\ b2 = (swap_positions c1 c2 r1 r2).2.
Proof.
  intros (Hc1 & Hc2 & Hr2 & Hb1 & Hb2 & Hall).
  destruct (swap_positions_length c1 c2 r1 r2) as [Hl1 Hl2].
  assert (Hs : forall s, (s < length r1)%nat ->
            b1 !!! s = (swap_positions c1 c2 r1 r2).1 !!! s /\
            b2 !!! s = (swap_positions c1 c2 r1 r2).2 !!! s).
  { intros s Hs. destruct (swap_positions_lookup c1 c2 r1 r2 s Hs) as [-> ->].
    destruct (Hall s Hs) as (Hc & Hv & Ht1 & Ht2 & Hsw).
    eapply swapped_by_unique; [exact Hc|exact Hsw|].
    apply tracks_species_ok; assumption. }
  split.
  - apply (list_eq_same_length _ _ (length r1)); [exact Hl1|exact Hb1|].
    intros s x y Hlt Hx Hy.
    apply list_lookup_total_correct in Hx. apply list_lookup_total_correct in Hy.
    rewrite <- Hx, <- Hy. apply Hs. exact Hlt.
  - apply (list_eq_same_length _ _ (length r1)); [exact Hl2|exact Hb2|].
    intros s x y Hlt Hx Hy.
    apply list_lookup_total_correct in Hx. apply list_lookup_total_correct in Hy.
    rewrite <- Hx, <- Hy. apply Hs. exact Hlt.
Qed.

Lemma tracks_indices_within v : tracks (indices_within (length v) v) v.
Proof.
  unfold tracks, indices_within. split.
  - apply NoDup_filter, NoDup_seq.
  - intros i. rewrite list_elem_of_filter, elem_of_seq. split; intros H; split; try tauto; lia.
Qed.

(** *** initialize *)

Lemma initialize_good phialpha1 phialpha2 ss0 ss :
  initialize phialpha1 phialpha2 ss0 = Some ss ->
  good ss (get_positions phialpha1) (get_positions phialpha2).
Proof.
  unfold initialize. intros H.
  apply BOOST_ASSERT_bind in H as [_ H]. apply BOOST_ASSERT_bind in H as [Hsame H].
  apply same_fillings_inv in Hsame as [Hlen Hfill].
  apply bind_Some in H as (u & Hcount & H).
  apply assert_counts_match_inv in Hcount as [_ Hcount]. simpl in Hcount.
  apply bind_Some in H as (ss2 & Hre & H).
  unfold reinitialize_phibetas in Hre. apply bind_Some in Hre as (u' & _ & Hre).
  simpl in Hre. inversion Hre; subst ss2; clear Hre. inversion H; subst ss; clear H.
  set (r1 := get_positions phialpha1) in *. set (r2 := get_positions phialpha2) in *.
  change (map (fun v1 : list Z => indices_within (length v1) v1) r1)
    with ((fun v1 : list Z => indices_within (length v1) v1) <$> r1) in *.
  unfold good. simpl. split; [reflexivity|]. split; [reflexivity|]. split; [reflexivity|].
  set (c1 := (fun v1 : list Z => indices_within (length v1) v1) <$> r1) in *.
  set (c2 := imap (fun s v1 => indices_within (length v1) (r2 !!! s)) r1) in *.
  destruct (swap_positions_length c1 c2 r1 r2) as [Hl1 Hl2].
  assert (Hlc1 : length c1 = length r1) by (subst c1; apply length_fmap).
  assert (Hlc2 : length c2 = length r1) by (subst c2; apply length_imap).
  unfold pairing_ok, get_positions, reset, positions.
  split; [exact Hlc1|]. split; [exact Hlc2|]. split; [congruence|].
  split; [exact Hl1|]. split; [exact Hl2|].
  intros s Hs. destruct (swap_positions_lookup c1 c2 r1 r2 s Hs) as [E E'].
  unfold swap_positions in E, E'. cbn [fst snd] in E, E'. rewrite E, E'. clear E E'.
  assert (E1 : c1 !!! s = indices_within (length (r1 !!! s)) (r1 !!! s)).
  { subst c1. rewrite list_lookup_total_alt, list_lookup_fmap.
    rewrite (list_lookup_lookup_total_lt r1 s Hs). reflexivity. }
  assert (E2 : c2 !!! s = indices_within (length (r2 !!! s)) (r2 !!! s)).
  { subst c2. rewrite list_lookup_total_alt, list_lookup_imap.
    rewrite (list_lookup_lookup_total_lt r1 s Hs). simpl.
    rewrite (Hfill s Hs). reflexivity. }
  apply tracks_species_ok.
  - apply Hcount. rewrite Hlc1. exact Hs.
  - apply Hfill. exact Hs.
  - rewrite E1. apply tracks_indices_within.
  - rewrite E2. apply tracks_indices_within.
Qed.

(** *** One species changes *)

Definition agrees_off {A} `{Inhabited A} (s : nat) (l l' : list A) : Prop :=
  length l' = length l /\ forall s', s' <> s -> l' !!! s' = l !!! s'.

Lemma agrees_off_refl {A} `{Inhabited A} (s : nat) (l : list A) : agrees_off s l l.
Proof. split; reflexivity. Qed.

Lemma agrees_off_insert {A} `{Inhabited A} (s : nat) (l : list A) (x : A) :
  agrees_off s l (<[s := x]> l).
Proof.
  split; [apply length_insert|]. intros s' Hne.
  apply list_lookup_total_insert_ne. congruence.
Qed.

Lemma agrees_off_trans {A} `{Inhabited A} (s : nat) (l l' l'' : list A) :
  agrees_off s l l' -> agrees_off s l' l'' -> agrees_off s l l''.
Proof.
  intros [Hl1 H1] [Hl2 H2]. split; [congruence|].
  intros s' Hne. rewrite (H2 s' Hne). apply H1. exact Hne.
Qed.

Lemma pairing_ok_change s c1 c2 r1 r2 b1 b2 c1' c2' r1' r2' b1' b2' :
  pairing_ok c1 c2 r1 r2 b1 b2 ->
  agrees_off s c1 c1' -> agrees_off s c2 c2' ->
  agrees_off s r1 r1' -> agrees_off s r2 r2' ->
  agrees_off s b1 b1' -> agrees_off s b2 b2' ->
  species_ok (c1' !!! s) (c2' !!! s) (r1' !!! s) (r2' !!! s) (b1' !!! s) (b2' !!! s) ->
  pairing_ok c1' c2' r1' r2' b1' b2'.
Proof.
  intros (Hc1 & Hc2 & Hr2 & Hb1 & Hb2 & Hall)
    [Lc1 Ac1] [Lc2 Ac2] [Lr1 Ar1] [Lr2 Ar2] [Lb1 Ab1] [Lb2 Ab2] Hs.
  unfold pairing_ok. repeat (split; [congruence|]).
  intros s' Hs'. destruct (decide (s' = s)) as [->|Hne]; [exact Hs|].
  rewrite (Ac1 s' Hne), (Ac2 s' Hne), (Ar1 s' Hne), (Ar2 s' Hne), (Ab1 s' Hne), (Ab2 s' Hne).
  apply Hall. rewrite <- Lr1. exact Hs'.
Qed.

Lemma pairing_ok_sym c1 c2 r1 r2 b1 b2 :
  pairing_ok c1 c2 r1 r2 b1 b2 -> pairing_ok c2 c1 r2 r1 b2 b1.
Proof.
  intros (Hc1 & Hc2 & Hr2 & Hb1 & Hb2 & Hall).
  unfold pairing_ok. repeat (split; [congruence|]).
  intros s Hs. apply species_ok_sym. apply Hall. rewrite <- Hr2. exact Hs.
Qed.

Lemma agrees_off_update_position particle destination (r : PositionArguments) :
  agrees_off (species particle) r (update_position particle destination r).
Proof. rewrite update_position_insert. apply agrees_off_insert. Qed.

Lemma update_position_lookup particle destination (r : PositionArguments) s :
  species particle = s -> (s < length r)%nat ->
  update_position particle destination r !!! s =
  <[index particle := destination]> (r !!! s).
Proof.
  intros <- Hs. rewrite update_position_insert. apply list_lookup_total_insert_eq. exact Hs.
Qed.

Lemma particle_is_valid_inv r particle :
  particle_is_valid r particle = true ->
  (species particle < length r)%nat /\
  (index particle < length (r !!! species particle))%nat.
Proof.
  unfold particle_is_valid, get_N_species, get_N_filled. intros H.
  apply andb_true_iff in H as [Hs Hi].
  apply Nat.ltb_lt in Hs. apply Nat.ltb_lt in Hi. auto.
Qed.

Ltac agrees :=
  first [ apply agrees_off_refl
        | apply agrees_off_insert
        | apply agrees_off_update_position
        | apply (agrees_off_update_position (mkParticle _ _)) ].

(** The particle of copy 1 moved inside the subsystem. *)
Lemma pairing_ok_move_inside c1 c2 r1 r2 b1 b2 particle d :
  pairing_ok c1 c2 r1 r2 b1 b2 ->
  (species particle < length r1)%nat ->
  index particle ∈ c1 !!! species particle ->
  position_is_within d = true ->
  let s := species particle in
  let j := (c2 !!! s) !!! Z.to_nat (vector_find (c1 !!! s) (index particle)) in
  pairing_ok c1 c2 (update_position particle d r1) r2
    b1 (update_position (mkParticle j s) d b2).
Proof.
  intros Hok Hs Hin Hd s j.
  pose proof Hok as (Hc1 & Hc2 & Hr2 & Hb1 & Hb2 & Hall).
  pose proof (Hall s Hs) as Hsp.
  eapply (pairing_ok_change s); [exact Hok|agrees..|].
  rewrite !(update_position_lookup _ _ _ s) by first [reflexivity|lia]. simpl.
  apply species_ok_move_inside; [exact Hsp| |exact Hd].
  apply vector_find_present in Hin as [Hle Hk].
  apply elem_of_zip_lookup. eexists. split; [exact Hk|].
  apply list_lookup_lookup_total_lt.
  destruct Hsp as (Hlen & _). fold s. rewrite <- Hlen.
  eapply lookup_lt_Some. exact Hk.
Qed.

(** The particle of copy 1 moved outside the subsystem. *)
Lemma pairing_ok_move_outside c1 c2 r1 r2 b1 b2 particle d :
  pairing_ok c1 c2 r1 r2 b1 b2 ->
  (species particle < length r1)%nat ->
  (index particle ∉ c1 !!! species particle) ->
  position_is_within d = false ->
  pairing_ok c1 c2 (update_position particle d r1) r2
    (update_position particle d b1) b2.
Proof.
  intros Hok Hs Hin Hd.
  pose proof Hok as (Hc1 & Hc2 & Hr2 & Hb1 & Hb2 & Hall).
  eapply (pairing_ok_change (species particle)); [exact Hok|agrees..|].
  rewrite !(update_position_lookup _ _ _ (species particle)) by first [reflexivity|lia].
  apply species_ok_move_outside; [apply Hall; exact Hs|exact Hin|exact Hd].
Qed.

(** A particle of the same species entered the subsystem in each copy. *)
Lemma pairing_ok_both_entered c1 c2 r1 r2 b1 b2 p q d1 d2 :
  pairing_ok c1 c2 r1 r2 b1 b2 ->
  species q = species p ->
  (species p < length r1)%nat ->
  (index p < length (r1 !!! species p))%nat ->
  (index q < length (r2 !!! species p))%nat ->
  (index p ∉ c1 !!! species p) -> (index q ∉ c2 !!! species p) ->
  position_is_within d1 = true -> position_is_within d2 = true ->
  let s := species p in
  pairing_ok (<[s := c1 !!! s ++ [index p]]> c1) (<[s := c2 !!! s ++ [index q]]> c2)
    (update_position p d1 r1) (update_position q d2 r2)
    (update_position (mkParticle (index p) s) d2 b1)
    (update_position (mkParticle (index q) s) d1 b2).
Proof.
  intros Hok Hpq Hs Hp Hq Hpn Hqn Hd1 Hd2 s.
  pose proof Hok as (Hc1 & Hc2 & Hr2 & Hb1 & Hb2 & Hall).
  assert (Hq2 : agrees_off s r2 (update_position q d2 r2)).
  { unfold s. rewrite <- Hpq. apply agrees_off_update_position. }
  eapply (pairing_ok_change s); [exact Hok|agrees|agrees|agrees|exact Hq2|agrees|agrees|].
  rewrite !(update_position_lookup _ _ _ s) by first [reflexivity|assumption|lia].
  rewrite !list_lookup_total_insert_eq by lia. simpl.
  apply species_ok_both_entered; try assumption. apply Hall. exact Hs.
Qed.

(** A particle of the same species left the subsystem in each copy;
    [pending] for the update, [cancelled] after its cancellation. *)
Lemma pairing_ok_both_left c1 c2 r1 r2 b1 b2 p q d1 d2 :
  pairing_ok c1 c2 r1 r2 b1 b2 ->
  species q = species p ->
  (species p < length r1)%nat ->
  index p ∈ c1 !!! species p -> index q ∈ c2 !!! species p ->
  position_is_within d1 = false -> position_is_within d2 = false ->
  let s := species p in
  let i1 := Z.to_nat (vector_find (c1 !!! s) (index p)) in
  let i2 := Z.to_nat (vector_find (c2 !!! s) (index q)) in
  let a' := (c1 !!! s) !!! i2 in
  let b' := (c2 !!! s) !!! i1 in
  let C1 := if decide (i1 < i2)%nat then swap_entries i1 i2 (c1 !!! s) else c1 !!! s in
  let C2 := if decide (i2 < i1)%nat then swap_entries i1 i2 (c2 !!! s) else c2 !!! s in
  let m := Nat.max i1 i2 in
  let f1 := swap_entries (index p) a' (b1 !!! s) in
  let f2 := swap_entries b' (index q) (b2 !!! s) in
  C1 !!! m = index p /\ C2 !!! m = index q /\
  pairing_ok (<[s := remove_pair m C1]> c1) (<[s := remove_pair m C2]> c2)
    (update_position p d1 r1) (update_position q d2 r2)
    (<[s := <[index p := d1]> f1]> b1) (<[s := <[index q := d2]> f2]> b2) /\
  pairing_ok (<[s := remove_pair m C1 ++ [index p]]> c1)
    (<[s := remove_pair m C2 ++ [index q]]> c2) r1 r2
    (<[s := f1]> b1) (<[s := f2]> b2).
Proof.
  intros Hok Hpq Hs Hp Hq Hd1 Hd2 s i1 i2 a' b' C1 C2 m f1 f2.
  pose proof Hok as (Hc1 & Hc2 & Hr2 & Hb1 & Hb2 & Hall).
  pose proof (Hall s Hs) as Hsp.
  pose proof Hsp as (Hlen & Hv & Ht1 & Ht2 & _).
  apply vector_find_present in Hp as [_ Hp]. apply vector_find_present in Hq as [_ Hq].
  destruct (update_lists_repaired (c1 !!! s) (c2 !!! s) i1 i2 (index p) (index q)
              (proj1 Ht1) (proj1 Ht2) Hlen Hp Hq) as (HC1 & HC2 & Hab' & Ha'b & Hrep).
  fold a' b' C1 C2 m in HC1, HC2, Hab', Ha'b, Hrep.
  split; [apply list_lookup_total_correct; exact HC1|].
  split; [apply list_lookup_total_correct; exact HC2|]. split.
  - assert (Hq2 : agrees_off s r2 (update_position q d2 r2)).
    { unfold s. rewrite <- Hpq. apply agrees_off_update_position. }
    eapply (pairing_ok_change s);
      [exact Hok|agrees|agrees|agrees|exact Hq2|agrees|agrees|].
    rewrite !(update_position_lookup _ _ _ s) by first [reflexivity|assumption|lia].
    rewrite !list_lookup_total_insert_eq by lia.
    eapply species_ok_both_left; eassumption.
  - eapply (pairing_ok_change s); [exact Hok|agrees..|].
    rewrite !list_lookup_total_insert_eq by lia.
    eapply species_ok_both_left_cancelled; eassumption.
Qed.

(** *** finish_update, cancel_update *)

Lemma BOOST_ASSERT_Some (b : bool) (u : unit) : BOOST_ASSERT b = Some u -> b = true.
Proof. destruct b; [reflexivity|discriminate]. Qed.

Lemma finish_update_inv ss ss' :
  finish_update ss = Some ss' ->
  current_state ss' = READY /\
  phibeta1_dirty ss' = false /\ phibeta2_dirty ss' = false /\
  copy1_subsystem_indices ss' = copy1_subsystem_indices ss /\
  copy2_subsystem_indices ss' = copy2_subsystem_indices ss /\
  get_positions (phibeta1 ss') = get_positions (phibeta1 ss) /\
  get_positions (phibeta2 ss') = get_positions (phibeta2 ss).
Proof.
  unfold finish_update. intros H.
  apply BOOST_ASSERT_bind in H as [_ H]. apply bind_Some in H as (u & _ & H).
  inversion H; subst ss'; clear H. simpl.
  repeat (split; [reflexivity|]).
  split; [destruct (phibeta1_dirty ss)|destruct (phibeta2_dirty ss)]; reflexivity.
Qed.

(** The positions an amplitude goes back to when its move is cancelled. *)
Definition positions_before (dirty : bool) (a : Amplitude) : PositionArguments :=
  get_positions (if dirty then cancel_move a else a).

Lemma cancel_update_inv ss ss' :
  cancel_update ss = Some ss' ->
  let s := species (recent_particle1 ss) in
  let c1 := copy1_subsystem_indices ss in
  let c2 := copy2_subsystem_indices ss in
  current_state ss' = READY /\
  phibeta1_dirty ss' = false /\ phibeta2_dirty ss' = false /\
  get_positions (phibeta1 ss') = positions_before (phibeta1_dirty ss) (phibeta1 ss) /\
  get_positions (phibeta2 ss') = positions_before (phibeta2_dirty ss) (phibeta2 ss) /\
  (recent_delta ss = 0 ->
   copy1_subsystem_indices ss' = c1 /\ copy2_subsystem_indices ss' = c2) /\
  (recent_delta ss = 1 ->
   copy1_subsystem_indices ss' = <[s := removelast (c1 !!! s)]> c1 /\
   copy2_subsystem_indices ss' = <[s := removelast (c2 !!! s)]> c2) /\
  (recent_delta ss = -1 ->
   copy1_subsystem_indices ss' = <[s := c1 !!! s ++ [index (recent_particle1 ss)]]> c1 /\
   copy2_subsystem_indices ss' = <[s := c2 !!! s ++ [index (recent_particle2 ss)]]> c2).
Proof.
  intros H s c1 c2. unfold cancel_update in H.
  apply BOOST_ASSERT_bind in H as [_ H]. apply bind_Some in H as (u & _ & H).
  simpl in H. fold s c1 c2 in H.
  destruct (Z.eqb_spec (recent_delta ss) 0) as [E0|N0]; simpl in H.
  { inversion H; subst ss'; clear H. simpl.
    repeat (split; [reflexivity|]). split; [auto|]. split; intros; lia. }
  apply BOOST_ASSERT_bind in H as [_ H].
  destruct (Z.eqb_spec (recent_delta ss) 1) as [E1|N1].
  { inversion H; subst ss'; clear H. simpl.
    repeat (split; [reflexivity|]). split; [intros; lia|]. split; [auto|intros; lia]. }
  apply BOOST_ASSERT_bind in H as [Em H]. apply Z.eqb_eq in Em.
  inversion H; subst ss'; clear H. simpl.
  repeat (split; [reflexivity|]). split; [intros; lia|]. split; [intros; lia|auto].
Qed.

Definition moved_to (particle : option Particle) (destination : Z)
    (r : PositionArguments) : PositionArguments :=
  match particle with
  | Some p0 => update_position p0 destination r
  | None => r
  end.

Lemma pairing_index_spec (c : list nat) (i : nat) :
  (i ∈ c /\ 0 <= vector_find c i /\ (0 <=? vector_find c i) = true) \/
  ((i ∉ c) /\ vector_find c i = -1).
Proof.
  destruct (decide (i ∈ c)) as [Hin|Hnot].
  - left. destruct (vector_find_present c i Hin) as [Hle _].
    split; [exact Hin|]. split; [exact Hle|]. apply Z.leb_le. exact Hle.
  - right. split; [exact Hnot|]. apply vector_find_absent. exact Hnot.
Qed.

(** *** update *)

Lemma moved_particle_facts p0 d (r : PositionArguments) :
  particle_is_valid (update_position p0 d r) p0 = true ->
  (species p0 < length r)%nat /\
  (index p0 < length (r !!! species p0))%nat /\
  position (update_position p0 d r) p0 = d.
Proof.
  intros Hv. rewrite particle_is_valid_update_position in Hv.
  destruct (particle_is_valid_inv r p0 Hv) as [Hs Hi].
  split; [exact Hs|]. split; [exact Hi|]. apply position_update_position. exact Hv.
Qed.

Lemma good_intro ss r1 r2 :
  current_state ss = READY ->
  phibeta1_dirty ss = false -> phibeta2_dirty ss = false ->
  pairing_ok (copy1_subsystem_indices ss) (copy2_subsystem_indices ss) r1 r2
    (get_positions (phibeta1 ss)) (get_positions (phibeta2 ss)) ->
  good ss r1 r2.
Proof. unfold good. auto. Qed.

Lemma swap_particles_positions i j s (a : Amplitude) :
  get_positions (swap_particles i j s a) =
  <[s := swap_entries i j (get_positions a !!! s)]> (get_positions a).
Proof. unfold swap_particles, get_positions. simpl. apply alter_as_insert. Qed.

Lemma swap_particles_same i s (a : Amplitude) :
  get_positions a = <[s := swap_entries i i (get_positions a !!! s)]> (get_positions a).
Proof. rewrite swap_entries_same, insert_lookup_total_same. reflexivity. Qed.

(** What the branch [delta == -1] leaves, in terms of the slots
    [i1], [i2] of the two particles. *)
Lemma update_both_left_inv p q pairing_index1 pairing_index2 r1' r2' ss0 ss' :
  update_both_left p q pairing_index1 pairing_index2 false false r1' r2' ss0 = Some ss' ->
  let s := species p in
  let c1_s := copy1_subsystem_indices ss0 !!! s in
  let c2_s := copy2_subsystem_indices ss0 !!! s in
  let i1 := Z.to_nat pairing_index1 in
  let i2 := Z.to_nat pairing_index2 in
  let C1 := if decide (i1 < i2)%nat then swap_entries i1 i2 c1_s else c1_s in
  let C2 := if decide (i2 < i1)%nat then swap_entries i1 i2 c2_s else c2_s in
  let m := Nat.max i1 i2 in
  let f1 := <[s := swap_entries (c1_s !!! i1) (c1_s !!! i2)
                     (get_positions (phibeta1 ss0) !!! s)]> (get_positions (phibeta1 ss0)) in
  let f2 := <[s := swap_entries (c2_s !!! i1) (c2_s !!! i2)
                     (get_positions (phibeta2 ss0) !!! s)]> (get_positions (phibeta2 ss0)) in
  copy1_subsystem_indices ss' = <[s := remove_pair m C1]> (copy1_subsystem_indices ss0) /\
  copy2_subsystem_indices ss' = <[s := remove_pair m C2]> (copy2_subsystem_indices ss0) /\
  get_positions (phibeta1 ss') =
    update_position (mkParticle (C1 !!! m) s) (position r1' p) f1 /\
  get_positions (phibeta2 ss') =
    update_position (mkParticle (C2 !!! m) s) (position r2' q) f2 /\
  positions_before (phibeta1_dirty ss') (phibeta1 ss') = f1 /\
  positions_before (phibeta2_dirty ss') (phibeta2 ss') = f2 /\
  current_state ss' = current_state ss0 /\
  recent_delta ss' = recent_delta ss0 /\
  recent_particle1 ss' = recent_particle1 ss0 /\
  recent_particle2 ss' = recent_particle2 ss0.
Proof.
  intros H s c1_s c2_s i1 i2 C1 C2 m f1 f2. unfold update_both_left in H.
  apply BOOST_ASSERT_bind in H as [Hpos H].
  apply andb_true_iff in Hpos as [Hpos1 Hpos2].
  apply Z.leb_le in Hpos1. apply Z.leb_le in Hpos2.
  apply BOOST_ASSERT_bind in H as [_ H].
  apply BOOST_ASSERT_bind in H as [_ H].
  apply BOOST_ASSERT_bind in H as [_ H].
  fold s c1_s c2_s i1 i2 in H.
  replace (Z.to_nat (Z.max pairing_index1 pairing_index2)) with m in H
    by (unfold m, i1, i2; lia).
  assert (Hcases : (i1 = i2 /\ pairing_index1 = pairing_index2) \/
                   ((i1 < i2)%nat /\ pairing_index1 < pairing_index2) \/
                   ((i2 < i1)%nat /\ pairing_index2 < pairing_index1))
    by (unfold i1, i2; lia).
  destruct Hcases as [[Hi Hz]|[[Hi Hz]|[Hi Hz]]].
  - assert (Eeq : (pairing_index1 =? pairing_index2) = true) by (apply Z.eqb_eq; exact Hz).
    rewrite Eeq in H. simpl in H.
    inversion H; subst ss'; clear H. unfold C1, C2, f1, f2.
    destruct (decide (i1 < i2)%nat); [lia|]. destruct (decide (i2 < i1)%nat); [lia|].
    rewrite <- Hi. unfold clone, positions_before. simpl.
    rewrite <- !swap_particles_same. repeat (split; [reflexivity|]). reflexivity.
  - assert (Eeq : (pairing_index1 =? pairing_index2) = false) by (apply Z.eqb_neq; lia).
    assert (Elt : (pairing_index1 <? pairing_index2) = true) by (apply Z.ltb_lt; exact Hz).
    rewrite Eeq, Elt in H. simpl in H.
    inversion H; subst ss'; clear H. unfold C1, C2, f1, f2.
    destruct (decide (i1 < i2)%nat); [|lia]. destruct (decide (i2 < i1)%nat); [lia|].
    unfold clone, positions_before. simpl.
    rewrite <- !swap_particles_positions. repeat (split; [reflexivity|]). reflexivity.
  - assert (Eeq : (pairing_index1 =? pairing_index2) = false) by (apply Z.eqb_neq; lia).
    assert (Elt : (pairing_index1 <? pairing_index2) = false) by (apply Z.ltb_ge; lia).
    rewrite Eeq, Elt in H. simpl in H.
    inversion H; subst ss'; clear H. unfold C1, C2, f1, f2.
    destruct (decide (i1 < i2)%nat); [lia|]. destruct (decide (i2 < i1)%nat); [|lia].
    unfold clone, positions_before. simpl.
    rewrite <- !swap_particles_positions. repeat (split; [reflexivity|]). reflexivity.
Qed.

Lemma both_left_then p q d1 d2 r1 r2 ss ss' :
  good ss r1 r2 ->
  species q = species p ->
  (species p < length r1)%nat ->
  index p ∈ copy1_subsystem_indices ss !!! species p ->
  index q ∈ copy2_subsystem_indices ss !!! species p ->
  position_is_within d1 = false -> position_is_within d2 = false ->
  update_both_left p q
    (vector_find (copy1_subsystem_indices ss !!! species p) (index p))
    (vector_find (copy2_subsystem_indices ss !!! species p) (index q))
    false false (update_position p d1 r1) (update_position q d2 r2)
    (remember (-1) (Some p) (Some q) (set_state UPDATE_IN_PROGRESS ss)) = Some ss' ->
  (forall ss'', finish_update ss' = Some ss'' ->
     good ss'' (update_position p d1 r1) (update_position q d2 r2)) /\
  (forall ss'', cancel_update ss' = Some ss'' -> good ss'' r1 r2).
Proof.
  intros (Hst & Hdirty1 & Hdirty2 & Hok) Hpq Hs Hin1 Hin2 W1 W2 H.
  pose proof Hok as (Hc1 & Hc2 & Hr2 & Hb1 & Hb2 & Hall).
  pose proof (Hall _ Hs) as (_ & _ & Ht1 & Ht2 & _).
  pose proof (tracks_lt _ _ _ Ht1 Hin1) as Hlt1.
  pose proof (tracks_lt _ _ _ Ht2 Hin2) as Hlt2.
  assert (Ed1 : position (update_position p d1 r1) p = d1).
  { apply position_update_position. unfold particle_is_valid, get_N_species, get_N_filled.
    apply andb_true_iff. split; apply Nat.ltb_lt; assumption. }
  assert (Ed2 : position (update_position q d2 r2) q = d2).
  { apply position_update_position. unfold particle_is_valid, get_N_species, get_N_filled.
    rewrite Hpq. apply andb_true_iff. split; apply Nat.ltb_lt; [lia|assumption]. }
  apply update_both_left_inv in H.
  cbn [copy1_subsystem_indices copy2_subsystem_indices remember set_state
       phibeta1 phibeta2 current_state recent_delta recent_particle1 recent_particle2
       default] in H.
  rewrite Ed1, Ed2 in H.
  destruct H as (Ec1 & Ec2 & Ef1 & Ef2 & Ep1 & Ep2 & Est & Edelta & Erp1 & Erp2).
  destruct (pairing_ok_both_left _ _ _ _ _ _ p q d1 d2 Hok Hpq Hs Hin1 Hin2 W1 W2)
    as (HC1 & HC2 & Hfin & Hcan).
  rewrite HC1 in Ef1. rewrite HC2 in Ef2.
  destruct (vector_find_present _ _ Hin1) as [_ Hk1].
  destruct (vector_find_present _ _ Hin2) as [_ Hk2].
  apply list_lookup_total_correct in Hk1. apply list_lookup_total_correct in Hk2.
  rewrite Hk1 in Ef1, Ep1. rewrite Hk2 in Ef2, Ep2.
  rewrite update_position_insert in Ef1, Ef2. cbn [species index mkParticle] in Ef1, Ef2.
  rewrite list_lookup_total_insert_eq, list_insert_insert_eq in Ef1 by lia.
  rewrite list_lookup_total_insert_eq, list_insert_insert_eq in Ef2 by lia.
  split.
  - intros ss'' Hf. apply finish_update_inv in Hf as (F1 & F2 & F3 & F4 & F5 & F6 & F7).
    apply good_intro; try assumption.
    rewrite F4, F5, F6, F7, Ec1, Ec2, Ef1, Ef2. exact Hfin.
  - intros ss'' Hc. apply cancel_update_inv in Hc.
    destruct Hc as (G1 & G2 & G3 & G4 & G5 & _ & _ & G6).
    destruct (G6 Edelta) as [G7 G8]. clear G6.
    apply good_intro; try assumption.
    rewrite G4, G5, G7, G8, Ep1, Ep2, Erp1, Erp2, Ec1, Ec2.
    rewrite !list_lookup_total_insert_eq, !list_insert_insert_eq by lia.
    exact Hcan.
Qed.

Lemma snoc_last_entry (c c' : list nat) (x y s : nat) (cs : list (list nat)) :
  length c' = length c -> (s < length cs)%nat ->
  (<[s := c ++ [x]]> cs !!! s) !!! Z.to_nat (Z.of_nat (length (c' ++ [y])) - 1) = x.
Proof.
  intros Hlen Hs. rewrite list_lookup_total_insert_eq by exact Hs.
  apply list_lookup_total_middle. rewrite length_app. simpl. lia.
Qed.

Lemma perform_move_positions particle destination (a : Amplitude) :
  get_positions (perform_move [(particle, destination)] a) =
  update_position particle destination (get_positions a).
Proof. reflexivity. Qed.

Lemma perform_move_before particle destination (a : Amplitude) :
  positions_before true (perform_move [(particle, destination)] a) = get_positions a.
Proof. reflexivity. Qed.

Lemma entered_then p q d1 d2 r1 r2 ss ss' :
  good ss r1 r2 ->
  species q = species p ->
  (species p < length r1)%nat ->
  (index p < length (r1 !!! species p))%nat ->
  (index q < length (r2 !!! species p))%nat ->
  (index p ∉ copy1_subsystem_indices ss !!! species p) ->
  (index q ∉ copy2_subsystem_indices ss !!! species p) ->
  position_is_within d1 = true -> position_is_within d2 = true ->
  update_entered_or_within 1 (Some p) (Some q) (-1) (-1) true true
    (update_position p d1 r1) (update_position q d2 r2)
    (remember 1 (Some p) (Some q) (set_state UPDATE_IN_PROGRESS ss)) = Some ss' ->
  (forall ss'', finish_update ss' = Some ss'' ->
     good ss'' (update_position p d1 r1) (update_position q d2 r2)) /\
  (forall ss'', cancel_update ss' = Some ss'' -> good ss'' r1 r2).
Proof.
  intros (Hst & Hdirty1 & Hdirty2 & Hok) Hpq Hs Hlt1 Hlt2 Hin1 Hin2 W1 W2 H.
  pose proof Hok as (Hc1 & Hc2 & Hr2 & Hb1 & Hb2 & Hall).
  pose proof (Hall _ Hs) as (Hlen & _).
  assert (Ed1 : position (update_position p d1 r1) p = d1).
  { apply position_update_position. unfold particle_is_valid, get_N_species, get_N_filled.
    apply andb_true_iff. split; apply Nat.ltb_lt; assumption. }
  assert (Ed2 : position (update_position q d2 r2) q = d2).
  { apply position_update_position. unfold particle_is_valid, get_N_species, get_N_filled.
    rewrite Hpq. apply andb_true_iff. split; apply Nat.ltb_lt; [lia|assumption]. }
  unfold update_entered_or_within in H. rewrite Ed1, Ed2, Hpq in H.
  apply BOOST_ASSERT_bind in H as [_ H].
  cbn -[Z.of_nat Z.to_nat Z.sub] in H.
  apply bind_Some in H as (u & _ & H).
  unfold move_phibeta in H.
  cbn -[Z.of_nat Z.to_nat Z.sub] in H.
  apply bind_Some in H as (ss2 & H2 & H).
  apply BOOST_ASSERT_bind in H2 as [_ H2]. inversion H2; subst ss2; clear H2.
  apply BOOST_ASSERT_bind in H as [_ H].
  cbn -[Z.of_nat Z.to_nat Z.sub perform_move] in H.
  rewrite !snoc_last_entry in H by lia.
  inversion H; subst ss'; clear H.
  pose proof (pairing_ok_both_entered _ _ _ _ _ _ p q d1 d2 Hok Hpq Hs Hlt1 Hlt2
                Hin1 Hin2 W1 W2) as Hfin.
  split.
  - intros ss'' Hf. apply finish_update_inv in Hf as (F1 & F2 & F3 & F4 & F5 & F6 & F7).
    apply good_intro; try assumption.
    rewrite F4, F5, F6, F7. exact Hfin.
  - intros ss'' Hc. apply cancel_update_inv in Hc.
    destruct Hc as (G1 & G2 & G3 & G4 & G5 & _ & G6 & _).
    destruct (G6 eq_refl) as [G7 G8]. clear G6.
    apply good_intro; try assumption.
    rewrite G4, G5, G7, G8.
    cbn [copy1_subsystem_indices copy2_subsystem_indices with_phibetas with_indices
         remember set_state phibeta1 phibeta2 phibeta1_dirty phibeta2_dirty
         recent_particle1 recent_particle2 default].
    rewrite !perform_move_before.
    rewrite !list_lookup_total_insert_eq, !list_insert_insert_eq by lia.
    rewrite !removelast_snoc, !insert_lookup_total_same. exact Hok.
Qed.

Ltac settle_unchanged_lists Hok Hfin Hdirty1 Hdirty2 :=
  split;
  [ intros ss'' Hf; apply finish_update_inv in Hf as (F1 & F2 & F3 & F4 & F5 & F6 & F7);
    apply good_intro; try assumption;
    rewrite F4, F5, F6, F7; exact Hfin
  | intros ss'' Hc; apply cancel_update_inv in Hc;
    destruct Hc as (G1 & G2 & G3 & G4 & G5 & G6 & _ & _);
    destruct (G6 eq_refl) as [G7 G8]; clear G6;
    apply good_intro; try assumption;
    rewrite G4, G5, G7, G8;
    cbn [copy1_subsystem_indices copy2_subsystem_indices with_phibetas with_indices
         remember set_state phibeta1 phibeta2 phibeta1_dirty phibeta2_dirty];
    rewrite ?Hdirty1, ?Hdirty2; exact Hok ].

Lemma moved1_inside_then p d r1 r2 ss ss' :
  good ss r1 r2 ->
  (species p < length r1)%nat ->
  index p ∈ copy1_subsystem_indices ss !!! species p ->
  position_is_within d = true ->
  update_entered_or_within 0 (Some p) None
    (vector_find (copy1_subsystem_indices ss !!! species p) (index p)) (-2) true false
    (update_position p d r1) r2
    (remember 0 (Some p) None (set_state UPDATE_IN_PROGRESS ss)) = Some ss' ->
  (forall ss'', finish_update ss' = Some ss'' -> good ss'' (update_position p d r1) r2) /\
  (forall ss'', cancel_update ss' = Some ss'' -> good ss'' r1 r2).
Proof.
  intros (Hst & Hdirty1 & Hdirty2 & Hok) Hs Hin W H.
  pose proof Hok as (Hc1 & Hc2 & Hr2 & Hb1 & Hb2 & Hall).
  pose proof (Hall _ Hs) as (_ & _ & Ht1 & _).
  pose proof (tracks_lt _ _ _ Ht1 Hin) as Hlt.
  assert (Ed : position (update_position p d r1) p = d).
  { apply position_update_position. unfold particle_is_valid, get_N_species, get_N_filled.
    apply andb_true_iff. split; apply Nat.ltb_lt; assumption. }
  unfold update_entered_or_within in H. rewrite Ed in H.
  apply BOOST_ASSERT_bind in H as [_ H].
  cbn -[Z.of_nat Z.to_nat Z.sub] in H.
  apply bind_Some in H as (u & _ & H).
  unfold move_phibeta in H. cbn -[Z.of_nat Z.to_nat Z.sub perform_move] in H.
  apply bind_Some in H as (ss2 & H2 & H).
  apply BOOST_ASSERT_bind in H2 as [_ H2]. inversion H2; subst ss2; clear H2.
  inversion H; subst ss'; clear H.
  pose proof (pairing_ok_move_inside _ _ _ _ _ _ p d Hok Hs Hin W) as Hfin.
  settle_unchanged_lists Hok Hfin Hdirty1 Hdirty2.
Qed.

Lemma moved1_outside_then p d r1 r2 ss ss' :
  good ss r1 r2 ->
  (species p < length r1)%nat ->
  (index p < length (r1 !!! species p))%nat ->
  (index p ∉ copy1_subsystem_indices ss !!! species p) ->
  position_is_within d = false ->
  update_entered_or_within 0 (Some p) None (-1) (-2) false false
    (update_position p d r1) r2
    (remember 0 (Some p) None (set_state UPDATE_IN_PROGRESS ss)) = Some ss' ->
  (forall ss'', finish_update ss' = Some ss'' -> good ss'' (update_position p d r1) r2) /\
  (forall ss'', cancel_update ss' = Some ss'' -> good ss'' r1 r2).
Proof.
  intros (Hst & Hdirty1 & Hdirty2 & Hok) Hs Hlt Hin W H.
  assert (Ed : position (update_position p d r1) p = d).
  { apply position_update_position. unfold particle_is_valid, get_N_species, get_N_filled.
    apply andb_true_iff. split; apply Nat.ltb_lt; assumption. }
  unfold update_entered_or_within in H. rewrite Ed in H.
  apply BOOST_ASSERT_bind in H as [_ H].
  cbn -[Z.of_nat Z.to_nat Z.sub] in H.
  apply bind_Some in H as (u & _ & H).
  unfold move_phibeta in H. cbn -[Z.of_nat Z.to_nat Z.sub perform_move] in H.
  apply bind_Some in H as (ss2 & H2 & H).
  apply BOOST_ASSERT_bind in H2 as [_ H2]. inversion H2; subst ss2; clear H2.
  inversion H; subst ss'; clear H.
  pose proof (pairing_ok_move_outside _ _ _ _ _ _ p d Hok Hs Hin W) as Hfin.
  settle_unchanged_lists Hok Hfin Hdirty1 Hdirty2.
Qed.

Lemma moved2_inside_then q d r1 r2 ss ss' :
  good ss r1 r2 ->
  (species q < length r1)%nat ->
  index q ∈ copy2_subsystem_indices ss !!! species q ->
  position_is_within d = true ->
  update_entered_or_within 0 None (Some q) (-2)
    (vector_find (copy2_subsystem_indices ss !!! species q) (index q)) false true
    r1 (update_position q d r2)
    (remember 0 None (Some q) (set_state UPDATE_IN_PROGRESS ss)) = Some ss' ->
  (forall ss'', finish_update ss' = Some ss'' -> good ss'' r1 (update_position q d r2)) /\
  (forall ss'', cancel_update ss' = Some ss'' -> good ss'' r1 r2).
Proof.
  intros (Hst & Hdirty1 & Hdirty2 & Hok) Hs Hin W H.
  pose proof Hok as (Hc1 & Hc2 & Hr2 & Hb1 & Hb2 & Hall).
  pose proof (Hall _ Hs) as (_ & _ & _ & Ht2 & _).
  pose proof (tracks_lt _ _ _ Ht2 Hin) as Hlt.
  assert (Ed : position (update_position q d r2) q = d).
  { apply position_update_position. unfold particle_is_valid, get_N_species, get_N_filled.
    apply andb_true_iff. split; apply Nat.ltb_lt; [lia|assumption]. }
  unfold update_entered_or_within in H. rewrite Ed in H.
  apply BOOST_ASSERT_bind in H as [_ H].
  cbn -[Z.of_nat Z.to_nat Z.sub] in H.
  apply bind_Some in H as (u & _ & H).
  unfold move_phibeta in H. cbn -[Z.of_nat Z.to_nat Z.sub perform_move] in H.
  apply BOOST_ASSERT_bind in H as [_ H].
  inversion H; subst ss'; clear H.
  assert (Hfin := pairing_ok_sym _ _ _ _ _ _
            (pairing_ok_move_inside _ _ _ _ _ _ q d (pairing_ok_sym _ _ _ _ _ _ Hok)
               ltac:(lia) Hin W)).
  settle_unchanged_lists Hok Hfin Hdirty1 Hdirty2.
Qed.

Lemma moved2_outside_then q d r1 r2 ss ss' :
  good ss r1 r2 ->
  (species q < length r1)%nat ->
  (index q < length (r2 !!! species q))%nat ->
  (index q ∉ copy2_subsystem_indices ss !!! species q) ->
  position_is_within d = false ->
  update_entered_or_within 0 None (Some q) (-2) (-1) false false
    r1 (update_position q d r2)
    (remember 0 None (Some q) (set_state UPDATE_IN_PROGRESS ss)) = Some ss' ->
  (forall ss'', finish_update ss' = Some ss'' -> good ss'' r1 (update_position q d r2)) /\
  (forall ss'', cancel_update ss' = Some ss'' -> good ss'' r1 r2).
Proof.
  intros (Hst & Hdirty1 & Hdirty2 & Hok) Hs Hlt Hin W H.
  pose proof Hok as (Hc1 & Hc2 & Hr2 & Hb1 & Hb2 & Hall).
  assert (Ed : position (update_position q d r2) q = d).
  { apply position_update_position. unfold particle_is_valid, get_N_species, get_N_filled.
    apply andb_true_iff. split; apply Nat.ltb_lt; [lia|assumption]. }
  unfold update_entered_or_within in H. rewrite Ed in H.
  apply BOOST_ASSERT_bind in H as [_ H].
  cbn -[Z.of_nat Z.to_nat Z.sub] in H.
  apply bind_Some in H as (u & _ & H).
  unfold move_phibeta in H. cbn -[Z.of_nat Z.to_nat Z.sub perform_move] in H.
  apply BOOST_ASSERT_bind in H as [_ H].
  inversion H; subst ss'; clear H.
  assert (Hfin := pairing_ok_sym _ _ _ _ _ _
            (pairing_ok_move_outside _ _ _ _ _ _ q d (pairing_ok_sym _ _ _ _ _ _ Hok)
               ltac:(lia) Hin W)).
  settle_unchanged_lists Hok Hfin Hdirty1 Hdirty2.
Qed.

Lemma nothing_moved_then r1 r2 ss ss' :
  good ss r1 r2 ->
  update_entered_or_within 0 None None (-2) (-2) false false r1 r2
    (remember 0 None None (set_state UPDATE_IN_PROGRESS ss)) = Some ss' ->
  (forall ss'', finish_update ss' = Some ss'' -> good ss'' r1 r2) /\
  (forall ss'', cancel_update ss' = Some ss'' -> good ss'' r1 r2).
Proof.
  intros (Hst & Hdirty1 & Hdirty2 & Hok) H.
  unfold update_entered_or_within in H.
  apply BOOST_ASSERT_bind in H as [_ H].
  cbn -[Z.of_nat Z.to_nat Z.sub] in H.
  apply bind_Some in H as (u & _ & H).
  inversion H; subst ss'; clear H.
  settle_unchanged_lists Hok Hok Hdirty1 Hdirty2.
Qed.

(** [update] after the moves of the phialphas, then [finish_update] or
    [cancel_update]. *)
Lemma update_then particle1 particle2 d1 d2 r1 r2 phialpha1 phialpha2 ss ss' :
  good ss r1 r2 ->
  get_positions phialpha1 = moved_to particle1 d1 r1 ->
  get_positions phialpha2 = moved_to particle2 d2 r2 ->
  update particle1 particle2 phialpha1 phialpha2 ss = Some ss' ->
  (forall ss'', finish_update ss' = Some ss'' ->
     good ss'' (moved_to particle1 d1 r1) (moved_to particle2 d2 r2)) /\
  (forall ss'', cancel_update ss' = Some ss'' -> good ss'' r1 r2).
Proof.
  intros Hgood E1 E2 H.
  pose proof Hgood as (Hst & Hdirty1 & Hdirty2 & Hok).
  pose proof Hok as (Hc1 & Hc2 & Hr2 & Hb1 & Hb2 & Hall).
  unfold update in H. rewrite E1, E2 in H. clear E1 E2 phialpha1 phialpha2.
  apply BOOST_ASSERT_bind in H as [_ H].
  apply BOOST_ASSERT_bind in H as [Hsame H].
  apply BOOST_ASSERT_bind in H as [Hv1 H].
  apply BOOST_ASSERT_bind in H as [Hv2 H].
  apply BOOST_ASSERT_bind in H as [Hp1 H].
  apply BOOST_ASSERT_bind in H as [Hp2 H].
  apply BOOST_ASSERT_bind in H as [Hdelta H].
  apply BOOST_ASSERT_bind in H as [Hspecies H].
  apply BOOST_ASSERT_bind in H as [Hnow H].
  apply BOOST_ASSERT_bind in H as [Hboth H].
  clear Hsame Hp1 Hp2 Hnow.
  cbn [copy1_subsystem_indices copy2_subsystem_indices set_state] in *.
  destruct particle1 as [p|], particle2 as [q|];
    cbn [moved_to valid_or_null pairing_index_of now_in_subsystem same_species] in *.
  - destruct (moved_particle_facts p d1 r1 Hv1) as (Hs1 & Hlt1 & Ed1).
    destruct (moved_particle_facts q d2 r2 Hv2) as (Hs2 & Hlt2 & Ed2).
    rewrite Ed1, Ed2 in *. clear Hv1 Hv2.
    assert (Hpq : species q = species p).
    { destruct (delta_of _ _ =? 0); [discriminate|].
      simpl in Hspecies. apply Nat.eqb_eq in Hspecies. congruence. }
    rewrite Hpq in *. clear Hspecies.
    destruct (pairing_index_spec (copy1_subsystem_indices ss !!! species p) (index p))
      as [(Hin1 & _ & Hle1)|(Hin1 & Hpi1)];
    destruct (pairing_index_spec (copy2_subsystem_indices ss !!! species p) (index q))
      as [(Hin2 & _ & Hle2)|(Hin2 & Hpi2)];
    destruct (position_is_within d1) eqn:W1; destruct (position_is_within d2) eqn:W2;
    unfold delta_of in Hdelta, Hboth, H;
    rewrite ?Hle1, ?Hle2, ?Hpi1, ?Hpi2 in Hdelta;
    rewrite ?Hle1, ?Hle2, ?Hpi1, ?Hpi2 in Hboth;
    rewrite ?Hle1, ?Hle2, ?Hpi1, ?Hpi2 in H;
    try (vm_compute in Hdelta; discriminate);
    try (vm_compute in Hboth; discriminate);
    simpl (_ =? _) in H; cbv iota in H.
    + exact (both_left_then p q d1 d2 r1 r2 ss ss' Hgood Hpq Hs1 Hin1 Hin2 W1 W2 H).
    + exact (entered_then p q d1 d2 r1 r2 ss ss' Hgood Hpq Hs1 Hlt1 Hlt2 Hin1 Hin2 W1 W2 H).
  - destruct (moved_particle_facts p d1 r1 Hv1) as (Hs1 & Hlt1 & Ed1).
    rewrite Ed1 in *. clear Hv1 Hv2 Hspecies Hboth.
    destruct (pairing_index_spec (copy1_subsystem_indices ss !!! species p) (index p))
      as [(Hin1 & _ & Hle1)|(Hin1 & Hpi1)];
    destruct (position_is_within d1) eqn:W1;
    unfold delta_of in Hdelta, H;
    rewrite ?Hle1, ?Hpi1 in Hdelta; rewrite ?Hle1, ?Hpi1 in H;
    try (vm_compute in Hdelta; discriminate);
    simpl (_ =? _) in H; cbv iota in H.
    + exact (moved1_inside_then p d1 r1 r2 ss ss' Hgood Hs1 Hin1 W1 H).
    + exact (moved1_outside_then p d1 r1 r2 ss ss' Hgood Hs1 Hlt1 Hin1 W1 H).
  - destruct (moved_particle_facts q d2 r2 Hv2) as (Hs2 & Hlt2 & Ed2).
    rewrite Ed2 in *. clear Hv1 Hv2 Hspecies Hboth.
    assert (Hs2' : (species q < length r1)%nat) by lia.
    destruct (pairing_index_spec (copy2_subsystem_indices ss !!! species q) (index q))
      as [(Hin2 & _ & Hle2)|(Hin2 & Hpi2)];
    destruct (position_is_within d2) eqn:W2;
    unfold delta_of in Hdelta, H;
    rewrite ?Hle2, ?Hpi2 in Hdelta; rewrite ?Hle2, ?Hpi2 in H;
    try (vm_compute in Hdelta; discriminate);
    simpl (_ =? _) in H; cbv iota in H.
    + exact (moved2_inside_then q d2 r1 r2 ss ss' Hgood Hs2' Hin2 W2 H).
    + exact (moved2_outside_then q d2 r1 r2 ss ss' Hgood Hs2' Hlt2 Hin2 W2 H).
  - exact (nothing_moved_then r1 r2 ss ss' Hgood H).
Qed.

(** *** The swapped system over a run *)

(** Modelled from the spec: the walk that drives the swapped system
    (BaseSwapPossibleWalk.cpp) is not among the sources.  The swapped
    systems that a run can reach, with the positions of the two phialphas:
    [initialize] on a fresh system, then any number of rounds in which the
    phialphas move (at most one particle each), [update] is called for the
    particles that moved, and the move is either finished or cancelled
    (the phialphas then go back to their positions). *)
Inductive reachable : SwappedSystem -> PositionArguments -> PositionArguments -> Prop :=
| reachable_initialize phialpha1 phialpha2 ss :
    initialize phialpha1 phialpha2 mkSwappedSystem = Some ss ->
    reachable ss (get_positions phialpha1) (get_positions phialpha2)
| reachable_finish ss r1 r2 particle1 particle2 d1 d2 phialpha1 phialpha2 ss' ss'' :
    reachable ss r1 r2 ->
    get_positions phialpha1 = moved_to particle1 d1 r1 ->
    get_positions phialpha2 = moved_to particle2 d2 r2 ->
    update particle1 particle2 phialpha1 phialpha2 ss = Some ss' ->
    finish_update ss' = Some ss'' ->
    reachable ss'' (get_positions phialpha1) (get_positions phialpha2)
| reachable_cancel ss r1 r2 particle1 particle2 d1 d2 phialpha1 phialpha2 ss' ss'' :
    reachable ss r1 r2 ->
    get_positions phialpha1 = moved_to particle1 d1 r1 ->
    get_positions phialpha2 = moved_to particle2 d2 r2 ->
    update particle1 particle2 phialpha1 phialpha2 ss = Some ss' ->
    cancel_update ss' = Some ss'' ->
    reachable ss'' r1 r2.

Lemma reachable_good ss r1 r2 : reachable ss r1 r2 -> good ss r1 r2.
Proof.
  induction 1 as [phialpha1 phialpha2 ss Hinit
                 |ss r1 r2 particle1 particle2 d1 d2 phialpha1 phialpha2 ss' ss''
                    _ IH E1 E2 Hupd Hfin
                 |ss r1 r2 particle1 particle2 d1 d2 phialpha1 phialpha2 ss' ss''
                    _ IH E1 E2 Hupd Hcan].
  - eapply initialize_good. exact Hinit.
  - destruct (update_then _ _ _ _ _ _ _ _ _ _ IH E1 E2 Hupd) as [Hf _].
    rewrite E1, E2. apply Hf. exact Hfin.
  - destruct (update_then _ _ _ _ _ _ _ _ _ _ IH E1 E2 Hupd) as [_ Hc].
    apply Hc. exact Hcan.
Qed.

(** C4: after [initialize], and after every [update] followed by
    [finish_update] or [cancel_update], for every species the two index
    lists have the same length, a particle index is in the list of a copy
    exactly when the particle of that copy's phialpha is inside the
    subsystem, and the positions of the phibetas are the configurations
    that [swap_positions] builds from the two phialphas by exchanging the
    paired particles. *)
Theorem swapped_invariant ss r1 r2 :
  reachable ss r1 r2 ->
  (forall s, (s < get_N_species r1)%nat ->
     length (copy1_subsystem_indices ss !!! s) = length (copy2_subsystem_indices ss !!! s) /\
     (forall i, i ∈ copy1_subsystem_indices ss !!! s <->
                (i < get_N_filled r1 s)%nat /\
                position_is_within (position r1 (mkParticle i s)) = true) /\
     (forall i, i ∈ copy2_subsystem_indices ss !!! s <->
                (i < get_N_filled r2 s)%nat /\
                position_is_within (position r2 (mkParticle i s)) = true)) /\
  get_positions (phibeta1 ss) =
    (swap_positions (copy1_subsystem_indices ss) (copy2_subsystem_indices ss) r1 r2).1 /\
  get_positions (phibeta2 ss) =
    (swap_positions (copy1_subsystem_indices ss) (copy2_subsystem_indices ss) r1 r2).2.
Proof.
  intros Hreach. apply reachable_good in Hreach as (_ & _ & _ & Hok).
  split; [|apply pairing_ok_swap_positions; exact Hok].
  intros s Hs. destruct Hok as (_ & _ & _ & _ & _ & Hall).
  destruct (Hall s Hs) as (Hlen & _ & [_ Ht1] & [_ Ht2] & _).
  split; [exact Hlen|]. split; [exact Ht1|exact Ht2].
Qed.

(** *** The branch [delta == -1] *)

Lemma update_both_left_case p q d1 d2 r1 r2 phialpha1 phialpha2 ss ss' :
  good ss r1 r2 ->
  get_positions phialpha1 = update_position p d1 r1 ->
  get_positions phialpha2 = update_position q d2 r2 ->
  delta_of (now_in_subsystem (Some p) (get_positions phialpha1))
    (pairing_index_of (Some p) (copy1_subsystem_indices ss)) = -1 ->
  update (Some p) (Some q) phialpha1 phialpha2 ss = Some ss' ->
  species q = species p /\ (species p < length r1)%nat /\
  index p ∈ copy1_subsystem_indices ss !!! species p /\
  index q ∈ copy2_subsystem_indices ss !!! species p /\
  position_is_within d1 = false /\ position_is_within d2 = false /\
  update_both_left p q
    (vector_find (copy1_subsystem_indices ss !!! species p) (index p))
    (vector_find (copy2_subsystem_indices ss !!! species p) (index q))
    false false (update_position p d1 r1) (update_position q d2 r2)
    (remember (-1) (Some p) (Some q) (set_state UPDATE_IN_PROGRESS ss)) = Some ss'.
Proof.
  intros Hgood E1 E2 Hminus H.
  unfold update in H. rewrite E1, E2 in H. rewrite E1 in Hminus.
  clear E1 E2 phialpha1 phialpha2.
  apply BOOST_ASSERT_bind in H as [_ H].
  apply BOOST_ASSERT_bind in H as [_ H].
  apply BOOST_ASSERT_bind in H as [Hv1 H].
  apply BOOST_ASSERT_bind in H as [Hv2 H].
  apply BOOST_ASSERT_bind in H as [_ H].
  apply BOOST_ASSERT_bind in H as [_ H].
  apply BOOST_ASSERT_bind in H as [Hdelta H].
  apply BOOST_ASSERT_bind in H as [Hspecies H].
  apply BOOST_ASSERT_bind in H as [_ H].
  apply BOOST_ASSERT_bind in H as [_ H].
  cbn [copy1_subsystem_indices copy2_subsystem_indices set_state
       moved_to valid_or_null pairing_index_of now_in_subsystem same_species] in *.
  destruct (moved_particle_facts p d1 r1 Hv1) as (Hs1 & Hlt1 & Ed1).
  destruct (moved_particle_facts q d2 r2 Hv2) as (Hs2 & Hlt2 & Ed2).
  rewrite Ed1, Ed2 in *. clear Hv1 Hv2.
  rewrite Hminus in Hdelta, Hspecies, H.
  simpl (_ =? _) in H. cbv iota in H.
  assert (Hpq : species q = species p).
  { simpl in Hspecies. apply Nat.eqb_eq in Hspecies. congruence. }
  rewrite Hpq in *. clear Hspecies.
  apply Z.eqb_eq in Hdelta. symmetry in Hdelta.
  destruct (pairing_index_spec (copy1_subsystem_indices ss !!! species p) (index p))
    as [(Hin1 & _ & Hle1)|(Hin1 & Hpi1)];
  destruct (pairing_index_spec (copy2_subsystem_indices ss !!! species p) (index q))
    as [(Hin2 & _ & Hle2)|(Hin2 & Hpi2)];
  destruct (position_is_within d1) eqn:W1; destruct (position_is_within d2) eqn:W2;
  unfold delta_of in Hdelta, Hminus;
  rewrite ?Hle1, ?Hpi1 in Hminus; rewrite ?Hle2, ?Hpi2 in Hdelta;
  try (vm_compute in Hminus; discriminate);
  try (vm_compute in Hdelta; discriminate).
  repeat (split; [first [assumption|reflexivity]|]). exact H.
Qed.

(** C3, as amended: when [update] is called with [delta = -1] and the two
    pairing indices differ, it exchanges the two particles (the one that
    leaves and the partner of the other one that leaves) within BOTH
    phibetas, and the two slots within the index list of ONE copy (copy 1
    if [pairing_index1 < pairing_index2], copy 2 otherwise), so that both
    leaving particles sit at the slot [max_pair]; it then moves one
    particle on each phibeta, overwrites the slot [max_pair] of both lists
    with their last entry and pops the last slot.  The particles that
    stay keep their partners, except that the two partners left behind
    are paired with each other, and the invariant of the pairing holds for
    the new positions of the phialphas. *)
Theorem both_left_repairs p q d1 d2 r1 r2 phialpha1 phialpha2 ss ss' :
  reachable ss r1 r2 ->
  get_positions phialpha1 = update_position p d1 r1 ->
  get_positions phialpha2 = update_position q d2 r2 ->
  let s := species p in
  let c1_s := copy1_subsystem_indices ss !!! s in
  let c2_s := copy2_subsystem_indices ss !!! s in
  let pairing_index1 := pairing_index_of (Some p) (copy1_subsystem_indices ss) in
  let pairing_index2 := pairing_index_of (Some q) (copy2_subsystem_indices ss) in
  delta_of (now_in_subsystem (Some p) (get_positions phialpha1)) pairing_index1 = -1 ->
  pairing_index1 <> pairing_index2 ->
  update (Some p) (Some q) phialpha1 phialpha2 ss = Some ss' ->
  let i1 := Z.to_nat pairing_index1 in
  let i2 := Z.to_nat pairing_index2 in
  let max_pair := Nat.max i1 i2 in
  let c1_s' := if decide (i1 < i2)%nat then swap_entries i1 i2 c1_s else c1_s in
  let c2_s' := if decide (i1 < i2)%nat then c2_s else swap_entries i1 i2 c2_s in
  c1_s' !!! max_pair = index p /\ c2_s' !!! max_pair = index q /\
  get_positions (phibeta1 ss') =
    get_positions (perform_move [(mkParticle (index p) s, d1)]
                     (swap_particles (c1_s !!! i1) (c1_s !!! i2) s (phibeta1 ss))) /\
  get_positions (phibeta2 ss') =
    get_positions (perform_move [(mkParticle (index q) s, d2)]
                     (swap_particles (c2_s !!! i1) (c2_s !!! i2) s (phibeta2 ss))) /\
  copy1_subsystem_indices ss' =
    <[s := remove_pair max_pair c1_s']> (copy1_subsystem_indices ss) /\
  copy2_subsystem_indices ss' =
    <[s := remove_pair max_pair c2_s']> (copy2_subsystem_indices ss) /\
  (forall i j,
     (i, j) ∈ zip (copy1_subsystem_indices ss' !!! s) (copy2_subsystem_indices ss' !!! s) ->
     (i, j) ∈ zip c1_s c2_s \/ (i = c1_s !!! i2 /\ j = c2_s !!! i1)) /\
  pairing_ok (copy1_subsystem_indices ss') (copy2_subsystem_indices ss')
    (get_positions phialpha1) (get_positions phialpha2)
    (get_positions (phibeta1 ss')) (get_positions (phibeta2 ss')).
Proof.
  intros Hreach E1 E2 s c1_s c2_s pairing_index1 pairing_index2 Hminus Hne Hupd
    i1 i2 max_pair c1_s' c2_s'.
  apply reachable_good in Hreach.
  destruct (update_both_left_case _ _ _ _ _ _ _ _ _ _ Hreach E1 E2 Hminus Hupd)
    as (Hpq & Hs & Hin1 & Hin2 & W1 & W2 & H).
  clear Hminus Hupd.
  subst c1_s' c2_s' max_pair i1 i2 pairing_index1 pairing_index2 c1_s c2_s s.
  cbn [pairing_index_of] in *. rewrite Hpq in *.
  destruct Hreach as (_ & _ & _ & Hok).
  pose proof Hok as (Hc1 & Hc2 & Hr2 & Hb1 & Hb2 & Hall).
  pose proof (Hall _ Hs) as (Hlen & _ & Ht1 & Ht2 & _).
  pose proof (tracks_lt _ _ _ Ht1 Hin1) as Hlt1.
  pose proof (tracks_lt _ _ _ Ht2 Hin2) as Hlt2.
  assert (Ed1 : position (update_position p d1 r1) p = d1).
  { apply position_update_position. unfold particle_is_valid, get_N_species, get_N_filled.
    apply andb_true_iff. split; apply Nat.ltb_lt; assumption. }
  assert (Ed2 : position (update_position q d2 r2) q = d2).
  { apply position_update_position. unfold particle_is_valid, get_N_species, get_N_filled.
    rewrite Hpq. apply andb_true_iff. split; apply Nat.ltb_lt; [lia|assumption]. }
  destruct (vector_find_present _ _ Hin1) as [Hle1 Hk1].
  destruct (vector_find_present _ _ Hin2) as [Hle2 Hk2].
  destruct (update_lists_repaired _ _ _ _ _ _
              (proj1 Ht1) (proj1 Ht2) Hlen Hk1 Hk2) as (HC1 & HC2 & _ & _ & Hrep).
  apply update_both_left_inv in H.
  cbn [copy1_subsystem_indices copy2_subsystem_indices remember set_state
       phibeta1 phibeta2 current_state recent_delta recent_particle1 recent_particle2
       default] in H.
  rewrite Ed1, Ed2 in H.
  destruct H as (Ec1 & Ec2 & Ef1 & Ef2 & _).
  pose proof (pairing_ok_both_left _ _ _ _ _ _ p q d1 d2 Hok Hpq Hs Hin1 Hin2 W1 W2)
    as (_ & _ & Hfin & _).
  set (s := species p) in *.
  set (c1_s := copy1_subsystem_indices ss !!! s) in *.
  set (c2_s := copy2_subsystem_indices ss !!! s) in *.
  set (i1 := Z.to_nat (vector_find c1_s (index p))) in *.
  set (i2 := Z.to_nat (vector_find c2_s (index q))) in *.
  set (max_pair := Nat.max i1 i2) in *.
  assert (Hi : i1 <> i2) by (unfold i1, i2; lia).
  assert (EC2 : (if decide (i2 < i1)%nat then swap_entries i1 i2 c2_s else c2_s) =
                (if decide (i1 < i2)%nat then c2_s else swap_entries i1 i2 c2_s)).
  { destruct (decide (i2 < i1)%nat), (decide (i1 < i2)%nat); try reflexivity; lia. }
  rewrite EC2 in HC2, Hrep, Ec2, Ef2, Hfin. clear EC2.
  set (c1_s' := if decide (i1 < i2)%nat then swap_entries i1 i2 c1_s else c1_s) in *.
  set (c2_s' := if decide (i1 < i2)%nat then c2_s else swap_entries i1 i2 c2_s) in *.
  apply list_lookup_total_correct in HC1. apply list_lookup_total_correct in HC2.
  rewrite HC1 in Ef1. rewrite HC2 in Ef2.
  rewrite !perform_move_positions, !swap_particles_positions.
  split; [exact HC1|]. split; [exact HC2|]. split; [exact Ef1|]. split; [exact Ef2|].
  split; [exact Ec1|]. split; [exact Ec2|]. split.
  - intros i j Hin. rewrite Ec1, Ec2 in Hin.
    rewrite !list_lookup_total_insert_eq in Hin by lia.
    destruct Hrep as (_ & _ & _ & _ & _ & Hz). apply Hz. exact Hin.
  - rewrite E1, E2, Ec1, Ec2, Ef1, Ef2.
    apply list_lookup_total_correct in Hk1. apply list_lookup_total_correct in Hk2.
    rewrite (update_position_insert (mkParticle (index p) s)). cbn [species index mkParticle].
    rewrite list_lookup_total_insert_eq, list_insert_insert_eq by lia.
    rewrite (update_position_insert (mkParticle (index q) s)). cbn [species index mkParticle].
    rewrite list_lookup_total_insert_eq, list_insert_insert_eq by lia.
    fold i1 in Hk1. fold i2 in Hk2. rewrite Hk1, Hk2. exact Hfin.
Qed.

(** *** verify_phibetas *)

Lemma count_found (c : list nat) (v : list Z) :
  tracks c v ->
  length (filter (fun i => vector_find c i <> -1) (seq 0 (length v))) = length c.
Proof.
  intros Ht. apply Permutation_length. apply NoDup_Permutation.
  - apply NoDup_filter, NoDup_seq.
  - apply Ht.
  - intros i. rewrite list_elem_of_filter, elem_of_seq. split.
    + intros [Hne _]. destruct (decide (i ∈ c)) as [Hin|Hnot]; [exact Hin|].
      exfalso. apply Hne. apply vector_find_absent. exact Hnot.
    + intros Hin. pose proof (tracks_lt _ _ _ Ht Hin).
      destruct (vector_find_present _ _ Hin) as [Hle _]. split; lia.
Qed.

Lemma found_iff_inside (c : list nat) (v : list Z) (i : nat) :
  tracks c v -> (i < length v)%nat ->
  eqb (negb (vector_find c i =? -1)) (position_is_within (v !!! i)) = true.
Proof.
  intros [_ Hiff] Hi.
  destruct (pairing_index_spec c i) as [(Hin & Hle & _)|(Hnot & ->)].
  - destruct (Z.eqb_spec (vector_find c i) (-1)) as [E|_]; [lia|].
    apply Hiff in Hin as [_ ->]. reflexivity.
  - destruct (position_is_within (v !!! i)) eqn:W; [|reflexivity].
    exfalso. apply Hnot, Hiff. auto.
Qed.

Lemma verify_species_ok c1 c2 v1 v2 f1 f2 :
  species_ok c1 c2 v1 v2 f1 f2 -> verify_species c1 c2 v1 v2 = true.
Proof.
  intros (Hc & Hv & Ht1 & Ht2 & _). unfold verify_species.
  pose proof (count_found c1 v1 Ht1) as K1.
  pose proof (count_found c2 v2 Ht2) as K2. rewrite <- Hv in K2.
  rewrite K1, K2.
  rewrite (proj2 (Nat.eqb_eq _ _) Hv), (proj2 (Nat.eqb_eq _ _) Hc), !Nat.eqb_refl.
  simpl. rewrite andb_true_r.
  apply forallb_forall. intros i Hi. apply in_seq in Hi.
  rewrite (found_iff_inside c1 v1 i Ht1), (found_iff_inside c2 v2 i Ht2) by lia.
  reflexivity.
Qed.

(** X16: the assertions of [verify_phibetas] hold in every state of a
    run: called with the two phialphas after [initialize], or after an
    [update] followed by [finish_update] or [cancel_update], it fails none
    of them. *)
Lemma reachable_verify_phibetas ss phialpha1 phialpha2 :
  reachable ss (get_positions phialpha1) (get_positions phialpha2) ->
  verify_phibetas phialpha1 phialpha2 ss = true.
Proof.
  intros Hreach. apply reachable_good in Hreach as (_ & _ & _ & Hok).
  destruct (pairing_ok_swap_positions _ _ _ _ _ _ Hok) as [E1 E2].
  destruct Hok as (Hc1 & Hc2 & Hr2 & Hb1 & Hb2 & Hall).
  unfold verify_phibetas, get_N_species, get_N_filled.
  rewrite <- E1, <- E2, Hc1, Hc2, Hr2, !Nat.eqb_refl. simpl.
  apply andb_true_iff. split.
  - apply forallb_forall. intros s Hs. apply in_seq in Hs.
    eapply verify_species_ok. apply Hall. lia.
  - apply forallb_forall. intros s _. apply forallb_forall. intros i _.
    rewrite !Z.eqb_refl. reflexivity.
Qed.

(** *** count_subsystem_particle_counts_for_match *)

(** The inner loop: [if (subsystem.position_is_within (r[particle], ...))
    ++count;] over the particles [i < N] of one species. *)
Definition count_within (N : nat) (v : list Z) : nat :=
  fold_left (fun count i => if position_is_within (v !!! i) then S count else count)
    (seq 0 N) 0%nat.

(** The loop over the species; it returns false at the first species whose
    counts differ. *)
Fixpoint counts_for_match_loop (vs : list (list Z * list Z)) : option bool :=
  match vs with
  | [] => Some true
  | (v1, v2) :: rest =>
      BOOST_ASSERT (length v1 =? length v2)%nat ;;
      if negb (count_within (length v1) v1 =? count_within (length v1) v2)%nat
      then Some false
      else counts_for_match_loop rest
  end.

(** [count_subsystem_particle_counts_for_match (wf1, wf2, subsystem)]; as
    for [initialize], the assertions on the lattice and on the number of
    sites are about what the model leaves out. *)
Definition count_subsystem_particle_counts_for_match (wf1 wf2 : Amplitude) : option bool :=
  let r1 := get_positions wf1 in
  let r2 := get_positions wf2 in
  BOOST_ASSERT (get_N_species r1 =? get_N_species r2)%nat ;;
  counts_for_match_loop (zip r1 r2).

Lemma count_within_length N v : count_within N v = length (indices_within N v).
Proof.
  unfold count_within, indices_within.
  assert (H : forall l acc,
            fold_left (fun count i => if position_is_within (v !!! i) then S count else count)
              l acc =
            (acc + length (filter (fun i => position_is_within (v !!! i) = true) l))%nat).
  { induction l as [|i l IH]; intros acc; [simpl; lia|].
    cbn [fold_left]. rewrite IH, filter_cons.
    destruct (position_is_within (v !!! i)).
    - rewrite decide_True by reflexivity. simpl. lia.
    - rewrite decide_False by discriminate. reflexivity. }
  rewrite H. reflexivity.
Qed.

Lemma counts_for_match_loop_spec (vs : list (list Z * list Z)) :
  Forall (fun v => length v.1 = length v.2) vs ->
  counts_for_match_loop vs =
  Some (forallb (fun v => (count_within (length v.1) v.1 =?
                           count_within (length v.1) v.2)%nat) vs).
Proof.
  induction 1 as [|[v1 v2] vs Hv _ IH]; [reflexivity|].
  cbn [counts_for_match_loop forallb fst snd] in *.
  rewrite (proj2 (Nat.eqb_eq _ _) Hv). cbn [BOOST_ASSERT mbind option_bind].
  destruct (count_within (length v1) v1 =? count_within (length v1) v2)%nat;
    [exact IH|reflexivity].
Qed.

(** [initialize] on a fresh system, when the fillings agree: it goes
    through exactly when the index lists it builds have the same lengths. *)
Lemma initialize_fresh phialpha1 phialpha2 :
  let r1 := get_positions phialpha1 in
  let r2 := get_positions phialpha2 in
  same_fillings r1 r2 = true ->
  is_Some (initialize phialpha1 phialpha2 mkSwappedSystem) <->
  forallb (fun c : list nat * list nat => (length c.1 =? length c.2)%nat)
    (zip (map (fun v1 => indices_within (length v1) v1) r1)
         (imap (fun s v1 => indices_within (length v1) (r2 !!! s)) r1)) = true.
Proof.
  intros r1 r2 Hsame. unfold initialize. fold r1 r2. rewrite Hsame.
  cbn [mkSwappedSystem current_state State_eqb BOOST_ASSERT mbind option_bind].
  unfold reinitialize_phibetas, assert_counts_match, subsystem_particle_counts_match.
  cbn [copy1_subsystem_indices copy2_subsystem_indices].
  rewrite length_map, length_imap, Nat.eqb_refl.
  cbn [BOOST_ASSERT mbind option_bind].
  destruct (forallb _ _); cbn [BOOST_ASSERT mbind option_bind].
  - split; [reflexivity|]. intros _. eexists. reflexivity.
  - split; [|discriminate]. intros [x Hx]. discriminate.
Qed.

(** X15: [count_subsystem_particle_counts_for_match] tells beforehand
    whether a swapped system can be set up: for two amplitudes with the
    same fillings it returns true exactly when [initialize] on a fresh
    system fails none of its assertions. *)
Theorem counts_match_iff_initialize (phialpha1 phialpha2 : Amplitude) :
  same_fillings (get_positions phialpha1) (get_positions phialpha2) = true ->
  count_subsystem_particle_counts_for_match phialpha1 phialpha2 = Some true <->
  is_Some (initialize phialpha1 phialpha2 mkSwappedSystem).
Proof.
  intros Hsame. rewrite (initialize_fresh phialpha1 phialpha2 Hsame).
  set (r1 := get_positions phialpha1) in *. set (r2 := get_positions phialpha2) in *.
  destruct (same_fillings_inv r1 r2 Hsame) as [Hlen Hfill].
  unfold count_subsystem_particle_counts_for_match. fold r1 r2.
  unfold get_N_species. rewrite Hlen, Nat.eqb_refl.
  cbn [BOOST_ASSERT mbind option_bind].
  rewrite counts_for_match_loop_spec.
  2:{ apply Forall_forall. intros [v1 v2] Hin. apply elem_of_lookup_zip_with in Hin.
      destruct Hin as (i & x & y & [= <- <-] & Hx & Hy). cbn [fst snd].
      apply lookup_lt_Some in Hx as Hi.
      rewrite <- (list_lookup_total_correct _ _ _ Hx), <- (list_lookup_total_correct _ _ _ Hy).
      now apply Hfill. }
  change (map (fun v1 : list Z => indices_within (length v1) v1) r1)
    with ((fun v1 : list Z => indices_within (length v1) v1) <$> r1).
  split.
  - intros [= Hall]. apply forallb_zip_intro. intros i x y Hx Hy. cbn [fst snd].
    rewrite list_lookup_fmap in Hx. rewrite list_lookup_imap in Hy.
    destruct (r1 !! i) as [v1|] eqn:E1; [|discriminate].
    cbn in Hx, Hy. injection Hx as <-. injection Hy as <-.
    apply lookup_lt_Some in E1 as Hi.
    assert (Hi2 : (i < length r2)%nat) by lia.
    pose proof (forallb_zip_lookup _ _ _ Hall i v1 (r2 !!! i) E1
                  (list_lookup_lookup_total_lt r2 i Hi2)) as Hc.
    cbn [fst snd] in Hc. now rewrite !count_within_length in Hc.
  - intros Hall. f_equal. apply forallb_zip_intro. intros i v1 v2 E1 E2. cbn [fst snd].
    rewrite !count_within_length.
    pose proof (forallb_zip_lookup _ _ _ Hall i
                  (indices_within (length v1) v1) (indices_within (length v1) (r2 !!! i)))
      as Hc.
    rewrite (list_lookup_total_correct _ _ _ E2) in Hc. apply Hc.
    + rewrite list_lookup_fmap, E1. reflexivity.
    + rewrite list_lookup_imap, E1. cbn.
      now rewrite (list_lookup_total_correct _ _ _ E2).
Qed.

(** *** No assertion fails on moves that keep the counts equal *)

Definition counts_equal (c1 c2 : list (list nat)) : Prop :=
  length c1 = length c2 /\
  forall s, (s < length c1)%nat -> length (c1 !!! s) = length (c2 !!! s).

Lemma assert_counts_match_intro ss :
  counts_equal (copy1_subsystem_indices ss) (copy2_subsystem_indices ss) ->
  assert_counts_match ss = Some tt.
Proof.
  intros [Hlen Hall]. unfold assert_counts_match, subsystem_particle_counts_match.
  rewrite (proj2 (Nat.eqb_eq _ _) Hlen). cbn [BOOST_ASSERT mbind option_bind].
  rewrite forallb_zip_intro; [reflexivity|].
  intros s x y Hx Hy. cbn [fst snd]. apply Nat.eqb_eq.
  apply lookup_lt_Some in Hx as Hs.
  rewrite <- (list_lookup_total_correct _ _ _ Hx), <- (list_lookup_total_correct _ _ _ Hy).
  now apply Hall.
Qed.

Lemma pairing_ok_counts_equal c1 c2 r1 r2 b1 b2 :
  pairing_ok c1 c2 r1 r2 b1 b2 -> counts_equal c1 c2.
Proof.
  intros (Hc1 & Hc2 & _ & _ & _ & Hall). split; [congruence|].
  intros s Hs. apply Hall. lia.
Qed.

Lemma counts_equal_insert c1 c2 s L1 L2 :
  counts_equal c1 c2 -> length L1 = length L2 ->
  counts_equal (<[s := L1]> c1) (<[s := L2]> c2).
Proof.
  intros [Hlen Hall] HL. split; [now rewrite !length_insert|].
  intros s' Hs'. rewrite length_insert in Hs'.
  destruct (decide (s = s')) as [<-|Hne].
  - rewrite !list_lookup_total_insert_eq by lia. exact HL.
  - rewrite !list_lookup_total_insert_ne by exact Hne. now apply Hall.
Qed.

(** A swapped system in the middle of an update that [finish_update] and
    [cancel_update] accept. *)
Definition in_progress (delta : Z) (ss : SwappedSystem) : Prop :=
  current_state ss = UPDATE_IN_PROGRESS /\
  counts_equal (copy1_subsystem_indices ss) (copy2_subsystem_indices ss) /\
  recent_delta ss = delta /\
  (delta <> 0 -> species (recent_particle1 ss) = species (recent_particle2 ss)).

Lemma in_progress_finish delta ss : in_progress delta ss -> is_Some (finish_update ss).
Proof.
  intros (Hst & Hcounts & _). unfold finish_update. rewrite Hst.
  cbn [State_eqb BOOST_ASSERT mbind option_bind].
  rewrite assert_counts_match_intro by exact Hcounts. cbn [mbind option_bind]. eauto.
Qed.

Lemma in_progress_cancel delta ss :
  delta = -1 \/ delta = 0 \/ delta = 1 -> in_progress delta ss ->
  is_Some (cancel_update ss).
Proof.
  intros Hdelta (Hst & Hcounts & Hrecent & Hspecies). unfold cancel_update. rewrite Hst.
  cbn [State_eqb BOOST_ASSERT mbind option_bind].
  rewrite assert_counts_match_intro by exact Hcounts. cbn [mbind option_bind].
  cbn [recent_delta with_phibetas set_state recent_particle1 recent_particle2].
  rewrite Hrecent.
  destruct Hdelta as [-> | [-> | ->]]; cbn [Z.eqb negb]; eauto.
  - rewrite Hspecies by discriminate. rewrite Nat.eqb_refl.
    cbn [BOOST_ASSERT mbind option_bind Z.eqb]. eauto.
  - rewrite Hspecies by discriminate. rewrite Nat.eqb_refl.
    cbn [BOOST_ASSERT mbind option_bind Z.eqb]. eauto.
Qed.

Lemma BOOST_ASSERT_pass {A} (b : bool) (k : option A) :
  b = true -> (BOOST_ASSERT b ;; k) = k.
Proof. intros ->. reflexivity. Qed.

Lemma pairing_ok_same_fillings c1 c2 r1 r2 b1 b2 particle1 particle2 d1 d2 :
  pairing_ok c1 c2 r1 r2 b1 b2 ->
  same_fillings (moved_to particle1 d1 r1) (moved_to particle2 d2 r2) = true.
Proof.
  intros (_ & _ & Hr2 & _ & _ & Hall).
  assert (Hlen : forall particle d (r : PositionArguments),
            length (moved_to particle d r) = length r /\
            forall s, length (moved_to particle d r !!! s) = length (r !!! s)).
  { intros [p0|] d r; [|now split]. cbn [moved_to]. rewrite update_position_insert.
    split; [apply length_insert|]. intros s.
    destruct (decide (species p0 = s)) as [<-|Hne].
    - destruct (decide (species p0 < length r)%nat) as [Hlt|Hge].
      + rewrite list_lookup_total_insert_eq by exact Hlt. apply length_insert.
      + rewrite list_insert_ge by lia. reflexivity.
    - now rewrite list_lookup_total_insert_ne. }
  destruct (Hlen particle1 d1 r1) as [E1 F1]. destruct (Hlen particle2 d2 r2) as [E2 F2].
  unfold same_fillings, get_N_species. rewrite E1, E2, Hr2, Nat.eqb_refl. cbn [andb].
  apply forallb_zip_intro. intros s x y Hx Hy. cbn [fst snd]. apply Nat.eqb_eq.
  apply lookup_lt_Some in Hx as Hs. rewrite E1 in Hs.
  rewrite <- (list_lookup_total_correct _ _ _ Hx), <- (list_lookup_total_correct _ _ _ Hy).
  rewrite F1, F2. apply Hall. exact Hs.
Qed.

Lemma valid_or_null_moved particle d r :
  valid_or_null particle r = true -> valid_or_null particle (moved_to particle d r) = true.
Proof.
  destruct particle as [p0|]; [|reflexivity]. cbn [valid_or_null moved_to].
  now rewrite particle_is_valid_update_position.
Qed.

(** The pairing index and the difference that [update] computes for one
    copy: a particle that is not moved counts 0; a moved one counts 1 when
    it enters the subsystem, -1 when it leaves it, and 0 otherwise. *)
Lemma delta_of_cases (particle : option Particle) (c : list (list nat)) (now_in : bool) :
  let pairing_index := pairing_index_of particle c in
  (delta_of now_in pairing_index = 1 /\ now_in = true /\ (0 <=? pairing_index) = false) \/
  (delta_of now_in pairing_index = -1 /\ now_in = false /\ (0 <=? pairing_index) = true) \/
  (delta_of now_in pairing_index = 0).
Proof.
  intros pairing_index. unfold delta_of.
  destruct now_in, (0 <=? pairing_index); auto.
Qed.

Lemma update_in_progress particle1 particle2 d1 d2 r1 r2 phialpha1 phialpha2 ss :
  good ss r1 r2 ->
  get_positions phialpha1 = moved_to particle1 d1 r1 ->
  get_positions phialpha2 = moved_to particle2 d2 r2 ->
  valid_or_null particle1 r1 = true ->
  valid_or_null particle2 r2 = true ->
  let delta1 := delta_of (now_in_subsystem particle1 (get_positions phialpha1))
                  (pairing_index_of particle1 (copy1_subsystem_indices ss)) in
  let delta2 := delta_of (now_in_subsystem particle2 (get_positions phialpha2))
                  (pairing_index_of particle2 (copy2_subsystem_indices ss)) in
  delta1 = delta2 ->
  (delta1 <> 0 -> same_species particle1 particle2 = true) ->
  (delta1 = 0 -> particle1 = None \/ particle2 = None) ->
  exists ss', update particle1 particle2 phialpha1 phialpha2 ss = Some ss' /\
              in_progress delta1 ss' /\ (delta1 = -1 \/ delta1 = 0 \/ delta1 = 1).
Proof.
  intros Hgood E1 E2 Hv1 Hv2 delta1 delta2 Hdelta Hspecies Hone.
  pose proof Hgood as (Hst & Hdirty1 & Hdirty2 & Hok).
  pose proof (pairing_ok_counts_equal _ _ _ _ _ _ Hok) as Hcounts.
  unfold update. rewrite Hst. cbn [State_eqb].
  rewrite BOOST_ASSERT_pass by reflexivity.
  rewrite BOOST_ASSERT_pass
    by (rewrite E1, E2; eapply pairing_ok_same_fillings; exact Hok).
  rewrite BOOST_ASSERT_pass by (rewrite E1; apply valid_or_null_moved; exact Hv1).
  rewrite BOOST_ASSERT_pass by (rewrite E2; apply valid_or_null_moved; exact Hv2).
  cbn [copy1_subsystem_indices copy2_subsystem_indices set_state].
  fold delta1 delta2.
  set (now1 := now_in_subsystem particle1 (get_positions phialpha1)) in *.
  set (now2 := now_in_subsystem particle2 (get_positions phialpha2)) in *.
  pose proof (delta_of_cases particle1 (copy1_subsystem_indices ss) now1) as C1.
  pose proof (delta_of_cases particle2 (copy2_subsystem_indices ss) now2) as C2.
  cbv zeta in C1, C2.
  set (pairing_index1 := pairing_index_of particle1 (copy1_subsystem_indices ss)) in *.
  set (pairing_index2 := pairing_index_of particle2 (copy2_subsystem_indices ss)) in *.
  fold delta1 in C1. fold delta2 in C2. rewrite <- Hdelta in C2 |- *.
  clear Hdelta delta2. clearbody delta1.
  destruct particle1 as [p|], particle2 as [q|].
  - assert (Hs2 : (species q < length (copy1_subsystem_indices ss))%nat).
    { destruct Hok as (-> & _ & <- & _). cbn [valid_or_null] in Hv2.
      apply particle_is_valid_inv in Hv2. apply Hv2. }
    assert (Hn0 : delta1 <> 0) by (intros E; destruct (Hone E); discriminate).
    specialize (Hspecies Hn0). cbn [same_species] in Hspecies.
    apply Nat.eqb_eq in Hspecies.
    destruct C1 as [(D1 & N1 & P1) | [(D1 & N1 & P1) | D1]]; [| |contradiction].
    + destruct C2 as [(_ & N2 & P2) | [(D2 & _) | D2]]; [|lia|lia].
      assert (Hnew : counts_equal
                (<[species q := copy1_subsystem_indices ss !!! species q ++ [index p]]>
                   (copy1_subsystem_indices ss))
                (<[species q := copy2_subsystem_indices ss !!! species q ++ [index q]]>
                   (copy2_subsystem_indices ss))).
      { apply counts_equal_insert; [exact Hcounts|]. rewrite !length_app. cbn [length].
        destruct Hcounts as [_ HA]. rewrite HA by exact Hs2. reflexivity. }
      cbn [same_species]. rewrite D1, N1, N2, Hspecies, Nat.eqb_refl.
      cbn. rewrite Hspecies.
      rewrite assert_counts_match_intro by exact Hnew.
      rewrite Hdirty2. cbn. rewrite Hdirty1. cbn.
      eexists. split; [reflexivity|]. split; [|auto].
      split; [reflexivity|]. cbn. split; [exact Hnew|].
      split; [reflexivity|]. intros _. exact Hspecies.
    + destruct C2 as [(D2 & _) | [(_ & N2 & P2) | D2]]; [lia| |lia].
      cbn [same_species]. rewrite D1, N1, N2, Hspecies, Nat.eqb_refl.
      subst pairing_index1 pairing_index2. cbn [pairing_index_of] in P1, P2 |- *.
      cbn [orb negb andb bool_decide BOOST_ASSERT mbind option_bind Z.eqb Pos.eqb].
      unfold update_both_left. rewrite P1, P2.
      cbn [phibeta1_dirty phibeta2_dirty remember set_state]. rewrite Hdirty1, Hdirty2.
      cbn [orb negb andb BOOST_ASSERT mbind option_bind].
      eexists. split; [reflexivity|]. split; [|auto].
      split; [reflexivity|]. cbn. rewrite ?Hspecies.
      split; [|split; [reflexivity|intros _; reflexivity]].
      apply counts_equal_insert; [exact Hcounts|]. rewrite !length_remove_pair.
      destruct Hcounts as [_ HA]. specialize (HA _ Hs2).
      repeat match goal with |- context [if ?b then _ else _] => destruct b end;
        rewrite ?length_swap_entries, HA; reflexivity.
  - assert (D0 : delta1 = 0).
    { destruct C2 as [(_ & N & _)|[(_ & _ & P)|D]];
        [discriminate N|discriminate P|exact D]. }
    subst delta1. cbn.
    rewrite assert_counts_match_intro by exact Hcounts. cbn.
    destruct (position_is_within (position (get_positions phialpha1) p)); cbn;
      rewrite ?Hdirty1, ?Hdirty2; cbn;
      (eexists; split; [reflexivity|]; split; [|auto]; split; [reflexivity|]; cbn;
       split; [exact Hcounts|]; split; [reflexivity|]; intros E; now destruct E).
  - assert (D0 : delta1 = 0).
    { destruct C1 as [(_ & N & _)|[(_ & _ & P)|D]];
        [discriminate N|discriminate P|exact D]. }
    subst delta1. cbn.
    rewrite assert_counts_match_intro by exact Hcounts. cbn.
    destruct (position_is_within (position (get_positions phialpha2) q)); cbn;
      rewrite ?Hdirty1, ?Hdirty2; cbn;
      (eexists; split; [reflexivity|]; split; [|auto]; split; [reflexivity|]; cbn;
       split; [exact Hcounts|]; split; [reflexivity|]; intros E; now destruct E).
  - assert (D0 : delta1 = 0).
    { destruct C1 as [(_ & N & _)|[(_ & _ & P)|D]];
        [discriminate N|discriminate P|exact D]. }
    subst delta1. cbn.
    rewrite assert_counts_match_intro by exact Hcounts. cbn.
    rewrite ?Hdirty1, ?Hdirty2; cbn;
      (eexists; split; [reflexivity|]; split; [|auto]; split; [reflexivity|]; cbn;
       split; [exact Hcounts|]; split; [reflexivity|]; intros E; now destruct E).
Qed.

(** X25: on a swapped system at rest whose data are consistent with the
    positions [r1], [r2], [update] passes every assertion when each given
    particle is a valid one that was moved on its phialpha, the two moves
    change the number of particles inside the subsystem by the same
    amount, the species agree when that amount is not zero, and only one
    particle is given when it is zero; the system it leaves is accepted by
    [finish_update] and by [cancel_update]. *)
Theorem update_never_aborts particle1 particle2 d1 d2 r1 r2 phialpha1 phialpha2 ss :
  good ss r1 r2 ->
  get_positions phialpha1 = moved_to particle1 d1 r1 ->
  get_positions phialpha2 = moved_to particle2 d2 r2 ->
  valid_or_null particle1 r1 = true ->
  valid_or_null particle2 r2 = true ->
  let delta1 := delta_of (now_in_subsystem particle1 (get_positions phialpha1))
                  (pairing_index_of particle1 (copy1_subsystem_indices ss)) in
  let delta2 := delta_of (now_in_subsystem particle2 (get_positions phialpha2))
                  (pairing_index_of particle2 (copy2_subsystem_indices ss)) in
  delta1 = delta2 ->
  (delta1 <> 0 -> same_species particle1 particle2 = true) ->
  (delta1 = 0 -> particle1 = None \/ particle2 = None) ->
  exists ss', update particle1 particle2 phialpha1 phialpha2 ss = Some ss' /\
              is_Some (finish_update ss') /\ is_Some (cancel_update ss').
Proof.
  intros Hgood E1 E2 Hv1 Hv2 delta1 delta2 Hdelta Hspecies Hone.
  destruct (update_in_progress particle1 particle2 d1 d2 r1 r2 phialpha1 phialpha2 ss
              Hgood E1 E2 Hv1 Hv2 Hdelta Hspecies Hone) as (ss' & Hupd & Hin & Hrange).
  exists ss'. split; [exact Hupd|]. split.
  - eapply in_progress_finish. exact Hin.
  - eapply in_progress_cancel; [exact Hrange|exact Hin].
Qed.

End SwappedSystem.

(** *** A run on three particles of one species *)

(** The subsystem holds the sites 0, 1 and 2. *)
Definition inside3 (z : Z) : bool := z <? 3.

Definition amplitude_at (r : list (list Z)) : Amplitude :=
  {| positions := r; move_in_progress := None |}.

(** After [initialize] with the particles of copy 1 on the sites 0, 1, 2
    and those of copy 2 on the sites 2, 1, 0. *)
Definition example_initialized : SwappedSystem :=
  {| copy1_subsystem_indices := [[0; 1; 2]%nat];
     copy2_subsystem_indices := [[0; 1; 2]%nat];
     phibeta1 := amplitude_at [[2; 1; 0]];
     phibeta2 := amplitude_at [[0; 1; 2]];
     phibeta1_dirty := false; phibeta2_dirty := false;
     current_state := READY;
     recent_delta := 0;
     recent_particle1 := mkParticle 0 0;
     recent_particle2 := mkParticle 0 0 |}.

(** After the particle 0 of copy 1 went to the site 7 and the particle 1
    of copy 2 to the site 8, and [update]. *)
Definition example_updated : SwappedSystem :=
  {| copy1_subsystem_indices := [[1; 2]%nat];
     copy2_subsystem_indices := [[0; 2]%nat];
     phibeta1 := {| positions := [[7; 2; 0]]; move_in_progress := Some [[1; 2; 0]] |};
     phibeta2 := {| positions := [[1; 8; 2]]; move_in_progress := Some [[1; 0; 2]] |};
     phibeta1_dirty := true; phibeta2_dirty := true;
     current_state := UPDATE_IN_PROGRESS;
     recent_delta := -1;
     recent_particle1 := mkParticle 0 0;
     recent_particle2 := mkParticle 1 0 |}.

(** After [finish_update]. *)
Definition example_finished : SwappedSystem :=
  {| copy1_subsystem_indices := [[1; 2]%nat];
     copy2_subsystem_indices := [[0; 2]%nat];
     phibeta1 := amplitude_at [[7; 2; 0]];
     phibeta2 := amplitude_at [[1; 8; 2]];
     phibeta1_dirty := false; phibeta2_dirty := false;
     current_state := READY;
     recent_delta := -1;
     recent_particle1 := mkParticle 0 0;
     recent_particle2 := mkParticle 1 0 |}.

Lemma example_initialized_reachable :
  reachable inside3 example_initialized [[0; 1; 2]] [[2; 1; 0]].
Proof.
  apply (reachable_initialize inside3 (amplitude_at [[0; 1; 2]]) (amplitude_at [[2; 1; 0]])).
  reflexivity.
Qed.

Lemma example_update :
  update inside3 (Some (mkParticle 0 0)) (Some (mkParticle 1 0))
    (amplitude_at [[7; 1; 2]]) (amplitude_at [[2; 8; 0]]) example_initialized =
  Some example_updated.
Proof. reflexivity. Qed.

Lemma swapped_invariant_witness :
  reachable inside3 example_finished [[7; 1; 2]] [[2; 8; 0]] /\
  (forall s, (s < 1)%nat ->
     length (copy1_subsystem_indices example_finished !!! s) =
     length (copy2_subsystem_indices example_finished !!! s) /\
     (forall i, i ∈ copy1_subsystem_indices example_finished !!! s <->
                (i < get_N_filled [[7; 1; 2]]%Z s)%nat /\
                inside3 (position [[7; 1; 2]] (mkParticle i s)) = true) /\
     (forall i, i ∈ copy2_subsystem_indices example_finished !!! s <->
                (i < get_N_filled [[2; 8; 0]]%Z s)%nat /\
                inside3 (position [[2; 8; 0]] (mkParticle i s)) = true)) /\
  get_positions (phibeta1 example_finished) =
    (swap_positions [[1; 2]%nat] [[0; 2]%nat] [[7; 1; 2]] [[2; 8; 0]]).1 /\
  get_positions (phibeta2 example_finished) =
    (swap_positions [[1; 2]%nat] [[0; 2]%nat] [[7; 1; 2]] [[2; 8; 0]]).2.
Proof.
  assert (Hreach : reachable inside3 example_finished [[7; 1; 2]] [[2; 8; 0]]).
  { apply (reachable_finish inside3 example_initialized [[0; 1; 2]] [[2; 1; 0]]
             (Some (mkParticle 0 0)) (Some (mkParticle 1 0)) 7 8
             (amplitude_at [[7; 1; 2]]) (amplitude_at [[2; 8; 0]])
             example_updated example_finished).
    - exact example_initialized_reachable.
    - reflexivity.
    - reflexivity.
    - exact example_update.
    - reflexivity. }
  split; [exact Hreach|].
  exact (swapped_invariant inside3 example_finished [[7; 1; 2]] [[2; 8; 0]] Hreach).
Defined.

Lemma both_left_repairs_witness :
  let p := mkParticle 0 0 in
  let q := mkParticle 1 0 in
  reachable inside3 example_initialized [[0; 1; 2]] [[2; 1; 0]] /\
  delta_of (now_in_subsystem inside3 (Some p) [[7; 1; 2]])
    (pairing_index_of (Some p) (copy1_subsystem_indices example_initialized)) = -1 /\
  pairing_index_of (Some p) (copy1_subsystem_indices example_initialized) <>
  pairing_index_of (Some q) (copy2_subsystem_indices example_initialized) /\
  update inside3 (Some p) (Some q) (amplitude_at [[7; 1; 2]]) (amplitude_at [[2; 8; 0]])
    example_initialized = Some example_updated /\
  pairing_ok inside3 [[1; 2]%nat] [[0; 2]%nat] [[7; 1; 2]] [[2; 8; 0]]
    [[7; 2; 0]] [[1; 8; 2]].
Proof.
  intros p q.
  assert (Hminus : delta_of (now_in_subsystem inside3 (Some p) [[7; 1; 2]])
                     (pairing_index_of (Some p)
                        (copy1_subsystem_indices example_initialized)) = -1)
    by reflexivity.
  assert (Hne : pairing_index_of (Some p) (copy1_subsystem_indices example_initialized) <>
                pairing_index_of (Some q) (copy2_subsystem_indices example_initialized))
    by (vm_compute; discriminate).
  split; [exact example_initialized_reachable|]. split; [exact Hminus|].
  split; [exact Hne|]. split; [exact example_update|].
  exact (proj2 (proj2 (proj2 (proj2 (proj2 (proj2 (proj2
           (both_left_repairs inside3 p q 7 8 [[0; 1; 2]] [[2; 1; 0]]
              (amplitude_at [[7; 1; 2]]) (amplitude_at [[2; 8; 0]])
              example_initialized example_updated
              example_initialized_reachable eq_refl eq_refl Hminus Hne
              example_update)))))))).
Defined.

(** C3 as stated fails: on this run the slots of the two leaving
    particles are 0 and 1 (of 3).  The procedure of the specification
    exchanges within [phibeta1] and the list of copy 1 only and pops the
    last slot, which leaves the particle 0 of copy 1 in its list although
    it is outside the subsystem, and [phibeta2] without the exchange; the
    code exchanges within both phibetas and removes the slot 1. *)
Lemma update_as_specified_counterexample :
  let p := mkParticle 0 0 in
  let q := mkParticle 1 0 in
  let specified :=
    update_both_left_as_specified p q 0 1 [[7; 1; 2]] [[2; 8; 0]]
      (remember (-1) (Some p) (Some q)
         (set_state UPDATE_IN_PROGRESS example_initialized)) in
  reachable inside3 example_initialized [[0; 1; 2]] [[2; 1; 0]] /\
  pairing_index_of (Some p) (copy1_subsystem_indices example_initialized) = 0 /\
  pairing_index_of (Some q) (copy2_subsystem_indices example_initialized) = 1 /\
  delta_of (now_in_subsystem inside3 (Some p) [[7; 1; 2]]) 0 = -1 /\
  update inside3 (Some p) (Some q) (amplitude_at [[7; 1; 2]]) (amplitude_at [[2; 8; 0]])
    example_initialized = Some example_updated /\
  copy1_subsystem_indices specified = [[1; 0]%nat] /\
  copy1_subsystem_indices example_updated = [[1; 2]%nat] /\
  copy2_subsystem_indices specified = [[0; 1]%nat] /\
  copy2_subsystem_indices example_updated = [[0; 2]%nat] /\
  get_positions (phibeta2 specified) = [[0; 8; 2]] /\
  get_positions (phibeta2 example_updated) = [[1; 8; 2]] /\
  ~ pairing_ok inside3 (copy1_subsystem_indices specified)
      (copy2_subsystem_indices specified) [[7; 1; 2]] [[2; 8; 0]]
      (get_positions (phibeta1 specified)) (get_positions (phibeta2 specified)).
Proof.
  intros p q specified.
  split; [exact example_initialized_reachable|].
  do 4 (split; [reflexivity|]). do 6 (split; [reflexivity|]).
  intros (_ & _ & _ & _ & _ & Hall).
  destruct (Hall 0%nat ltac:(simpl; lia)) as (_ & _ & [_ Ht1] & _).
  assert (Hin : 0%nat ∈ copy1_subsystem_indices specified !!! 0%nat).
  { change (0%nat ∈ [1; 0]%nat). right. left. }
  apply Ht1 in Hin as [_ Hin]. vm_compute in Hin. discriminate.
Qed.

Lemma example_finished_reachable :
  reachable inside3 example_finished [[7; 1; 2]] [[2; 8; 0]].
Proof.
  apply (reachable_finish inside3 example_initialized [[0; 1; 2]] [[2; 1; 0]]
           (Some (mkParticle 0 0)) (Some (mkParticle 1 0)) 7 8
           (amplitude_at [[7; 1; 2]]) (amplitude_at [[2; 8; 0]])
           example_updated example_finished).
  - exact example_initialized_reachable.
  - reflexivity.
  - reflexivity.
  - exact example_update.
  - reflexivity.
Qed.

Lemma reachable_verify_phibetas_witness :
  reachable inside3 example_finished [[7; 1; 2]] [[2; 8; 0]] /\
  verify_phibetas inside3 (amplitude_at [[7; 1; 2]]) (amplitude_at [[2; 8; 0]])
    example_finished = true.
Proof.
  split; [exact example_finished_reachable|].
  exact (reachable_verify_phibetas inside3 example_finished
           (amplitude_at [[7; 1; 2]]) (amplitude_at [[2; 8; 0]])
           example_finished_reachable).
Defined.

Lemma counts_match_iff_initialize_witness :
  let wf1 := amplitude_at [[0; 1; 2]] in
  let wf2 := amplitude_at [[2; 1; 7]] in
  same_fillings (get_positions wf1) (get_positions wf2) = true /\
  count_subsystem_particle_counts_for_match inside3 wf1 wf2 = Some false /\
  initialize inside3 wf1 wf2 mkSwappedSystem = None /\
  (count_subsystem_particle_counts_for_match inside3 wf1 wf2 = Some true <->
   is_Some (initialize inside3 wf1 wf2 mkSwappedSystem)).
Proof.
  intros wf1 wf2. split; [reflexivity|]. split; [reflexivity|]. split; [reflexivity|].
  exact (counts_match_iff_initialize inside3 wf1 wf2 eq_refl).
Defined.

Lemma update_never_aborts_witness :
  let p := Some (mkParticle 0 0) in
  let q := Some (mkParticle 1 0) in
  let phialpha1 := amplitude_at [[7; 1; 2]] in
  let phialpha2 := amplitude_at [[2; 8; 0]] in
  good inside3 example_initialized [[0; 1; 2]] [[2; 1; 0]] /\
  delta_of (now_in_subsystem inside3 p (get_positions phialpha1))
    (pairing_index_of p (copy1_subsystem_indices example_initialized)) = -1 /\
  delta_of (now_in_subsystem inside3 q (get_positions phialpha2))
    (pairing_index_of q (copy2_subsystem_indices example_initialized)) = -1 /\
  exists ss', update inside3 p q phialpha1 phialpha2 example_initialized = Some ss' /\
              is_Some (finish_update ss') /\ is_Some (cancel_update ss').
Proof.
  intros p q phialpha1 phialpha2.
  assert (Hgood : good inside3 example_initialized [[0; 1; 2]] [[2; 1; 0]])
    by exact (reachable_good inside3 _ _ _ example_initialized_reachable).
  split; [exact Hgood|]. split; [reflexivity|]. split; [reflexivity|].
  apply (update_never_aborts inside3 p q 7 8 [[0; 1; 2]] [[2; 1; 0]] phialpha1 phialpha2
           example_initialized Hgood eq_refl eq_refl eq_refl eq_refl eq_refl).
  - intros _. reflexivity.
  - intros E. vm_compute in E. discriminate E.
Defined.

End Swapped.

(** ** vmc-core/random-combination.cpp *)

Module Combination.

Definition BOOST_ASSERT (b : bool) : option unit := if b then Some tt else None.

Section RandomCombination.

(** [RandomNumberGenerator] (its header is not among the sources): the
    state of the generator, and [rng.random_small_uint (k)] as the number
    drawn together with the state left behind. *)
Variable rng_state : Type.
Variable random_small_uint : rng_state -> Z -> Z * rng_state.

(** The loop [for (unsigned int k = n - r + keep; k < n; ++k)], with
    [iterations] steps to go; [vs] holds the elements of [v], so
    [vs.find (x) != vs.end ()] is membership in [v]. *)
Fixpoint draw_loop (iterations : nat) (k : Z) (v : list Z) (rng : rng_state)
    : option (list Z * rng_state) :=
  match iterations with
  | O => Some (v, rng)
  | S iterations' =>
      BOOST_ASSERT (0 <? k) ;;
      let '(x, rng') := random_small_uint rng k in
      let a := if bool_decide (x ∈ v) then k else x in
      draw_loop iterations' (uint_wrap (k + 1)) (v ++ [a]) rng'
  end.

(** [random_combination (v, r, n, rng, keep)]: the new contents of [v] and
    the state of the generator; [None] is a failed assertion. *)
Definition random_combination (v : list Z) (r n : Z) (rng : rng_state) (keep : Z)
    : option (list Z * rng_state) :=
  BOOST_ASSERT (0 <? n) ;;
  BOOST_ASSERT (0 <? r) ;;
  BOOST_ASSERT (r <=? n) ;;
  BOOST_ASSERT (keep <=? n) ;;
  BOOST_ASSERT (keep <=? Z.of_nat (length v)) ;;
  if (n =? r) && (keep =? 0) then
    Some (Z.of_nat <$> seq 0 (Z.to_nat r), rng)
  else
    let v := take (Z.to_nat keep) v in
    BOOST_ASSERT (bool_decide (NoDup v)) ;;
    let k := uint_wrap (uint_wrap (n - r) + keep) in
    '(v, rng) ← draw_loop (Z.to_nat (n - k)) k v rng ;
    BOOST_ASSERT (Z.of_nat (length v) =? r) ;;
    Some (v, rng).

(** What the algorithm needs of the generator: a draw for [k] is at most
    [k]. *)
Definition draws_in_range : Prop :=
  forall rng k, 0 < k -> 0 <= (random_small_uint rng k).1 <= k.

Lemma draw_loop_spec (Hdraws : draws_in_range) (n : Z) (iterations : nat) :
  forall k v rng,
  0 < k -> k + Z.of_nat iterations = n -> n < 2 ^ 32 ->
  NoDup v -> Forall (fun a => 0 <= a < k) v ->
  exists v' rng',
    draw_loop iterations k v rng = Some (v', rng') /\
    length v' = (length v + iterations)%nat /\
    NoDup v' /\ Forall (fun a => 0 <= a < n) v' /\
    take (length v) v' = v.
Proof.
  induction iterations as [|iterations IH]; intros k v rng Hk Hn Hbound Hnd Hv.
  - exists v, rng. split; [reflexivity|]. split; [lia|]. split; [exact Hnd|].
    split; [|now rewrite firstn_all].
    eapply Forall_impl; [exact Hv|]. intros a Ha. cbv beta in Ha. lia.
  - cbn [draw_loop]. rewrite (proj2 (Z.ltb_lt 0 k) Hk).
    cbn [BOOST_ASSERT mbind option_bind].
    pose proof (Hdraws rng k Hk) as Hx.
    destruct (random_small_uint rng k) as [x rng']. cbn [fst] in Hx.
    set (a := if bool_decide (x ∈ v) then k else x).
    assert (Ha : 0 <= a <= k /\ a ∉ v).
    { unfold a. destruct (bool_decide_reflect (x ∈ v)) as [Hin|Hnot].
      - split; [lia|]. intros Hkv. rewrite Forall_forall in Hv. apply Hv in Hkv. lia.
      - split; [lia|exact Hnot]. }
    rewrite uint_wrap_small by lia.
    destruct (IH (k + 1) (v ++ [a]) rng') as (v' & rng'' & Hrun & Hlen & Hnd' & Hall & Hpre).
    + lia.
    + lia.
    + exact Hbound.
    + apply NoDup_app. split; [exact Hnd|]. split; [|apply NoDup_singleton].
      intros y Hy Hya. apply list_elem_of_singleton in Hya. subst y. now apply Ha.
    + apply Forall_app. split.
      * eapply Forall_impl; [exact Hv|]. intros y Hy. cbv beta in Hy. lia.
      * constructor; [lia|constructor].
    + exists v', rng''. split; [exact Hrun|].
      rewrite length_app in Hlen, Hpre. cbn [length] in Hlen, Hpre.
      split; [lia|]. split; [exact Hnd'|]. split; [exact Hall|].
      assert (Htake : take (length v) (take (length v + 1) v') = take (length v) (v ++ [a]))
        by now rewrite Hpre.
      rewrite take_take, Nat.min_l in Htake by lia. rewrite Htake.
      now rewrite take_app_length.
Qed.

(** X17: with a generator whose draw for [k] is at most [k], and with the
    first [keep] entries of [v] distinct and below [n - r + keep],
    [random_combination] fails none of its assertions and leaves in [v]
    exactly [r] distinct numbers below [n], the first [keep] of them being
    the entries that were to be kept. *)
Theorem random_combination_spec (v : list Z) (r n : Z) (rng : rng_state) (keep : Z) :
  draws_in_range ->
  0 < r <= n -> n < 2 ^ 32 -> 0 <= keep <= r -> keep <= Z.of_nat (length v) ->
  NoDup (take (Z.to_nat keep) v) ->
  Forall (fun a => 0 <= a < n - r + keep) (take (Z.to_nat keep) v) ->
  exists v' rng',
    random_combination v r n rng keep = Some (v', rng') /\
    Z.of_nat (length v') = r /\ NoDup v' /\ Forall (fun a => 0 <= a < n) v' /\
    take (Z.to_nat keep) v' = take (Z.to_nat keep) v.
Proof.
  intros Hdraws Hr Hn Hkeep Hlen Hnd Hkept. unfold random_combination.
  rewrite (proj2 (Z.ltb_lt 0 n)), (proj2 (Z.ltb_lt 0 r)), (proj2 (Z.leb_le r n)),
    (proj2 (Z.leb_le keep n)), (proj2 (Z.leb_le keep _) Hlen) by lia.
  cbn [BOOST_ASSERT mbind option_bind].
  destruct ((n =? r) && (keep =? 0)) eqn:Hspecial.
  - apply andb_true_iff in Hspecial as [Hnr Hk0].
    apply Z.eqb_eq in Hnr, Hk0. subst n keep.
    exists (Z.of_nat <$> seq 0 (Z.to_nat r)), rng. split; [reflexivity|].
    split; [rewrite length_fmap, length_seq; lia|].
    split; [apply NoDup_fmap; [apply Nat2Z.inj'|apply NoDup_seq]|].
    split; [|reflexivity].
    apply Forall_forall. intros a Ha. apply list_elem_of_fmap in Ha.
    destruct Ha as (i & -> & Hi). apply elem_of_seq in Hi. lia.
  - rewrite bool_decide_eq_true_2 by exact Hnd. cbn [BOOST_ASSERT mbind option_bind].
    assert (Hk0 : 0 < n - r + keep).
    { apply andb_false_iff in Hspecial as [H|H]; apply Z.eqb_neq in H; lia. }
    rewrite (uint_wrap_small (n - r)) by lia.
    rewrite uint_wrap_small by lia.
    set (kept := take (Z.to_nat keep) v) in *.
    assert (Hkl : length kept = Z.to_nat keep).
    { unfold kept. rewrite length_take. lia. }
    destruct (draw_loop_spec Hdraws n (Z.to_nat (n - (n - r + keep))) (n - r + keep) kept rng)
      as (v' & rng' & Hrun & Hlen' & Hnd' & Hall & Hpre); try assumption; try lia.
    rewrite Hrun. cbn [mbind option_bind].
    assert (Hsize : Z.of_nat (length v') = r) by lia.
    rewrite (proj2 (Z.eqb_eq _ _) Hsize). cbn [BOOST_ASSERT mbind option_bind].
    exists v', rng'. split; [reflexivity|]. split; [exact Hsize|].
    split; [exact Hnd'|]. split; [exact Hall|]. now rewrite <- Hkl.
Qed.

End RandomCombination.

(** A generator to run the code on: the state is a number, the draw for
    [k] is its remainder modulo [k + 1]. *)
Definition counter_generator (state k : Z) : Z * Z := (state mod (k + 1), 7 * state + 3).

Lemma counter_generator_in_range : draws_in_range Z counter_generator.
Proof.
  intros state k Hk. unfold counter_generator. cbn [fst].
  pose proof (Z.mod_pos_bound state (k + 1)). lia.
Qed.

Lemma random_combination_spec_witness :
  random_combination Z counter_generator [2; 9; 9] 4 6 5 1 = Some ([2; 1; 3; 5], 1886) /\
  exists v' rng',
    random_combination Z counter_generator [2; 9; 9] 4 6 5 1 = Some (v', rng') /\
    Z.of_nat (length v') = 4 /\ NoDup v' /\ Forall (fun a => 0 <= a < 6) v' /\
    take (Z.to_nat 1) v' = take (Z.to_nat 1) [2; 9; 9].
Proof.
  split; [reflexivity|].
  apply (random_combination_spec Z counter_generator [2; 9; 9] 4 6 5 1
           counter_generator_in_range); try (simpl; lia).
  - apply NoDup_singleton.
  - repeat constructor; lia.
Defined.

End Combination.

(** ** vmc-core/MetropolisSimulation.cpp *)

Module Metropolis.

(** A [probability_t], a floating-point number: not a number, an infinity,
    or a real. *)
Inductive probability_t : Type :=
| NaN
| Infinity (negative : bool)
| Real (q : Q).

(** [p >= q], [p > q] and [p == q] against a real [q]; every comparison
    with NaN is false. *)
Definition ge (p : probability_t) (q : Q) : bool :=
  match p with
  | NaN => false
  | Infinity negative => negb negative
  | Real x => Qle_bool q x
  end.

Definition gt (p : probability_t) (q : Q) : bool :=
  match p with
  | NaN => false
  | Infinity negative => negb negative
  | Real x => Qle_bool q x && negb (Qeq_bool q x)
  end.

Definition equals (p : probability_t) (q : Q) : bool :=
  match p with
  | Real x => Qeq_bool x q
  | _ => false
  end.

Section Simulation.

(** The [Walk] and the [RandomNumberGenerator] (their headers are not among
    the sources), by the member functions that the simulation calls, and
    the measurements by those of [BaseMeasurement]. *)
Variables Walk RandomNumberGenerator BaseMeasurement : Type.
Variable compute_probability_ratio_of_random_transition :
  Walk -> RandomNumberGenerator -> probability_t * Walk * RandomNumberGenerator.
Variables accept_transition reject_transition : Walk -> Walk.
Variable random_uniform01 : RandomNumberGenerator -> Q * RandomNumberGenerator.
Variables initialize step_advanced step_repeated : Walk -> BaseMeasurement -> BaseMeasurement.

Record MetropolisSimulation := {
  m_steps : Z;
  m_steps_accepted : Z;
  m_steps_fully_rejected : Z;
  walk : Walk;
  measurements : list BaseMeasurement;
  measurement_not_yet_updated : bool;
  rng : RandomNumberGenerator
}.

(** A call returns, or throws [invalid_probability_error] and leaves the
    simulation in some state. *)
Inductive outcome (A : Type) : Type :=
| Returns (a : A)
| Throws (invalid_probability : probability_t) (left_behind : MetropolisSimulation).
Arguments Returns {A} a.
Arguments Throws {A} invalid_probability left_behind.

Definition with_walk (w : Walk) (g : RandomNumberGenerator) (sim : MetropolisSimulation)
    : MetropolisSimulation :=
  {| m_steps := m_steps sim;
     m_steps_accepted := m_steps_accepted sim;
     m_steps_fully_rejected := m_steps_fully_rejected sim;
     walk := w;
     measurements := measurements sim;
     measurement_not_yet_updated := measurement_not_yet_updated sim;
     rng := g |}.

(** [++m_steps], [++m_steps_accepted] and [++m_steps_fully_rejected], on
    [unsigned int]s. *)
Definition count_step (sim : MetropolisSimulation) : MetropolisSimulation :=
  {| m_steps := uint_wrap (m_steps sim + 1);
     m_steps_accepted := m_steps_accepted sim;
     m_steps_fully_rejected := m_steps_fully_rejected sim;
     walk := walk sim;
     measurements := measurements sim;
     measurement_not_yet_updated := measurement_not_yet_updated sim;
     rng := rng sim |}.

Definition count_accepted (sim : MetropolisSimulation) : MetropolisSimulation :=
  {| m_steps := m_steps sim;
     m_steps_accepted := uint_wrap (m_steps_accepted sim + 1);
     m_steps_fully_rejected := m_steps_fully_rejected sim;
     walk := walk sim;
     measurements := measurements sim;
     measurement_not_yet_updated := measurement_not_yet_updated sim;
     rng := rng sim |}.

Definition count_fully_rejected (sim : MetropolisSimulation) : MetropolisSimulation :=
  {| m_steps := m_steps sim;
     m_steps_accepted := m_steps_accepted sim;
     m_steps_fully_rejected := uint_wrap (m_steps_fully_rejected sim + 1);
     walk := walk sim;
     measurements := measurements sim;
     measurement_not_yet_updated := measurement_not_yet_updated sim;
     rng := rng sim |}.

(** [perform_single_step] *)
Definition perform_single_step (sim : MetropolisSimulation)
    : outcome (bool * MetropolisSimulation) :=
  let '(probability_ratio, w, g) :=
    compute_probability_ratio_of_random_transition (walk sim) (rng sim) in
  if negb (ge probability_ratio 0) then
    Throws probability_ratio (with_walk (reject_transition w) g sim)
  else
    let sim := count_step (with_walk w g sim) in
    let '(accept, g) :=
      if ge probability_ratio 1 then (true, g)
      else if gt probability_ratio 0 then
        let '(u, g') := random_uniform01 g in (gt probability_ratio u, g')
      else (false, g) in
    if accept then
      Returns (true, count_accepted (with_walk (accept_transition w) g sim))
    else
      let sim := with_walk (reject_transition w) g sim in
      Returns (false, if equals probability_ratio 0 then count_fully_rejected sim else sim).

Definition measure (advanced : bool) (sim : MetropolisSimulation) : MetropolisSimulation :=
  {| m_steps := m_steps sim;
     m_steps_accepted := m_steps_accepted sim;
     m_steps_fully_rejected := m_steps_fully_rejected sim;
     walk := walk sim;
     measurements :=
       map ((if advanced then step_advanced else step_repeated) (walk sim))
         (measurements sim);
     measurement_not_yet_updated :=
       if advanced then false else measurement_not_yet_updated sim;
     rng := rng sim |}.

(** [iterate (sweeps)] *)
Fixpoint iterate_loop (sweeps : nat) (sim : MetropolisSimulation)
    : outcome MetropolisSimulation :=
  match sweeps with
  | O => Returns sim
  | S sweeps' =>
      match perform_single_step sim with
      | Throws p left_behind => Throws p left_behind
      | Returns (accepted, sim) =>
          iterate_loop sweeps' (measure (accepted || measurement_not_yet_updated sim) sim)
      end
  end.

Definition iterate (sweeps : Z) (sim : MetropolisSimulation) : outcome MetropolisSimulation :=
  iterate_loop (Z.to_nat sweeps) sim.

(** [perform_initialization (initialization_sweeps)] *)
Fixpoint initialization_loop (sweeps : nat) (sim : MetropolisSimulation)
    : outcome MetropolisSimulation :=
  match sweeps with
  | O => Returns sim
  | S sweeps' =>
      match perform_single_step sim with
      | Throws p left_behind => Throws p left_behind
      | Returns (_, sim) => initialization_loop sweeps' sim
      end
  end.

Definition perform_initialization (initialization_sweeps : Z) (sim : MetropolisSimulation)
    : outcome MetropolisSimulation :=
  match initialization_loop (Z.to_nat initialization_sweeps) sim with
  | Throws p left_behind => Throws p left_behind
  | Returns sim =>
      Returns
        {| m_steps := m_steps sim;
           m_steps_accepted := m_steps_accepted sim;
           m_steps_fully_rejected := m_steps_fully_rejected sim;
           walk := walk sim;
           measurements := map (initialize (walk sim)) (measurements sim);
           measurement_not_yet_updated := measurement_not_yet_updated sim;
           rng := rng sim |}
  end.

(** The constructor; the assertions on the generator and on
    [is_valid_walk] are about what the model leaves out. *)
Definition mkMetropolisSimulation (walk_ : Walk) (measurements_ : list BaseMeasurement)
    (initialization_sweeps : Z) (rng_ : RandomNumberGenerator)
    : outcome MetropolisSimulation :=
  perform_initialization initialization_sweeps
    {| m_steps := 0; m_steps_accepted := 0; m_steps_fully_rejected := 0;
       walk := walk_; measurements := measurements_;
       measurement_not_yet_updated := true; rng := rng_ |}.

(** *** The counters *)

(** The steps counted as accepted and as fully rejected are among the
    steps counted. *)
Definition counters_ok (sim : MetropolisSimulation) : Prop :=
  0 <= m_steps_accepted sim /\ 0 <= m_steps_fully_rejected sim /\
  m_steps_accepted sim + m_steps_fully_rejected sim <= m_steps sim < 2 ^ 32.

(** One step, by its outcome. *)
Definition stepped (sim : MetropolisSimulation)
    (result : outcome (bool * MetropolisSimulation)) : Prop :=
  match result with
  | Returns (accepted, sim') =>
      m_steps sim' = m_steps sim + 1 /\ counters_ok sim' /\
      m_steps_accepted sim' = m_steps_accepted sim + (if accepted then 1 else 0) /\
      m_steps_fully_rejected sim <= m_steps_fully_rejected sim' <=
        m_steps_fully_rejected sim + (if accepted then 0 else 1) /\
      measurements sim' = measurements sim /\
      measurement_not_yet_updated sim' = measurement_not_yet_updated sim /\
      exists w, walk sim' = (if accepted then accept_transition else reject_transition) w
  | Throws p sim' =>
      ge p 0 = false /\
      m_steps sim' = m_steps sim /\ m_steps_accepted sim' = m_steps_accepted sim /\
      m_steps_fully_rejected sim' = m_steps_fully_rejected sim /\
      measurements sim' = measurements sim /\
      exists w, walk sim' = reject_transition w
  end.

Lemma perform_single_step_stepped sim :
  counters_ok sim -> m_steps sim + 1 < 2 ^ 32 -> stepped sim (perform_single_step sim).
Proof.
  intros (Ha & Hf & Hsum & Hs) Hroom. unfold perform_single_step.
  destruct (compute_probability_ratio_of_random_transition (walk sim) (rng sim))
    as [[p w] g].
  destruct (ge p 0) eqn:Hp; cbn [negb].
  - set (choice := if ge p 1 then (true, g)
                   else if gt p 0
                        then let '(u, g') := random_uniform01 g in (gt p u, g')
                        else (false, g)).
    destruct choice as [[|] g'].
    + cbn. rewrite !uint_wrap_small by lia. unfold counters_ok. cbn.
      rewrite !uint_wrap_small by lia.
      repeat split; try lia. now exists w.
    + destruct (equals p 0); cbn; rewrite ?uint_wrap_small by lia; unfold counters_ok; cbn;
        rewrite ?uint_wrap_small by lia; (repeat split; try lia); now exists w.
  - cbn. split; [exact Hp|]. do 4 (split; [reflexivity|]). now exists w.
Qed.

(** A loop of steps, by its outcome: [n] steps were asked for. *)
Definition looped (sim : MetropolisSimulation) (n : Z)
    (result : outcome MetropolisSimulation) : Prop :=
  match result with
  | Returns sim' =>
      m_steps sim' = m_steps sim + n /\ counters_ok sim' /\
      m_steps_accepted sim <= m_steps_accepted sim' /\
      m_steps_fully_rejected sim <= m_steps_fully_rejected sim' /\
      (m_steps_accepted sim' - m_steps_accepted sim) +
      (m_steps_fully_rejected sim' - m_steps_fully_rejected sim) <= n
  | Throws p sim' =>
      ge p 0 = false /\ m_steps sim <= m_steps sim' < m_steps sim + n /\
      counters_ok sim' /\ exists w, walk sim' = reject_transition w
  end.

Lemma looped_after_step sim sim1 accepted n result :
  counters_ok sim -> stepped sim (Returns (accepted, sim1)) ->
  (m_steps sim1 = m_steps sim + 1 -> m_steps_accepted sim1 = m_steps_accepted sim1 ->
   looped sim1 n result) ->
  0 <= n -> looped sim (n + 1) result.
Proof.
  intros Hok (Hs & Hok1 & Ha & Hf & _) Hrest Hn.
  specialize (Hrest Hs eq_refl). destruct Hok1 as (Ha1 & Hf1 & Hsum1 & Hb1).
  destruct result as [sim'|p sim']; cbn [looped] in *.
  - destruct Hrest as (E & Hok' & Ha' & Hf' & Hd).
    split; [lia|]. split; [exact Hok'|]. destruct accepted; repeat split; lia.
  - destruct Hrest as (Hp & Hsteps & Hok' & Hw).
    split; [exact Hp|]. split; [lia|]. split; assumption.
Qed.

Lemma iterate_loop_looped (n : nat) : forall sim,
  counters_ok sim -> m_steps sim + Z.of_nat n < 2 ^ 32 ->
  looped sim (Z.of_nat n) (iterate_loop n sim).
Proof.
  induction n as [|n IH]; intros sim Hok Hroom.
  - cbn. destruct Hok as (Ha & Hf & Hsum & Hs). repeat split; lia.
  - cbn [iterate_loop]. pose proof (perform_single_step_stepped sim Hok ltac:(lia)) as Hstep.
    destruct (perform_single_step sim) as [[accepted sim1]|p sim'].
    + replace (Z.of_nat (S n)) with (Z.of_nat n + 1) by lia.
      apply (looped_after_step sim sim1 accepted); [exact Hok|exact Hstep| |lia].
      intros Hs _. destruct Hstep as (_ & Hok1 & _).
      apply (IH (measure (accepted || measurement_not_yet_updated sim1) sim1)).
      * exact Hok1.
      * cbn [measure m_steps]. lia.
    + destruct Hstep as (Hp & Es & Ea & Ef & _ & Hw). cbn [looped].
      split; [exact Hp|]. split; [lia|]. split; [|exact Hw].
      unfold counters_ok. rewrite Es, Ea, Ef. exact Hok.
Qed.

Lemma initialization_loop_looped (n : nat) : forall sim,
  counters_ok sim -> m_steps sim + Z.of_nat n < 2 ^ 32 ->
  looped sim (Z.of_nat n) (initialization_loop n sim) /\
  match initialization_loop n sim with
  | Returns sim' =>
      measurements sim' = measurements sim /\
      measurement_not_yet_updated sim' = measurement_not_yet_updated sim
  | Throws _ _ => True
  end.
Proof.
  induction n as [|n IH]; intros sim Hok Hroom.
  - cbn. destruct Hok as (Ha & Hf & Hsum & Hs). repeat split; lia.
  - cbn [initialization_loop].
    pose proof (perform_single_step_stepped sim Hok ltac:(lia)) as Hstep.
    destruct (perform_single_step sim) as [[accepted sim1]|p sim'].
    + pose proof Hstep as (Hs & Hok1 & _ & _ & Hm & Hn & _).
      destruct (IH sim1 Hok1 ltac:(lia)) as [Hloop Hkeep]. split.
      * replace (Z.of_nat (S n)) with (Z.of_nat n + 1) by lia.
        apply (looped_after_step sim sim1 accepted); [exact Hok|exact Hstep| |lia].
        intros _ _. exact Hloop.
      * destruct (initialization_loop n sim1); [|exact I].
        destruct Hkeep as [-> ->]. now split.
    + split; [|exact I]. destruct Hstep as (Hp & Es & Ea & Ef & _ & Hw). cbn [looped].
      split; [exact Hp|]. split; [lia|]. split; [|exact Hw].
      unfold counters_ok. rewrite Es, Ea, Ef. exact Hok.
Qed.

(** X20: [iterate (sweeps)] and the counters.  When it returns,
    [m_steps] has grown by [sweeps], and the steps newly counted as
    accepted and as fully rejected are at most [sweeps] together.  When a
    step throws [invalid_probability_error], the probability ratio was not
    [>= 0] (NaN among them), fewer than [sweeps] steps were counted, and
    the walk has seen [reject_transition] last.  Either way the accepted
    and the fully rejected steps stay among the steps counted. *)
Theorem iterate_counts (sweeps : Z) (sim : MetropolisSimulation) :
  counters_ok sim -> 0 <= sweeps -> m_steps sim + sweeps < 2 ^ 32 ->
  match iterate sweeps sim with
  | Returns sim' =>
      m_steps sim' = m_steps sim + sweeps /\ counters_ok sim' /\
      m_steps_accepted sim <= m_steps_accepted sim' /\
      m_steps_fully_rejected sim <= m_steps_fully_rejected sim' /\
      (m_steps_accepted sim' - m_steps_accepted sim) +
      (m_steps_fully_rejected sim' - m_steps_fully_rejected sim) <= sweeps
  | Throws p sim' =>
      ge p 0 = false /\ m_steps sim <= m_steps sim' < m_steps sim + sweeps /\
      counters_ok sim' /\ exists w, walk sim' = reject_transition w
  end.
Proof.
  intros Hok Hsweeps Hroom. unfold iterate.
  pose proof (iterate_loop_looped (Z.to_nat sweeps) sim Hok ltac:(lia)) as H.
  rewrite Z2Nat.id in H by exact Hsweeps. exact H.
Qed.

(** X21: the initialization sweeps of the constructor are counted but not
    measured.  A simulation constructed with [initialization_sweeps] has
    counted that many steps, its measurements have only been initialized,
    and the first sweep of [iterate] calls [step_advanced] on every
    measurement, whether its step was accepted or not. *)
Theorem first_sweep_is_measured (walk_ : Walk) (measurements_ : list BaseMeasurement)
    (initialization_sweeps : Z) (rng_ : RandomNumberGenerator)
    (sim sim' : MetropolisSimulation) :
  0 <= initialization_sweeps < 2 ^ 32 - 1 ->
  mkMetropolisSimulation walk_ measurements_ initialization_sweeps rng_ = Returns sim ->
  iterate 1 sim = Returns sim' ->
  m_steps sim = initialization_sweeps /\
  measurements sim = map (initialize (walk sim)) measurements_ /\
  measurements sim' = map (step_advanced (walk sim')) (measurements sim) /\
  measurement_not_yet_updated sim' = false.
Proof.
  intros Hk Hmk Hit. unfold mkMetropolisSimulation, perform_initialization in Hmk.
  set (sim0 := {| m_steps := 0; m_steps_accepted := 0; m_steps_fully_rejected := 0;
                  walk := walk_; measurements := measurements_;
                  measurement_not_yet_updated := true; rng := rng_ |}) in *.
  assert (Hok0 : counters_ok sim0) by (unfold counters_ok; cbn; lia).
  destruct (initialization_loop_looped (Z.to_nat initialization_sweeps) sim0 Hok0)
    as [Hloop Hkeep]; [cbn; lia|].
  destruct (initialization_loop (Z.to_nat initialization_sweeps) sim0) as [sim1|p sim1];
    [|discriminate].
  injection Hmk as <-. pose proof Hloop as (Hs & _). destruct Hkeep as [Hm Hn].
  cbn [m_steps measurements walk]. rewrite Hm. cbn in Hs.
  split; [lia|]. split; [reflexivity|].
  unfold iterate in Hit. change (Z.to_nat 1) with 1%nat in Hit. cbn [iterate_loop] in Hit.
  set (sim2 := {| m_steps := m_steps sim1 |}) in *.
  assert (Hok2 : counters_ok sim2) by (destruct Hloop as (_ & H & _); exact H).
  pose proof (perform_single_step_stepped sim2 Hok2 ltac:(cbn; lia)) as Hstep.
  destruct (perform_single_step sim2) as [[accepted sim3]|p sim3]; [|discriminate].
  injection Hit as <-. destruct Hstep as (_ & _ & _ & _ & Hm3 & Hn3 & _).
  cbn [measure measurements measurement_not_yet_updated walk].
  rewrite Hn3. cbn [sim2 measurement_not_yet_updated]. rewrite Hn.
  cbn [sim0 measurement_not_yet_updated]. rewrite orb_true_r, Hm3.
  cbn [sim2 measurements]. rewrite Hm. now split.
Qed.

End Simulation.

Arguments Returns {Walk RandomNumberGenerator BaseMeasurement A} a.
Arguments Throws {Walk RandomNumberGenerator BaseMeasurement A}
  invalid_probability left_behind.
Arguments m_steps {Walk RandomNumberGenerator BaseMeasurement} _.
Arguments m_steps_accepted {Walk RandomNumberGenerator BaseMeasurement} _.
Arguments m_steps_fully_rejected {Walk RandomNumberGenerator BaseMeasurement} _.
Arguments walk {Walk RandomNumberGenerator BaseMeasurement} _.
Arguments measurements {Walk RandomNumberGenerator BaseMeasurement} _.
Arguments measurement_not_yet_updated {Walk RandomNumberGenerator BaseMeasurement} _.
Arguments rng {Walk RandomNumberGenerator BaseMeasurement} _.

(** *** A walk to run the code on *)

(** The walk is a position, the generator a counter.  The proposed
    transition moves one site up; its probability ratio goes through 0,
    1/2, 2 and NaN as the counter grows. *)
Definition toy_ratio (w g : Z) : probability_t * Z * Z :=
  (match g mod 4 with
   | 0 => Real 0
   | 1 => Real (1 # 2)
   | 2 => Real 2
   | _ => NaN
   end, w + 1, g + 1).

Definition toy_accept (w : Z) : Z := w.
Definition toy_reject (w : Z) : Z := w - 1.
Definition toy_uniform (g : Z) : Q * Z := (1 # 4, g + 10).

(** The measurement counts the advanced steps, and the repeated steps by
    hundreds. *)
Definition toy_initialize (w m : Z) : Z := 0.
Definition toy_advanced (w m : Z) : Z := m + 1.
Definition toy_repeated (w m : Z) : Z := m + 100.

Definition toy_simulation (g : Z) : MetropolisSimulation Z Z Z :=
  {| m_steps := 0; m_steps_accepted := 0; m_steps_fully_rejected := 0;
     walk := 0; measurements := [0];
     measurement_not_yet_updated := true; rng := g |}.

Lemma toy_counters_ok g : counters_ok Z Z Z (toy_simulation g).
Proof. unfold counters_ok. cbn. lia. Qed.

Lemma iterate_counts_witness :
  iterate Z Z Z toy_ratio toy_accept toy_reject toy_uniform toy_advanced toy_repeated
    3 (toy_simulation 0) =
  Returns
    {| m_steps := 3; m_steps_accepted := 1; m_steps_fully_rejected := 2;
       walk := 1; measurements := [102];
       measurement_not_yet_updated := false; rng := 13 |} /\
  looped Z Z Z toy_reject (toy_simulation 0) 3
    (iterate Z Z Z toy_ratio toy_accept toy_reject toy_uniform toy_advanced toy_repeated
       3 (toy_simulation 0)).
Proof.
  split; [reflexivity|].
  apply (iterate_counts Z Z Z toy_ratio toy_accept toy_reject toy_uniform
           toy_advanced toy_repeated 3 (toy_simulation 0) (toy_counters_ok 0)).
  - lia.
  - cbn. lia.
Defined.

Lemma first_sweep_is_measured_witness :
  let sim :=
    {| m_steps := 2; m_steps_accepted := 1; m_steps_fully_rejected := 1;
       walk := 1; measurements := [0];
       measurement_not_yet_updated := true; rng := 12 |} in
  let sim' :=
    {| m_steps := 3; m_steps_accepted := 1; m_steps_fully_rejected := 2;
       walk := 1; measurements := [1];
       measurement_not_yet_updated := false; rng := 13 |} in
  mkMetropolisSimulation Z Z Z toy_ratio toy_accept toy_reject toy_uniform toy_initialize
    0 [7] 2 0 = Returns sim /\
  iterate Z Z Z toy_ratio toy_accept toy_reject toy_uniform toy_advanced toy_repeated
    1 sim = Returns sim' /\
  m_steps sim = 2 /\
  measurements sim = map (toy_initialize (walk sim)) [7] /\
  measurements sim' = map (toy_advanced (walk sim')) (measurements sim) /\
  measurement_not_yet_updated sim' = false.
Proof.
  intros sim sim'. split; [reflexivity|]. split; [reflexivity|].
  apply (first_sweep_is_measured Z Z Z toy_ratio toy_accept toy_reject toy_uniform
           toy_initialize toy_advanced toy_repeated 0 [7] 2 0 sim sim');
    [lia|reflexivity|reflexivity].
Defined.

End Metropolis.
